(** * ReSTIR GDI: reservoirs, streaming resampling and pairwise MIS

    A shallow embedding of the resampling core of the ReSTIRGDI module
    (Reservoir.slang, Resampling.slang, EvalContext.slang, the initial,
    temporal and spatial resampling passes and the final sample
    evaluation), together with the properties its specification states.

    Numbers are modelled as the shaders have them: [float] is IEEE-754
    binary32 (the Standard Library's executable [spec_float] at precision
    24, maximal exponent 128, round to nearest even), [uint] is a [Z] in
    [0, 2^32) with the wrap-around written out. *)

From Stdlib Require Import ZArith Bool List Lia.
From Stdlib Require Import QArith Qpower Lqa.
From Stdlib Require Import Floats.SpecFloat.
Import ListNotations.
Local Open Scope Z_scope.

(* ===================================================================== *)
(** * 32-bit unsigned integers *)
(* ===================================================================== *)

Module U32.

Definition modulus : Z := 2 ^ 32.
Definition max_uint : Z := modulus - 1.

(** The value a [uint] expression wraps to. *)
Definition wrap (z : Z) : Z := z mod modulus.

Definition add (a b : Z) : Z := wrap (a + b).
Definition sub (a b : Z) : Z := wrap (a - b).
Definition mul (a b : Z) : Z := wrap (a * b).
Definition div (a b : Z) : Z := if b =? 0 then max_uint else a / b.
Definition rem (a b : Z) : Z := if b =? 0 then max_uint else a mod b.
Definition min (a b : Z) : Z := Z.min a b.
(** [a << b]: the shift amount is taken modulo 32. *)
Definition shl (a b : Z) : Z := wrap (Z.shiftl a (b mod 32)).
Definition lor (a b : Z) : Z := Z.lor a b.
Definition land (a b : Z) : Z := Z.land a b.

Definition in_range (z : Z) : Prop := 0 <= z < modulus.

(** The [int] with the same bits. *)
Definition to_signed (z : Z) : Z := if z <? 2 ^ 31 then z else z - modulus.

End U32.

(* ===================================================================== *)
(** * binary32 floating point *)
(* ===================================================================== *)

Module F32.

Definition prec : Z := 24.
Definition emax : Z := 128.

Definition float : Type := spec_float.

Definition zero : float := S754_zero false.
Definition one : float := S754_finite false 8388608 (-23).
Definition infinity : float := S754_infinity false.
Definition nan : float := S754_nan.

Definition add : float -> float -> float := SFadd prec emax.
Definition sub : float -> float -> float := SFsub prec emax.
Definition mul : float -> float -> float := SFmul prec emax.
Definition div : float -> float -> float := SFdiv prec emax.

Definition eqb : float -> float -> bool := SFeqb.
Definition ltb : float -> float -> bool := SFltb.
Definition leb : float -> float -> bool := SFleb.
(** [a > b] and [a >= b]. *)
Definition gtb (a b : float) : bool := SFltb b a.
Definition geb (a b : float) : bool := SFleb b a.

Definition isnan (x : float) : bool :=
  match x with S754_nan => true | _ => false end.
Definition isinf (x : float) : bool :=
  match x with S754_infinity _ => true | _ => false end.

(** The format's members: mantissa and exponent in canonical form. *)
Definition valid (x : float) : bool := valid_binary prec emax x.

(** [min], [max] and [clamp] of the shading language: a NaN operand
    yields the other operand. *)
Definition min (x y : float) : float :=
  if isnan x then y else if isnan y then x else if ltb y x then y else x.
Definition max (x y : float) : float :=
  if isnan x then y else if isnan y then x else if ltb x y then y else x.
Definition clamp (x lo hi : float) : float := min (max x lo) hi.

(** [float(n)] of an unsigned integer: round to nearest even. *)
Definition of_uint (n : Z) : float := binary_normalize prec emax n 0 false.

(** [uint(x)]: truncation toward zero, saturating; NaN converts to 0. *)
Definition to_uint (x : float) : Z :=
  match x with
  | S754_zero _ => 0
  | S754_nan => 0
  | S754_infinity s => if s then 0 else U32.max_uint
  | S754_finite true _ _ => 0
  | S754_finite false m e =>
      Z.min U32.max_uint
        (if 0 <=? e then Z.shiftl (Zpos m) e else Z.shiftr (Zpos m) (- e))
  end.

(** [int(x)]: truncation toward zero, saturating; NaN converts to 0. *)
Definition to_int (x : float) : Z :=
  match x with
  | S754_zero _ => 0
  | S754_nan => 0
  | S754_infinity s => if s then - 2 ^ 31 else 2 ^ 31 - 1
  | S754_finite s m e =>
      let a :=
        if 0 <=? e then Z.shiftl (Zpos m) e else Z.shiftr (Zpos m) (- e) in
      if s then Z.max (- 2 ^ 31) (- a) else Z.min (2 ^ 31 - 1) a
  end.

(** [x] lies in the closed interval [[0, 1]]; false for NaN. *)
Definition in_unit_interval (x : float) : bool := leb zero x && leb x one.

End F32.

Abbreviation float := F32.float.

Declare Scope f32_scope.
Delimit Scope f32_scope with f32.
Infix "+" := F32.add : f32_scope.
Infix "-" := F32.sub : f32_scope.
Infix "*" := F32.mul : f32_scope.
Infix "/" := F32.div : f32_scope.
Infix "<?" := F32.ltb : f32_scope.
Infix ">?" := F32.gtb : f32_scope.
Infix "=?" := F32.eqb : f32_scope.

(** A few binary32 constants used by the examples below. *)
Definition f32_half : float := S754_finite false 8388608 (-24).
Definition f32_two : float := S754_finite false 8388608 (-22).

Definition float2 : Type := (float * float)%type.
Definition float3 : Type := (float * float * float)%type.
Definition uint2 : Type := (Z * Z)%type.
Definition int2 : Type := (Z * Z)%type.

Definition float3_zero : float3 := (F32.zero, F32.zero, F32.zero).

(* ===================================================================== *)
(** * Light samples, reservoirs and the RIS state *)
(* ===================================================================== *)

Module LightSample.

(** Modelled from the spec: LightSample.slang is not among the sources.
    The spec gives a light sample as a tagged union
    [{kind in {Invalid, Environment, Emissive, Analytic}, index,
    position/barycentric payload}], valid when its kind is not
    [Invalid]. *)
Inductive Kind : Type := Invalid | Environment | Emissive | Analytic.

Record t : Type := mk { kind : Kind; index : Z; payload : list float }.

Definition createInvalid : t :=
  {| kind := Invalid; index := 0; payload := [] |}.

Definition createEmissive (triangleIndex : Z) (barycentrics : float2) : t :=
  {| kind := Emissive; index := triangleIndex;
     payload := [fst barycentrics; snd barycentrics] |}.

Definition createEnv (dir : float3) : t :=
  {| kind := Environment; index := 0;
     payload := [fst (fst dir); snd (fst dir); snd dir] |}.

Definition getKind (s : t) : Kind := kind s.

Definition isValid (s : t) : bool :=
  match kind s with Invalid => false | _ => true end.

End LightSample.

Module Reservoir.

(** Reservoir.slang: [struct Reservoir]. *)
Record t : Type := mk {
  lightSample : LightSample.t;   (* selected light sample *)
  M : Z;                         (* uint: number of samples seen so far *)
  weight : float;                (* probabilistic weight *)
  pathSample : Z;                (* uint *)
  targetPdf : float
}.

(** [{ LightSample::createInvalid(), 0.f, 0.f, pathSample, 0.f }] *)
Definition createEmpty (pathSample : Z) : t :=
  {| lightSample := LightSample.createInvalid;
     M := F32.to_uint F32.zero;
     weight := F32.zero;
     pathSample := pathSample;
     targetPdf := F32.zero |}.

Definition isLightSampleValid (r : t) : bool :=
  LightSample.isValid (lightSample r).

Definition isReservoirValid (r : t) : bool := isLightSampleValid r.

Definition with_M (m : Z) (r : t) : t :=
  mk (lightSample r) m (weight r) (pathSample r) (targetPdf r).
Definition with_weight (w : float) (r : t) : t :=
  mk (lightSample r) (M r) w (pathSample r) (targetPdf r).
Definition with_targetPdf (p : float) (r : t) : t :=
  mk (lightSample r) (M r) (weight r) (pathSample r) p.

End Reservoir.

Module RisState.

(** Resampling.slang: [struct RisState]. *)
Record t : Type := mk {
  lightSample : LightSample.t;   (* selected light sample *)
  pathSample : Z;                (* uint *)
  weightSum : float;             (* sum of weights seen so far *)
  M : float;                     (* number of samples seen so far *)
  weight : float;                (* UCW weight *)
  targetPdf : float;
  canonicalWeight : float        (* canonical sample weight factor *)
}.

Definition with_lightSample (v : LightSample.t) (s : t) : t :=
  mk v (pathSample s) (weightSum s) (M s) (weight s) (targetPdf s)
     (canonicalWeight s).
Definition with_pathSample (v : Z) (s : t) : t :=
  mk (lightSample s) v (weightSum s) (M s) (weight s) (targetPdf s)
     (canonicalWeight s).
Definition with_weightSum (v : float) (s : t) : t :=
  mk (lightSample s) (pathSample s) v (M s) (weight s) (targetPdf s)
     (canonicalWeight s).
Definition with_M (v : float) (s : t) : t :=
  mk (lightSample s) (pathSample s) (weightSum s) v (weight s) (targetPdf s)
     (canonicalWeight s).
Definition with_weight (v : float) (s : t) : t :=
  mk (lightSample s) (pathSample s) (weightSum s) (M s) v (targetPdf s)
     (canonicalWeight s).
Definition with_targetPdf (v : float) (s : t) : t :=
  mk (lightSample s) (pathSample s) (weightSum s) (M s) (weight s) v
     (canonicalWeight s).
Definition with_canonicalWeight (v : float) (s : t) : t :=
  mk (lightSample s) (pathSample s) (weightSum s) (M s) (weight s)
     (targetPdf s) v.

(** [RisState state = {}; state.lightSample = createInvalid();
    state.pathSample = pathSample;] *)
Definition createEmpty (pathSample : Z) : t :=
  {| lightSample := LightSample.createInvalid;
     pathSample := pathSample;
     weightSum := F32.zero;
     M := F32.zero;
     weight := F32.zero;
     targetPdf := F32.zero;
     canonicalWeight := F32.zero |}.

(** The overload taking a reservoir keeps only its [pathSample]. *)
Definition createEmptyFrom (reservoir : Reservoir.t) : t :=
  createEmpty (Reservoir.pathSample reservoir).

(** Create a reservoir from the current RIS state; an empty reservoir is
    returned if the weight is infinite or NaN. *)
Definition toReservoir (s : t) : Reservoir.t :=
  let reservoir :=
    {| Reservoir.lightSample := lightSample s;
       Reservoir.M := F32.to_uint (M s);
       Reservoir.weight := weight s;
       Reservoir.pathSample := pathSample s;
       Reservoir.targetPdf := targetPdf s |} in
  if F32.isinf (Reservoir.weight reservoir)
     || F32.isnan (Reservoir.weight reservoir)
  then Reservoir.createEmpty (pathSample s)
  else reservoir.

(** The finalization every resampling pass performs before saving:
    [risState.weight = risState.targetPdf > 0.f
       ? risState.weightSum / risState.targetPdf : 0.f;] *)
Definition finalizeWeight (s : t) : t :=
  with_weight
    (if (targetPdf s >? F32.zero)%f32
     then (weightSum s / targetPdf s)%f32
     else F32.zero) s.

End RisState.

(* ===================================================================== *)
(** * Sample generators *)
(* ===================================================================== *)

(** [ISampleGenerator]: a generator state yields the next uniform number
    and its successor state.  The two constructors are those of
    [TinyUniformSampleGenerator] (seeded by a pixel or by a linear index,
    and a sample number). *)
Class ISampleGenerator (S : Type) : Type := {
  sampleNext1D : S -> float * S;
  sgFromPixel : uint2 -> Z -> S;
  sgFromSeed : Z -> Z -> S
}.

(** Computations that draw from an [inout] sample generator. *)
Definition Gen (S A : Type) : Type := S -> A * S.

Definition ret {S A : Type} (a : A) : Gen S A := fun s => (a, s).

Definition bind {S A B : Type} (c : Gen S A) (k : A -> Gen S B) : Gen S B :=
  fun s => let (a, s') := c s in k a s'.

Declare Scope gen_scope.
Delimit Scope gen_scope with gen.
Notation "x <- c ;; k" := (bind c (fun x => k))
  (at level 61, c at next level, right associativity) : gen_scope.
Notation "' pat <- c ;; k" := (bind c (fun x => match x with pat => k end))
  (at level 61, pat pattern, c at next level, right associativity) : gen_scope.

(** [sampleNext2D] and [sampleNext3D] of the sample generator interface
    draw their components in order. *)
Definition sampleNext2D {S : Type} `{ISampleGenerator S} : Gen S float2 :=
  (x <- sampleNext1D ;; y <- sampleNext1D ;; ret (x, y))%gen.

Definition sampleNext3D {S : Type} `{ISampleGenerator S} : Gen S float3 :=
  (x <- sampleNext1D ;; y <- sampleNext1D ;; z <- sampleNext1D ;;
   ret (x, y, z))%gen.

(** Intrinsics of the shading language that the model takes as given. *)
Class Intrinsics : Type := {
  pow : float -> float -> float;
  frac : float -> float
}.

(* ===================================================================== *)
(** * Geometry, surfaces and the evaluation context *)
(* ===================================================================== *)

Definition dot3 (a b : float3) : float :=
  let '(ax, ay, az) := a in
  let '(bx, by_, bz) := b in
  (ax * bx + ay * by_ + az * bz)%f32.

Definition neg3 (a : float3) : float3 :=
  let '(ax, ay, az) := a in
  (SFopp ax, SFopp ay, SFopp az).

(** [any(v != 0.0f)] *)
Definition any_nonzero3 (a : float3) : bool :=
  let '(ax, ay, az) := a in
  negb (ax =? F32.zero)%f32 || negb (ay =? F32.zero)%f32
  || negb (az =? F32.zero)%f32.

Definition saturate (x : float) : float := F32.clamp x F32.zero F32.one.

Module HitInfo.

(** Modelled from the spec: Scene.HitInfo is part of the host renderer.
    The passes only ask a hit record for its type and, for a triangle
    hit, for instance, primitive and barycentrics; [{}] is the record
    without a hit. *)
Inductive HitType : Type := None | Triangle | Other.

Record t : Type := mk {
  type : HitType;
  instanceID : Z;
  primitiveIndex : Z;
  barycentrics : float2
}.

Definition none : t := mk None 0 0 (F32.zero, F32.zero).

Definition getType (h : t) : HitType := type h.

End HitInfo.

(** Modelled from the spec: the material kinds the evaluation context
    dispatches on (Standard, Hair); every other kind is [OtherMaterial]. *)
Inductive MaterialType : Type := Standard | Hair | OtherMaterial.

Module Ray.

Record t : Type := mk {
  origin : float3; dir : float3; tMin : float; tMax : float
}.

End Ray.

Module EvaluatedLightSample.

(** Modelled from the spec: an evaluated light sample carries direction,
    distance, geometry factor, PDF and emission (Lights.slang is not
    among the sources). *)
Record t : Type := mk {
  dir : float3;
  distance : float;
  geomFactor : float;
  pdf : float;
  emission : float
}.

End EvaluatedLightSample.

Module SurfaceData.

(** The per-pixel surface data, with the fields [setSurfaceData] stores
    (SurfaceData.slang is not among the sources). *)
Record t : Type := mk {
  pos : float3;
  depth : float;
  normal : float3;
  faceNormal : float3;
  diffuseWeight : float;
  specularWeight : float;
  diffuseAlbedo : float3;
  specularAlbedo : float3;
  specularRoughness : float;
  emission : float3;
  materialType : MaterialType;
  lobeTypes : Z;
  hit : HitInfo.t
}.

End SurfaceData.

Module EvalContext.

(** EvalContext.slang: [struct EvalContext]. *)
Record t : Type := mk {
  pos : float3;
  depth : float;
  N : float3;
  V : float3;
  NdotV : float;
  diffuseWeight : float;
  specularWeight : float;
  diffuseSpecularMix : float;
  diffuseAlbedo : float3;
  specularAlbedo : float3;
  ggxAlpha : float;
  emission : float3;
  materialType : MaterialType;
  lobeTypes : Z;
  hit : HitInfo.t;
  surfaceValid : bool
}.

Definition isSurfaceValid (c : t) : bool := surfaceValid c.

Definition with_hit (h : HitInfo.t) (c : t) : t :=
  mk (pos c) (depth c) (N c) (V c) (NdotV c) (diffuseWeight c)
     (specularWeight c) (diffuseSpecularMix c) (diffuseAlbedo c)
     (specularAlbedo c) (ggxAlpha c) (emission c) (materialType c)
     (lobeTypes c) h (surfaceValid c).

(** [1e-7f] and [0.0064f] *)
Definition kMixThreshold : float := S754_finite false 14073749 (-47).
Definition kMinGgxAlpha : float := S754_finite false 13743895 (-31).

(** [EvalContext::create]; [isValid] is [surfaceData.isSurfaceValid()]. *)
Definition create (pixel frameDim : uint2) (isValid : bool)
    (surfaceData : SurfaceData.t) (viewDir : float3) : t :=
  if isValid then
    let weightSum :=
      (SurfaceData.diffuseWeight surfaceData
       + SurfaceData.specularWeight surfaceData)%f32 in
    let roughness := SurfaceData.specularRoughness surfaceData in
    {| pos := SurfaceData.pos surfaceData;
       depth := SurfaceData.depth surfaceData;
       N := SurfaceData.normal surfaceData;
       V := viewDir;
       NdotV := saturate (dot3 (SurfaceData.normal surfaceData) viewDir);
       diffuseWeight := SurfaceData.diffuseWeight surfaceData;
       specularWeight := SurfaceData.specularWeight surfaceData;
       diffuseSpecularMix :=
         if (weightSum >? kMixThreshold)%f32
         then (SurfaceData.diffuseWeight surfaceData / weightSum)%f32
         else F32.one;
       diffuseAlbedo := SurfaceData.diffuseAlbedo surfaceData;
       specularAlbedo := SurfaceData.specularAlbedo surfaceData;
       ggxAlpha := F32.max kMinGgxAlpha (roughness * roughness)%f32;
       emission := SurfaceData.emission surfaceData;
       materialType := SurfaceData.materialType surfaceData;
       lobeTypes := SurfaceData.lobeTypes surfaceData;
       hit := SurfaceData.hit surfaceData;
       surfaceValid := true |}
  else
    {| pos := float3_zero;
       depth := SurfaceData.depth surfaceData;
       N := float3_zero;
       V := viewDir;
       NdotV := F32.zero;
       diffuseWeight := F32.zero;
       specularWeight := F32.zero;
       diffuseSpecularMix := F32.zero;
       diffuseAlbedo := float3_zero;
       specularAlbedo := float3_zero;
       ggxAlpha := F32.zero;
       emission := SurfaceData.emission surfaceData;
       materialType := SurfaceData.materialType surfaceData;
       lobeTypes := 0;
       hit := HitInfo.none;
       surfaceValid := false |}.

(** [isValidNeighbor]: only the normal test is enabled. *)
Definition isValidNeighbor (c : t) (otherNormalDepth : float3 * float)
    (normalThreshold depthThreshold : float) : bool :=
  F32.geb (dot3 (N c) (fst otherNormalDepth)) normalThreshold.

End EvalContext.

(** The host renderer and the light database, as the passes consume
    them: light loading and evaluation, material evaluation, ray
    queries, the camera, and compile-time switches of [Lights]. *)
Class Scene (S : Type) : Type := {
  LoadedLightSample : Type;
  lls_lightSample : LoadedLightSample -> LightSample.t;
  lls_posOrDir : LoadedLightSample -> float3;
  lls_eval : LoadedLightSample -> float3 -> EvaluatedLightSample.t;
  lls_default : LoadedLightSample;
  Lights : Type;
  loadLightSample : Lights -> LightSample.t -> LoadedLightSample;
  evalLightSample : Lights -> LightSample.t -> float3 -> EvaluatedLightSample.t;
  evalEmission : Lights -> LightSample.t -> float3 -> float3;
  sampleEnv : Lights -> float -> Gen S LightSample.t;
  sampleEmissive : Lights -> float -> Gen S LightSample.t;
  sampleAnalytic : Lights -> float -> Gen S LightSample.t;
  kRayTMax : float;
  kRayEpsilon : float;
  kUseEmissiveLights : bool;
  kUseEnvLight : bool;
  luminance : float3 -> float;
  isSurfaceValidData : SurfaceData.t -> bool;
  evalBSDF : EvalContext.t -> float3 -> Gen S float3;
  evalBsdfPDF : EvalContext.t -> float3 -> float;
  sampleBSDF : EvalContext.t -> Gen S (bool * float3 * float);
  traceVisibilityRay : Ray.t -> bool;
  sceneTraceRay : Ray.t -> bool * HitInfo.t;
  getTriangleIndex : Z -> Z -> Z;
  kInvalidIndex : Z;
  computeRayPinholeSubPixelRandom : uint2 -> uint2 -> float2 -> float3
}.

Section EvalContextFunctions.
Context {S : Type} `{SG : ISampleGenerator S} `{SC : Scene S}.

(** [EvalContext::evalVisibility]: 1 if visible, 0 if occluded. *)
Definition evalVisibility (c : EvalContext.t)
    (evaluatedLightSample : EvaluatedLightSample.t) : float :=
  let ray :=
    Ray.mk (EvalContext.pos c)
      (EvaluatedLightSample.dir evaluatedLightSample) F32.zero
      (F32.max F32.zero
         (EvaluatedLightSample.distance evaluatedLightSample
          - kRayEpsilon)%f32) in
  if traceVisibilityRay ray then F32.one else F32.zero.

(** [EvalContext::traceRay] *)
Definition traceRay (c : EvalContext.t) (ray : Ray.t) : bool * HitInfo.t :=
  sceneTraceRay ray.

(** [EvalContext::evalTargetFunction]: the target function (p-hat) of a
    sample, for a length-1 path (emission) or a length-2 path (a light
    sample). *)
Definition evalTargetFunction (c : EvalContext.t)
    (loadedLightSample : LoadedLightSample) (lights : Lights)
    (withVisibility : bool) (pathSample : Z) : Gen S float :=
  if negb (EvalContext.isSurfaceValid c) && (pathSample =? 2)
  then ret F32.zero
  else if pathSample =? 1
  then ret (luminance (EvalContext.emission c))
  else if (pathSample =? 2) && EvalContext.isSurfaceValid c
  then
    let evaluatedLightSample := lls_eval loadedLightSample (EvalContext.pos c) in
    if any_nonzero3 (EvaluatedLightSample.dir evaluatedLightSample)
    then
      (brdf <- evalBSDF c (EvaluatedLightSample.dir evaluatedLightSample) ;;
       let brdfScalerWeight := luminance brdf in
       let scalerWeight :=
         F32.max F32.zero
           (EvaluatedLightSample.emission evaluatedLightSample
            * EvaluatedLightSample.geomFactor evaluatedLightSample
            * brdfScalerWeight)%f32 in
       let visibility :=
         if withVisibility then evalVisibility c evaluatedLightSample
         else F32.one in
       ret (scalerWeight * visibility)%f32)%gen
    else ret F32.zero
  else ret F32.zero.

End EvalContextFunctions.

(* ===================================================================== *)
(** * Resampling.slang *)
(* ===================================================================== *)

(** [getPixelIndex(frameDim, pixel, passIdx)]: the slot of a pixel in a
    per-pass reservoir buffer. *)
Definition getPixelIndexInPass (frameDim pixel : uint2) (passIdx : Z) : Z :=
  let PixelIdxOnScreen :=
    U32.add (U32.mul (snd pixel) (fst frameDim)) (fst pixel) in
  let totalScreenPixels := U32.mul (fst frameDim) (snd frameDim) in
  U32.add (U32.mul totalScreenPixels passIdx) PixelIdxOnScreen.

(** [getPixelIndex(pixel)] of the passes: [pixel.y * frameDim.x + pixel.x]. *)
Definition getPixelIndex (frameDim pixel : uint2) : Z :=
  U32.add (U32.mul (snd pixel) (fst frameDim)) (fst pixel).

(** [any(pixel >= frameDim)] *)
Definition outsideFrame (frameDim pixel : uint2) : bool :=
  (fst frameDim <=? fst pixel) || (snd frameDim <=? snd pixel).

Definition f32_eight : float := S754_finite false 8388608 (-20).

Section Resampling.
Context {S : Type} `{SG : ISampleGenerator S} `{SC : Scene S}
        `{INTR : Intrinsics}.

(** The selection step shared by every streaming update:
    [sampleNext1D(sg) * state.weightSum < sampleWeight]. *)
Definition selectSample (state : RisState.t) (sampleWeight : float)
  : Gen S bool :=
  (u <- sampleNext1D ;;
   ret (u * RisState.weightSum state <? sampleWeight)%f32)%gen.

(** Resample a light sample (the overload that also receives
    [pHat_withoutAlbedo], which it does not read). *)
Definition streamingInitialResampleMIS_withoutAlbedo (state : RisState.t)
    (lightSample : LightSample.t)
    (targetPdf sourcePdf misWeight pHat_withoutAlbedo : float)
  : Gen S (bool * RisState.t) :=
  let sampleWeight := (misWeight * targetPdf / sourcePdf)%f32 in
  let state :=
    RisState.with_weightSum (RisState.weightSum state + sampleWeight)%f32
      state in
  let state := RisState.with_M (RisState.M state + F32.one)%f32 state in
  (sel <- selectSample state sampleWeight ;;
   ret (sel,
        if sel
        then RisState.with_targetPdf targetPdf
               (RisState.with_lightSample lightSample state)
        else state))%gen.

(** Resample a light sample. *)
Definition streamingInitialResampleMIS (state : RisState.t)
    (lightSample : LightSample.t) (targetPdf sourcePdf misWeight : float)
  : Gen S (bool * RisState.t) :=
  let sampleWeight := (misWeight * targetPdf / sourcePdf)%f32 in
  let state :=
    RisState.with_weightSum (RisState.weightSum state + sampleWeight)%f32
      state in
  let state := RisState.with_M (RisState.M state + F32.one)%f32 state in
  (sel <- selectSample state sampleWeight ;;
   ret (sel,
        if sel
        then RisState.with_targetPdf targetPdf
               (RisState.with_lightSample lightSample state)
        else state))%gen.

(** Resample a path sample. *)
Definition streamingInitialResampleMIS_path (state : RisState.t)
    (pathSample : Z) (targetPdf sourcePdf misWeight : float)
  : Gen S (bool * RisState.t) :=
  let sampleWeight := (misWeight * targetPdf / sourcePdf)%f32 in
  let state :=
    RisState.with_weightSum (RisState.weightSum state + sampleWeight)%f32
      state in
  let state := RisState.with_M (RisState.M state + F32.one)%f32 state in
  (sel <- selectSample state sampleWeight ;;
   ret (sel,
        if sel
        then RisState.with_targetPdf targetPdf
               (RisState.with_pathSample pathSample state)
        else state))%gen.

(** For RGB reservoirs: resample with a reservoir. *)
Definition streamingResampleStepMIS (state : RisState.t)
    (reservoir : Reservoir.t) (misWeight : float)
  : Gen S (bool * RisState.t) :=
  let sampleWeight :=
    (misWeight * Reservoir.targetPdf reservoir * Reservoir.weight reservoir
     * F32.one)%f32 in
  let state :=
    RisState.with_weightSum (RisState.weightSum state + sampleWeight)%f32
      state in
  let state :=
    RisState.with_M
      (RisState.M state + F32.of_uint (Reservoir.M reservoir))%f32 state in
  (sel <- selectSample state sampleWeight ;;
   ret (sel,
        if sel
        then RisState.with_pathSample (Reservoir.pathSample reservoir)
               (RisState.with_targetPdf (Reservoir.targetPdf reservoir)
                  (RisState.with_lightSample
                     (Reservoir.lightSample reservoir) state))
        else state))%gen.

(** [q0 == 0.f ? 1.f : clamp(pow(min(q1 / q0, 1.f), 8.f), 0.f, 1.f)] *)
Definition mFactor (q0 q1 : float) : float :=
  if (q0 =? F32.zero)%f32 then F32.one
  else F32.clamp (pow (F32.min (q1 / q0)%f32 F32.one) f32_eight)
         F32.zero F32.one.

Definition pairwiseMIS_nonDefensiveNonCanonical
    (mSum mCandidate pi mCanonical pc out_J : float) : float :=
  let pHatFrom_i := (pi * out_J)%f32 in
  if (pc =? F32.zero)%f32 then F32.zero
  else (mCandidate * pHatFrom_i
        / ((mSum - mCanonical) * pHatFrom_i + mCanonical * pc))%f32.

Definition pairwiseMIS_nonDefensiveCanonical
    (mSum mCandidate pi mCanonical pc out_J : float) : float :=
  let w := (mCanonical * pc)%f32 in
  let pHatFrom_i := (pi * out_J)%f32 in
  if (pc =? F32.zero)%f32 then F32.zero
  else ((mCandidate / (mSum - mCanonical)) * w
        / ((mSum - mCanonical) * pHatFrom_i + w))%f32.

Definition pairwiseMIS_defensiveNonCanonical
    (mSum mCandidate pi mCanonical pc out_J : float) : float :=
  let pHatFrom_i := (pi * out_J)%f32 in
  let w := ((mSum - mCanonical) * pHatFrom_i)%f32 in
  if (pc =? F32.zero)%f32 then F32.zero
  else ((mCandidate / mSum) * w / (w + mCanonical * pc))%f32.

Definition pairwiseMIS_defensiveCanonical
    (mSum mCandidate pi mCanonical pc out_J : float) : float :=
  let pHatFrom_i := (pi * out_J)%f32 in
  let w := (mCanonical * pc)%f32 in
  if (pc =? F32.zero)%f32 then F32.zero
  else ((mCandidate / mSum) * w
        / ((mSum - mCanonical) * pHatFrom_i + w))%f32.

(** The scale the M-factor option applies to a candidate's confidence
    weight: the smaller of the candidate's and the canonical sample's
    factors. *)
Definition mScaler (candidateTargetPdf candidateTargetPdfAtOther
    canonicalTargetPdfAtOther canonicalTargetPdf : float) : float :=
  F32.min (mFactor candidateTargetPdf candidateTargetPdfAtOther)
          (mFactor canonicalTargetPdfAtOther canonicalTargetPdf).

(** Temporal resampling of the reservoir at the origin point. *)
Definition temporalResamplePointReservoirPairwiseMIS (state : RisState.t)
    (canonicalReservoir : Reservoir.t) (canonicalContext : EvalContext.t)
    (candidateReservoir : Reservoir.t) (candidateContext : EvalContext.t)
    (lights : Lights) (useMFactor : bool)
    (confidenceWeightSum intersectAreaSize : float) (withVisibility : bool)
  : Gen S (bool * RisState.t) :=
  let canonicalTargetPdf := Reservoir.targetPdf canonicalReservoir in
  let candidateTargetPdf := Reservoir.targetPdf candidateReservoir in
  (* candidate sample evaluated at current *)
  let candidateLightSampleAtCurr :=
    loadLightSample lights (Reservoir.lightSample candidateReservoir) in
  (candidateTargetPdfAtOther <-
     evalTargetFunction canonicalContext candidateLightSampleAtCurr lights
       withVisibility 2 ;;
   (* canonical sample evaluated at previous *)
   let canonicalLightSampleAtPrev :=
     loadLightSample lights (Reservoir.lightSample canonicalReservoir) in
   canonicalTargetPdfAtOther <-
     evalTargetFunction candidateContext canonicalLightSampleAtPrev lights
       withVisibility 2 ;;
   (* MIS weights *)
   let candidateConfidenceWeight :=
     (F32.of_uint (Reservoir.M candidateReservoir) * intersectAreaSize)%f32 in
   let m0 :=
     pairwiseMIS_nonDefensiveNonCanonical confidenceWeightSum
       candidateConfidenceWeight candidateTargetPdf
       (F32.of_uint (Reservoir.M canonicalReservoir))
       candidateTargetPdfAtOther F32.one in
   let m1 :=
     pairwiseMIS_nonDefensiveCanonical confidenceWeightSum
       candidateConfidenceWeight canonicalTargetPdfAtOther
       (F32.of_uint (Reservoir.M canonicalReservoir))
       canonicalTargetPdf F32.one in
   (* candidate resampling weight *)
   let sampleWeight :=
     (candidateTargetPdfAtOther * Reservoir.weight candidateReservoir
      * m0)%f32 in
   let scaler :=
     mScaler candidateTargetPdf candidateTargetPdfAtOther
       canonicalTargetPdfAtOther canonicalTargetPdf in
   let state :=
     RisState.with_M
       (RisState.M state
        + candidateConfidenceWeight
          * (if useMFactor then scaler else F32.one))%f32 state in
   let state :=
     RisState.with_weightSum (RisState.weightSum state + sampleWeight)%f32
       state in
   let state :=
     RisState.with_canonicalWeight (RisState.canonicalWeight state + m1)%f32
       state in
   sel <- selectSample state sampleWeight ;;
   ret (sel,
        if sel
        then RisState.with_targetPdf candidateTargetPdfAtOther
               (RisState.with_lightSample
                  (Reservoir.lightSample candidateReservoir) state)
        else state))%gen.

(** Spatial resampling of the reservoir at the origin point. *)
Definition spatialResamplePointReservoirPairwiseMIS (state : RisState.t)
    (canonicalReservoir : Reservoir.t) (canonicalContext : EvalContext.t)
    (candidateReservoir : Reservoir.t) (candidateContext : EvalContext.t)
    (lights : Lights) (useMFactor : bool)
    (confidenceWeightSum : float) (withVisibility : bool)
  : Gen S (bool * RisState.t) :=
  let canonicalTargetPdf := Reservoir.targetPdf canonicalReservoir in
  let candidateTargetPdf := Reservoir.targetPdf candidateReservoir in
  let candidateLightSample :=
    loadLightSample lights (Reservoir.lightSample candidateReservoir) in
  let canonicalLightSample :=
    loadLightSample lights (Reservoir.lightSample canonicalReservoir) in
  (candidateTargetPdfAtOther <-
     evalTargetFunction canonicalContext candidateLightSample lights
       withVisibility 2 ;;
   canonicalTargetPdfAtOther <-
     evalTargetFunction candidateContext canonicalLightSample lights
       withVisibility 2 ;;
   (* MIS weights *)
   let candidateConfidenceWeight :=
     F32.of_uint (Reservoir.M candidateReservoir) in
   let m0 :=
     pairwiseMIS_defensiveNonCanonical confidenceWeightSum
       candidateConfidenceWeight candidateTargetPdf
       (F32.of_uint (Reservoir.M canonicalReservoir))
       candidateTargetPdfAtOther F32.one in
   let m1 :=
     pairwiseMIS_defensiveCanonical confidenceWeightSum
       candidateConfidenceWeight canonicalTargetPdfAtOther
       (F32.of_uint (Reservoir.M canonicalReservoir))
       canonicalTargetPdf F32.one in
   (* candidate resampling weight *)
   let sampleWeight :=
     (candidateTargetPdfAtOther * Reservoir.weight candidateReservoir
      * m0)%f32 in
   let scaler :=
     mScaler candidateTargetPdf candidateTargetPdfAtOther
       canonicalTargetPdfAtOther canonicalTargetPdf in
   let state :=
     RisState.with_M
       (RisState.M state
        + candidateConfidenceWeight
          * (if useMFactor then scaler else F32.one))%f32 state in
   let state :=
     RisState.with_weightSum (RisState.weightSum state + sampleWeight)%f32
       state in
   let state :=
     RisState.with_canonicalWeight (RisState.canonicalWeight state + m1)%f32
       state in
   sel <- selectSample state sampleWeight ;;
   ret (sel,
        if sel
        then RisState.with_targetPdf candidateTargetPdfAtOther
               (RisState.with_lightSample
                  (Reservoir.lightSample candidateReservoir) state)
        else state))%gen.

(** Resample the canonical reservoir in pairwise MIS. *)
Definition streamingResampleFinalizeMis (state : RisState.t)
    (canonicalReservoir : Reservoir.t) (canonicalTargetPdf : float)
  : Gen S (bool * RisState.t) :=
  let sampleWeight :=
    (RisState.canonicalWeight state * canonicalTargetPdf
     * Reservoir.weight canonicalReservoir * F32.one)%f32 in
  let state :=
    RisState.with_M
      (RisState.M state + F32.of_uint (Reservoir.M canonicalReservoir))%f32
      state in
  let state :=
    RisState.with_weightSum (RisState.weightSum state + sampleWeight)%f32
      state in
  (sel <- selectSample state sampleWeight ;;
   ret (sel,
        if sel
        then RisState.with_pathSample (Reservoir.pathSample canonicalReservoir)
               (RisState.with_lightSample
                  (Reservoir.lightSample canonicalReservoir)
                  (RisState.with_targetPdf canonicalTargetPdf state))
        else state))%gen.

End Resampling.

(* ===================================================================== *)
(** * Buffers, loops and debug output *)
(* ===================================================================== *)

(** A structured buffer or texture, by element; [upd] is one store. *)
Definition upd {A : Type} (buf : Z -> A) (i : Z) (v : A) : Z -> A :=
  fun j => if j =? i then v else buf j.

Definition upd2 {A : Type} (tex : uint2 -> A) (p : uint2) (v : A)
  : uint2 -> A :=
  fun q => if (fst q =? fst p) && (snd q =? snd p) then v else tex q.

Definition float4 : Type := (float * float * float * float)%type.
Definition float4_zero : float4 := (F32.zero, F32.zero, F32.zero, F32.zero).

(** Modelled from the spec: the debug channels the passes test for
    (Params.slang is not among the sources). *)
Inductive DebugOutput : Type :=
  | DebugDisabled | InitialWeight | TemporalReuse | SpatialReuse
  | OtherDebugOutput.

Definition DebugOutput_eqb (a b : DebugOutput) : bool :=
  match a, b with
  | DebugDisabled, DebugDisabled | InitialWeight, InitialWeight
  | TemporalReuse, TemporalReuse | SpatialReuse, SpatialReuse
  | OtherDebugOutput, OtherDebugOutput => true
  | _, _ => false
  end.

(** [for (uint i = 0; i < count; ++i) body]: the loop threads its local
    state and the sample generator. *)
Fixpoint forRange_from {G A : Type} (n : nat) (i : Z)
    (body : Z -> A -> Gen G A) (a : A) : Gen G A :=
  match n with
  | O => ret a
  | Datatypes.S n' =>
      (a' <- body i a ;; forRange_from n' (i + 1) body a')%gen
  end.

Definition forRange {G A : Type} (count : Z) (body : Z -> A -> Gen G A)
    (a : A) : Gen G A :=
  forRange_from (Z.to_nat count) 0 body a.

(** [0.01f] *)
Definition f32_hundredth : float := S754_finite false 10737418 (-30).

(* ===================================================================== *)
(** * InitialResampling.cs.slang *)
(* ===================================================================== *)

Module InitialResampling.

Inductive SamplingTechnique : Type := Light | BRDF.

Section Pass.
Context {S : Type} `{SG : ISampleGenerator S} `{SC : Scene S}.

(** [struct InitialResampling]: static configuration, resources and
    variables.  [kOneMergedReservoir] is
    [uint(ResampleEmissionMode::OneMergedReservoir)]. *)
Record t : Type := mk {
  reservoirs : Z -> Reservoir.t;
  resEvalContext : Z -> EvalContext.t;
  pixelCenterEvalContext : Z -> EvalContext.t;
  debugOutput : uint2 -> float4;
  kLightTileCount : Z;
  kLightTileSize : Z;
  kScreenTileSize : Z;
  kInitialLightSampleCount : Z;
  kInitialBRDFSampleCount : Z;
  kInitialPathSampleCount : Z;
  kCheckVisibility : bool;
  kDebugOutput : DebugOutput;
  kOneMergedReservoir : Z;
  surfaceData : Z -> SurfaceData.t;
  normalDepth : uint2 -> Z;
  viewDir : uint2 -> float3;
  lightTileData : Z -> LoadedLightSample;
  lights : Lights;
  frameDim : uint2;
  frameIndex : Z;
  brdfCutoff : float;
  resampleEmissionMode : Z;
  filterRadius : float;
  filterAlpha : float;
  filterNorm : float;
  restirPassIdx : Z
}.

(** The pass with its writable resources replaced. *)
Definition with_buffers (r : Z -> Reservoir.t) (e c : Z -> EvalContext.t)
    (d : uint2 -> float4) (self : t) : t :=
  mk r e c d (kLightTileCount self) (kLightTileSize self)
     (kScreenTileSize self) (kInitialLightSampleCount self)
     (kInitialBRDFSampleCount self) (kInitialPathSampleCount self)
     (kCheckVisibility self) (kDebugOutput self) (kOneMergedReservoir self)
     (surfaceData self) (normalDepth self) (viewDir self)
     (lightTileData self) (lights self) (frameDim self) (frameIndex self)
     (brdfCutoff self) (resampleEmissionMode self) (filterRadius self)
     (filterAlpha self) (filterNorm self) (restirPassIdx self).

(** Heuristic to determine a max visibility ray length from a PDF. *)
Definition maxDistanceFromPdf (self : t) (pdf : float) : float :=
  if (brdfCutoff self >? F32.zero)%f32
  then SFsqrt F32.prec F32.emax
         ((F32.one / brdfCutoff self - F32.one) * pdf)%f32
  else kRayTMax.

Definition evalBalanceHeuristicMIS (self : t) (evalContext : EvalContext.t)
    (lightSample : LightSample.t)
    (evaluatedLightSample : EvaluatedLightSample.t)
    (technique : SamplingTechnique) : float :=
  let p_light := EvaluatedLightSample.pdf evaluatedLightSample in
  if 0 <? kInitialBRDFSampleCount self then
    let p_BRDF :=
      (evalBsdfPDF evalContext (EvaluatedLightSample.dir evaluatedLightSample)
       * EvaluatedLightSample.geomFactor evaluatedLightSample)%f32 in
    let maxDistance := maxDistanceFromPdf self p_BRDF in
    let p_BRDF :=
      match LightSample.getKind lightSample with
      | LightSample.Emissive =>
          if (EvaluatedLightSample.distance evaluatedLightSample
              >? maxDistance)%f32
          then F32.zero else p_BRDF
      | _ => p_BRDF
      end in
    let p_BRDF :=
      match LightSample.getKind lightSample with
      | LightSample.Analytic => F32.zero
      | _ => p_BRDF
      end in
    ((match technique with Light => p_light | BRDF => p_BRDF end)
     / (F32.of_uint (kInitialLightSampleCount self) * p_light
        + F32.of_uint (kInitialBRDFSampleCount self) * p_BRDF))%f32
  else
    (p_light / (F32.of_uint (kInitialLightSampleCount self) * p_light))%f32.

(** The loop over the light tile's samples. *)
Definition resampleLightSamples (self : t) (evalContext : EvalContext.t)
    (lightTileOffset offset stride : Z) (risState : RisState.t)
  : Gen S RisState.t :=
  forRange (kInitialLightSampleCount self)
    (fun i risState =>
       let index :=
         U32.add lightTileOffset
           (U32.rem (U32.add offset (U32.mul i stride))
              (kLightTileSize self)) in
       let loadedLightSample := lightTileData self index in
       let evaluatedLightSample :=
         lls_eval loadedLightSample (EvalContext.pos evalContext) in
       let p := EvaluatedLightSample.pdf evaluatedLightSample in
       let misWeight :=
         evalBalanceHeuristicMIS self evalContext
           (lls_lightSample loadedLightSample) evaluatedLightSample Light in
       (pHat <- evalTargetFunction evalContext loadedLightSample
                  (lights self) false 2 ;;
        ' (_, risState) <-
          streamingInitialResampleMIS risState
            (lls_lightSample loadedLightSample) pHat p misWeight ;;
        ret risState)%gen)
    risState.

(** The light sample a BRDF-sampled direction leads to, if any. *)
Definition sampleBRDFLight (self : t) (evalContext : EvalContext.t)
  : Gen S LightSample.t :=
  (' (validSample, dir, pdf) <- sampleBSDF evalContext ;;
   ret
     (if validSample then
        let brdfPdf := evalBsdfPDF evalContext dir in
        let maxDistance := maxDistanceFromPdf self brdfPdf in
        let ray :=
          Ray.mk (EvalContext.pos evalContext) dir F32.zero
            (maxDistance + f32_hundredth)%f32 in
        if kUseEmissiveLights && fst (traceRay evalContext ray) then
          let hit := snd (traceRay evalContext ray) in
          match HitInfo.getType hit with
          | HitInfo.Triangle =>
              let triangleIndex :=
                getTriangleIndex (HitInfo.instanceID hit)
                  (HitInfo.primitiveIndex hit) in
              if triangleIndex =? kInvalidIndex
              then LightSample.createInvalid
              else
                let lightSample :=
                  LightSample.createEmissive triangleIndex
                    (HitInfo.barycentrics hit) in
                if (brdfCutoff self >? F32.zero)%f32 then
                  let evaluatedLightSample :=
                    evalLightSample (lights self) lightSample
                      (EvalContext.pos evalContext) in
                  let brdfPdf :=
                    evalBsdfPDF evalContext
                      (EvaluatedLightSample.dir evaluatedLightSample) in
                  let maxDistance := maxDistanceFromPdf self brdfPdf in
                  if (EvaluatedLightSample.distance evaluatedLightSample
                      >? maxDistance)%f32
                  then LightSample.createInvalid
                  else lightSample
                else lightSample
          | _ => LightSample.createInvalid
          end
        else if kUseEnvLight
                && negb (LightSample.isValid LightSample.createInvalid)
        then LightSample.createEnv dir
        else LightSample.createInvalid
      else LightSample.createInvalid))%gen.

(** The loop over the BRDF samples. *)
Definition resampleBRDFSamples (self : t) (evalContext : EvalContext.t)
    (risState : RisState.t) : Gen S RisState.t :=
  forRange (kInitialBRDFSampleCount self)
    (fun i risState =>
       (lightSample <- sampleBRDFLight self evalContext ;;
        if negb (LightSample.isValid lightSample) then
          ret (RisState.with_M (RisState.M risState + F32.one)%f32 risState)
        else
          let evaluatedLightSample :=
            evalLightSample (lights self) lightSample
              (EvalContext.pos evalContext) in
          let loadedLightSample := loadLightSample (lights self) lightSample in
          let p :=
            (evalBsdfPDF evalContext
               (EvaluatedLightSample.dir evaluatedLightSample)
             * EvaluatedLightSample.geomFactor evaluatedLightSample)%f32 in
          let misWeight :=
            evalBalanceHeuristicMIS self evalContext lightSample
              evaluatedLightSample BRDF in
          pHat <- evalTargetFunction evalContext loadedLightSample
                    (lights self) false 2 ;;
          ' (_, risState) <-
            streamingInitialResampleMIS risState lightSample pHat p
              misWeight ;;
          ret risState)%gen)
    risState.

(** The optional emission path candidate. *)
Definition resamplePathSample (self : t) (evalContext : EvalContext.t)
    (risState : RisState.t) : Gen S RisState.t :=
  if resampleEmissionMode self =? kOneMergedReservoir self then
    (pHat <- evalTargetFunction evalContext lls_default (lights self)
               false 1 ;;
     ' (_, risState) <-
       streamingInitialResampleMIS_path risState 1 pHat F32.one F32.one ;;
     ret risState)%gen
  else ret risState.

(** All candidates of a pixel with a valid surface. *)
Definition streamCandidates (self : t) (evalContext : EvalContext.t)
    (lightTileOffset offset stride : Z) : Gen S RisState.t :=
  let risState := RisState.createEmpty 2 in
  (risState <-
     (if EvalContext.isSurfaceValid evalContext then
        (risState <- resampleLightSamples self evalContext lightTileOffset
                       offset stride risState ;;
         if 0 <? kInitialBRDFSampleCount self
         then resampleBRDFSamples self evalContext risState
         else ret risState)%gen
      else ret risState) ;;
   resamplePathSample self evalContext risState)%gen.

(** Check selected sample visibility: an occluded sample is replaced by
    the empty state. *)
Definition checkSelectedVisibility (self : t) (evalContext : EvalContext.t)
    (risState : RisState.t) : RisState.t :=
  if kCheckVisibility self
     && LightSample.isValid (RisState.lightSample risState)
     && (RisState.pathSample risState =? 2)
  then
    let evaluatedLightSample :=
      evalLightSample (lights self) (RisState.lightSample risState)
        (EvalContext.pos evalContext) in
    if (evalVisibility evalContext evaluatedLightSample =? F32.zero)%f32
    then RisState.createEmpty 2
    else risState
  else risState.

(** [risState.weight = ...; risState.M = 1.f;] *)
Definition finalize (risState : RisState.t) : RisState.t :=
  RisState.with_M F32.one (RisState.finalizeWeight risState).

(** The reservoir of a background pixel. *)
Definition backgroundReservoir (self : t) (evalContext : EvalContext.t)
  : Gen S Reservoir.t :=
  let reservoir := Reservoir.createEmpty 1 in
  let reservoir := Reservoir.with_M 1 reservoir in
  (pHat <- evalTargetFunction evalContext lls_default (lights self)
             false 1 ;;
   let reservoir := Reservoir.with_targetPdf pHat reservoir in
   ret (Reservoir.with_weight F32.one reservoir))%gen.

(** The RIS state that the pass converts and saves for a pixel whose
    surface is valid: the candidates, the visibility check, the
    finalization. *)
Definition finalRisState (self : t) (evalContext : EvalContext.t)
    (lightTileOffset offset stride : Z) : Gen S RisState.t :=
  (risState <- streamCandidates self evalContext lightTileOffset offset
                 stride ;;
   ret (finalize (checkSelectedVisibility self evalContext risState)))%gen.

(** The per-thread setup of [process]: the evaluation context of the
    pixel, the offset of its light tile, the offset and stride within
    the tile, and the pixel's sample generator after the offset draw. *)
Definition threadSetup (self : t) (pixel : uint2)
  : EvalContext.t * Z * Z * Z * S :=
  let pixelIndex := getPixelIndex (frameDim self) pixel in
  (* evaluation context *)
  let sd := surfaceData self pixelIndex in
  let evalContext :=
    EvalContext.create pixel (frameDim self) (isSurfaceValidData sd) sd
      (viewDir self pixel) in
  (* screen tile and light tile *)
  let screenTile :=
    (U32.div (fst pixel) (kScreenTileSize self),
     U32.div (snd pixel) (kScreenTileSize self)) in
  let sampleNum :=
    U32.add (frameIndex self) (U32.mul 8 (restirPassIdx self)) in
  let tileSg := sgFromPixel screenTile sampleNum in
  let tileIndex :=
    U32.min
      (F32.to_uint
         (fst (sampleNext1D tileSg)
          * F32.of_uint (kLightTileCount self))%f32)
      (U32.sub (kLightTileCount self) 1) in
  let lightTileOffset := U32.mul tileIndex (kLightTileSize self) in
  (* offset and stride within the light tile *)
  let sg := sgFromPixel pixel sampleNum in
  let stride :=
    U32.div
      (U32.sub
         (U32.add (kLightTileSize self) (kInitialLightSampleCount self)) 1)
      (kInitialLightSampleCount self) in
  let '(u, sg) := sampleNext1D sg in
  let offset :=
    U32.min (F32.to_uint (u * F32.of_uint stride)%f32) (U32.sub stride 1) in
  (evalContext, lightTileOffset, offset, stride, sg).

(** [InitialResampling::process]: one thread of the pass. *)
Definition process (self : t) (pixel : uint2) : t :=
  if outsideFrame (frameDim self) pixel then self
  else
    let debugOutput' :=
      if DebugOutput_eqb (kDebugOutput self) InitialWeight
      then upd2 (debugOutput self) pixel float4_zero
      else debugOutput self in
    let pixelIndex := getPixelIndex (frameDim self) pixel in
    let sd := surfaceData self pixelIndex in
    let '(evalContext, lightTileOffset, offset, stride, sg) :=
      threadSetup self pixel in
    let pixelIdxInReservoirBuffer :=
      getPixelIndexInPass (frameDim self) pixel (restirPassIdx self) in
    if negb (EvalContext.isSurfaceValid evalContext) then
      (* background hit: the path sample is fixed to 1 *)
      let reservoir := fst (backgroundReservoir self evalContext sg) in
      with_buffers
        (upd (reservoirs self) pixelIdxInReservoirBuffer reservoir)
        (upd (resEvalContext self) pixelIdxInReservoirBuffer evalContext)
        (pixelCenterEvalContext self) debugOutput' self
    else
      let risState :=
        fst (finalRisState self evalContext lightTileOffset offset stride sg) in
      let centerDir :=
        computeRayPinholeSubPixelRandom pixel (frameDim self)
          (f32_half, f32_half) in
      with_buffers
        (upd (reservoirs self) pixelIdxInReservoirBuffer
           (RisState.toReservoir risState))
        (upd (resEvalContext self) pixelIdxInReservoirBuffer evalContext)
        (upd (pixelCenterEvalContext self) pixelIndex
           (EvalContext.create pixel (frameDim self) (isSurfaceValidData sd)
              sd (neg3 centerDir)))
        debugOutput' self.

End Pass.
End InitialResampling.

(* ===================================================================== *)
(** * Temporal resampling *)
(* ===================================================================== *)

(** [isValidPixel(int2 pixel)] *)
Definition isValidPixel (frameDim : uint2) (pixel : int2) : bool :=
  ((0 <=? fst pixel) && (fst pixel <? fst frameDim))
  && ((0 <=? snd pixel) && (snd pixel <? snd frameDim)).

Module TemporalResampling.

Section Pass.
Context {S : Type} `{SG : ISampleGenerator S} `{SC : Scene S}
        `{INTR : Intrinsics}.

(** [struct TemporalResampling]. *)
Record t : Type := mk {
  reservoirs : Z -> Reservoir.t;
  resEvalContext : Z -> EvalContext.t;
  debugOutput : uint2 -> float4;
  kMaxHistoryLength : Z;
  kUnbiased : bool;
  kUsePrevFrameSceneData : bool;
  kDebugOutput : DebugOutput;
  motionVectors : uint2 -> float2;
  prevReservoirs : Z -> Reservoir.t;
  prevResEvalContext : Z -> EvalContext.t;
  lights : Lights;
  frameDim : uint2;
  frameIndex : Z;
  useMFactor : bool;
  restirPassIdx : Z
}.

Definition with_buffers (r : Z -> Reservoir.t) (e : Z -> EvalContext.t)
    (d : uint2 -> float4) (self : t) : t :=
  mk r e d (kMaxHistoryLength self) (kUnbiased self)
     (kUsePrevFrameSceneData self) (kDebugOutput self) (motionVectors self)
     (prevReservoirs self) (prevResEvalContext self) (lights self)
     (frameDim self) (frameIndex self) (useMFactor self)
     (restirPassIdx self).

(** Back-project a pixel to the previous frame:
    [pixel + motionVectors[pixel] * frameDim + (sampleNext2D(sg) * 1.f - 0.f)]
    converted to [int2]. *)
Definition backProject (self : t) (pixel : uint2) : Gen S int2 :=
  (u <- sampleNext2D ;;
   let mv := motionVectors self pixel in
   let fd := frameDim self in
   ret (F32.to_int
          (F32.of_uint (fst pixel) + fst mv * F32.of_uint (fst fd)
           + (fst u * F32.one - F32.zero))%f32,
        F32.to_int
          (F32.of_uint (snd pixel) + snd mv * F32.of_uint (snd fd)
           + (snd u * F32.one - F32.zero))%f32))%gen.

(** [prevReservoir.M = min(prevReservoir.M,
                           currentReservoir.M * kMaxHistoryLength);] *)
Definition clampHistory (self : t) (currentReservoir prevReservoir : Reservoir.t)
  : Reservoir.t :=
  Reservoir.with_M
    (U32.min (Reservoir.M prevReservoir)
       (U32.mul (Reservoir.M currentReservoir) (kMaxHistoryLength self)))
    prevReservoir.

(** The merge of the current reservoir with the reprojected one, up to
    the finalized RIS state. *)
Definition finalRisState (self : t) (currentReservoir : Reservoir.t)
    (currentContext : EvalContext.t) (prevReservoir : Reservoir.t)
    (prevContext : EvalContext.t) : Gen S RisState.t :=
  let prevReservoir := clampHistory self currentReservoir prevReservoir in
  let risState := RisState.createEmptyFrom currentReservoir in
  let currentTargetPdf := Reservoir.targetPdf currentReservoir in
  let confidenceWeightSum :=
    F32.of_uint
      (U32.add (Reservoir.M prevReservoir) (Reservoir.M currentReservoir)) in
  (' (_, risState) <-
     temporalResamplePointReservoirPairwiseMIS risState currentReservoir
       currentContext prevReservoir prevContext (lights self)
       (useMFactor self) confidenceWeightSum F32.one (kUnbiased self) ;;
   ' (_, risState) <-
     streamingResampleFinalizeMis risState currentReservoir
       currentTargetPdf ;;
   ret (RisState.finalizeWeight risState))%gen.

(** [TemporalResampling::process]: one thread of the pass. *)
Definition process (self : t) (pixel : uint2) : t :=
  if outsideFrame (frameDim self) pixel then self
  else
    let pixelIdxInReservoirBuffer :=
      getPixelIndexInPass (frameDim self) pixel (restirPassIdx self) in
    let sampleNum :=
      U32.add (frameIndex self) (U32.mul 8 (restirPassIdx self)) in
    let sg := sgFromPixel pixel sampleNum in
    let '(prevPixel, sg) := backProject self pixel sg in
    if negb (isValidPixel (frameDim self) prevPixel) then self
    else
      let prevPixelIdxInReservoirBuffer :=
        getPixelIndexInPass (frameDim self) prevPixel (restirPassIdx self) in
      let currentReservoir := reservoirs self pixelIdxInReservoirBuffer in
      let prevReservoir :=
        prevReservoirs self prevPixelIdxInReservoirBuffer in
      let currentContext := resEvalContext self pixelIdxInReservoirBuffer in
      let prevContext :=
        prevResEvalContext self prevPixelIdxInReservoirBuffer in
      let risState :=
        fst (finalRisState self currentReservoir currentContext
               prevReservoir prevContext sg) in
      with_buffers
        (upd (reservoirs self) pixelIdxInReservoirBuffer
           (RisState.toReservoir risState))
        (upd (resEvalContext self) pixelIdxInReservoirBuffer currentContext)
        (if DebugOutput_eqb (kDebugOutput self) TemporalReuse
         then upd2 (debugOutput self) pixel
                (F32.zero, F32.one, F32.zero, F32.zero)
         else debugOutput self)
        self.

End Pass.
End TemporalResampling.

(* ===================================================================== *)
(** * Spatial resampling *)
(* ===================================================================== *)

(** A loop that draws no random numbers. *)
Fixpoint loopRange_from {A : Type} (n : nat) (i : Z) (body : Z -> A -> A)
    (a : A) : A :=
  match n with
  | O => a
  | Datatypes.S n' => loopRange_from n' (i + 1) body (body i a)
  end.

Definition loopRange {A : Type} (count : Z) (body : Z -> A -> A) (a : A) : A :=
  loopRange_from (Z.to_nat count) 0 body a.

(** [lerp(x, y, s) = x + s * (y - x)] *)
Definition lerp (x y s : float) : float := (x + s * (y - x))%f32.

Module SpatialResampling.

Section Pass.
Context {S : Type} `{SG : ISampleGenerator S} `{SC : Scene S}
        `{INTR : Intrinsics}.

(** [struct SpatialResampling]. *)
Record t : Type := mk {
  reservoirs : Z -> Reservoir.t;
  resEvalContext : Z -> EvalContext.t;
  debugOutput : uint2 -> float4;
  kNeighborOffsetCount : Z;
  kUnbiased : bool;
  kDebugOutput : DebugOutput;
  normalDepth : uint2 -> Z;
  prevReservoirs : Z -> Reservoir.t;
  prevResEvalContext : Z -> EvalContext.t;
  pixelCenterEvalContext : Z -> EvalContext.t;
  neighborOffsets : Z -> float2;
  lights : Lights;
  frameDim : uint2;
  frameIndex : Z;
  normalThreshold : float;
  depthThreshold : float;
  useMFactor : bool;
  neighborCount : Z;
  gatherRadius : float;
  shiftMappingMode : Z;
  randomReplaySampleWeight : float;
  misSampleSelection : Z;
  rejectNeighborPixelForNormalDepth : bool;
  rejectNeighborPixelForHitType : bool;
  resampleEmissionMode : Z;
  restirPassIdx : Z;
  spatialPassIdx : Z
}.

Definition with_buffers (r : Z -> Reservoir.t) (e : Z -> EvalContext.t)
    (d : uint2 -> float4) (self : t) : t :=
  mk r e d (kNeighborOffsetCount self) (kUnbiased self) (kDebugOutput self)
     (normalDepth self) (prevReservoirs self) (prevResEvalContext self)
     (pixelCenterEvalContext self) (neighborOffsets self) (lights self)
     (frameDim self) (frameIndex self) (normalThreshold self)
     (depthThreshold self) (useMFactor self) (neighborCount self)
     (gatherRadius self) (shiftMappingMode self)
     (randomReplaySampleWeight self) (misSampleSelection self)
     (rejectNeighborPixelForNormalDepth self)
     (rejectNeighborPixelForHitType self) (resampleEmissionMode self)
     (restirPassIdx self) (spatialPassIdx self).

Definition kNeighborOffsetMask (self : t) : Z :=
  U32.sub (kNeighborOffsetCount self) 1.

(** The [i]-th neighbor pixel:
    [pixel + int2(neighborOffsets[neighborIndex] * gatherRadius)]. *)
Definition neighborPixel (self : t) (pixel : uint2) (startIndex i : Z)
  : int2 :=
  let neighborIndex :=
    U32.land (U32.add startIndex i) (kNeighborOffsetMask self) in
  let off := neighborOffsets self neighborIndex in
  (U32.to_signed
     (U32.wrap (fst pixel + F32.to_int (fst off * gatherRadius self)%f32)),
   U32.to_signed
     (U32.wrap (snd pixel + F32.to_int (snd off * gatherRadius self)%f32))).

(** The first loop: the confidence weight sum and the mask of the
    accepted neighbors. *)
Definition gatherConfidence (self : t) (pixel : uint2) (startIndex : Z)
    (currentReservoir : Reservoir.t)
    (currEvalContext currCenterContext : EvalContext.t) : float * Z :=
  loopRange (neighborCount self)
    (fun i '(confidenceWeightSum, validNeighborCache) =>
       let nb := neighborPixel self pixel startIndex i in
       if negb (isValidPixel (frameDim self) nb)
       then (confidenceWeightSum, validNeighborCache)
       else
         let neighborPixelIndex := getPixelIndex (frameDim self) nb in
         let neighborPixelIndexInReservoir :=
           getPixelIndexInPass (frameDim self) nb (restirPassIdx self) in
         let neighborCenterContext :=
           pixelCenterEvalContext self neighborPixelIndex in
         if rejectNeighborPixelForNormalDepth self
            && negb (EvalContext.isValidNeighbor currEvalContext
                       (EvalContext.N neighborCenterContext,
                        EvalContext.depth neighborCenterContext)
                       (normalThreshold self) (depthThreshold self))
         then (confidenceWeightSum, validNeighborCache)
         else if rejectNeighborPixelForHitType self
                 && negb (Bool.eqb
                            (EvalContext.isSurfaceValid currCenterContext)
                            (EvalContext.isSurfaceValid neighborCenterContext))
         then (confidenceWeightSum, validNeighborCache)
         else
           let neighborReservoir :=
             prevReservoirs self neighborPixelIndexInReservoir in
           ((confidenceWeightSum
             + F32.of_uint (Reservoir.M neighborReservoir))%f32,
            U32.lor validNeighborCache (U32.shl 1 i)))
    (F32.of_uint (Reservoir.M currentReservoir), 0).

(** The second loop: the pairwise merges with the accepted neighbors. *)
Definition resampleNeighbors (self : t) (pixel : uint2) (startIndex : Z)
    (currentReservoir : Reservoir.t) (currEvalContext : EvalContext.t)
    (confidenceWeightSum : float) (validNeighborCache : Z)
    (risState : RisState.t) : Gen S RisState.t :=
  forRange (neighborCount self)
    (fun i risState =>
       if U32.land validNeighborCache (U32.shl 1 i) =? 0 then ret risState
       else
         let nb := neighborPixel self pixel startIndex i in
         if negb (isValidPixel (frameDim self) nb) then ret risState
         else
           let neighborPixelIndexInReservoir :=
             getPixelIndexInPass (frameDim self) nb (restirPassIdx self) in
           let neighborReservoir :=
             prevReservoirs self neighborPixelIndexInReservoir in
           let neighborContext :=
             prevResEvalContext self neighborPixelIndexInReservoir in
           (' (_, risState) <-
              spatialResamplePointReservoirPairwiseMIS risState
                currentReservoir currEvalContext neighborReservoir
                neighborContext (lights self) (useMFactor self)
                confidenceWeightSum (kUnbiased self) ;;
            ret risState)%gen)
    risState.

(** The merges of a pixel, up to the finalized RIS state. *)
Definition finalRisState (self : t) (pixel : uint2)
    (currentReservoir : Reservoir.t)
    (currEvalContext currCenterContext : EvalContext.t) : Gen S RisState.t :=
  let risState := RisState.createEmptyFrom currentReservoir in
  (u <- sampleNext1D ;;
   let startIndex :=
     F32.to_uint (u * F32.of_uint (kNeighborOffsetCount self))%f32 in
   let '(confidenceWeightSum, validNeighborCache) :=
     gatherConfidence self pixel startIndex currentReservoir currEvalContext
       currCenterContext in
   let risState :=
     RisState.with_canonicalWeight
       (if (confidenceWeightSum >? F32.zero)%f32
        then (F32.of_uint (Reservoir.M currentReservoir)
              / confidenceWeightSum)%f32
        else F32.zero) risState in
   risState <- resampleNeighbors self pixel startIndex currentReservoir
                 currEvalContext confidenceWeightSum validNeighborCache
                 risState ;;
   ' (_, risState) <-
     streamingResampleFinalizeMis risState currentReservoir
       (Reservoir.targetPdf currentReservoir) ;;
   let risState :=
     RisState.with_M (F32.of_uint (Reservoir.M currentReservoir)) risState in
   ret (RisState.finalizeWeight risState))%gen.

(** [SpatialResampling::process]: one thread of the pass. *)
Definition process (self : t) (pixel : uint2) : t :=
  if outsideFrame (frameDim self) pixel then self
  else
    let pixelIndex := getPixelIndex (frameDim self) pixel in
    let pixelIdxInReservoirBuffer :=
      getPixelIndexInPass (frameDim self) pixel (restirPassIdx self) in
    let sampleNum :=
      U32.add
        (U32.add (U32.mul 32 (frameIndex self)) (spatialPassIdx self))
        (U32.mul 8 (restirPassIdx self)) in
    let sg := sgFromPixel pixel sampleNum in
    let currentReservoir := prevReservoirs self pixelIdxInReservoirBuffer in
    let currEvalContext := prevResEvalContext self pixelIdxInReservoirBuffer in
    let currCenterContext := pixelCenterEvalContext self pixelIndex in
    let risState :=
      fst (finalRisState self pixel currentReservoir currEvalContext
             currCenterContext sg) in
    let validCount := 0 in
    with_buffers
      (upd (reservoirs self) pixelIdxInReservoirBuffer
         (RisState.toReservoir risState))
      (upd (resEvalContext self) pixelIdxInReservoirBuffer currEvalContext)
      (if DebugOutput_eqb (kDebugOutput self) SpatialReuse
       then
         let s :=
           (F32.of_uint validCount / F32.of_uint (neighborCount self))%f32 in
         upd2 (debugOutput self) pixel
           (lerp F32.one F32.zero s, lerp F32.zero F32.one s,
            lerp F32.zero F32.zero s, F32.zero)
       else debugOutput self)
      self.

End Pass.
End SpatialResampling.

(* ===================================================================== *)
(** * Final sample evaluation *)
(* ===================================================================== *)

Module FinalSample.

(** [struct FinalSample]. *)
Record t : Type := mk {
  dir : float3;          (* direction to the sampled light *)
  distance : float;      (* distance to the sampled light *)
  Li : float3;           (* weighted incident radiance *)
  pathSample : Z;
  misWeight : float3
}.

(** [FinalSample finalSample = {};] *)
Definition empty : t := mk float3_zero F32.zero float3_zero 0 float3_zero.

End FinalSample.

(** [s * v] for a scalar and a [float3]. *)
Definition scale3 (s : float) (v : float3) : float3 :=
  let '(vx, vy, vz) := v in ((s * vx)%f32, (s * vy)%f32, (s * vz)%f32).

Module EvaluateFinalSamples.

Section Pass.
Context {S : Type} `{SG : ISampleGenerator S} `{SC : Scene S}.

(** [struct EvaluateFinalSamples]. *)
Record t : Type := mk {
  resEvalContext : Z -> EvalContext.t;
  finalSamples : Z -> FinalSample.t;
  finalPrimaryHits : Z -> HitInfo.t;
  kUseVisibility : bool;
  kReuseVisibility : bool;
  kUnbiased : bool;
  kMaxHistoryLength : Z;
  kDebugOutput : DebugOutput;
  reservoirs : Z -> Reservoir.t;
  debugOutput : uint2 -> float4;
  lights : Lights;
  frameDim : uint2;
  frameIndex : Z;
  numRestirPasses : Z
}.

Definition with_buffers (e : Z -> EvalContext.t) (f : Z -> FinalSample.t)
    (h : Z -> HitInfo.t) (self : t) : t :=
  mk e f h (kUseVisibility self) (kReuseVisibility self) (kUnbiased self)
     (kMaxHistoryLength self) (kDebugOutput self) (reservoirs self)
     (debugOutput self) (lights self) (frameDim self) (frameIndex self)
     (numRestirPasses self).

(** [evalPathIncidentRadiance]: the final sample with the weighted
    incident radiance of the reservoir written into it. *)
Definition evalPathIncidentRadiance (self : t) (reservoir : Reservoir.t)
    (evalContext : EvalContext.t) (pixelIdxInReservoirBuffer : Z)
    (finalSample : FinalSample.t) : FinalSample.t :=
  if Reservoir.pathSample reservoir =? 1 then
    FinalSample.mk (FinalSample.dir finalSample)
      (FinalSample.distance finalSample)
      (scale3 (Reservoir.weight reservoir) (EvalContext.emission evalContext))
      (FinalSample.pathSample finalSample) (FinalSample.misWeight finalSample)
  else if (Reservoir.pathSample reservoir =? 2)
          && Reservoir.isLightSampleValid reservoir then
    let evaluatedLightSample :=
      evalLightSample (lights self) (Reservoir.lightSample reservoir)
        (EvalContext.pos evalContext) in
    let visibility :=
      if kUseVisibility self
      then evalVisibility evalContext evaluatedLightSample
      else F32.one in
    if (visibility >? F32.zero)%f32 then
      let dir := EvaluatedLightSample.dir evaluatedLightSample in
      FinalSample.mk dir
        (EvaluatedLightSample.distance evaluatedLightSample)
        (scale3
           (Reservoir.weight reservoir
            * EvaluatedLightSample.geomFactor evaluatedLightSample)%f32
           (evalEmission (lights self) (Reservoir.lightSample reservoir)
              (neg3 dir)))
        (FinalSample.pathSample finalSample)
        (FinalSample.misWeight finalSample)
    else finalSample
  else finalSample.

(** The body of the loop over the passes. *)
Definition processPass (pixel : uint2) (i : Z) (self : t) : t :=
  let pixelIdxInReservoirBuffer :=
    getPixelIndexInPass (frameDim self) pixel i in
  let evalContext := resEvalContext self pixelIdxInReservoirBuffer in
  let reservoir := reservoirs self pixelIdxInReservoirBuffer in
  let finalSample :=
    evalPathIncidentRadiance self reservoir evalContext
      pixelIdxInReservoirBuffer FinalSample.empty in
  let w := (F32.one / F32.of_uint (numRestirPasses self))%f32 in
  let evalContext :=
    if Reservoir.M reservoir =? 0
    then EvalContext.with_hit HitInfo.none evalContext
    else evalContext in
  let finalSample :=
    FinalSample.mk (FinalSample.dir finalSample)
      (FinalSample.distance finalSample) (FinalSample.Li finalSample)
      (Reservoir.pathSample reservoir) (w, w, w) in
  with_buffers
    (upd (resEvalContext self) pixelIdxInReservoirBuffer evalContext)
    (upd (finalSamples self) pixelIdxInReservoirBuffer finalSample)
    (upd (finalPrimaryHits self) pixelIdxInReservoirBuffer
       (EvalContext.hit evalContext))
    self.

(** [EvaluateFinalSamples::process]: one thread of the pass. *)
Definition process (self : t) (pixel : uint2) : t :=
  if outsideFrame (frameDim self) pixel then self
  else loopRange (numRestirPasses self) (processPass pixel) self.

End Pass.
End EvaluateFinalSamples.

(* ===================================================================== *)
(** * Light tile generation *)
(* ===================================================================== *)

Module GenerateLightTiles.

Section Pass.
Context {S : Type} `{SG : ISampleGenerator S} `{SC : Scene S}
        `{INTR : Intrinsics}.

(** [struct GenerateLightTiles]. *)
Record t : Type := mk {
  lightTileData : Z -> LoadedLightSample;
  kLightTileCount : Z;
  kLightTileSize : Z;
  kEnvLightSampleCount : Z;
  kEmissiveLightSampleCount : Z;
  kAnalyticLightSampleCount : Z;
  lights : Lights;
  frameIndex : Z
}.

Definition getStratifiedRandom (sampleIndex sampleCount : Z) (offset : float)
  : float :=
  frac (offset + F32.of_uint sampleIndex / F32.of_uint sampleCount)%f32.

(** The light sample of one slot of one tile. *)
Definition tileSample (self : t) (tileIndex sampleIndex : Z)
  : LightSample.t :=
  let bufferIndex :=
    U32.add (U32.mul tileIndex (kLightTileSize self)) sampleIndex in
  (* per-tile random generator and offset *)
  let tileSg := sgFromSeed tileIndex (frameIndex self) in
  let offset := fst (sampleNext1D tileSg) in
  (* per-thread random generator *)
  let sg := sgFromSeed bufferIndex (frameIndex self) in
  if sampleIndex <? kEnvLightSampleCount self then
    fst (sampleEnv (lights self)
           (getStratifiedRandom sampleIndex (kEnvLightSampleCount self) offset)
           sg)
  else if sampleIndex
          <? U32.add (kEnvLightSampleCount self)
               (kEmissiveLightSampleCount self) then
    fst (sampleEmissive (lights self)
           (getStratifiedRandom sampleIndex (kEmissiveLightSampleCount self)
              offset) sg)
  else
    fst (sampleAnalytic (lights self)
           (getStratifiedRandom sampleIndex (kAnalyticLightSampleCount self)
              offset) sg).

(** [GenerateLightTiles::process]: one thread of the pass. *)
Definition process (self : t) (tileIndex sampleIndex : Z) : t :=
  if (kLightTileCount self <=? tileIndex)
     || (kLightTileSize self <=? sampleIndex)
  then self
  else
    let bufferIndex :=
      U32.add (U32.mul tileIndex (kLightTileSize self)) sampleIndex in
    mk (upd (lightTileData self) bufferIndex
          (loadLightSample (lights self)
             (tileSample self tileIndex sampleIndex)))
       (kLightTileCount self) (kLightTileSize self)
       (kEnvLightSampleCount self) (kEmissiveLightSampleCount self)
       (kAnalyticLightSampleCount self) (lights self) (frameIndex self).

End Pass.
End GenerateLightTiles.

(* ===================================================================== *)
(** * EvalContext.slang: the BSDF of the evaluation context *)
(* ===================================================================== *)

(** [sampleBSDF], [evalBsdfPDF] and [evalBSDF] as EvalContext.slang
    implements them.  The properties of the passes hold for every
    [Scene]; the concrete runs evaluate this BSDF.

    The material library the evaluation context imports
    ([Rendering.Materials.IsotropicGGX], [Rendering.Materials.Fresnel],
    [Utils.Math.MathHelpers], the [LobeType] enumeration) and the
    material instance behind a hair surface are not among the sources;
    the BSDF takes them as given. *)
Class Materials (S : Type) : Type := {
  normalize : float3 -> float3;
  reflect : float3 -> float3 -> float3;
  perp_stark : float3 -> float3;
  evalNdfGGX : float -> float -> float;
  evalPdfGGX_NDF : float -> float -> float;
  evalMaskingSmithGGXSeparable : float -> float -> float -> float;
  evalFresnelSchlick : float3 -> float -> float -> float3;
  sample_cosine_hemisphere_concentric : float2 -> float3 * float;
  sampleGGX_NDF : float -> float2 -> float3 * float;
  kSpecularReflection : Z;
  materialSample : EvalContext.t -> Gen S (bool * float3 * float);
  materialEval : EvalContext.t -> float3 -> Gen S float3;
  materialEvalPdf : EvalContext.t -> float3 -> float
}.

Definition add3 (a b : float3) : float3 :=
  let '(ax, ay, az) := a in
  let '(bx, by_, bz) := b in
  ((ax + bx)%f32, (ay + by_)%f32, (az + bz)%f32).

(** [cross(a, b)] *)
Definition cross3 (a b : float3) : float3 :=
  let '(ax, ay, az) := a in
  let '(bx, by_, bz) := b in
  ((ay * bz - az * by_)%f32, (az * bx - ax * bz)%f32,
   (ax * by_ - ay * bx)%f32).

(** [v * s] and [v / s] for a [float3] and a scalar, [max(0.f, v)]. *)
Definition mul3 (v : float3) (s : float) : float3 :=
  let '(vx, vy, vz) := v in ((vx * s)%f32, (vy * s)%f32, (vz * s)%f32).

Definition div3 (v : float3) (s : float) : float3 :=
  let '(vx, vy, vz) := v in ((vx / s)%f32, (vy / s)%f32, (vz / s)%f32).

Definition max3_zero (v : float3) : float3 :=
  let '(vx, vy, vz) := v in
  (F32.max F32.zero vx, F32.max F32.zero vy, F32.max F32.zero vz).

(** [M_1_PI] of MathConstants.slangh, [0.318309886183790671538f]. *)
Definition M_1_PI : float := S754_finite false 10680707 (-25).

Definition f32_four : float := S754_finite false 8388608 (-21).

Module Bsdf.

Section Eval.
Context {S : Type} `{SG : ISampleGenerator S} `{MAT : Materials S}.

(** [static const float kMinCosTheta = 1e-6f;] *)
Definition kMinCosTheta : float := S754_finite false 8796093 (-43).

(** [hasLobe]: [(lobeTypes & (uint)lobeType) != 0] *)
Definition hasLobe (c : EvalContext.t) (lobeType : Z) : bool :=
  negb (U32.land (EvalContext.lobeTypes c) lobeType =? 0).

(** [toLocal]: a direction from world to local space. *)
Definition toLocal (c : EvalContext.t) (w : float3) : float3 :=
  let B := perp_stark (EvalContext.N c) in
  let T := cross3 B (EvalContext.N c) in
  (dot3 B w, dot3 T w, dot3 (EvalContext.N c) w).

(** [toGlobal]: a direction from local to world space. *)
Definition toGlobal (c : EvalContext.t) (w : float3) : float3 :=
  let B := perp_stark (EvalContext.N c) in
  let T := cross3 B (EvalContext.N c) in
  let '(wx, wy, wz) := w in
  add3 (add3 (mul3 B wx) (mul3 T wy)) (mul3 (EvalContext.N c) wz).

(** [sampleStandardBSDF]: Lambert diffuse and microfacet specular. *)
Definition sampleStandardBSDF (c : EvalContext.t) (xi : float3)
  : bool * float3 * float :=
  let '(xix, xiy, xiz) := xi in
  let '(dir, pdf) :=
    if (xix <? EvalContext.diffuseSpecularMix c)%f32 then
      let '(d, pdf) := sample_cosine_hemisphere_concentric (xiy, xiz) in
      (toGlobal c d, pdf)
    else
      let '(h, pdf) := sampleGGX_NDF (EvalContext.ggxAlpha c) (xiy, xiz) in
      (reflect (neg3 (EvalContext.V c)) (toGlobal c h), pdf) in
  (F32.geb (dot3 (EvalContext.N c) dir) kMinCosTheta, dir, pdf).

(** [sampleBSDF]; the [out] parameters of a material that is neither
    standard nor hair are left at zero. *)
Definition sampleBSDF (c : EvalContext.t) : Gen S (bool * float3 * float) :=
  match EvalContext.materialType c with
  | Standard => (xi <- sampleNext3D ;; ret (sampleStandardBSDF c xi))%gen
  | Hair => materialSample c
  | OtherMaterial => ret (false, float3_zero, F32.zero)
  end.

(** [evalStandardBsdfPDF] *)
Definition evalStandardBsdfPDF (c : EvalContext.t) (L : float3) : float :=
  let NdotL := saturate (dot3 (EvalContext.N c) L) in
  if (F32.min (EvalContext.NdotV c) NdotL <? kMinCosTheta)%f32 then F32.zero
  else
    let diffusePdf := (NdotL * M_1_PI)%f32 in
    let specularPdf :=
      if hasLobe c kSpecularReflection then
        let H := normalize (toLocal c (add3 (EvalContext.V c) L)) in
        (evalPdfGGX_NDF (EvalContext.ggxAlpha c) (snd H)
         / (f32_four * saturate (dot3 H (toLocal c (EvalContext.V c)))))%f32
      else F32.zero in
    lerp specularPdf diffusePdf (EvalContext.diffuseSpecularMix c).

(** [evalBsdfPDF]; [wo] is the scattering direction. *)
Definition evalBsdfPDF (c : EvalContext.t) (wo : float3) : float :=
  match EvalContext.materialType c with
  | Standard => evalStandardBsdfPDF c wo
  | Hair => materialEvalPdf c wo
  | OtherMaterial => F32.zero
  end.

(** [evalStandardBSDF] *)
Definition evalStandardBSDF (c : EvalContext.t) (L : float3) : float3 :=
  let NdotL := saturate (dot3 (EvalContext.N c) L) in
  let H := normalize (add3 (EvalContext.V c) L) in
  let NdotH := saturate (dot3 (EvalContext.N c) H) in
  let LdotH := saturate (dot3 L H) in
  if (F32.min (EvalContext.NdotV c) NdotL <? kMinCosTheta)%f32
  then float3_zero
  else
    let diffuse := mul3 (mul3 (EvalContext.diffuseAlbedo c) NdotL) M_1_PI in
    let specular :=
      if hasLobe c kSpecularReflection then
        let D := evalNdfGGX (EvalContext.ggxAlpha c) NdotH in
        let G :=
          evalMaskingSmithGGXSeparable (EvalContext.ggxAlpha c)
            (EvalContext.NdotV c) NdotL in
        let F := evalFresnelSchlick (EvalContext.specularAlbedo c) F32.one
                   LdotH in
        max3_zero
          (div3 (scale3 (D * G)%f32 F) (f32_four * EvalContext.NdotV c)%f32)
      else float3_zero in
    add3 diffuse specular.

(** [evalBSDF]; [wo] is the direction to the light. *)
Definition evalBSDF (c : EvalContext.t) (wo : float3) : Gen S float3 :=
  match EvalContext.materialType c with
  | Standard => ret (evalStandardBSDF c wo)
  | Hair => materialEval c wo
  | OtherMaterial => ret float3_zero
  end.

(** On a standard material without a specular lobe the BSDF is the
    Lambert term alone, whatever the material library holds. *)
Lemma diffuse_only (c : EvalContext.t) (L : float3) (sg : S) :
  EvalContext.materialType c = Standard ->
  hasLobe c kSpecularReflection = false ->
  let NdotL := saturate (dot3 (EvalContext.N c) L) in
  let below := (F32.min (EvalContext.NdotV c) NdotL <? kMinCosTheta)%f32 in
  evalBSDF c L sg
  = (if below then float3_zero
     else add3 (mul3 (mul3 (EvalContext.diffuseAlbedo c) NdotL) M_1_PI)
            float3_zero, sg)
  /\ evalBsdfPDF c L
     = (if below then F32.zero
        else lerp F32.zero (NdotL * M_1_PI)%f32
               (EvalContext.diffuseSpecularMix c)).
Proof.
  intros Hm Hl. cbv zeta.
  unfold evalBSDF, evalBsdfPDF, evalStandardBSDF, evalStandardBsdfPDF, ret.
  rewrite Hm, Hl. split; reflexivity.
Qed.

End Eval.

End Bsdf.

(* ===================================================================== *)
(** * Reference instances

    A small generator, intrinsics and scene on which the passes run to a
    value; the concrete runs of the theorems below use them. *)
(* ===================================================================== *)

Module Reference.

(** A linear congruential generator over 32 bits; the next uniform
    number is its upper 24 bits scaled by [2^-24]. *)
Definition lcgNext (s : Z) : float * Z :=
  let s' := U32.wrap (1664525 * s + 1013904223) in
  ((F32.of_uint (Z.shiftr s' 8) * S754_finite false 8388608 (-47))%f32, s').

#[global] Instance lcg : ISampleGenerator Z := {
  sampleNext1D := lcgNext;
  sgFromPixel := fun pixel sampleNum =>
    U32.wrap (fst pixel + 65536 * snd pixel + 7919 * sampleNum);
  sgFromSeed := fun seed sampleNum => U32.wrap (seed + 7919 * sampleNum)
}.

(** [x ^ n] by repeated multiplication. *)
Fixpoint powNat (x : float) (n : nat) : float :=
  match n with
  | O => F32.one
  | Datatypes.S n' => (powNat x n' * x)%f32
  end.

#[global] Instance intrinsics : Intrinsics := {
  pow := fun x y => powNat x (Z.to_nat (F32.to_uint y));
  frac := fun x => (x - F32.of_uint (F32.to_uint x))%f32
}.

Definition kLumR : float := S754_finite false 14267344 (-26).
Definition kLumG : float := S754_finite false 11999065 (-24).
Definition kLumB : float := S754_finite false 9690520 (-27).

(** The material library: the half vector is normalized through the
    square root of the format; the reference surfaces are standard
    materials without a specular lobe, so that no run below reaches the
    microfacet terms, the hemisphere sampling or a material instance,
    which are left trivial. *)
#[global] Instance materials : Materials Z := {
  normalize := fun v =>
    div3 v (SFsqrt F32.prec F32.emax (dot3 v v));
  reflect := fun i n =>
    let s := (f32_two * dot3 i n)%f32 in
    add3 i (neg3 (mul3 n s));
  perp_stark := fun _ => (F32.one, F32.zero, F32.zero);
  evalNdfGGX := fun _ _ => F32.zero;
  evalPdfGGX_NDF := fun _ _ => F32.zero;
  evalMaskingSmithGGXSeparable := fun _ _ _ => F32.zero;
  evalFresnelSchlick := fun f0 _ _ => f0;
  sample_cosine_hemisphere_concentric := fun _ =>
    ((F32.zero, F32.zero, F32.one), M_1_PI);
  sampleGGX_NDF := fun _ _ => ((F32.zero, F32.zero, F32.one), F32.one);
  kSpecularReflection := 2;
  materialSample := fun _ => ret (false, float3_zero, F32.zero);
  materialEval := fun _ _ => ret float3_zero;
  materialEvalPdf := fun _ _ => F32.zero
}.

(** A scene whose lights are a table from light index to the evaluated
    sample (the same from every position); a surface is lit unless it
    lies at negative [x]; nothing is hit by a traced ray.  The BSDF is
    that of the evaluation context. *)
#[global] Instance scene : Scene Z := {
  LoadedLightSample := (LightSample.t * EvaluatedLightSample.t)%type;
  lls_lightSample := fst;
  lls_posOrDir := fun l => EvaluatedLightSample.dir (snd l);
  lls_eval := fun l _ => snd l;
  lls_default :=
    (LightSample.createInvalid,
     EvaluatedLightSample.mk float3_zero F32.zero F32.zero F32.zero F32.zero);
  Lights := Z -> EvaluatedLightSample.t;
  loadLightSample := fun lights ls => (ls, lights (LightSample.index ls));
  evalLightSample := fun lights ls _ => lights (LightSample.index ls);
  evalEmission := fun lights ls _ =>
    let e := EvaluatedLightSample.emission (lights (LightSample.index ls)) in
    (e, e, e);
  sampleEnv := fun _ u =>
    ret (LightSample.mk LightSample.Environment 0 [u]);
  sampleEmissive := fun _ u =>
    ret (LightSample.mk LightSample.Emissive (F32.to_uint u) [u]);
  sampleAnalytic := fun _ u =>
    ret (LightSample.mk LightSample.Analytic (F32.to_uint u) [u]);
  kRayTMax := S754_finite false 16777215 104;
  kRayEpsilon := S754_finite false 8589935 (-33);
  kUseEmissiveLights := true;
  kUseEnvLight := true;
  luminance := fun c =>
    let '(r, g, b) := c in (kLumR * r + kLumG * g + kLumB * b)%f32;
  isSurfaceValidData := fun sd => F32.leb F32.zero (SurfaceData.depth sd);
  evalBSDF := Bsdf.evalBSDF;
  evalBsdfPDF := Bsdf.evalBsdfPDF;
  sampleBSDF := Bsdf.sampleBSDF;
  traceVisibilityRay := fun ray =>
    F32.leb F32.zero (fst (fst (Ray.origin ray)));
  sceneTraceRay := fun _ => (false, HitInfo.none);
  getTriangleIndex := fun _ primitiveIndex => primitiveIndex;
  kInvalidIndex := U32.max_uint;
  computeRayPinholeSubPixelRandom := fun _ _ _ =>
    (F32.zero, F32.zero, F32.one)
}.

Definition unitZ : float3 := (F32.zero, F32.zero, F32.one).
Definition white : float3 := (F32.one, F32.one, F32.one).

(** A light at unit distance along [z] with the given emission and PDF. *)
Definition light (emission pdf : float) : EvaluatedLightSample.t :=
  EvaluatedLightSample.mk unitZ F32.one F32.one pdf emission.

(** A diffuse white surface at position [pos]. *)
Definition surface (pos : float3) : SurfaceData.t :=
  SurfaceData.mk pos F32.one unitZ unitZ F32.one F32.zero white
    float3_zero F32.one float3_zero Standard 0
    (HitInfo.mk HitInfo.Triangle 0 0 (F32.zero, F32.zero)).

Definition emissiveSample (i : Z) : LightSample.t :=
  LightSample.mk LightSample.Emissive i [].

(** An initial resampling pass over a 4 x 4 frame: one light tile of two
    samples, two light candidates per pixel, no BRDF candidates. *)
Definition initialPass (checkVisibility : bool) (lights : Z -> EvaluatedLightSample.t)
    (sd : SurfaceData.t) : InitialResampling.t :=
  InitialResampling.mk
    (fun _ => Reservoir.createEmpty 2)
    (fun _ => EvalContext.create (0, 0) (4, 4) false sd float3_zero)
    (fun _ => EvalContext.create (0, 0) (4, 4) false sd float3_zero)
    (fun _ => float4_zero)
    1 2 8 2 0 0 checkVisibility DebugDisabled 1
    (fun _ => sd) (fun _ => 0) (fun _ => unitZ)
    (fun i => (emissiveSample i, lights i))
    lights (4, 4) 0 F32.zero 0 F32.zero F32.zero F32.zero 0.

End Reference.

(* ===================================================================== *)
(** * Properties: the streaming update *)
(* ===================================================================== *)

(** What one streaming update of [state] with a light sample must have
    produced: the selection flag, the successor state and generator. *)
Definition streaming_update_post {S : Type} `{ISampleGenerator S}
    (state : RisState.t) (lightSample : LightSample.t)
    (targetPdf sourcePdf misWeight : float) (sg : S)
    (result : bool * RisState.t * S) : Prop :=
  let sampleWeight := (misWeight * targetPdf / sourcePdf)%f32 in
  let weightSum' := (RisState.weightSum state + sampleWeight)%f32 in
  let replaced :=
    (fst (sampleNext1D sg) * weightSum' <? sampleWeight)%f32 in
  let '(selected, state', sg') := result in
  selected = replaced
  /\ sg' = snd (sampleNext1D sg)
  /\ RisState.weightSum state' = weightSum'
  /\ RisState.M state' = (RisState.M state + F32.one)%f32
  /\ RisState.lightSample state'
     = (if replaced then lightSample else RisState.lightSample state)
  /\ RisState.targetPdf state'
     = (if replaced then targetPdf else RisState.targetPdf state)
  /\ RisState.pathSample state' = RisState.pathSample state
  /\ RisState.weight state' = RisState.weight state
  /\ RisState.canonicalWeight state' = RisState.canonicalWeight state.

Section StreamingUpdate.
Context {S : Type} `{SG : ISampleGenerator S}.

Lemma selectSample_run (state : RisState.t) (sampleWeight : float) (sg : S) :
  selectSample state sampleWeight sg
  = ((fst (sampleNext1D sg) * RisState.weightSum state <? sampleWeight)%f32,
     snd (sampleNext1D sg)).
Proof.
  unfold selectSample, bind, ret.
  destruct (sampleNext1D sg) as [u sg']; reflexivity.
Qed.

(** C1: [streamingInitialResampleMIS] computes
    [sampleWeight = misWeight * targetPdf / sourcePdf], adds it to
    [weightSum], adds one to [M], and replaces the held sample (light
    sample and target PDF) exactly when
    [rng.uniform() * weightSum < sampleWeight] with the updated
    [weightSum]; the returned flag is that test.  Both light-sample
    overloads behave so; all arithmetic is binary32. *)
Theorem streamingInitialResampleMIS_update :
  forall (state : RisState.t) (lightSample : LightSample.t)
         (targetPdf sourcePdf misWeight pHat_withoutAlbedo : float) (sg : S),
    streaming_update_post state lightSample targetPdf sourcePdf misWeight sg
      (streamingInitialResampleMIS_withoutAlbedo state lightSample targetPdf
         sourcePdf misWeight pHat_withoutAlbedo sg)
    /\ streaming_update_post state lightSample targetPdf sourcePdf misWeight sg
         (streamingInitialResampleMIS state lightSample targetPdf sourcePdf
            misWeight sg).
Proof.
  intros state lightSample targetPdf sourcePdf misWeight pHat sg.
  unfold streaming_update_post, streamingInitialResampleMIS_withoutAlbedo,
    streamingInitialResampleMIS, bind, ret.
  rewrite !selectSample_run. cbn [fst snd RisState.weightSum RisState.with_M
    RisState.with_weightSum].
  set (sel := (_ <? _)%f32).
  split; destruct sel; cbn; repeat split; reflexivity.
Qed.

End StreamingUpdate.

(* ===================================================================== *)
(** * Properties: finalization and the Inf/NaN guard *)
(* ===================================================================== *)

Lemma eqb_zero_not_gtb (x : float) :
  (x =? F32.zero)%f32 = true -> (x >? F32.zero)%f32 = false.
Proof.
  intros H. destruct x as [s | s | | s m e]; cbn in *;
    try reflexivity; try discriminate; destruct s; discriminate.
Qed.

Lemma isnan_not_gtb (x y : float) :
  F32.isnan x = true -> (x >? y)%f32 = false.
Proof.
  destruct x; try discriminate. intros _.
  destruct y as [? | ? | | ? ? ?]; reflexivity.
Qed.

(** An infinite numerator over a positive denominator is infinite or NaN. *)
Lemma div_inf_gtb_zero (x y : float) :
  F32.isinf x = true -> (y >? F32.zero)%f32 = true ->
  F32.isinf (x / y)%f32 || F32.isnan (x / y)%f32 = true.
Proof.
  destruct x as [? | sx | | ? ? ?]; try discriminate. intros _.
  destruct y as [sy | sy | | sy m e]; cbn; try discriminate; reflexivity.
Qed.

Lemma finalizeWeight_weight (s : RisState.t) :
  RisState.weight (RisState.finalizeWeight s)
  = if (RisState.targetPdf s >? F32.zero)%f32
    then (RisState.weightSum s / RisState.targetPdf s)%f32
    else F32.zero.
Proof. reflexivity. Qed.

(** The reservoir with the fields of a state, [M] converted to [uint]. *)
Definition reservoirOfState (s : RisState.t) : Reservoir.t :=
  {| Reservoir.lightSample := RisState.lightSample s;
     Reservoir.M := F32.to_uint (RisState.M s);
     Reservoir.weight := RisState.weight s;
     Reservoir.pathSample := RisState.pathSample s;
     Reservoir.targetPdf := RisState.targetPdf s |}.

Lemma toReservoir_cases (s : RisState.t) :
  RisState.toReservoir s
  = if F32.isinf (RisState.weight s) || F32.isnan (RisState.weight s)
    then Reservoir.createEmpty (RisState.pathSample s)
    else reservoirOfState s.
Proof. reflexivity. Qed.

(** A state holding a valid sample whose target PDF is NaN, and one
    whose weight sum is infinite while its target PDF is zero. *)
Definition nanTargetState : RisState.t :=
  {| RisState.lightSample := Reference.emissiveSample 3;
     RisState.pathSample := 2;
     RisState.weightSum := F32.one;
     RisState.M := F32.one;
     RisState.weight := F32.zero;
     RisState.targetPdf := F32.nan;
     RisState.canonicalWeight := F32.zero |}.

Definition infSumZeroTargetState : RisState.t :=
  {| RisState.lightSample := Reference.emissiveSample 3;
     RisState.pathSample := 2;
     RisState.weightSum := F32.infinity;
     RisState.M := F32.one;
     RisState.weight := F32.zero;
     RisState.targetPdf := F32.zero;
     RisState.canonicalWeight := F32.zero |}.

(** C3, as stated, fails: with [targetPdf = NaN] at finalization (and
    likewise with [weightSum = Inf] over a zero target PDF) the
    finalized weight is 0, so [toReservoir] keeps the sample: [M] is 1
    and the light sample is valid. *)
Lemma nan_targetPdf_is_not_collapsed :
  F32.isnan (RisState.targetPdf nanTargetState) = true
  /\ Reservoir.M (RisState.toReservoir (RisState.finalizeWeight nanTargetState))
     = 1
  /\ Reservoir.isLightSampleValid
       (RisState.toReservoir (RisState.finalizeWeight nanTargetState)) = true
  /\ F32.isinf (RisState.weightSum infSumZeroTargetState) = true
  /\ Reservoir.M
       (RisState.toReservoir (RisState.finalizeWeight infSumZeroTargetState))
     = 1
  /\ Reservoir.isLightSampleValid
       (RisState.toReservoir (RisState.finalizeWeight infSumZeroTargetState))
     = true.
Proof. repeat split; reflexivity. Qed.

(** C3, amended: [toReservoir] yields the empty reservoir ([M = 0],
    [weight = 0], invalid light sample) exactly when the state's weight
    is infinite or NaN, and otherwise preserves light sample, weight,
    path sample and target PDF.  At finalization an infinite weight sum
    collapses the reservoir when the target PDF is positive; a NaN
    target PDF finalizes to weight 0 and the reservoir is kept. *)
Theorem toReservoir_inf_nan_guard :
  forall s : RisState.t,
    (F32.isinf (RisState.weight s) || F32.isnan (RisState.weight s) = true ->
       RisState.toReservoir s = Reservoir.createEmpty (RisState.pathSample s)
       /\ Reservoir.M (RisState.toReservoir s) = 0
       /\ Reservoir.weight (RisState.toReservoir s) = F32.zero
       /\ Reservoir.isLightSampleValid (RisState.toReservoir s) = false)
    /\ (F32.isinf (RisState.weight s) || F32.isnan (RisState.weight s) = false ->
        Reservoir.lightSample (RisState.toReservoir s) = RisState.lightSample s
        /\ Reservoir.weight (RisState.toReservoir s) = RisState.weight s
        /\ Reservoir.pathSample (RisState.toReservoir s) = RisState.pathSample s
        /\ Reservoir.targetPdf (RisState.toReservoir s) = RisState.targetPdf s
        /\ Reservoir.M (RisState.toReservoir s) = F32.to_uint (RisState.M s))
    /\ (F32.isinf (RisState.weightSum s) = true ->
        (RisState.targetPdf s >? F32.zero)%f32 = true ->
        RisState.toReservoir (RisState.finalizeWeight s)
        = Reservoir.createEmpty (RisState.pathSample s))
    /\ (F32.isnan (RisState.targetPdf s) = true ->
        RisState.weight (RisState.finalizeWeight s) = F32.zero
        /\ RisState.toReservoir (RisState.finalizeWeight s)
           = reservoirOfState (RisState.with_weight F32.zero s)).
Proof.
  intros s. repeat apply conj.
  - intros H. rewrite toReservoir_cases, H. repeat split; reflexivity.
  - intros H. rewrite toReservoir_cases, H. repeat split; reflexivity.
  - intros Hinf Hpos. rewrite toReservoir_cases, finalizeWeight_weight, Hpos.
    rewrite (div_inf_gtb_zero _ _ Hinf Hpos). reflexivity.
  - intros Hnan. pose proof (isnan_not_gtb _ F32.zero Hnan) as Hg.
    unfold RisState.finalizeWeight. rewrite Hg. split; reflexivity.
Qed.

(* ===================================================================== *)
(** * Properties: the initial resampling pass *)
(* ===================================================================== *)

Lemma upd_same {A : Type} (buf : Z -> A) (i : Z) (v : A) : upd buf i v i = v.
Proof. unfold upd. rewrite Z.eqb_refl. reflexivity. Qed.

(** [0.125f] *)
Definition f32_eighth : float := S754_finite false 8388608 (-26).

(** A pass over the overflow scene: every light carries the emission
    [2^127] and the source PDF [1/8].  The first candidate is selected
    with a finite weight; the second drives the weight sum to
    infinity. *)
Definition overflowPass : InitialResampling.t :=
  Reference.initialPass false
    (fun _ => Reference.light (S754_finite false 8388608 104) f32_eighth)
    (Reference.surface (F32.one, F32.zero, F32.zero)).

(** A pass with the visibility check over a lit and over a shadowed
    surface (the reference scene occludes positions of negative [x]). *)
Definition litPass : InitialResampling.t :=
  Reference.initialPass true (fun _ => Reference.light F32.one f32_half)
    (Reference.surface (F32.one, F32.zero, F32.zero)).

Definition shadowedPass : InitialResampling.t :=
  Reference.initialPass true (fun _ => Reference.light F32.one f32_half)
    (Reference.surface (SFopp F32.one, F32.zero, F32.zero)).

Section InitialPass.
Context {S : Type} `{SG : ISampleGenerator S} `{SC : Scene S}.

(** What a thread of the pass works with: its evaluation context, the
    RIS state after all candidates were streamed, the state it converts
    and saves, and the slot it saves to. *)
Definition threadContext (self : InitialResampling.t) (pixel : uint2)
  : EvalContext.t :=
  let '(evalContext, _, _, _, _) := InitialResampling.threadSetup self pixel in
  evalContext.

Definition threadCandidates (self : InitialResampling.t) (pixel : uint2)
  : RisState.t :=
  let '(evalContext, lightTileOffset, offset, stride, sg) :=
    InitialResampling.threadSetup self pixel in
  fst (InitialResampling.streamCandidates self evalContext lightTileOffset
         offset stride sg).

Definition threadRisState (self : InitialResampling.t) (pixel : uint2)
  : RisState.t :=
  let '(evalContext, lightTileOffset, offset, stride, sg) :=
    InitialResampling.threadSetup self pixel in
  fst (InitialResampling.finalRisState self evalContext lightTileOffset
         offset stride sg).

Definition threadSlot (self : InitialResampling.t) (pixel : uint2) : Z :=
  getPixelIndexInPass (InitialResampling.frameDim self) pixel
    (InitialResampling.restirPassIdx self).

Definition storedReservoir (self : InitialResampling.t) (pixel : uint2)
  : Reservoir.t :=
  InitialResampling.reservoirs (InitialResampling.process self pixel)
    (threadSlot self pixel).

Lemma threadRisState_eq (self : InitialResampling.t) (pixel : uint2) :
  threadRisState self pixel
  = InitialResampling.finalize
      (InitialResampling.checkSelectedVisibility self
         (threadContext self pixel) (threadCandidates self pixel)).
Proof.
  unfold threadRisState, threadContext, threadCandidates.
  destruct (InitialResampling.threadSetup self pixel)
    as [[[[evalContext lto] off] stride] sg].
  unfold InitialResampling.finalRisState, bind, ret.
  destruct (InitialResampling.streamCandidates _ _ _ _ _ _) as [r sg'].
  reflexivity.
Qed.

(** On a valid surface the pass saves the converted final RIS state. *)
Lemma process_saves_final_state (self : InitialResampling.t) (pixel : uint2) :
  outsideFrame (InitialResampling.frameDim self) pixel = false ->
  EvalContext.isSurfaceValid (threadContext self pixel) = true ->
  storedReservoir self pixel
  = RisState.toReservoir (threadRisState self pixel).
Proof.
  intros Hin Hvalid.
  unfold storedReservoir, threadSlot, threadRisState, threadContext in *.
  unfold InitialResampling.process. rewrite Hin.
  destruct (InitialResampling.threadSetup self pixel)
    as [[[[evalContext lto] off] stride] sg].
  rewrite Hvalid. cbn [negb InitialResampling.reservoirs
    InitialResampling.with_buffers].
  apply upd_same.
Qed.

(** On the background the pass saves the trivial path-sample reservoir. *)
Lemma process_saves_background (self : InitialResampling.t) (pixel : uint2) :
  outsideFrame (InitialResampling.frameDim self) pixel = false ->
  EvalContext.isSurfaceValid (threadContext self pixel) = false ->
  Reservoir.M (storedReservoir self pixel) = 1
  /\ Reservoir.pathSample (storedReservoir self pixel) = 1
  /\ Reservoir.weight (storedReservoir self pixel) = F32.one.
Proof.
  intros Hin Hvalid.
  unfold storedReservoir, threadSlot, threadContext in *.
  unfold InitialResampling.process. rewrite Hin.
  destruct (InitialResampling.threadSetup self pixel)
    as [[[[evalContext lto] off] stride] sg].
  rewrite Hvalid. cbn [negb InitialResampling.reservoirs
    InitialResampling.with_buffers].
  rewrite upd_same. unfold InitialResampling.backgroundReservoir, bind, ret.
  destruct (evalTargetFunction _ _ _ _ _ _) as [pHat sg'].
  repeat split; reflexivity.
Qed.

Lemma finalize_fields (r : RisState.t) :
  RisState.M (InitialResampling.finalize r) = F32.one
  /\ RisState.lightSample (InitialResampling.finalize r) = RisState.lightSample r
  /\ RisState.pathSample (InitialResampling.finalize r) = RisState.pathSample r
  /\ RisState.targetPdf (InitialResampling.finalize r) = RisState.targetPdf r.
Proof. repeat split; reflexivity. Qed.

(** C8: with the candidate visibility check enabled, a selected light
    sample (path sample 2) that the visibility ray finds occluded is
    discarded: the stored reservoir holds an invalid light sample and
    weight 0, the final sample evaluation leaves the incident radiance
    at zero, and the stored [M] is 1, not 0. *)
Theorem occluded_selection_is_discarded :
  forall (self : InitialResampling.t) (pixel : uint2),
    outsideFrame (InitialResampling.frameDim self) pixel = false ->
    EvalContext.isSurfaceValid (threadContext self pixel) = true ->
    InitialResampling.kCheckVisibility self = true ->
    LightSample.isValid (RisState.lightSample (threadCandidates self pixel))
    = true ->
    RisState.pathSample (threadCandidates self pixel) = 2 ->
    (evalVisibility (threadContext self pixel)
       (evalLightSample (InitialResampling.lights self)
          (RisState.lightSample (threadCandidates self pixel))
          (EvalContext.pos (threadContext self pixel)))
     =? F32.zero)%f32 = true ->
    Reservoir.isLightSampleValid (storedReservoir self pixel) = false
    /\ Reservoir.weight (storedReservoir self pixel) = F32.zero
    /\ Reservoir.pathSample (storedReservoir self pixel) = 2
    /\ Reservoir.M (storedReservoir self pixel) = 1
    /\ (forall (final : EvaluateFinalSamples.t) (evalContext : EvalContext.t)
               (slot : Z),
           FinalSample.Li
             (EvaluateFinalSamples.evalPathIncidentRadiance final
                (storedReservoir self pixel) evalContext slot
                FinalSample.empty)
           = float3_zero).
Proof.
  intros self pixel Hin Hvalid Hcheck Hsample Hpath Hocc.
  rewrite (process_saves_final_state self pixel Hin Hvalid).
  rewrite threadRisState_eq.
  unfold InitialResampling.checkSelectedVisibility.
  rewrite Hcheck, Hsample, Hpath, Hocc. cbn.
  repeat split; reflexivity.
Qed.

(** C10, amended: for a pixel inside the frame the pass stores [M = 1]
    on the background, and on a valid surface [M = 1] unless the
    finalized weight is infinite or NaN, when the stored reservoir is
    the empty one and [M = 0]. *)
Theorem initial_pass_stored_M :
  forall (self : InitialResampling.t) (pixel : uint2),
    outsideFrame (InitialResampling.frameDim self) pixel = false ->
    Reservoir.M (storedReservoir self pixel)
    = if EvalContext.isSurfaceValid (threadContext self pixel)
      then
        if F32.isinf (RisState.weight (threadRisState self pixel))
           || F32.isnan (RisState.weight (threadRisState self pixel))
        then 0
        else 1
      else 1.
Proof.
  intros self pixel Hin.
  destruct (EvalContext.isSurfaceValid (threadContext self pixel)) eqn:Hvalid.
  - rewrite (process_saves_final_state self pixel Hin Hvalid).
    rewrite toReservoir_cases.
    destruct (F32.isinf _ || F32.isnan _); [reflexivity |].
    rewrite threadRisState_eq. reflexivity.
  - apply (process_saves_background self pixel Hin Hvalid).
Qed.

End InitialPass.

(** C8 at the shadowed pass: pixel (1, 1) selects an emissive sample,
    the visibility ray is blocked, and the stored reservoir is the
    discarded one with [M = 1]. *)
Lemma occluded_selection_witness :
  Reservoir.isLightSampleValid (storedReservoir shadowedPass (1, 1)) = false
  /\ Reservoir.weight (storedReservoir shadowedPass (1, 1)) = F32.zero
  /\ Reservoir.pathSample (storedReservoir shadowedPass (1, 1)) = 2
  /\ Reservoir.M (storedReservoir shadowedPass (1, 1)) = 1
  /\ (forall (final : EvaluateFinalSamples.t) (evalContext : EvalContext.t)
             (slot : Z),
         FinalSample.Li
           (EvaluateFinalSamples.evalPathIncidentRadiance final
              (storedReservoir shadowedPass (1, 1)) evalContext slot
              FinalSample.empty)
         = float3_zero).
Proof.
  apply (occluded_selection_is_discarded shadowedPass (1, 1));
    vm_compute; reflexivity.
Defined.

(** C10, as stated, fails: on the overflow scene pixel (1, 1) lies in
    the frame on a valid surface, the finalized weight is infinite, and
    the stored reservoir has [M = 0]. *)
Lemma initial_pass_M_can_be_zero :
  outsideFrame (InitialResampling.frameDim overflowPass) (1, 1) = false
  /\ EvalContext.isSurfaceValid (threadContext overflowPass (1, 1)) = true
  /\ RisState.M (threadRisState overflowPass (1, 1)) = F32.one
  /\ RisState.weight (threadRisState overflowPass (1, 1)) = F32.infinity
  /\ Reservoir.M (storedReservoir overflowPass (1, 1)) = 0.
Proof. vm_compute. repeat split; reflexivity. Qed.

(** C10 amended, at the lit pass: pixel (1, 1) lies in the frame on a
    valid surface, two candidates are streamed, the finalized weight is
    finite and the stored reservoir has [M = 1]. *)
Lemma initial_pass_stored_M_witness :
  outsideFrame (InitialResampling.frameDim litPass) (1, 1) = false
  /\ EvalContext.isSurfaceValid (threadContext litPass (1, 1)) = true
  /\ RisState.weight (threadRisState litPass (1, 1)) = f32_two
  /\ Reservoir.M (storedReservoir litPass (1, 1)) = 1.
Proof.
  assert (Hin : outsideFrame (InitialResampling.frameDim litPass) (1, 1)
                = false) by (vm_compute; reflexivity).
  split; [exact Hin |].
  split; [vm_compute; reflexivity |].
  split; [vm_compute; reflexivity |].
  rewrite (initial_pass_stored_M litPass (1, 1) Hin).
  vm_compute. reflexivity.
Defined.

(* ===================================================================== *)
(** * Properties: temporal history clamp and the M-factor *)
(* ===================================================================== *)

Lemma bind_run {G A B : Type} (c : Gen G A) (k : A -> Gen G B) (g : G) :
  bind c k g = k (fst (c g)) (snd (c g)).
Proof. unfold bind. destruct (c g); reflexivity. Qed.

Section PairwiseReuse.
Context {S : Type} `{SG : ISampleGenerator S} `{SC : Scene S}
        `{INTR : Intrinsics}.


(** The confidence weight a pairwise merge adds to [M]. *)
Definition pairwiseScale (useMFactor : bool) (candidateTargetPdf
    candidateTargetPdfAtOther canonicalTargetPdfAtOther canonicalTargetPdf
    : float) : float :=
  if useMFactor
  then F32.min (mFactor candidateTargetPdf candidateTargetPdfAtOther)
         (mFactor canonicalTargetPdfAtOther canonicalTargetPdf)
  else F32.one.

Lemma temporal_M_run (state : RisState.t) (canonicalReservoir : Reservoir.t)
    (canonicalContext : EvalContext.t) (candidateReservoir : Reservoir.t)
    (candidateContext : EvalContext.t) (lights : Lights) (useMFactor : bool)
    (confidenceWeightSum intersectAreaSize : float) (withVisibility : bool)
    (sg : S) :
  RisState.M
    (snd (fst (temporalResamplePointReservoirPairwiseMIS state
                 canonicalReservoir canonicalContext candidateReservoir
                 candidateContext lights useMFactor confidenceWeightSum
                 intersectAreaSize withVisibility sg)))
  = (RisState.M state
     + F32.of_uint (Reservoir.M candidateReservoir) * intersectAreaSize
       * pairwiseScale useMFactor (Reservoir.targetPdf candidateReservoir)
           (fst (evalTargetFunction canonicalContext
                   (loadLightSample lights
                      (Reservoir.lightSample candidateReservoir))
                   lights withVisibility 2 sg))
           (fst (evalTargetFunction candidateContext
                   (loadLightSample lights
                      (Reservoir.lightSample canonicalReservoir))
                   lights withVisibility 2
                   (snd (evalTargetFunction canonicalContext
                           (loadLightSample lights
                              (Reservoir.lightSample candidateReservoir))
                           lights withVisibility 2 sg))))
           (Reservoir.targetPdf canonicalReservoir))%f32.
Proof.
  unfold temporalResamplePointReservoirPairwiseMIS, mScaler, pairwiseScale.
  rewrite !bind_run. cbn [ret fst snd]. rewrite !selectSample_run.
  cbn [fst snd].
  match goal with
  | |- context [if (?a <? ?b)%f32 then _ else _] => destruct (a <? b)%f32
  end; reflexivity.
Qed.

Lemma spatial_M_run (state : RisState.t) (canonicalReservoir : Reservoir.t)
    (canonicalContext : EvalContext.t) (candidateReservoir : Reservoir.t)
    (candidateContext : EvalContext.t) (lights : Lights) (useMFactor : bool)
    (confidenceWeightSum : float) (withVisibility : bool) (sg : S) :
  RisState.M
    (snd (fst (spatialResamplePointReservoirPairwiseMIS state
                 canonicalReservoir canonicalContext candidateReservoir
                 candidateContext lights useMFactor confidenceWeightSum
                 withVisibility sg)))
  = (RisState.M state
     + F32.of_uint (Reservoir.M candidateReservoir)
       * pairwiseScale useMFactor (Reservoir.targetPdf candidateReservoir)
           (fst (evalTargetFunction canonicalContext
                   (loadLightSample lights
                      (Reservoir.lightSample candidateReservoir))
                   lights withVisibility 2 sg))
           (fst (evalTargetFunction candidateContext
                   (loadLightSample lights
                      (Reservoir.lightSample canonicalReservoir))
                   lights withVisibility 2
                   (snd (evalTargetFunction canonicalContext
                           (loadLightSample lights
                              (Reservoir.lightSample candidateReservoir))
                           lights withVisibility 2 sg))))
           (Reservoir.targetPdf canonicalReservoir))%f32.
Proof.
  unfold spatialResamplePointReservoirPairwiseMIS, mScaler, pairwiseScale.
  rewrite !bind_run. cbn [ret fst snd]. rewrite !selectSample_run.
  cbn [fst snd].
  match goal with
  | |- context [if (?a <? ?b)%f32 then _ else _] => destruct (a <? b)%f32
  end; reflexivity.
Qed.



(** The scale the spec words give for the M-factor: the eighth power of
    the ratio of the smaller to the larger of the candidate sample's
    target values at the two evaluation points, clamped to [[0, 1]]. *)
Definition symmetricMFactor (targetPdfCandidateAtOther targetPdfCandidate
    : float) : float :=
  F32.clamp
    (pow (F32.min targetPdfCandidateAtOther targetPdfCandidate
          / F32.max targetPdfCandidateAtOther targetPdfCandidate)%f32
       f32_eight)
    F32.zero F32.one.

(** C7, amended: with the M-factor option the candidate's confidence
    weight enters the state's [M] scaled by the smaller of
    [mFactor(candidateTargetPdf, candidateTargetPdfAtOther)] and
    [mFactor(canonicalTargetPdfAtOther, canonicalTargetPdf)], where
    [mFactor(q0, q1)] is 1 when [q0 == 0] and
    [clamp(pow(min(q1 / q0, 1), 8), 0, 1)] otherwise; without the option
    the scale is 1.  This holds for the temporal and the spatial merge. *)
Theorem pairwise_M_update :
  forall (state : RisState.t) (canonicalReservoir : Reservoir.t)
         (canonicalContext : EvalContext.t) (candidateReservoir : Reservoir.t)
         (candidateContext : EvalContext.t) (lights : Lights)
         (useMFactor : bool) (confidenceWeightSum intersectAreaSize : float)
         (withVisibility : bool) (sg : S),
    let atCanonical :=
      evalTargetFunction canonicalContext
        (loadLightSample lights (Reservoir.lightSample candidateReservoir))
        lights withVisibility 2 sg in
    let candidateTargetPdfAtOther := fst atCanonical in
    let canonicalTargetPdfAtOther :=
      fst (evalTargetFunction candidateContext
             (loadLightSample lights (Reservoir.lightSample canonicalReservoir))
             lights withVisibility 2 (snd atCanonical)) in
    let scale :=
      if useMFactor
      then F32.min
             (mFactor (Reservoir.targetPdf candidateReservoir)
                candidateTargetPdfAtOther)
             (mFactor canonicalTargetPdfAtOther
                (Reservoir.targetPdf canonicalReservoir))
      else F32.one in
    RisState.M
      (snd (fst (temporalResamplePointReservoirPairwiseMIS state
                   canonicalReservoir canonicalContext candidateReservoir
                   candidateContext lights useMFactor confidenceWeightSum
                   intersectAreaSize withVisibility sg)))
    = (RisState.M state
       + F32.of_uint (Reservoir.M candidateReservoir) * intersectAreaSize
         * scale)%f32
    /\ RisState.M
         (snd (fst (spatialResamplePointReservoirPairwiseMIS state
                      canonicalReservoir canonicalContext candidateReservoir
                      candidateContext lights useMFactor confidenceWeightSum
                      withVisibility sg)))
       = (RisState.M state
          + F32.of_uint (Reservoir.M candidateReservoir) * scale)%f32
    /\ (forall q0 q1 : float,
           mFactor q0 q1
           = if (q0 =? F32.zero)%f32 then F32.one
             else F32.clamp (pow (F32.min (q1 / q0)%f32 F32.one) f32_eight)
                    F32.zero F32.one).
Proof.
  intros. subst scale candidateTargetPdfAtOther canonicalTargetPdfAtOther
    atCanonical.
  repeat apply conj.
  - apply temporal_M_run.
  - apply spatial_M_run.
  - reflexivity.
Qed.

End PairwiseReuse.

(** Two lights and a white diffuse surface seen and lit head-on, for a
    temporal and a spatial merge.  With the BSDF of the evaluation
    context ([albedo * NdotL / pi]) the sample of light 0 (emission 2)
    has the target value [2 / pi] there and the sample of light 1
    (emission 1) the target value [1 / pi]. *)
Definition mfactorLights (i : Z) : EvaluatedLightSample.t :=
  if i =? 0 then Reference.light f32_two F32.one
  else Reference.light F32.one F32.one.

Definition whiteContext : EvalContext.t :=
  EvalContext.create (0, 0) (4, 4) true
    (Reference.surface (F32.one, F32.zero, F32.zero)) Reference.unitZ.

(** [0.25f], and the binary32 values of [2 / pi] and [1 / pi] that the
    target function returns at [whiteContext]. *)
Definition f32_quarter : float := S754_finite false 8388608 (-25).
Definition twoOverPi : float := S754_finite false 10680707 (-24).
Definition oneOverPi : float := S754_finite false 10680707 (-25).

(** The canonical reservoir holds light 1 with the stored target value
    1; the candidate holds light 0 with [M = 4] and the stored target
    value [1/4], which rises to [2 / pi] at the canonical surface. *)
Definition mfactorCanonical : Reservoir.t :=
  Reservoir.mk (Reference.emissiveSample 1) 1 F32.one 2 F32.one.

Definition mfactorCandidate : Reservoir.t :=
  Reservoir.mk (Reference.emissiveSample 0) 4 F32.one 2 f32_quarter.

(** A second pair: the candidate's stored target value is the one it has
    at the canonical surface, [2 / pi]; the canonical sample's target
    value rises from the stored [1/8] to [1 / pi] at the candidate's
    surface. *)
Definition steadyCandidate : Reservoir.t :=
  Reservoir.mk (Reference.emissiveSample 0) 4 F32.one 2 twoOverPi.

Definition risingCanonical : Reservoir.t :=
  Reservoir.mk (Reference.emissiveSample 1) 1 F32.one 2 f32_eighth.

(** C7, as stated, fails, in both directions.  When the candidate's
    target value rises from [1/4] to [2 / pi] between the two evaluation
    points, the scale of the code is 1 and [M] grows by the full
    confidence weight 4, in the temporal and in the spatial merge, while
    the eighth power of the smaller-to-larger ratio is below [2^-10].
    When the candidate's target value is the same at both points, the
    stated scale is 1 and would add 4, while the code adds less than
    [2^-8], because the canonical sample's target value rose. *)
Lemma mfactor_is_not_symmetric :
  (fst (evalTargetFunction whiteContext
          (loadLightSample mfactorLights
             (Reservoir.lightSample mfactorCandidate))
          mfactorLights false 2 0)
   = twoOverPi
   /\ Reservoir.targetPdf mfactorCandidate = f32_quarter
   /\ RisState.M
        (snd (fst (temporalResamplePointReservoirPairwiseMIS
                     (RisState.createEmpty 2) mfactorCanonical whiteContext
                     mfactorCandidate whiteContext mfactorLights true
                     (F32.of_uint 5) F32.one false 0)))
      = F32.of_uint 4
   /\ RisState.M
        (snd (fst (spatialResamplePointReservoirPairwiseMIS
                     (RisState.createEmpty 2) mfactorCanonical whiteContext
                     mfactorCandidate whiteContext mfactorLights true
                     (F32.of_uint 5) false 0)))
      = F32.of_uint 4
   /\ F32.ltb (symmetricMFactor twoOverPi f32_quarter)
        (S754_finite false 8388608 (-33)) = true
   /\ F32.ltb
        (RisState.M (RisState.createEmpty 2)
         + F32.of_uint (Reservoir.M mfactorCandidate) * F32.one
           * symmetricMFactor twoOverPi f32_quarter)%f32
        (F32.of_uint 4) = true)
  /\ (fst (evalTargetFunction whiteContext
             (loadLightSample mfactorLights
                (Reservoir.lightSample steadyCandidate))
             mfactorLights false 2 0)
      = Reservoir.targetPdf steadyCandidate
      /\ symmetricMFactor twoOverPi (Reservoir.targetPdf steadyCandidate)
         = F32.one
      /\ fst (evalTargetFunction whiteContext
                (loadLightSample mfactorLights
                   (Reservoir.lightSample risingCanonical))
                mfactorLights false 2 0)
         = oneOverPi
      /\ F32.ltb
           (RisState.M
              (snd (fst (temporalResamplePointReservoirPairwiseMIS
                           (RisState.createEmpty 2) risingCanonical
                           whiteContext steadyCandidate whiteContext
                           mfactorLights true (F32.of_uint 5) F32.one false
                           0))))
           (S754_finite false 8388608 (-31)) = true
      /\ F32.ltb
           (RisState.M
              (snd (fst (spatialResamplePointReservoirPairwiseMIS
                           (RisState.createEmpty 2) risingCanonical
                           whiteContext steadyCandidate whiteContext
                           mfactorLights true (F32.of_uint 5) false 0))))
           (S754_finite false 8388608 (-31)) = true).
Proof. vm_compute. repeat split; reflexivity. Qed.

(* ===================================================================== *)
(** * Rounding in binary32

    The arithmetic of [spec_float] at precision 24 related to exact
    rational arithmetic, for non-negative operands: each operation
    returns the rounding of the exact result, and rounding is monotone. *)
(* ===================================================================== *)

Section Binary32Rounding.

Lemma digits2_pos_bounds (m : positive) :
  2 ^ (Zpos (digits2_pos m) - 1) <= Zpos m < 2 ^ Zpos (digits2_pos m).
Proof.
  induction m as [m IH | m IH |]; cbn [digits2_pos].
  - rewrite Pos2Z.inj_succ.
    replace (Z.succ (Zpos (digits2_pos m)) - 1) with (Z.succ (Zpos (digits2_pos m) - 1)) by lia.
    rewrite !Z.pow_succ_r by lia. lia.
  - rewrite Pos2Z.inj_succ.
    replace (Z.succ (Zpos (digits2_pos m)) - 1) with (Z.succ (Zpos (digits2_pos m) - 1)) by lia.
    rewrite !Z.pow_succ_r by lia. lia.
  - cbn. lia.
Qed.

Lemma iter_pos_nat {A : Type} (f : A -> A) (p : positive) (x : A) :
  iter_pos f p x = Nat.iter (Pos.to_nat p) f x.
Proof.
  revert x. induction p as [p IH | p IH |]; intros x; cbn [iter_pos].
  - rewrite !IH. rewrite Pos2Nat.inj_xI.
    replace (Datatypes.S (2 * Pos.to_nat p)) with (Pos.to_nat p + Datatypes.S (Pos.to_nat p))%nat by lia.
    rewrite Nat.iter_add. f_equal. rewrite Nat.iter_succ_r. reflexivity.
  - rewrite !IH. rewrite Pos2Nat.inj_xO.
    replace (2 * Pos.to_nat p)%nat with (Pos.to_nat p + Pos.to_nat p)%nat by lia.
    rewrite Nat.iter_add. reflexivity.
  - reflexivity.
Qed.

Local Open Scope Q_scope.

Definition inbetween_int (m : Z) (y : Q) (l : location) : Prop :=
  match l with
  | loc_Exact => y == inject_Z m
  | loc_Inexact Lt => inject_Z m < y /\ y < inject_Z m + (1 # 2)
  | loc_Inexact Eq => y == inject_Z m + (1 # 2)
  | loc_Inexact Gt => inject_Z m + (1 # 2) < y /\ y < inject_Z m + 1
  end.

Lemma inject_Z_xI (p : positive) : inject_Z (Zpos p~1) == 2 * inject_Z (Zpos p) + 1.
Proof. rewrite Pos2Z.inj_xI, inject_Z_plus, inject_Z_mult. reflexivity. Qed.

Lemma inject_Z_xO (p : positive) : inject_Z (Zpos p~0) == 2 * inject_Z (Zpos p).
Proof. rewrite Pos2Z.inj_xO, inject_Z_mult. reflexivity. Qed.

Lemma shr_1_m (mrs : shr_record) :
  (0 <= shr_m mrs)%Z -> shr_m (shr_1 mrs) = (shr_m mrs / 2)%Z.
Proof.
  destruct mrs as [m r s]. cbn [shr_m shr_1]. intros Hm.
  destruct m as [| p | p]; [reflexivity | | lia].
  destruct p as [p | p |]; cbn [shr_m].
  - rewrite Pos2Z.inj_xI. apply Z.div_unique with 1%Z; lia.
  - rewrite Pos2Z.inj_xO. apply Z.div_unique with 0%Z; lia.
  - reflexivity.
Qed.

Lemma shr_1_inbetween (mrs : shr_record) (y : Q) :
  (0 <= shr_m mrs)%Z ->
  inbetween_int (shr_m mrs) y (loc_of_shr_record mrs) ->
  inbetween_int (shr_m (shr_1 mrs)) (y * (1 # 2)) (loc_of_shr_record (shr_1 mrs)).
Proof.
  destruct mrs as [m r s]. cbn [shr_m]. intros Hm.
  destruct m as [| p | p]; [| | lia].
  - change (inject_Z 0) with 0.
    destruct r, s; cbn [shr_1 shr_m loc_of_shr_record orb inbetween_int];
      change (inject_Z 0) with 0; intros H; lra.
  - destruct p as [p | p |]; destruct r, s; cbn [shr_1 shr_m loc_of_shr_record orb inbetween_int];
      intros H;
      try (pose proof (inject_Z_xI p) as E1; pose proof (inject_Z_xO p) as E0);
      try change (inject_Z 1) with 1 in *; try change (inject_Z 0) with 0 in *;
      lra.
Qed.

Lemma loc_of_shr_record_of_loc (m : Z) (l : location) :
  loc_of_shr_record (shr_record_of_loc m l) = l /\ shr_m (shr_record_of_loc m l) = m.
Proof. destruct l as [| [ | | ]]; split; reflexivity. Qed.

Lemma inbetween_int_ext (m : Z) (y y' : Q) (l : location) :
  y == y' -> inbetween_int m y l -> inbetween_int m y' l.
Proof.
  intros E. destruct l as [| [ | | ]]; cbn [inbetween_int]; rewrite E; tauto.
Qed.

Lemma inject_Z_pow2_pos (n : Z) : (0 <= n)%Z -> 0 < inject_Z (2 ^ n).
Proof.
  intros Hn. change 0 with (inject_Z 0). rewrite <- Zlt_Qlt.
  apply Z.pow_pos_nonneg; lia.
Qed.

(** [n] shifts divide the value (in units of the current exponent) by [2^n]. *)
Lemma shr_iter_inbetween (n : nat) (mrs : shr_record) (y : Q) :
  (0 <= shr_m mrs)%Z ->
  inbetween_int (shr_m mrs) y (loc_of_shr_record mrs) ->
  (0 <= shr_m (Nat.iter n shr_1 mrs))%Z
  /\ shr_m (Nat.iter n shr_1 mrs) = (shr_m mrs / 2 ^ Z.of_nat n)%Z
  /\ inbetween_int (shr_m (Nat.iter n shr_1 mrs)) (y / inject_Z (2 ^ Z.of_nat n))
       (loc_of_shr_record (Nat.iter n shr_1 mrs)).
Proof.
  intros Hm Hy. induction n as [| n IH].
  - change (Nat.iter 0 shr_1 mrs) with mrs. split; [assumption | split].
    + cbn. rewrite Z.div_1_r. reflexivity.
    + change (inject_Z (2 ^ Z.of_nat 0)) with 1.
      apply (inbetween_int_ext _ y); [field | assumption].
  - destruct IH as (IH0 & IHm & IHy). rewrite !Nat.iter_succ.
    split; [| split].
    + rewrite shr_1_m by assumption. apply Z.div_pos; lia.
    + rewrite shr_1_m by assumption. rewrite IHm.
      rewrite Nat2Z.inj_succ, Z.pow_succ_r by lia.
      rewrite Z.div_div by lia. f_equal. lia.
    + pose proof (shr_1_inbetween _ _ IH0 IHy) as H.
      refine (inbetween_int_ext _ _ _ _ _ H).
      rewrite Nat2Z.inj_succ, Z.pow_succ_r by lia.
      rewrite inject_Z_mult.
      pose proof (inject_Z_pow2_pos (Z.of_nat n) ltac:(lia)) as Hp.
      change (inject_Z 2) with 2. field. lra.
Qed.

Definition pow2 (e : Z) : Q := 2 ^ e.

Lemma pow2_pos (e : Z) : 0 < pow2 e.
Proof. apply Qpower_0_lt. reflexivity. Qed.

Lemma pow2_add (a b : Z) : pow2 (a + b) == pow2 a * pow2 b.
Proof. apply Qpower_plus. discriminate. Qed.

Lemma pow2_inject (n : Z) : (0 <= n)%Z -> pow2 n == inject_Z (2 ^ n).
Proof. intros Hn. unfold pow2. rewrite Zpower_Qpower by assumption. reflexivity. Qed.

Lemma pow2_le (a b : Z) : (a <= b)%Z -> pow2 a <= pow2 b.
Proof.
  intros Hab. unfold pow2. apply Qpower_le_compat_l; [assumption | lra].
Qed.

Definition fexp32 (e : Z) : Z := fexp 24 128 e.

Lemma fexp32_eq (e : Z) : fexp32 e = Z.max (e - 24) (-149).
Proof. reflexivity. Qed.

Lemma Zdigits2_bounds (m : Z) :
  (0 < m)%Z ->
  (0 < Zdigits2 m /\ 2 ^ (Zdigits2 m - 1) <= m < 2 ^ Zdigits2 m)%Z.
Proof.
  destruct m as [| p | p]; try lia. intros _. cbn [Zdigits2].
  split; [lia | apply digits2_pos_bounds].
Qed.

(** The truncated form of a non-negative value [x]: mantissa and
    position at the exponent [E] the format assigns to [x]. *)
Definition truncated (x : Q) (m : Z) (l : location) (E : Z) : Prop :=
  inbetween_int m (x / pow2 E) l
  /\ (0 <= m < 2 ^ 24)%Z
  /\ (-149 <= E)%Z
  /\ ((-149 < E)%Z -> (2 ^ 23 <= m)%Z).

Lemma shr_fexp_truncated (m e : Z) (l : location) (x : Q) :
  (0 <= m)%Z -> (e <= fexp32 (Zdigits2 m + e))%Z ->
  inbetween_int m (x / pow2 e) l ->
  truncated x (shr_m (fst (shr_fexp 24 128 m e l)))
    (loc_of_shr_record (fst (shr_fexp 24 128 m e l)))
    (snd (shr_fexp 24 128 m e l)).
Proof.
  intros Hm He Hx. unfold shr_fexp, shr.
  fold (fexp32 (Zdigits2 m + e)).
  destruct (loc_of_shr_record_of_loc m l) as [Hl Hrm].
  assert (Hd : (m = 0 /\ Zdigits2 m = 0
                \/ 0 < m /\ 0 < Zdigits2 m
                   /\ 2 ^ (Zdigits2 m - 1) <= m < 2 ^ Zdigits2 m)%Z).
  { destruct (Z.eq_dec m 0) as [-> | Hne]; [left; split; reflexivity |].
    right. split; [lia |]. apply Zdigits2_bounds. lia. }
  set (d := Zdigits2 m) in *.
  rewrite fexp32_eq in *.
  destruct (Z.max (d + e - 24) (-149) - e)%Z as [| p | p] eqn:En.
  - cbn [fst snd]. rewrite Hl, Hrm. unfold truncated.
    split; [assumption |].
    destruct Hd as [[-> Hd0] | (Hpos & Hdpos & Hlo & Hhi)].
    + lia.
    + assert (d <= 24)%Z by lia.
      assert (2 ^ d <= 2 ^ 24)%Z by (apply Z.pow_le_mono_r; lia).
      split; [lia |]. split; [lia |].
      intros HE. assert (d = 24)%Z by lia. subst d.
      replace (24 - 1)%Z with 23%Z in Hlo by lia. rewrite H1 in Hlo. exact Hlo.
  - cbn [fst snd]. rewrite iter_pos_nat.
    pose proof (shr_iter_inbetween (Pos.to_nat p) (shr_record_of_loc m l)
                  (x / pow2 e)) as Hit.
    rewrite Hl, Hrm in Hit. specialize (Hit Hm Hx).
    rewrite positive_nat_Z in Hit. destruct Hit as (H0 & Hmm & Hin).
    unfold truncated. rewrite Hmm.
    assert (Hpp : (0 < 2 ^ Z.pos p)%Z) by (apply Z.pow_pos_nonneg; lia).
    split.
    + rewrite Hmm in Hin. refine (inbetween_int_ext _ _ _ _ _ Hin).
      rewrite pow2_add, (pow2_inject (Z.pos p)) by lia.
      pose proof (pow2_pos e). pose proof (inject_Z_pow2_pos (Z.pos p) ltac:(lia)).
      field. split; lra.
    + destruct Hd as [[-> Hd0] | (Hpos & Hdpos & Hlo & Hhi)].
      * rewrite Z.div_0_l by lia. split; [lia |]. split; [lia |]. lia.
      * assert (Hdn : (d <= Z.pos p + 24)%Z) by lia.
        assert (2 ^ d <= 2 ^ (Z.pos p + 24))%Z by (apply Z.pow_le_mono_r; lia).
        rewrite Z.pow_add_r in H by lia.
        split; [split; [apply Z.div_pos; lia | apply Z.div_lt_upper_bound; lia] |].
        split; [lia |].
        intros HE. assert (Hdd : (d - 1 = Z.pos p + 23)%Z) by lia.
        rewrite Hdd, Z.pow_add_r in Hlo by lia.
        apply Z.div_le_lower_bound; lia.
  - lia.
Qed.

(** The float with mantissa [m] at exponent [E], renormalized when the
    rounding carried into the next binade, infinite on overflow. *)
Definition canon (m E : Z) : spec_float :=
  if (m =? 0)%Z then S754_zero false
  else if (m =? 2 ^ 24)%Z then
    if (E + 1 <=? 104)%Z then S754_finite false (2 ^ 23)%positive (E + 1)
    else S754_infinity false
  else if (E <=? 104)%Z then S754_finite false (Z.to_pos m) E
  else S754_infinity false.

Lemma round_nearest_even_bounds (m : Z) (l : location) :
  (m <= round_nearest_even m l <= m + 1)%Z.
Proof.
  destruct l as [| [ | | ]]; cbn [round_nearest_even]; try lia.
  destruct (Z.even m); lia.
Qed.

Lemma finish_canon (m E : Z) :
  (0 <= m <= 2 ^ 24)%Z -> (-149 <= E)%Z -> ((-149 < E)%Z -> (2 ^ 23 <= m)%Z) ->
  (let '(mrs'', e'') := shr_fexp 24 128 m E loc_Exact in
   match shr_m mrs'' with
   | Z0 => S754_zero false
   | Zpos p =>
       if (e'' <=? 128 - 24)%Z then S754_finite false p e''
       else S754_infinity false
   | Zneg _ => S754_nan
   end) = canon m E.
Proof.
  intros Hm HE Hnorm. unfold shr_fexp, shr, canon.
  fold (fexp32 (Zdigits2 m + E)). rewrite fexp32_eq.
  destruct (Z.eqb_spec m 0) as [-> | Hm0].
  - cbn [Zdigits2]. destruct (Z.max (0 + E - 24) (-149) - E)%Z eqn:En;
      try reflexivity. lia.
  - destruct (Z.eqb_spec m (2 ^ 24)) as [-> | Hm1].
    + change (Zdigits2 (2 ^ 24)) with 25%Z.
      replace (Z.max (25 + E - 24) (-149) - E)%Z with 1%Z by lia.
      cbn [iter_pos shr_record_of_loc]. 
      change (shr_1 {| shr_m := 2 ^ 24; shr_r := false; shr_s := false |})
        with {| shr_m := 2 ^ 23; shr_r := false; shr_s := false |}.
      cbn [shr_m]. change (128 - 24)%Z with 104%Z. reflexivity.
    + destruct (Zdigits2_bounds m ltac:(lia)) as (Hd & Hlo & Hhi).
      assert (Zdigits2 m <= 24)%Z.
      { destruct (Z_le_gt_dec (Zdigits2 m) 24) as [|Hgt]; [assumption |].
        assert (2 ^ 24 <= 2 ^ (Zdigits2 m - 1))%Z by (apply Z.pow_le_mono_r; lia).
        lia. }
      destruct (Z.max (Zdigits2 m + E - 24) (-149) - E)%Z eqn:En; try lia.
      * cbn [shr_record_of_loc shr_m]. destruct m; try lia.
        change (128 - 24)%Z with 104%Z. reflexivity.
      * cbn [shr_record_of_loc shr_m]. destruct m; try lia.
        change (128 - 24)%Z with 104%Z. reflexivity.
Qed.

(** [r] is the rounding of the non-negative value [x]. *)
Definition Rnd (x : Q) (r : spec_float) : Prop :=
  exists (m : Z) (l : location) (E : Z),
    truncated x m l E /\ r = canon (round_nearest_even m l) E.

Lemma binary_round_aux_Rnd (m e : Z) (l : location) (x : Q) :
  (0 <= m)%Z -> (e <= fexp32 (Zdigits2 m + e))%Z ->
  inbetween_int m (x / pow2 e) l ->
  Rnd x (binary_round_aux 24 128 false m e l).
Proof.
  intros Hm He Hx.
  pose proof (shr_fexp_truncated m e l x Hm He Hx) as HT.
  unfold binary_round_aux.
  destruct (shr_fexp 24 128 m e l) as [mrs' e'] eqn:E1. cbn [fst snd] in HT.
  exists (shr_m mrs'), (loc_of_shr_record mrs'), e'.
  split; [exact HT |].
  destruct HT as (_ & Hb & HE & Hn).
  pose proof (round_nearest_even_bounds (shr_m mrs') (loc_of_shr_record mrs')).
  apply finish_canon; lia.
Qed.

Lemma inbetween_int_bounds (m : Z) (y : Q) (l : location) :
  inbetween_int m y l -> inject_Z m <= y /\ y < inject_Z m + 1.
Proof. destruct l as [| [ | | ]]; cbn [inbetween_int]; intros H; lra. Qed.

Lemma inject_Z_succ (m : Z) : inject_Z (m + 1) == inject_Z m + 1.
Proof. rewrite inject_Z_plus. reflexivity. Qed.

Lemma round_nearest_even_mono (m1 m2 : Z) (y1 y2 : Q) (l1 l2 : location) :
  inbetween_int m1 y1 l1 -> inbetween_int m2 y2 l2 -> y1 <= y2 ->
  (round_nearest_even m1 l1 <= round_nearest_even m2 l2)%Z.
Proof.
  intros H1 H2 Hy.
  pose proof (inbetween_int_bounds _ _ _ H1) as B1.
  pose proof (inbetween_int_bounds _ _ _ H2) as B2.
  assert (Hm : (m1 <= m2)%Z).
  { assert (inject_Z m1 < inject_Z (m2 + 1)) by (rewrite inject_Z_succ; lra).
    rewrite <- Zlt_Qlt in H. lia. }
  destruct (Z.eq_dec m1 m2) as [-> | Hne].
  - destruct l1 as [| [ | | ]], l2 as [| [ | | ]];
      cbn [round_nearest_even inbetween_int] in *;
      try destruct (Z.even m2); first [lia | exfalso; lra].
  - pose proof (round_nearest_even_bounds m1 l1).
    pose proof (round_nearest_even_bounds m2 l2). lia.
Qed.

(** Mantissa and exponent in the format's canonical range. *)
Definition canonical_pair (M E : Z) : Prop :=
  (0 <= M <= 2 ^ 24)%Z /\ (-149 <= E)%Z /\ ((-149 < E)%Z -> (2 ^ 23 <= M)%Z).

Lemma canon_le (M1 E1 M2 E2 : Z) :
  canonical_pair M1 E1 -> canonical_pair M2 E2 ->
  (E1 < E2 \/ E1 = E2 /\ M1 <= M2)%Z ->
  SFleb (canon M1 E1) (canon M2 E2) = true.
Proof.
  intros (Hb1 & Hl1 & Hn1) (Hb2 & Hl2 & Hn2) Hord. unfold canon.
  destruct (Z.eqb_spec M1 0) as [-> | H10].
  - destruct (Z.eqb_spec M2 0); [reflexivity |].
    destruct (Z.eqb_spec M2 (2 ^ 24));
      [destruct (E2 + 1 <=? 104)%Z | destruct (E2 <=? 104)%Z]; reflexivity.
  - destruct (Z.eqb_spec M2 0) as [-> | H20]; [lia |].
    destruct (Z.eqb_spec M1 (2 ^ 24)) as [-> | H11];
      destruct (Z.eqb_spec M2 (2 ^ 24)) as [-> | H21];
      repeat match goal with
             | |- context [(?a <=? ?b)%Z] => destruct (Z.leb_spec a b)
             end;
      try reflexivity; try lia;
      unfold SFleb; cbn [SFcompare];
      match goal with
      | |- context [(?a ?= ?b)%Z] => destruct (Z.compare_spec a b)
      end; try reflexivity; try lia;
      match goal with
      | |- context [Pos.compare_cont Eq ?a ?b] =>
          change (Pos.compare_cont Eq a b) with (Pos.compare a b);
          destruct (Pos.compare_spec a b) as [Hc | Hc | Hc]
      end; try reflexivity; exfalso;
      apply Pos2Z.pos_lt_pos in Hc; rewrite ?Z2Pos.id in Hc by lia;
      change (Z.pos (2 ^ 23)) with (2 ^ 23)%Z in Hc; lia.
Qed.

Lemma truncated_canonical (x : Q) (m : Z) (l : location) (E : Z) :
  truncated x m l E -> canonical_pair (round_nearest_even m l) E.
Proof.
  intros (_ & Hb & HE & Hn).
  pose proof (round_nearest_even_bounds m l). unfold canonical_pair.
  split; [lia |]. split; [lia |]. intros H'. specialize (Hn H'). lia.
Qed.

Lemma Qdiv_le_compat (x1 x2 p : Q) : 0 < p -> x1 <= x2 -> x1 / p <= x2 / p.
Proof.
  intros Hp Hx. unfold Qdiv. apply Qmult_le_compat_r; [assumption |].
  apply Qlt_le_weak, Qinv_lt_0_compat. assumption.
Qed.

Lemma Qdiv_mult_cancel (x p : Q) : 0 < p -> x == (x / p) * p.
Proof. intros Hp. field. lra. Qed.

(** Rounding is monotone. *)
Theorem Rnd_mono (x1 x2 : Q) (r1 r2 : spec_float) :
  Rnd x1 r1 -> Rnd x2 r2 -> x1 <= x2 -> SFleb r1 r2 = true.
Proof.
  intros (m1 & l1 & E1 & T1 & ->) (m2 & l2 & E2 & T2 & ->) Hx.
  pose proof (truncated_canonical _ _ _ _ T1) as C1.
  pose proof (truncated_canonical _ _ _ _ T2) as C2.
  apply canon_le; try assumption.
  destruct T1 as (I1 & B1 & L1 & N1), T2 as (I2 & B2 & L2 & N2).
  destruct (Z.lt_trichotomy E1 E2) as [Hlt | [-> | Hgt]].
  - left; assumption.
  - right. split; [reflexivity |].
    apply (round_nearest_even_mono m1 m2 (x1 / pow2 E2) (x2 / pow2 E2));
      try assumption.
    apply Qdiv_le_compat; [apply pow2_pos | assumption].
  - exfalso.
    pose proof (inbetween_int_bounds _ _ _ I1) as [Y1 _].
    pose proof (inbetween_int_bounds _ _ _ I2) as [_ Y2].
    assert (Hm1 : inject_Z (2 ^ 23) <= inject_Z m1)
      by (rewrite <- Zle_Qle; apply N1; lia).
    assert (Hm2 : inject_Z m2 + 1 <= inject_Z (2 ^ 24))
      by (rewrite <- inject_Z_succ, <- Zle_Qle; lia).
    change (inject_Z (2 ^ 23)) with 8388608 in Hm1.
    change (inject_Z (2 ^ 24)) with 16777216 in Hm2.
    pose proof (pow2_pos E1) as P1. pose proof (pow2_pos E2) as P2.
    assert (Hp : 2 * pow2 E2 <= pow2 E1).
    { pose proof (pow2_le (E2 + 1) E1 ltac:(lia)) as H.
      rewrite pow2_add in H. change (pow2 1) with 2 in H. lra. }
    pose proof (Qdiv_mult_cancel x1 _ P1) as X1.
    pose proof (Qdiv_mult_cancel x2 _ P2) as X2.
    set (y1 := x1 / pow2 E1) in *. set (y2 := x2 / pow2 E2) in *.
    set (a := pow2 E2) in *. set (b := pow2 E1) in *.
    assert (A1 : 8388608 * b <= y1 * b) by (apply Qmult_le_compat_r; lra).
    assert (A2 : y2 * a < 16777216 * a) by (apply Qmult_lt_compat_r; lra).
    lra.
Qed.

(** The exact value of a finite float (0 for the others). *)
Definition B2Q (x : spec_float) : Q :=
  match x with
  | S754_finite s m e => inject_Z (cond_Zopp s (Zpos m)) * pow2 e
  | _ => 0
  end.

(** Non-negative members of the format: a zero, a positive finite
    number in canonical form, or [+Inf]. *)
Definition wf_nonneg (x : spec_float) : Prop :=
  match x with
  | S754_zero _ => True
  | S754_infinity s => s = false
  | S754_nan => False
  | S754_finite s m e =>
      s = false
      /\ (Z.pos m < 2 ^ 24)%Z /\ (-149 <= e <= 104)%Z
      /\ ((-149 < e)%Z -> (2 ^ 23 <= Z.pos m)%Z)
  end.

Definition is_finite (x : spec_float) : Prop :=
  match x with S754_zero _ | S754_finite _ _ _ => True | _ => False end.

Lemma bounded_canonical (m : positive) (e : Z) :
  bounded 24 128 m e = true ->
  (Z.pos m < 2 ^ 24)%Z /\ (-149 <= e <= 104)%Z
  /\ ((-149 < e)%Z -> (2 ^ 23 <= Z.pos m)%Z).
Proof.
  unfold bounded, canonical_mantissa. fold (fexp32 (Z.pos (digits2_pos m) + e)).
  rewrite fexp32_eq. intros H. apply andb_prop in H. destruct H as [Hc He].
  apply Z.eqb_eq in Hc. apply Z.leb_le in He. change (128 - 24)%Z with 104%Z in He.
  pose proof (digits2_pos_bounds m) as [Hlo Hhi].
  set (d := Z.pos (digits2_pos m)) in *.
  assert (d <= 24)%Z by lia.
  assert (2 ^ d <= 2 ^ 24)%Z by (apply Z.pow_le_mono_r; lia).
  split; [lia |]. split; [lia |].
  intros HE. assert (d = 24)%Z by lia. subst d. rewrite H1 in Hlo.
  exact Hlo.
Qed.

Lemma valid_wf_nonneg (x : spec_float) :
  valid_binary 24 128 x = true -> SFleb (S754_zero false) x = true ->
  wf_nonneg x.
Proof.
  destruct x as [s | s | | s m e]; cbn [valid_binary wf_nonneg].
  - trivial.
  - intros _. destruct s; [discriminate | reflexivity].
  - intros _. discriminate.
  - intros Hb Hs. destruct s; [discriminate |].
    split; [reflexivity |]. apply bounded_canonical. assumption.
Qed.

Lemma wf_canon (M E : Z) : canonical_pair M E -> wf_nonneg (canon M E).
Proof.
  intros (Hb & HE & Hn). unfold canon.
  destruct (Z.eqb_spec M 0); [exact I |].
  destruct (Z.eqb_spec M (2 ^ 24)).
  - destruct (Z.leb_spec (E + 1) 104); cbn [wf_nonneg]; [| reflexivity].
    change (Z.pos (2 ^ 23)) with (2 ^ 23)%Z. repeat split; lia.
  - destruct (Z.leb_spec E 104); cbn [wf_nonneg]; [| reflexivity].
    rewrite Z2Pos.id by lia. repeat split; try lia. 
Qed.

Lemma Rnd_wf (x : Q) (r : spec_float) : Rnd x r -> wf_nonneg r.
Proof.
  intros (m & l & E & T & ->). apply wf_canon. eapply truncated_canonical; eassumption.
Qed.

Lemma Rnd_ext (x x' : Q) (r : spec_float) : x == x' -> Rnd x r -> Rnd x' r.
Proof.
  intros Hx (m & l & E & (I & B) & ->). exists m, l, E. split; [| reflexivity].
  split; [| exact B]. refine (inbetween_int_ext _ _ _ _ _ I). rewrite Hx. reflexivity.
Qed.

Lemma Rnd_zero : Rnd 0 (S754_zero false).
Proof.
  exists 0%Z, loc_Exact, (-149)%Z. split; [| reflexivity].
  unfold truncated. cbn [inbetween_int]. split.
  - change (inject_Z 0) with 0. pose proof (pow2_pos (-149)). field. lra.
  - repeat split; lia.
Qed.

Lemma Rnd_exact (m : positive) (e : Z) :
  wf_nonneg (S754_finite false m e) ->
  Rnd (B2Q (S754_finite false m e)) (S754_finite false m e).
Proof.
  intros (_ & Hm & He & Hn). exists (Z.pos m), loc_Exact, e. split.
  - unfold truncated. cbn [inbetween_int B2Q cond_Zopp]. split.
    + pose proof (pow2_pos e). field. lra.
    + repeat split; try lia; assumption.
  - cbn [round_nearest_even]. unfold canon.
    destruct (Z.eqb_spec (Z.pos m) 0); [lia |].
    destruct (Z.eqb_spec (Z.pos m) (2 ^ 24)); [lia |].
    destruct (Z.leb_spec e 104); [| lia]. reflexivity.
Qed.

Lemma Zdigits2_mul_lower (m1 m2 : positive) :
  (Z.pos (digits2_pos m1) + Z.pos (digits2_pos m2) - 1
   <= Z.pos (digits2_pos (m1 * m2)))%Z.
Proof.
  pose proof (digits2_pos_bounds m1) as [L1 H1].
  pose proof (digits2_pos_bounds m2) as [L2 H2].
  pose proof (digits2_pos_bounds (m1 * m2)) as [L H].
  set (d1 := Z.pos (digits2_pos m1)) in *.
  set (d2 := Z.pos (digits2_pos m2)) in *.
  set (d := Z.pos (digits2_pos (m1 * m2))) in *.
  destruct (Z_le_gt_dec (d1 + d2 - 1) d) as [|Hgt]; [assumption | exfalso].
  assert (2 ^ d <= 2 ^ (d1 + d2 - 2))%Z by (apply Z.pow_le_mono_r; lia).
  replace (d1 + d2 - 2)%Z with ((d1 - 1) + (d2 - 1))%Z in H0 by lia.
  rewrite Z.pow_add_r in H0 by lia.
  rewrite Pos2Z.inj_mul in H.
  assert (2 ^ (d1 - 1) * 2 ^ (d2 - 1) <= Z.pos m1 * Z.pos m2)%Z.
  { apply Z.mul_le_mono_nonneg; try lia; apply Z.pow_nonneg; lia. }
  lia.
Qed.

Lemma digits_of_canonical (m : positive) (e : Z) :
  wf_nonneg (S754_finite false m e) ->
  (Z.pos (digits2_pos m) <= 24
   /\ ((-149 < e) -> Z.pos (digits2_pos m) = 24))%Z.
Proof.
  intros (_ & Hm & He & Hn).
  pose proof (digits2_pos_bounds m) as [L H].
  set (d := Z.pos (digits2_pos m)) in *.
  assert (Hd : (d <= 24)%Z).
  { destruct (Z_le_gt_dec d 24); [assumption | exfalso].
    assert (2 ^ 24 <= 2 ^ (d - 1))%Z by (apply Z.pow_le_mono_r; lia). lia. }
  split; [assumption |]. intros HE. specialize (Hn HE).
  destruct (Z_le_gt_dec 24 d); [lia | exfalso].
  assert (2 ^ d <= 2 ^ 23)%Z by (apply Z.pow_le_mono_r; lia). lia.
Qed.

(** Multiplication of positive finite floats rounds the exact product. *)
Lemma mul_Rnd (m1 : positive) (e1 : Z) (m2 : positive) (e2 : Z) :
  wf_nonneg (S754_finite false m1 e1) -> wf_nonneg (S754_finite false m2 e2) ->
  Rnd (B2Q (S754_finite false m1 e1) * B2Q (S754_finite false m2 e2))
    (SFmul 24 128 (S754_finite false m1 e1) (S754_finite false m2 e2)).
Proof.
  intros W1 W2. cbn [SFmul xorb].
  pose proof (digits_of_canonical _ _ W1) as [D1 D1'].
  pose proof (digits_of_canonical _ _ W2) as [D2 D2'].
  destruct W1 as (_ & Hm1 & He1 & Hn1), W2 as (_ & Hm2 & He2 & Hn2).
  apply binary_round_aux_Rnd.
  - lia.
  - cbn [Zdigits2]. rewrite fexp32_eq.
    pose proof (Zdigits2_mul_lower m1 m2).
    assert (0 < Z.pos (digits2_pos m1))%Z by lia.
    assert (0 < Z.pos (digits2_pos m2))%Z by lia.
    lia.
  - cbn [inbetween_int B2Q cond_Zopp]. rewrite pow2_add.
    rewrite Pos2Z.inj_mul, inject_Z_mult.
    pose proof (pow2_pos e1). pose proof (pow2_pos e2). field. split; lra.
Qed.

(** A zero with its sign cleared; comparisons do not see the sign. *)
Definition pz (x : spec_float) : spec_float :=
  match x with S754_zero _ => S754_zero false | _ => x end.

Lemma SFleb_pz (a b : spec_float) : SFleb a b = SFleb (pz a) (pz b).
Proof.
  destruct a as [sa | sa | | sa ma ea], b as [sb | sb | | sb mb eb]; reflexivity.
Qed.

Lemma B2Q_pz (a : spec_float) : B2Q (pz a) = B2Q a.
Proof. destruct a; reflexivity. Qed.

Lemma wf_nonneg_pz (a : spec_float) : wf_nonneg a -> wf_nonneg (pz a).
Proof. destruct a; cbn; trivial. Qed.

Lemma B2Q_nonneg (a : spec_float) : wf_nonneg a -> 0 <= B2Q a.
Proof.
  destruct a as [s | s | | s m e]; cbn [B2Q wf_nonneg]; try lra.
  intros (-> & _). cbn [cond_Zopp]. pose proof (pow2_pos e).
  assert (0 < inject_Z (Z.pos m)) by (change 0 with (inject_Z 0); rewrite <- Zlt_Qlt; lia).
  apply Qlt_le_weak, Qmult_lt_0_compat; assumption.
Qed.

Lemma B2Q_finite_pos (m : positive) (e : Z) : 0 < B2Q (S754_finite false m e).
Proof.
  cbn [B2Q cond_Zopp]. pose proof (pow2_pos e).
  assert (0 < inject_Z (Z.pos m)) by (change 0 with (inject_Z 0); rewrite <- Zlt_Qlt; lia).
  apply Qmult_lt_0_compat; assumption.
Qed.

Lemma SFleb_zero_l (s : bool) (b : spec_float) :
  wf_nonneg b -> SFleb (S754_zero s) b = true.
Proof.
  destruct b as [sb | sb | | sb mb eb]; cbn [wf_nonneg]; intros H;
    try contradiction; try (destruct H as (-> & _)); try subst; reflexivity.
Qed.

Lemma SFleb_inf_r (a : spec_float) :
  wf_nonneg a -> SFleb a (S754_infinity false) = true.
Proof.
  destruct a as [sa | sa | | sa ma ea]; cbn [wf_nonneg]; intros H;
    try contradiction; try (destruct H as (-> & _)); try subst; reflexivity.
Qed.

(** On non-negative finite floats the comparison is that of the values. *)
Lemma SFleb_B2Q (a b : spec_float) :
  wf_nonneg a -> wf_nonneg b -> is_finite a -> is_finite b ->
  SFleb a b = true -> B2Q a <= B2Q b.
Proof.
  intros Wa Wb Fa Fb Hle.
  destruct a as [sa | sa | | sa ma ea]; try contradiction;
  destruct b as [sb | sb | | sb mb eb]; try contradiction.
  - cbn. lra.
  - apply B2Q_nonneg. assumption.
  - destruct Wa as (-> & _). discriminate.
  - destruct Wa as (-> & Hma & Hea & Hna), Wb as (-> & Hmb & Heb & Hnb).
    unfold SFleb in Hle. cbn [SFcompare] in Hle. cbn [B2Q cond_Zopp].
    pose proof (pow2_pos ea) as Pa. pose proof (pow2_pos eb) as Pb.
    destruct (Z.compare_spec ea eb) as [-> | Hlt | Hgt]; [| | discriminate].
    + apply Qmult_le_compat_r; [| lra].
      rewrite <- Zle_Qle.
      change (Pos.compare_cont Eq ma mb) with (Pos.compare ma mb) in Hle.
      destruct (Pos.compare_spec ma mb); try discriminate; lia.
    + assert (Ha : inject_Z (Z.pos ma) <= 16777216).
      { change 16777216 with (inject_Z (2 ^ 24)). rewrite <- Zle_Qle. lia. }
      assert (Hb : 8388608 <= inject_Z (Z.pos mb)).
      { change 8388608 with (inject_Z (2 ^ 23)). rewrite <- Zle_Qle. apply Hnb. lia. }
      assert (Hp : 2 * pow2 ea <= pow2 eb).
      { pose proof (pow2_le (ea + 1) eb ltac:(lia)) as H.
        rewrite pow2_add in H. change (pow2 1) with 2 in H. lra. }
      assert (A1 : inject_Z (Z.pos ma) * pow2 ea <= 16777216 * pow2 ea)
        by (apply Qmult_le_compat_r; lra).
      assert (A2 : 8388608 * pow2 eb <= inject_Z (Z.pos mb) * pow2 eb)
        by (apply Qmult_le_compat_r; lra).
      lra.
Qed.

(** [r] rounds [x], up to the sign of a zero result. *)
Definition R (x : Q) (r : spec_float) : Prop := Rnd x (pz r).

Lemma R_mono (x1 x2 : Q) (r1 r2 : spec_float) :
  R x1 r1 -> R x2 r2 -> x1 <= x2 -> SFleb r1 r2 = true.
Proof. intros H1 H2 Hx. rewrite SFleb_pz. eapply Rnd_mono; eassumption. Qed.

Lemma R_wf (x : Q) (r : spec_float) : R x r -> wf_nonneg r.
Proof.
  intros H. apply Rnd_wf in H. destruct r; cbn in *; trivial.
Qed.

Lemma R_ext (x x' : Q) (r : spec_float) : x == x' -> R x r -> R x' r.
Proof. intros Hx H. eapply Rnd_ext; eassumption. Qed.

Lemma R_exact (a : spec_float) : wf_nonneg a -> is_finite a -> R (B2Q a) a.
Proof.
  intros Wa Fa. destruct a as [sa | sa | | sa ma ea]; try contradiction.
  - exact Rnd_zero.
  - pose proof Wa as (-> & _). apply Rnd_exact. assumption.
Qed.

Lemma R_nonneg (x : Q) (r : spec_float) : R x r -> 0 <= x.
Proof.
  intros (m & l & E & (I & B & _) & _).
  apply inbetween_int_bounds in I. destruct I as [I _].
  assert (0 <= inject_Z m) by (change 0 with (inject_Z 0); rewrite <- Zle_Qle; lia).
  pose proof (pow2_pos E) as P.
  rewrite (Qdiv_mult_cancel x _ P).
  apply Qmult_le_0_compat; lra.
Qed.

Lemma SFleb_trans (a b c : spec_float) :
  wf_nonneg a -> wf_nonneg b -> wf_nonneg c ->
  SFleb a b = true -> SFleb b c = true -> SFleb a c = true.
Proof.
  intros Wa Wb Wc Hab Hbc.
  destruct c as [sc | sc | | sc mc ec]; try contradiction.
  - destruct b as [sb | sb | | sb mb eb]; try contradiction.
    + destruct a as [sa | sa | | sa ma ea]; try contradiction; try reflexivity.
      * cbn in Wa. subst. discriminate.
      * destruct Wa as (-> & _). discriminate.
    + cbn in Wb. subst. discriminate.
    + destruct Wb as (-> & _). discriminate.
  - cbn in Wc. subst. apply SFleb_inf_r. assumption.
  - destruct b as [sb | sb | | sb mb eb]; try contradiction.
    + destruct a as [sa | sa | | sa ma ea]; try contradiction.
      * apply SFleb_zero_l. assumption.
      * cbn in Wa. subst. discriminate.
      * destruct Wa as (-> & _). discriminate.
    + cbn in Wb. subst. destruct Wc as (-> & _). discriminate.
    + destruct a as [sa | sa | | sa ma ea]; try contradiction.
      * apply SFleb_zero_l. assumption.
      * cbn in Wa. subst. destruct Wb as (-> & _). discriminate.
      * apply (R_mono (B2Q (S754_finite sa ma ea)) (B2Q (S754_finite sc mc ec)));
          try (apply R_exact; [assumption | exact I]).
        apply Qle_trans with (B2Q (S754_finite sb mb eb));
          apply SFleb_B2Q; try assumption; exact I.
Qed.

Lemma Rnd_pz (x : Q) (r : spec_float) : Rnd x r -> pz r = r.
Proof.
  intros (m & l & E & _ & ->). unfold canon.
  repeat match goal with
         | |- context [if ?b then _ else _] => destruct b
         end; reflexivity.
Qed.

Lemma Rnd_R (x : Q) (r : spec_float) : Rnd x r -> R x r.
Proof. intros H. unfold R. rewrite (Rnd_pz _ _ H). exact H. Qed.

Lemma R_zero (s : bool) : R 0 (S754_zero s).
Proof. exact Rnd_zero. Qed.

(** Multiplication of non-negative finite floats. *)
Lemma mul_R (a p : spec_float) :
  wf_nonneg a -> is_finite a -> wf_nonneg p -> is_finite p ->
  R (B2Q a * B2Q p) (SFmul 24 128 a p).
Proof.
  intros Wa Fa Wp Fp.
  destruct a as [sa | sa | | sa ma ea]; try contradiction;
  destruct p as [sp | sp | | sp mp ep]; try contradiction.
  - apply (R_ext 0); [cbn; ring | apply R_zero].
  - apply (R_ext 0); [cbn [B2Q]; ring | apply R_zero].
  - apply (R_ext 0); [cbn [B2Q]; ring | apply R_zero].
  - pose proof Wa as (-> & _). pose proof Wp as (-> & _).
    apply Rnd_R, mul_Rnd; assumption.
Qed.

Lemma Pos_iter_xO (m d : positive) :
  Z.pos (Pos.iter xO m d) = (Z.pos m * 2 ^ Z.pos d)%Z
  /\ Z.pos (digits2_pos (Pos.iter xO m d))
     = (Z.pos (digits2_pos m) + Z.pos d)%Z.
Proof.
  induction d as [| d IH] using Pos.peano_ind.
  - cbn [Pos.iter digits2_pos]. split; [| rewrite Pos2Z.inj_succ]; lia.
  - rewrite Pos.iter_succ. cbn [digits2_pos].
    rewrite Pos2Z.inj_xO, !Pos2Z.inj_succ. destruct IH as [-> ->].
    rewrite Z.pow_succ_r by lia. split; lia.
Qed.

Lemma shl_align_spec (m : positive) (e e' : Z) :
  snd (shl_align m e e') = Z.min e e'
  /\ Z.pos (fst (shl_align m e e'))
     = (Z.pos m * 2 ^ (e - Z.min e e'))%Z
  /\ Z.pos (digits2_pos (fst (shl_align m e e')))
     = (Z.pos (digits2_pos m) + (e - Z.min e e'))%Z.
Proof.
  unfold shl_align. destruct (e' - e)%Z as [| d | d] eqn:Ed; cbn [fst snd].
  - replace (Z.min e e') with e by lia. rewrite Z.sub_diag. cbn. lia.
  - replace (Z.min e e') with e by lia. rewrite Z.sub_diag. cbn. lia.
  - replace (Z.min e e') with e' by lia.
    replace (e - e')%Z with (Z.pos d) by lia.
    destruct (Pos_iter_xO m d) as [-> ->]. lia.
Qed.

(** [binary_round] rounds the value of any mantissa and exponent. *)
Lemma binary_round_Rnd (M : positive) (e : Z) :
  Rnd (inject_Z (Z.pos M) * pow2 e) (binary_round 24 128 false M e).
Proof.
  unfold binary_round. fold (fexp32 (Z.pos (digits2_pos M) + e)).
  pose proof (shl_align_spec M e (fexp32 (Z.pos (digits2_pos M) + e)))
    as (Hs & Hm & Hd).
  destruct (shl_align M e (fexp32 (Z.pos (digits2_pos M) + e))) as [mz ez].
  cbn [fst snd] in *.
  apply binary_round_aux_Rnd.
  - lia.
  - cbn [Zdigits2]. rewrite Hd, Hs.
    replace (Z.pos (digits2_pos M) + (e - Z.min e (fexp32 (Z.pos (digits2_pos M) + e)))
             + Z.min e (fexp32 (Z.pos (digits2_pos M) + e)))%Z
      with (Z.pos (digits2_pos M) + e)%Z by lia.
    lia.
  - cbn [inbetween_int]. rewrite Hm, Hs.
    set (k := Z.min e (fexp32 (Z.pos (digits2_pos M) + e))).
    assert (Hk : (0 <= e - k)%Z) by lia.
    rewrite inject_Z_mult, <- (pow2_inject (e - k)) by assumption.
    replace e with (k + (e - k))%Z at 1 by lia. rewrite pow2_add.
    pose proof (pow2_pos k). field. lra.
Qed.

Lemma binary_normalize_R (M e : Z) :
  (0 <= M)%Z -> R (inject_Z M * pow2 e) (binary_normalize 24 128 M e false).
Proof.
  intros HM. destruct M as [| M | M]; [| | lia]; cbn [binary_normalize].
  - apply (R_ext 0); [change (inject_Z 0) with 0; ring | apply R_zero].
  - apply Rnd_R, binary_round_Rnd.
Qed.

(** The aligned mantissas of two finite floats. *)
Lemma aligned_value (m : positive) (e ez : Z) :
  (ez <= e)%Z ->
  inject_Z (Z.pos (fst (shl_align m e ez))) * pow2 ez
  == inject_Z (Z.pos m) * pow2 e.
Proof.
  intros Hez. pose proof (shl_align_spec m e ez) as (_ & Hm & _).
  rewrite Hm. replace (Z.min e ez) with ez by lia.
  rewrite inject_Z_mult, <- (pow2_inject (e - ez)) by lia.
  assert (E : pow2 e == pow2 ez * pow2 (e - ez)).
  { rewrite <- pow2_add. replace (ez + (e - ez))%Z with e by lia. reflexivity. }
  rewrite E. ring.
Qed.

(** Addition of non-negative finite floats. *)
Lemma add_R (a b : spec_float) :
  wf_nonneg a -> is_finite a -> wf_nonneg b -> is_finite b ->
  R (B2Q a + B2Q b) (SFadd 24 128 a b).
Proof.
  intros Wa Fa Wb Fb.
  destruct a as [sa | sa | | sa ma ea]; try contradiction;
  destruct b as [sb | sb | | sb mb eb]; try contradiction.
  - apply (R_ext 0); [cbn; ring |].
    cbn [SFadd]. destruct sa, sb; apply R_zero.
  - cbn [SFadd]. apply (R_ext (B2Q (S754_finite sb mb eb))); [cbn [B2Q]; ring |].
    apply R_exact; assumption.
  - cbn [SFadd]. apply (R_ext (B2Q (S754_finite sa ma ea))); [cbn [B2Q]; ring |].
    apply R_exact; assumption.
  - destruct Wa as (-> & _), Wb as (-> & _). cbn [SFadd cond_Zopp].
    set (ez := Z.min ea eb).
    pose proof (aligned_value ma ea ez ltac:(lia)) as Ha.
    pose proof (aligned_value mb eb ez ltac:(lia)) as Hb.
    eapply R_ext; [| apply binary_normalize_R; lia].
    rewrite inject_Z_plus. cbn [B2Q cond_Zopp]. rewrite <- Ha, <- Hb. ring.
Qed.

(** Subtraction of a smaller from a larger non-negative finite float. *)
Lemma sub_R (a b : spec_float) :
  wf_nonneg a -> is_finite a -> wf_nonneg b -> is_finite b ->
  B2Q b <= B2Q a ->
  R (B2Q a - B2Q b) (SFsub 24 128 a b).
Proof.
  intros Wa Fa Wb Fb Hle.
  destruct a as [sa | sa | | sa ma ea]; try contradiction;
  destruct b as [sb | sb | | sb mb eb]; try contradiction.
  - apply (R_ext 0); [cbn; ring |].
    cbn [SFsub]. destruct sa, sb; apply R_zero.
  - exfalso. destruct Wb as (-> & _).
    pose proof (B2Q_finite_pos mb eb).
    change (B2Q (S754_zero sa)) with 0 in Hle. lra.
  - cbn [SFsub]. apply (R_ext (B2Q (S754_finite sa ma ea))); [cbn [B2Q]; ring |].
    apply R_exact; assumption.
  - destruct Wa as (-> & _), Wb as (-> & _). cbn [SFsub cond_Zopp].
    set (ez := Z.min ea eb).
    pose proof (aligned_value ma ea ez ltac:(lia)) as Ha.
    pose proof (aligned_value mb eb ez ltac:(lia)) as Hb.
    cbn [B2Q cond_Zopp] in Hle. rewrite <- Ha, <- Hb in Hle.
    assert (HM : (Z.pos (fst (shl_align mb eb ez))
                  <= Z.pos (fst (shl_align ma ea ez)))%Z).
    { rewrite Zle_Qle. pose proof (pow2_pos ez).
      apply Qmult_le_r with (pow2 ez); assumption. }
    eapply R_ext; [| apply binary_normalize_R; lia].
    unfold Z.sub. rewrite inject_Z_plus, inject_Z_opp.
    cbn [B2Q cond_Zopp]. rewrite <- Ha, <- Hb. ring.
Qed.

Lemma new_location_inbetween (nb k q : Z) :
  (0 < nb)%Z -> (0 <= k < nb)%Z ->
  inbetween_int q (inject_Z q + inject_Z k / inject_Z nb) (new_location nb k).
Proof.
  intros Hnb Hk.
  assert (Pn : 0 < inject_Z nb)
    by (change 0 with (inject_Z 0); rewrite <- Zlt_Qlt; assumption).
  assert (Hlt1 : inject_Z k / inject_Z nb < 1).
  { apply Qlt_shift_div_r; [assumption |]. rewrite Qmult_1_l, <- Zlt_Qlt. lia. }
  assert (Hhalf : forall c : comparison,
             (2 * k ?= nb)%Z = c ->
             match c with
             | Lt => inject_Z k / inject_Z nb < 1 # 2
             | Eq => inject_Z k / inject_Z nb == 1 # 2
             | Gt => 1 # 2 < inject_Z k / inject_Z nb
             end).
  { intros c Hc. destruct c.
    - apply Z.compare_eq in Hc.
      assert (E : inject_Z nb == 2 * inject_Z k)
        by (rewrite <- Hc, inject_Z_mult; reflexivity).
      rewrite E. assert (0 < inject_Z k) by lra. field. lra.
    - apply -> Z.compare_lt_iff in Hc.
      apply Qlt_shift_div_r; [assumption |].
      rewrite Zlt_Qlt, inject_Z_mult in Hc. change (inject_Z 2) with 2 in Hc. lra.
    - apply -> Z.compare_gt_iff in Hc.
      apply Qlt_shift_div_l; [assumption |].
      rewrite Zlt_Qlt, inject_Z_mult in Hc. change (inject_Z 2) with 2 in Hc. lra. }
  unfold new_location, new_location_even, new_location_odd.
  destruct (Z.eqb_spec k 0) as [-> | Hk0].
  - assert (E0 : inject_Z 0 / inject_Z nb == 0) by (unfold Qdiv; apply Qmult_0_l).
    destruct (Z.even nb); rewrite Z.eqb_refl; cbn [inbetween_int]; rewrite E0; ring.
  - assert (Hpos : 0 < inject_Z k / inject_Z nb).
    { apply Qlt_shift_div_l; [assumption |]. rewrite Qmult_0_l.
      change 0 with (inject_Z 0). rewrite <- Zlt_Qlt. lia. }
    assert (Hk0' : (k =? 0)%Z = false) by (apply Z.eqb_neq; assumption).
    destruct (Z.even nb) eqn:Hev; rewrite Hk0'.
    + pose proof (Hhalf _ eq_refl) as H. revert H.
      destruct (2 * k ?= nb)%Z; intros H; cbn [inbetween_int]; lra.
    + assert (Hodd : Z.odd nb = true) by (rewrite <- Z.negb_even, Hev; reflexivity).
      apply Z.odd_spec in Hodd. destruct Hodd as [j Hj].
      destruct (Z.compare_spec (2 * k + 1) nb) as [Hc | Hc | Hc].
      * assert (Hc' : (2 * k ?= nb)%Z = Lt) by (apply Z.compare_lt_iff; lia).
        pose proof (Hhalf _ Hc') as H. cbv beta iota in H. cbn [inbetween_int]. lra.
      * assert (Hc' : (2 * k ?= nb)%Z = Lt) by (apply Z.compare_lt_iff; lia).
        pose proof (Hhalf _ Hc') as H. cbv beta iota in H. cbn [inbetween_int]. lra.
      * assert (Hc' : (2 * k ?= nb)%Z = Gt) by (apply Z.compare_gt_iff; lia).
        pose proof (Hhalf _ Hc') as H. cbv beta iota in H. cbn [inbetween_int]. lra.
Qed.

(** Division of positive finite floats rounds the exact quotient. *)
Lemma div_Rnd (m1 : positive) (e1 : Z) (m2 : positive) (e2 : Z) :
  Rnd (B2Q (S754_finite false m1 e1) / B2Q (S754_finite false m2 e2))
    (SFdiv 24 128 (S754_finite false m1 e1) (S754_finite false m2 e2)).
Proof.
  cbn [SFdiv xorb]. unfold SFdiv_core_binary. cbn [Zdigits2].
  fold (fexp32 (Z.pos (digits2_pos m1) + e1 - (Z.pos (digits2_pos m2) + e2))).
  rewrite fexp32_eq.
  pose proof (digits2_pos_bounds m1) as [L1 H1].
  pose proof (digits2_pos_bounds m2) as [L2 H2].
  set (d1 := Z.pos (digits2_pos m1)) in *.
  set (d2 := Z.pos (digits2_pos m2)) in *.
  set (e' := Z.min (Z.max (d1 + e1 - (d2 + e2) - 24) (-149)) (e1 - e2)).
  set (s := (e1 - e2 - e')%Z).
  assert (Hs : (0 <= s)%Z) by (unfold s, e'; lia).
  assert (Hm' : match s with
                | 0%Z => Z.pos m1
                | Z.pos _ => Z.shiftl (Z.pos m1) s
                | Z.neg _ => 0%Z
                end = (Z.pos m1 * 2 ^ s)%Z).
  { destruct s eqn:Es; [cbn; lia | | lia].
    rewrite Z.shiftl_mul_pow2 by lia. reflexivity. }
  rewrite Hm'. clear Hm'.
  assert (Hps : (0 < 2 ^ s)%Z) by (apply Z.pow_pos_nonneg; lia).
  pose proof (Z_div_mod (Z.pos m1 * 2 ^ s) (Z.pos m2) ltac:(lia)) as Hdm.
  destruct (Z.div_eucl (Z.pos m1 * 2 ^ s) (Z.pos m2)) as [q r].
  destruct Hdm as [Hq Hr].
  assert (Hq0 : (0 <= q)%Z) by nia.
  apply binary_round_aux_Rnd.
  - assumption.
  - rewrite fexp32_eq.
    destruct (Z.eq_dec q 0) as [-> | Hqne].
    + cbn [Zdigits2].
      assert (Z.pos m1 * 2 ^ s < 2 ^ d2)%Z by lia.
      assert (2 ^ (d1 - 1) * 2 ^ s <= Z.pos m1 * 2 ^ s)%Z
        by (apply Z.mul_le_mono_nonneg_r; lia).
      rewrite <- Z.pow_add_r in H0 by lia.
      assert (d1 - 1 + s < d2)%Z by (apply (Z.pow_lt_mono_r_iff 2); lia).
      unfold s, e' in *. lia.
    + destruct (Zdigits2_bounds q ltac:(lia)) as (Hdq & Lq & Uq).
      set (dq := Zdigits2 q) in *.
      destruct (Z_le_gt_dec e' (-149)) as [|Hgt]; [lia |].
      assert (Hs24 : (d2 - d1 + 24 <= s)%Z) by (unfold s, e' in *; lia).
      assert (2 ^ 23 <= q)%Z.
      { assert (2 ^ (d2 + 23) <= Z.pos m1 * 2 ^ s)%Z.
        { apply Z.le_trans with (2 ^ (d1 - 1) * 2 ^ s)%Z.
          - rewrite <- Z.pow_add_r by lia. apply Z.pow_le_mono_r; lia.
          - apply Z.mul_le_mono_nonneg_r; lia. }
        rewrite Z.pow_add_r in H by lia.
        destruct (Z_le_gt_dec (2 ^ 23) q); [assumption | exfalso]. nia. }
      assert (23 < dq)%Z by (apply (Z.pow_lt_mono_r_iff 2); lia).
      lia.
  - pose proof (new_location_inbetween (Z.pos m2) r q ltac:(lia) Hr) as Hin.
    refine (inbetween_int_ext _ _ _ _ _ Hin).
    cbn [B2Q cond_Zopp].
    assert (E1 : pow2 e1 == pow2 e2 * pow2 e' * inject_Z (2 ^ s)).
    { rewrite <- (pow2_inject s), <- !pow2_add by assumption.
      replace (e2 + e' + s)%Z with e1 by (unfold s; lia). reflexivity. }
    assert (E2 : inject_Z (Z.pos m1) * inject_Z (2 ^ s)
                 == inject_Z q * inject_Z (Z.pos m2) + inject_Z r).
    { rewrite <- !inject_Z_mult, <- inject_Z_plus, Hq.
      rewrite (Z.mul_comm (Z.pos m2) q). reflexivity. }
    pose proof (pow2_pos e2). pose proof (pow2_pos e').
    assert (0 < inject_Z (Z.pos m2))
      by (change 0 with (inject_Z 0); rewrite <- Zlt_Qlt; lia).
    rewrite E1.
    assert (E3 : inject_Z q + inject_Z r / inject_Z (Z.pos m2)
                 == (inject_Z (Z.pos m1) * inject_Z (2 ^ s)) / inject_Z (Z.pos m2)).
    { rewrite E2. field. lra. }
    rewrite E3. field. repeat split; lra.
Qed.

(** ** Non-negative floats, possibly infinite *)

Lemma wf_nonneg_cases (a : spec_float) :
  wf_nonneg a ->
  (exists s, a = S754_zero s)
  \/ a = S754_infinity false
  \/ (exists m e, a = S754_finite false m e).
Proof.
  destruct a as [s | s | | s m e]; cbn [wf_nonneg]; intros H.
  - left. exists s. reflexivity.
  - right. left. subst s. reflexivity.
  - contradiction.
  - right. right. destruct H as (-> & _). exists m, e. reflexivity.
Qed.

Lemma SFleb_refl_inf : SFleb (S754_infinity false) (S754_infinity false) = true.
Proof. reflexivity. Qed.

Lemma one_wf : wf_nonneg F32.one.
Proof. cbn. repeat split; try lia; reflexivity. Qed.

Lemma B2Q_one : B2Q F32.one == 1.
Proof. reflexivity. Qed.

Lemma Rnd_one : Rnd 1 F32.one.
Proof.
  apply (Rnd_ext (B2Q F32.one)); [apply B2Q_one |].
  apply Rnd_exact. apply one_wf.
Qed.

(** The product of non-negative floats is NaN or a non-negative float. *)
Lemma mul_wf (a b : spec_float) :
  wf_nonneg a -> wf_nonneg b ->
  SFmul 24 128 a b = S754_nan \/ wf_nonneg (SFmul 24 128 a b).
Proof.
  intros Wa Wb.
  destruct (wf_nonneg_cases a Wa) as [[sa ->] | [-> | (ma & ea & ->)]];
  destruct (wf_nonneg_cases b Wb) as [[sb ->] | [-> | (mb & eb & ->)]];
    cbn [SFmul xorb]; try (left; reflexivity);
    try (right; cbn [wf_nonneg]; first [exact I | reflexivity]).
  right. apply (R_wf _ _ (mul_R _ _ Wa I Wb I)).
Qed.

(** The product is monotone in its left factor. *)
Lemma mul_mono_l (a a' b : spec_float) :
  wf_nonneg a -> wf_nonneg a' -> wf_nonneg b ->
  SFleb a a' = true ->
  SFmul 24 128 a b <> S754_nan -> SFmul 24 128 a' b <> S754_nan ->
  SFleb (SFmul 24 128 a b) (SFmul 24 128 a' b) = true.
Proof.
  intros Wa Wa' Wb Hle Hn Hn'.
  destruct (mul_wf a b Wa Wb) as [E | Wab]; [contradiction |].
  destruct (mul_wf a' b Wa' Wb) as [E | Wab']; [contradiction |].
  destruct (wf_nonneg_cases a' Wa') as [[sa' ->] | [-> | (ma' & ea' & ->)]].
  - (* a' is zero, so a is zero *)
    destruct (wf_nonneg_cases a Wa) as [[sa ->] | [-> | (ma & ea & ->)]];
      [| discriminate Hle | destruct sa'; discriminate Hle].
    destruct (wf_nonneg_cases b Wb) as [[sb ->] | [-> | (mb & eb & ->)]];
      cbn [SFmul xorb] in *; try reflexivity; try (exfalso; apply Hn; reflexivity).
  - (* a' is infinite *)
    destruct (wf_nonneg_cases b Wb) as [[sb ->] | [-> | (mb & eb & ->)]].
    + exfalso. apply Hn'. reflexivity.
    + cbn [SFmul xorb] in *. apply SFleb_inf_r. assumption.
    + cbn [SFmul xorb] in *. apply SFleb_inf_r. assumption.
  - destruct (wf_nonneg_cases a Wa) as [[sa ->] | [-> | (ma & ea & ->)]];
      [| discriminate Hle |].
    + destruct (wf_nonneg_cases b Wb) as [[sb ->] | [-> | (mb & eb & ->)]].
      * cbn [SFmul xorb] in *. apply SFleb_zero_l. exact I.
      * exfalso. apply Hn. reflexivity.
      * cbn [SFmul xorb] in Wab |- *. apply SFleb_zero_l. assumption.
    + destruct (wf_nonneg_cases b Wb) as [[sb ->] | [-> | (mb & eb & ->)]].
      * cbn [SFmul xorb] in *. reflexivity.
      * cbn [SFmul xorb] in *. reflexivity.
      * pose proof (mul_R _ _ Wa I Wb I) as R1.
        pose proof (mul_R _ _ Wa' I Wb I) as R2.
        apply (R_mono _ _ _ _ R1 R2).
        pose proof (SFleb_B2Q _ _ Wa Wa' I I Hle).
        pose proof (B2Q_nonneg _ Wb).
        apply Qmult_le_compat_r; assumption.
Qed.

(** The sum of non-negative floats is a non-negative float that
    dominates both. *)
Lemma add_wf (a b : spec_float) :
  wf_nonneg a -> wf_nonneg b ->
  wf_nonneg (SFadd 24 128 a b)
  /\ SFleb a (SFadd 24 128 a b) = true
  /\ SFleb b (SFadd 24 128 a b) = true.
Proof.
  intros Wa Wb.
  destruct (wf_nonneg_cases a Wa) as [[sa ->] | [-> | (ma & ea & ->)]];
  destruct (wf_nonneg_cases b Wb) as [[sb ->] | [-> | (mb & eb & ->)]];
    try (cbn [SFadd]; (split; [| split]);
         first [exact I | reflexivity | assumption
               | destruct sa, sb; reflexivity
               | destruct sa; reflexivity
               | destruct sb; reflexivity]; fail).
  - cbn [SFadd]. split; [assumption | split].
    + apply SFleb_zero_l; assumption.
    + pose proof (R_exact _ Wb I) as Rb. apply (R_mono _ _ _ _ Rb Rb). lra.
  - cbn [SFadd]. split; [assumption | split].
    + pose proof (R_exact _ Wa I) as Ra. apply (R_mono _ _ _ _ Ra Ra). lra.
    + apply SFleb_zero_l; assumption.
  - pose proof (add_R _ _ Wa I Wb I) as Rs.
    pose proof (R_exact _ Wa I) as Ra.
    pose proof (R_exact _ Wb I) as Rb.
    pose proof (B2Q_nonneg _ Wa). pose proof (B2Q_nonneg _ Wb).
    split; [apply (R_wf _ _ Rs) |]. split.
    + apply (R_mono _ _ _ _ Ra Rs). lra.
    + apply (R_mono _ _ _ _ Rb Rs). lra.
Qed.

(** A quotient whose numerator does not exceed its denominator is NaN or
    lies in [[0, 1]]. *)
Lemma div_le_one (a b : spec_float) :
  wf_nonneg a -> wf_nonneg b -> SFleb a b = true ->
  SFdiv 24 128 a b = S754_nan
  \/ (wf_nonneg (SFdiv 24 128 a b)
      /\ SFleb (SFdiv 24 128 a b) F32.one = true).
Proof.
  intros Wa Wb Hle.
  destruct (wf_nonneg_cases a Wa) as [[sa ->] | [-> | (ma & ea & ->)]];
  destruct (wf_nonneg_cases b Wb) as [[sb ->] | [-> | (mb & eb & ->)]];
    try (left; reflexivity);
    try (right; cbn [SFdiv xorb]; split; [exact I | reflexivity]);
    try (destruct sb; discriminate Hle); try discriminate Hle.
  right.
  pose proof (div_Rnd ma ea mb eb) as Rd.
  split; [apply (Rnd_wf _ _ Rd) |].
  apply (Rnd_mono _ _ _ _ Rd Rnd_one).
  pose proof (SFleb_B2Q _ _ Wa Wb I I Hle).
  pose proof (B2Q_finite_pos mb eb).
  apply Qle_shift_div_r; [assumption | lra].
Qed.

(** Scaling by a factor of at most one does not increase a float. *)
Lemma mul_le_one (r w : spec_float) :
  wf_nonneg r -> wf_nonneg w -> SFleb r F32.one = true ->
  SFmul 24 128 r w = S754_nan
  \/ (wf_nonneg (SFmul 24 128 r w) /\ SFleb (SFmul 24 128 r w) w = true).
Proof.
  intros Wr Ww Hle.
  destruct (mul_wf r w Wr Ww) as [E | Wrw]; [left; assumption | right].
  split; [assumption |].
  destruct (wf_nonneg_cases r Wr) as [[sr ->] | [-> | (mr & er & ->)]];
    [| discriminate Hle |].
  - destruct (wf_nonneg_cases w Ww) as [[sw ->] | [-> | (mw & ew & ->)]];
      cbn [SFmul xorb] in *; try reflexivity; try contradiction.
  - destruct (wf_nonneg_cases w Ww) as [[sw ->] | [-> | (mw & ew & ->)]];
      cbn [SFmul xorb] in *; try reflexivity.
    pose proof (mul_R _ _ Wr I Ww I) as R1.
    pose proof (R_exact _ Ww I) as R2.
    apply (R_mono _ _ _ _ R1 R2).
    pose proof (SFleb_B2Q _ _ Wr one_wf I I Hle) as H1. rewrite B2Q_one in H1.
    pose proof (B2Q_nonneg _ Ww).
    rewrite <- (Qmult_1_l (B2Q (S754_finite false mw ew))) at 2.
    apply Qmult_le_compat_r; assumption.
Qed.

Lemma mul_one_wf (p : spec_float) :
  wf_nonneg p -> wf_nonneg (SFmul 24 128 p F32.one).
Proof.
  intros Wp.
  destruct (wf_nonneg_cases p Wp) as [[sp ->] | [-> | (mp & ep & ->)]].
  - exact I.
  - reflexivity.
  - apply (R_wf _ _ (mul_R _ _ Wp I one_wf I)).
Qed.

(** A float that is NaN or non-negative. *)
Definition nan_or_nonneg (x : spec_float) : Prop :=
  x = S754_nan \/ wf_nonneg x.

(** A float that is NaN or lies in [[0, 1]]. *)
Definition nan_or_unit (x : spec_float) : Prop :=
  x = S754_nan \/ (wf_nonneg x /\ SFleb x F32.one = true).

Lemma SFmul_nan_l (y : spec_float) : SFmul 24 128 S754_nan y = S754_nan.
Proof. reflexivity. Qed.

Lemma SFmul_nan_r (x : spec_float) : SFmul 24 128 x S754_nan = S754_nan.
Proof. destruct x; reflexivity. Qed.

Lemma SFadd_nan_l (y : spec_float) : SFadd 24 128 S754_nan y = S754_nan.
Proof. reflexivity. Qed.

Lemma SFadd_nan_r (x : spec_float) : SFadd 24 128 x S754_nan = S754_nan.
Proof. destruct x; reflexivity. Qed.

Lemma SFdiv_nan_l (y : spec_float) : SFdiv 24 128 S754_nan y = S754_nan.
Proof. reflexivity. Qed.

Lemma SFdiv_nan_r (x : spec_float) : SFdiv 24 128 x S754_nan = S754_nan.
Proof. destruct x; reflexivity. Qed.

Lemma wf_not_nan (x : spec_float) : wf_nonneg x -> x <> S754_nan.
Proof. intros W E. rewrite E in W. exact W. Qed.

Lemma mul_nan_or_nonneg (a b : spec_float) :
  nan_or_nonneg a -> nan_or_nonneg b -> nan_or_nonneg (SFmul 24 128 a b).
Proof.
  intros [-> | Wa] [-> | Wb].
  - left. reflexivity.
  - left. reflexivity.
  - left. apply SFmul_nan_r.
  - apply mul_wf; assumption.
Qed.

(** A weight [num / (b + w)] whose numerator is bounded by one of the two
    terms of its denominator. *)
Lemma ratio_nan_or_unit (num b w : spec_float) :
  nan_or_nonneg num -> nan_or_nonneg b -> nan_or_nonneg w ->
  (wf_nonneg num -> wf_nonneg b -> wf_nonneg w ->
   SFleb num b = true \/ SFleb num w = true) ->
  nan_or_unit (SFdiv 24 128 num (SFadd 24 128 b w)).
Proof.
  intros [-> | Wn] [-> | Wb] [-> | Ww] Hle;
    try (left; rewrite ?SFadd_nan_l, ?SFadd_nan_r;
         first [apply SFdiv_nan_l | apply SFdiv_nan_r]).
  destruct (add_wf b w Wb Ww) as (Ws & Lb & Lw).
  apply div_le_one; [assumption | assumption |].
  destruct (Hle Wn Wb Ww) as [H | H].
  - apply (SFleb_trans _ b); assumption.
  - apply (SFleb_trans _ w); assumption.
Qed.

(** A term scaled by a ratio in [[0, 1]]. *)
Lemma scaled_term (r w : spec_float) :
  nan_or_unit r -> nan_or_nonneg w ->
  nan_or_nonneg (SFmul 24 128 r w)
  /\ (wf_nonneg (SFmul 24 128 r w) -> wf_nonneg w ->
      SFleb (SFmul 24 128 r w) w = true).
Proof.
  intros [-> | [Wr Hr]] [-> | Ww].
  - split; [left; reflexivity | intros []].
  - split; [left; reflexivity | intros []].
  - rewrite SFmul_nan_r. split; [left; reflexivity | intros []].
  - destruct (mul_le_one r w Wr Ww Hr) as [E | [W L]].
    + rewrite E. split; [left; reflexivity | intros []].
    + split; [right; assumption | intros _ _; assumption].
Qed.

(** With [mCanonical + mCandidate <= mSum], the candidate's confidence
    does not exceed the rounded difference [mSum - mCanonical], nor
    [mSum]. *)
Lemma confidence_bounds (mSum mCandidate mCanonical : spec_float) :
  wf_nonneg mSum -> is_finite mSum ->
  wf_nonneg mCandidate -> is_finite mCandidate ->
  wf_nonneg mCanonical -> is_finite mCanonical ->
  B2Q mCanonical + B2Q mCandidate <= B2Q mSum ->
  wf_nonneg (SFsub 24 128 mSum mCanonical)
  /\ SFleb mCandidate (SFsub 24 128 mSum mCanonical) = true
  /\ SFleb mCandidate mSum = true.
Proof.
  intros WS FS WD FD WC FC Hsum.
  pose proof (B2Q_nonneg _ WC). pose proof (B2Q_nonneg _ WD).
  pose proof (sub_R mSum mCanonical WS FS WC FC ltac:(lra)) as RX.
  pose proof (R_exact _ WD FD) as RD.
  pose proof (R_exact _ WS FS) as RS.
  split; [apply (R_wf _ _ RX) |]. split.
  - apply (R_mono _ _ _ _ RD RX). lra.
  - apply (R_mono _ _ _ _ RD RS). lra.
Qed.

(** Bounds of the four weights, over non-negative floats. *)
Lemma pairwiseMIS_nan_or_unit (mSum mCandidate pi mCanonical pc : spec_float) :
  wf_nonneg mSum -> is_finite mSum ->
  wf_nonneg mCandidate -> is_finite mCandidate ->
  wf_nonneg mCanonical -> is_finite mCanonical ->
  wf_nonneg pi -> wf_nonneg pc ->
  B2Q mCanonical + B2Q mCandidate <= B2Q mSum ->
  nan_or_unit (pairwiseMIS_nonDefensiveNonCanonical mSum mCandidate pi
                 mCanonical pc F32.one)
  /\ nan_or_unit (pairwiseMIS_nonDefensiveCanonical mSum mCandidate pi
                    mCanonical pc F32.one)
  /\ nan_or_unit (pairwiseMIS_defensiveNonCanonical mSum mCandidate pi
                    mCanonical pc F32.one)
  /\ nan_or_unit (pairwiseMIS_defensiveCanonical mSum mCandidate pi
                    mCanonical pc F32.one).
Proof.
  intros WS FS WD FD WC FC WP WPc Hsum.
  destruct (confidence_bounds _ _ _ WS FS WD FD WC FC Hsum) as (WX & LX & LS).
  pose proof (mul_one_wf pi WP) as WQ.
  assert (Zero : nan_or_unit F32.zero)
    by (right; split; [exact I | reflexivity]).
  unfold pairwiseMIS_nonDefensiveNonCanonical,
    pairwiseMIS_nonDefensiveCanonical, pairwiseMIS_defensiveNonCanonical,
    pairwiseMIS_defensiveCanonical.
  unfold F32.mul, F32.div, F32.add, F32.sub, F32.prec, F32.emax.
  set (X := SFsub 24 128 mSum mCanonical) in *.
  set (pHat := SFmul 24 128 pi F32.one) in *.
  set (W := SFmul 24 128 mCanonical pc).
  assert (NW : nan_or_nonneg W) by (apply mul_wf; assumption).
  assert (NB : nan_or_nonneg (SFmul 24 128 X pHat)) by (apply mul_wf; assumption).
  destruct (F32.eqb pc F32.zero); [repeat split; assumption |].
  split; [| split; [| split]].
  - apply ratio_nan_or_unit; [apply mul_wf; assumption | assumption .. |].
    intros WA WB _. left.
    apply mul_mono_l; try assumption; apply wf_not_nan; assumption.
  - destruct (scaled_term (SFdiv 24 128 mCandidate X) W
                (div_le_one _ _ WD WX LX) NW) as [Nn Ln].
    apply ratio_nan_or_unit; try assumption.
    intros Wn _ Ww. right. apply Ln; assumption.
  - destruct (scaled_term (SFdiv 24 128 mCandidate mSum) (SFmul 24 128 X pHat)
                (div_le_one _ _ WD WS LS) NB) as [Nn Ln].
    apply ratio_nan_or_unit; try assumption.
    intros Wn Wb _. left. apply Ln; assumption.
  - destruct (scaled_term (SFdiv 24 128 mCandidate mSum) W
                (div_le_one _ _ WD WS LS) NW) as [Nn Ln].
    apply ratio_nan_or_unit; try assumption.
    intros Wn _ Ww. right. apply Ln; assumption.
Qed.

(** ** Rounding is a function *)

Lemma SFleb_antisym (a b : spec_float) :
  wf_nonneg a -> wf_nonneg b ->
  SFleb a b = true -> SFleb b a = true -> pz a = pz b.
Proof.
  intros Wa Wb Hab Hba.
  destruct (wf_nonneg_cases a Wa) as [[sa ->] | [-> | (ma & ea & ->)]];
  destruct (wf_nonneg_cases b Wb) as [[sb ->] | [-> | (mb & eb & ->)]];
    try reflexivity; try discriminate;
    try (destruct sa; discriminate); try (destruct sb; discriminate).
  unfold SFleb, SFcompare in Hab, Hba. cbn [pz].
  rewrite (Z.compare_antisym ea eb) in Hba.
  destruct (Z.compare_spec ea eb) as [E | E | E]; cbn [CompOpp] in *;
    try discriminate.
  subst eb.
  change (Pos.compare_cont Eq ma mb) with (Pos.compare ma mb) in Hab.
  change (Pos.compare_cont Eq mb ma) with (Pos.compare mb ma) in Hba.
  rewrite (Pos.compare_antisym ma mb) in Hba.
  destruct (Pos.compare_spec ma mb) as [E | E | E]; cbn [CompOpp] in *;
    try discriminate.
  subst mb. reflexivity.
Qed.

Lemma Rnd_fun (x : Q) (r1 r2 : spec_float) : Rnd x r1 -> Rnd x r2 -> r1 = r2.
Proof.
  intros H1 H2.
  rewrite <- (Rnd_pz _ _ H1), <- (Rnd_pz _ _ H2).
  apply SFleb_antisym.
  - apply (Rnd_wf _ _ H1).
  - apply (Rnd_wf _ _ H2).
  - apply (Rnd_mono _ _ _ _ H1 H2). apply Qle_refl.
  - apply (Rnd_mono _ _ _ _ H2 H1). apply Qle_refl.
Qed.

(** The rounding step does not depend on the sign it is given. *)
Lemma binary_round_aux_sign (s : bool) (m e : Z) (l : location)
    (m' : positive) (e' : Z) :
  binary_round_aux 24 128 false m e l = S754_finite false m' e' ->
  binary_round_aux 24 128 s m e l = S754_finite s m' e'.
Proof.
  unfold binary_round_aux.
  destruct (shr_fexp 24 128 m e l) as [mrs1 e1].
  destruct (shr_fexp 24 128 _ e1 loc_Exact) as [mrs2 e2].
  destruct (shr_m mrs2); try discriminate.
  destruct (e2 <=? 128 - 24)%Z; try discriminate.
  intros H. injection H as -> ->. reflexivity.
Qed.

(** Multiplying a binary32 number by one leaves it unchanged. *)
Lemma mul_one_r (x : spec_float) :
  valid_binary 24 128 x = true -> SFmul 24 128 x F32.one = x.
Proof.
  destruct x as [s | s | | s m e]; intros Hv.
  - cbn [SFmul]. destruct s; reflexivity.
  - cbn [SFmul]. destruct s; reflexivity.
  - reflexivity.
  - cbn [valid_binary] in Hv.
    assert (W : wf_nonneg (S754_finite false m e))
      by (cbn [wf_nonneg]; split; [reflexivity | apply bounded_canonical; assumption]).
    assert (E : SFmul 24 128 (S754_finite false m e) F32.one
                = S754_finite false m e).
    { apply (Rnd_fun (B2Q (S754_finite false m e))).
      - apply (Rnd_ext (B2Q (S754_finite false m e) * B2Q F32.one)).
        + rewrite B2Q_one. ring.
        + apply mul_Rnd; [assumption | apply one_wf].
      - apply Rnd_exact. assumption. }
    unfold F32.one in *. cbn [SFmul xorb] in E |- *.
    rewrite Bool.xorb_false_r.
    apply binary_round_aux_sign. assumption.
Qed.

End Binary32Rounding.

(* ===================================================================== *)
(** * Properties: the pairwise MIS weights *)
(* ===================================================================== *)

Section PairwiseWeights.

(** A non-negative member of the format: a zero, a positive finite
    number or [+Inf]. *)
Definition nonneg_float (x : float) : bool :=
  F32.valid x && F32.leb F32.zero x.

(** A non-negative finite member of the format. *)
Definition finite_nonneg_float (x : float) : bool :=
  nonneg_float x && negb (F32.isinf x).

(** NaN, or a value in [[0, 1]]. *)
Definition nan_or_in_unit_interval (w : float) : bool :=
  F32.isnan w || F32.in_unit_interval w.

Lemma nonneg_float_wf (x : float) : nonneg_float x = true -> wf_nonneg x.
Proof.
  unfold nonneg_float. intros H. apply andb_prop in H. destruct H as [Hv Hz].
  apply valid_wf_nonneg; assumption.
Qed.

Lemma finite_nonneg_float_wf (x : float) :
  finite_nonneg_float x = true -> wf_nonneg x /\ is_finite x.
Proof.
  unfold finite_nonneg_float. intros H. apply andb_prop in H.
  destruct H as [Hn Hf]. split; [apply nonneg_float_wf; assumption |].
  destruct x; try exact I; [discriminate Hf | discriminate Hn].
Qed.

Lemma nan_or_unit_decide (w : float) :
  nan_or_unit w -> nan_or_in_unit_interval w = true.
Proof.
  intros [-> | [Ww Hw]]; [reflexivity |].
  unfold nan_or_in_unit_interval, F32.in_unit_interval, F32.leb, F32.zero.
  rewrite (SFleb_zero_l false w Ww), Hw. apply orb_true_r.
Qed.

(** The closed forms of the specification, in binary32 arithmetic. *)
Definition spec_nonDefensiveNonCanonical (mSum mCand p_i mCanon p_c : float)
  : float :=
  if (p_c =? F32.zero)%f32 then F32.zero
  else (mCand * p_i / ((mSum - mCanon) * p_i + mCanon * p_c))%f32.

Definition spec_nonDefensiveCanonical (mSum mCand p_i mCanon p_c : float)
  : float :=
  ((mCand / (mSum - mCanon)) * (mCanon * p_c)
   / ((mSum - mCanon) * p_i + mCanon * p_c))%f32.

Definition spec_defensiveNonCanonical (mSum mCand p_i mCanon p_c : float)
  : float :=
  ((mCand / mSum) * ((mSum - mCanon) * p_i)
   / ((mSum - mCanon) * p_i + mCanon * p_c))%f32.

Definition spec_defensiveCanonical (mSum mCand p_i mCanon p_c : float)
  : float :=
  ((mCand / mSum) * (mCanon * p_c)
   / ((mSum - mCanon) * p_i + mCanon * p_c))%f32.

Lemma pHatFrom_i_default (p_i : float) :
  F32.valid p_i = true -> (p_i * F32.one)%f32 = p_i.
Proof. apply mul_one_r. Qed.

(** C2, as stated, fails: at [p_c = 0] every one of the four functions
    returns 0, the three unguarded closed forms do not. With
    [mSum = 2], [mCand = mCanon = p_i = 1] the defensive non-canonical
    closed form is [(1/2) * 1 / (1 + 0) = 1/2]. *)
Lemma defensive_weight_is_guarded :
  pairwiseMIS_defensiveNonCanonical f32_two F32.one F32.one F32.one F32.zero
    F32.one = F32.zero
  /\ spec_defensiveNonCanonical f32_two F32.one F32.one F32.one F32.zero
     = f32_half.
Proof. vm_compute. split; reflexivity. Qed.

(** C2, amended: the four functions (with the default [out_J = 1]) return
    0 when [p_c == 0]; otherwise each computes its closed form, in
    binary32 arithmetic evaluated left to right. The first closed form,
    which the specification guards, is computed for every [p_c]. *)
Theorem pairwiseMIS_closed_forms (mSum mCandidate pi mCanonical pc : float) :
  F32.valid pi = true ->
  pairwiseMIS_nonDefensiveNonCanonical mSum mCandidate pi mCanonical pc F32.one
  = spec_nonDefensiveNonCanonical mSum mCandidate pi mCanonical pc
  /\ ((pc =? F32.zero)%f32 = true ->
      pairwiseMIS_nonDefensiveNonCanonical mSum mCandidate pi mCanonical pc
        F32.one = F32.zero
      /\ pairwiseMIS_nonDefensiveCanonical mSum mCandidate pi mCanonical pc
           F32.one = F32.zero
      /\ pairwiseMIS_defensiveNonCanonical mSum mCandidate pi mCanonical pc
           F32.one = F32.zero
      /\ pairwiseMIS_defensiveCanonical mSum mCandidate pi mCanonical pc
           F32.one = F32.zero)
  /\ ((pc =? F32.zero)%f32 = false ->
      pairwiseMIS_nonDefensiveCanonical mSum mCandidate pi mCanonical pc
        F32.one
      = spec_nonDefensiveCanonical mSum mCandidate pi mCanonical pc
      /\ pairwiseMIS_defensiveNonCanonical mSum mCandidate pi mCanonical pc
           F32.one
         = spec_defensiveNonCanonical mSum mCandidate pi mCanonical pc
      /\ pairwiseMIS_defensiveCanonical mSum mCandidate pi mCanonical pc
           F32.one
         = spec_defensiveCanonical mSum mCandidate pi mCanonical pc).
Proof.
  intros Hv.
  unfold pairwiseMIS_nonDefensiveNonCanonical,
    pairwiseMIS_nonDefensiveCanonical, pairwiseMIS_defensiveNonCanonical,
    pairwiseMIS_defensiveCanonical, spec_nonDefensiveNonCanonical,
    spec_nonDefensiveCanonical, spec_defensiveNonCanonical,
    spec_defensiveCanonical.
  rewrite (pHatFrom_i_default pi Hv).
  split; [reflexivity | split]; intros ->; repeat split; reflexivity.
Qed.

Lemma pairwiseMIS_closed_forms_witness :
  F32.valid f32_half = true
  /\ pairwiseMIS_defensiveNonCanonical f32_two F32.one f32_half F32.one
       F32.one F32.one
     = spec_defensiveNonCanonical f32_two F32.one f32_half F32.one F32.one.
Proof.
  split; [reflexivity |].
  apply (pairwiseMIS_closed_forms f32_two F32.one f32_half F32.one F32.one);
    reflexivity.
Defined.

(** The four weight functions, with the default [out_J = 1]. *)
Definition pairwiseMIS_weights
  : list (float -> float -> float -> float -> float -> float) :=
  [ fun mSum mCandidate pi mCanonical pc =>
      pairwiseMIS_nonDefensiveNonCanonical mSum mCandidate pi mCanonical pc
        F32.one;
    fun mSum mCandidate pi mCanonical pc =>
      pairwiseMIS_nonDefensiveCanonical mSum mCandidate pi mCanonical pc
        F32.one;
    fun mSum mCandidate pi mCanonical pc =>
      pairwiseMIS_defensiveNonCanonical mSum mCandidate pi mCanonical pc
        F32.one;
    fun mSum mCandidate pi mCanonical pc =>
      pairwiseMIS_defensiveCanonical mSum mCandidate pi mCanonical pc
        F32.one ].

(** C5, as stated, fails: with [mSum = mCand = 1], [mCanon = 0],
    [p_i = 0], [p_c = 1] (valid, non-negative, [mCanon + mCand <= mSum],
    [mSum > 0]) every one of the four functions divides zero by zero and
    returns NaN, which is not in [[0, 1]]. *)
Lemma pairwiseMIS_weight_can_be_nan :
  finite_nonneg_float F32.one = true
  /\ finite_nonneg_float F32.zero = true
  /\ (B2Q F32.zero + B2Q F32.one <= B2Q F32.one)%Q
  /\ (0 < B2Q F32.one)%Q
  /\ Forall (fun f =>
              f F32.one F32.one F32.zero F32.zero F32.one = F32.nan
              /\ F32.in_unit_interval
                   (f F32.one F32.one F32.zero F32.zero F32.one) = false)
       pairwiseMIS_weights.
Proof.
  split; [reflexivity |]. split; [reflexivity |].
  split; [vm_compute; discriminate |]. split; [vm_compute; reflexivity |].
  repeat constructor.
Qed.

(** C5, amended: for finite non-negative confidence weights with
    [mCanon + mCand <= mSum] and non-negative target values, each of the
    four functions returns NaN or a value in [[0, 1]], and each returns
    exactly 0 when [p_c == 0]. *)
Theorem pairwiseMIS_weight_bounds (mSum mCandidate pi mCanonical pc : float) :
  finite_nonneg_float mSum = true ->
  finite_nonneg_float mCandidate = true ->
  finite_nonneg_float mCanonical = true ->
  nonneg_float pi = true ->
  nonneg_float pc = true ->
  (B2Q mCanonical + B2Q mCandidate <= B2Q mSum)%Q ->
  Forall (fun f =>
            let w := f mSum mCandidate pi mCanonical pc in
            nan_or_in_unit_interval w = true
            /\ ((pc =? F32.zero)%f32 = true -> w = F32.zero))
    pairwiseMIS_weights.
Proof.
  intros HS HD HC HP HPc Hsum.
  destruct (finite_nonneg_float_wf _ HS) as [WS FS].
  destruct (finite_nonneg_float_wf _ HD) as [WD FD].
  destruct (finite_nonneg_float_wf _ HC) as [WC FC].
  pose proof (nonneg_float_wf _ HP) as WP.
  pose proof (nonneg_float_wf _ HPc) as WPc.
  destruct (pairwiseMIS_nan_or_unit mSum mCandidate pi mCanonical pc
              WS FS WD FD WC FC WP WPc Hsum) as (H1 & H2 & H3 & H4).
  unfold pairwiseMIS_weights.
  repeat constructor; cbv zeta;
    try (apply nan_or_unit_decide; assumption);
    unfold pairwiseMIS_nonDefensiveNonCanonical,
      pairwiseMIS_nonDefensiveCanonical, pairwiseMIS_defensiveNonCanonical,
      pairwiseMIS_defensiveCanonical; intros ->; reflexivity.
Qed.

Lemma pairwiseMIS_weight_bounds_witness :
  finite_nonneg_float f32_two = true
  /\ (B2Q F32.one + B2Q F32.one <= B2Q f32_two)%Q
  /\ Forall (fun f =>
               let w := f f32_two F32.one f32_half F32.one F32.one in
               nan_or_in_unit_interval w = true
               /\ ((F32.one =? F32.zero)%f32 = true -> w = F32.zero))
       pairwiseMIS_weights.
Proof.
  split; [reflexivity |]. split; [vm_compute; discriminate |].
  apply (pairwiseMIS_weight_bounds f32_two F32.one f32_half F32.one F32.one
           eq_refl eq_refl eq_refl eq_refl eq_refl).
  vm_compute; discriminate.
Defined.

End PairwiseWeights.

(* ===================================================================== *)
(** * Properties: reservoir buffer slots *)
(* ===================================================================== *)

Section BufferSlots.

(** A pixel of the frame: both coordinates within [frameDim]. *)
Definition inFrame (frameDim pixel : uint2) : Prop :=
  0 <= fst pixel < fst frameDim /\ 0 <= snd pixel < snd frameDim.

(** The reservoir buffers of [numPasses] passes fit the 32-bit index. *)
Definition slotsFit (frameDim : uint2) (numPasses : Z) : Prop :=
  fst frameDim * snd frameDim * numPasses <= U32.modulus.

Lemma wrap_small (z : Z) : 0 <= z < U32.modulus -> U32.wrap z = z.
Proof. intros H. unfold U32.wrap. apply Z.mod_small. assumption. Qed.

Lemma row_major_bound (x y w h : Z) :
  0 <= x < w -> 0 <= y < h -> 0 <= y * w /\ 0 <= y * w + x < w * h.
Proof.
  intros Hx Hy.
  assert (H1 : 0 <= y * w) by (apply Z.mul_nonneg_nonneg; lia).
  assert (H2 : y * w <= (h - 1) * w) by (apply Z.mul_le_mono_nonneg_r; lia).
  split; [assumption |]. split; [lia |].
  replace (w * h) with ((h - 1) * w + w) by ring. lia.
Qed.

Lemma getPixelIndex_exact (frameDim pixel : uint2) :
  inFrame frameDim pixel -> slotsFit frameDim 1 ->
  getPixelIndex frameDim pixel = snd pixel * fst frameDim + fst pixel
  /\ 0 <= getPixelIndex frameDim pixel < fst frameDim * snd frameDim.
Proof.
  intros [Hx Hy] Hfit. unfold slotsFit in Hfit. unfold getPixelIndex.
  destruct (row_major_bound _ _ _ _ Hx Hy) as [Hyw Hb].
  unfold U32.add, U32.mul.
  rewrite (wrap_small (snd pixel * fst frameDim)) by lia.
  rewrite wrap_small by lia. split; [reflexivity | assumption].
Qed.

Lemma getPixelIndexInPass_exact (frameDim pixel : uint2) (passIdx numPasses : Z) :
  inFrame frameDim pixel -> 0 <= passIdx < numPasses ->
  slotsFit frameDim numPasses ->
  getPixelIndexInPass frameDim pixel passIdx
  = fst frameDim * snd frameDim * passIdx
    + (snd pixel * fst frameDim + fst pixel).
Proof.
  intros [Hx Hy] Hp Hfit. unfold slotsFit in Hfit.
  unfold getPixelIndexInPass.
  set (A := fst frameDim * snd frameDim) in *.
  destruct (row_major_bound _ _ _ _ Hx Hy) as [Hyw Hb]. fold A in Hb.
  assert (HA : 0 < A) by lia.
  assert (Ht : 0 <= A * passIdx /\ A * passIdx + A <= A * numPasses) by nia.
  unfold U32.add, U32.mul. fold A.
  rewrite (wrap_small (snd pixel * fst frameDim)) by lia.
  rewrite (wrap_small (snd pixel * fst frameDim + fst pixel)) by lia.
  assert (E : U32.wrap (U32.wrap A * passIdx) = A * passIdx).
  { unfold U32.wrap. rewrite Z.mul_mod_idemp_l by (unfold U32.modulus; lia).
    apply Z.mod_small. lia. }
  rewrite E. apply wrap_small. lia.
Qed.

Lemma getPixelIndexInPass_injective (frameDim : uint2) (numPasses : Z)
    (pixel pixel' : uint2) (passIdx passIdx' : Z) :
  slotsFit frameDim numPasses ->
  inFrame frameDim pixel -> inFrame frameDim pixel' ->
  0 <= passIdx < numPasses -> 0 <= passIdx' < numPasses ->
  getPixelIndexInPass frameDim pixel passIdx
  = getPixelIndexInPass frameDim pixel' passIdx' ->
  pixel = pixel' /\ passIdx = passIdx'.
Proof.
  intros Hfit Hin Hin' Hp Hp'.
  rewrite (getPixelIndexInPass_exact _ _ _ _ Hin Hp Hfit).
  rewrite (getPixelIndexInPass_exact _ _ _ _ Hin' Hp' Hfit).
  destruct Hin as [Hx Hy], Hin' as [Hx' Hy'].
  destruct pixel as [x y], pixel' as [x' y'], frameDim as [w h].
  cbn [fst snd] in *. unfold slotsFit in Hfit. cbn [fst snd] in Hfit.
  set (A := w * h) in *.
  destruct (row_major_bound _ _ _ _ Hx Hy) as [Hyw Hb]. fold A in Hb.
  destruct (row_major_bound _ _ _ _ Hx' Hy') as [Hyw' Hb']. fold A in Hb'.
  assert (HA : 0 < A) by lia.
  intros E.
  assert (Hpass : passIdx = passIdx') by nia. subst passIdx'.
  assert (Hyy : y = y') by nia. subst y'.
  assert (Hxx : x = x') by lia. subst x'.
  split; reflexivity.
Qed.

(** Within a frame whose [numPasses] reservoir buffers fit the 32-bit
    index, the slot of a pixel in a pass lies inside the buffer, and two
    slots coincide only for the same pixel in the same pass. *)
Theorem getPixelIndex_slots (frameDim : uint2) (numPasses : Z)
    (pixel pixel' : uint2) (passIdx passIdx' : Z) :
  slotsFit frameDim numPasses ->
  inFrame frameDim pixel -> inFrame frameDim pixel' ->
  0 <= passIdx < numPasses -> 0 <= passIdx' < numPasses ->
  0 <= getPixelIndexInPass frameDim pixel passIdx
    < fst frameDim * snd frameDim * numPasses
  /\ (getPixelIndexInPass frameDim pixel passIdx
      = getPixelIndexInPass frameDim pixel' passIdx' ->
      pixel = pixel' /\ passIdx = passIdx').
Proof.
  intros Hfit Hin Hin' Hp Hp'. split.
  - rewrite (getPixelIndexInPass_exact _ _ _ _ Hin Hp Hfit).
    destruct Hin as [Hx Hy]. unfold slotsFit in Hfit.
    set (A := fst frameDim * snd frameDim) in *.
    destruct (row_major_bound _ _ _ _ Hx Hy) as [Hyw Hb]. fold A in Hb.
    assert (HA : 0 < A) by lia.
    nia.
  - exact (getPixelIndexInPass_injective frameDim numPasses pixel pixel'
             passIdx passIdx' Hfit Hin Hin' Hp Hp').
Qed.

Lemma getPixelIndex_slots_witness :
  slotsFit (4, 4) 2 /\ inFrame (4, 4) (1, 2) /\ inFrame (4, 4) (3, 0)
  /\ getPixelIndexInPass (4, 4) (1, 2) 1 = 25
  /\ (getPixelIndexInPass (4, 4) (1, 2) 1 = getPixelIndexInPass (4, 4) (3, 0) 0 ->
      (1, 2) = (3, 0) /\ 1 = 0).
Proof.
  assert (F : slotsFit (4, 4) 2) by (unfold slotsFit; cbn; lia).
  assert (I1 : inFrame (4, 4) (1, 2)) by (unfold inFrame; cbn; lia).
  assert (I2 : inFrame (4, 4) (3, 0)) by (unfold inFrame; cbn; lia).
  split; [exact F |]. split; [exact I1 |]. split; [exact I2 |].
  split; [reflexivity |].
  apply (getPixelIndex_slots (4, 4) 2 (1, 2) (3, 0) 1 0 F I1 I2); lia.
Defined.

End BufferSlots.

(* ===================================================================== *)
(** * Properties: the threads of a dispatch *)
(* ===================================================================== *)

(** A dispatch runs [process] once per thread; the model takes the
    threads in the order of a list. *)
Definition dispatch {T : Type} (process : T -> uint2 -> T)
    (threads : list uint2) (self : T) : T :=
  fold_left process threads self.

(** Thread identifiers are unsigned. *)
Definition unsignedPixel (pixel : uint2) : Prop :=
  0 <= fst pixel /\ 0 <= snd pixel.

Lemma upd_other {A : Type} (buf : Z -> A) (i j : Z) (v : A) :
  j <> i -> upd buf i v j = buf j.
Proof.
  intros H. unfold upd. destruct (Z.eqb_spec j i); [contradiction | reflexivity].
Qed.

Lemma outsideFrame_false (frameDim pixel : uint2) :
  unsignedPixel pixel -> outsideFrame frameDim pixel = false ->
  inFrame frameDim pixel.
Proof.
  intros [Hx Hy] H. unfold outsideFrame in H.
  apply orb_false_elim in H. destruct H as [H1 H2].
  apply Z.leb_gt in H1. apply Z.leb_gt in H2.
  unfold inFrame. lia.
Qed.

Section TemporalDispatch.
Context {S : Type} `{SG : ISampleGenerator S} `{SC : Scene S}
        `{INTR : Intrinsics}.

Definition temporalSlot (self : TemporalResampling.t) (pixel : uint2) : Z :=
  getPixelIndexInPass (TemporalResampling.frameDim self) pixel
    (TemporalResampling.restirPassIdx self).

Lemma temporal_with_buffers_id (self : TemporalResampling.t) :
  TemporalResampling.with_buffers (TemporalResampling.reservoirs self)
    (TemporalResampling.resEvalContext self)
    (TemporalResampling.debugOutput self) self = self.
Proof. destruct self; reflexivity. Qed.

(** A thread leaves a pass that differs from the one it started from in
    its writable resources only, and among the reservoir and context
    slots in its own only. *)
Lemma temporal_process_shape (self : TemporalResampling.t) (q : uint2) :
  exists r e d,
    TemporalResampling.process self q
    = TemporalResampling.with_buffers r e d self
    /\ forall j, j <> temporalSlot self q ->
         r j = TemporalResampling.reservoirs self j
         /\ e j = TemporalResampling.resEvalContext self j.
Proof.
  unfold TemporalResampling.process.
  destruct (outsideFrame _ q).
  { eexists _, _, _. split; [symmetry; apply temporal_with_buffers_id |].
    intros; split; reflexivity. }
  destruct (TemporalResampling.backProject self q _) as [prevPixel sg].
  destruct (negb _).
  { eexists _, _, _. split; [symmetry; apply temporal_with_buffers_id |].
    intros; split; reflexivity. }
  eexists _, _, _. split; [reflexivity |].
  intros j Hj. unfold temporalSlot in Hj.
  split; apply upd_other; assumption.
Qed.

(** What a thread stores in its own slot depends, among the writable
    resources, on that slot only. *)
Lemma temporal_process_local (self : TemporalResampling.t) (p : uint2)
    (r r0 : Z -> Reservoir.t) (e e0 : Z -> EvalContext.t)
    (d d0 : uint2 -> float4) :
  r (temporalSlot self p) = r0 (temporalSlot self p) ->
  e (temporalSlot self p) = e0 (temporalSlot self p) ->
  TemporalResampling.reservoirs
    (TemporalResampling.process
       (TemporalResampling.with_buffers r e d self) p) (temporalSlot self p)
  = TemporalResampling.reservoirs
      (TemporalResampling.process
         (TemporalResampling.with_buffers r0 e0 d0 self) p)
      (temporalSlot self p)
  /\ TemporalResampling.resEvalContext
       (TemporalResampling.process
          (TemporalResampling.with_buffers r e d self) p)
       (temporalSlot self p)
     = TemporalResampling.resEvalContext
         (TemporalResampling.process
            (TemporalResampling.with_buffers r0 e0 d0 self) p)
         (temporalSlot self p).
Proof.
  intros Hr He. unfold temporalSlot in *.
  destruct self. unfold TemporalResampling.process.
  cbn [TemporalResampling.with_buffers TemporalResampling.frameDim
       TemporalResampling.restirPassIdx TemporalResampling.frameIndex
       TemporalResampling.reservoirs TemporalResampling.resEvalContext
       TemporalResampling.prevReservoirs TemporalResampling.prevResEvalContext
       TemporalResampling.kDebugOutput TemporalResampling.debugOutput
       TemporalResampling.kMaxHistoryLength TemporalResampling.kUnbiased
       TemporalResampling.kUsePrevFrameSceneData
       TemporalResampling.motionVectors TemporalResampling.lights
       TemporalResampling.useMFactor] in *.
  destruct (outsideFrame _ p); [cbn; split; assumption |].
  unfold TemporalResampling.backProject.
  cbn [TemporalResampling.frameDim TemporalResampling.motionVectors
       TemporalResampling.with_buffers].
  match goal with
  | |- context [bind ?c ?k ?g] => destruct (bind c k g) as [prevPixel sg]
  end.
  destruct (negb _); [cbn; split; assumption |].
  cbn [TemporalResampling.with_buffers TemporalResampling.reservoirs
       TemporalResampling.resEvalContext].
  rewrite !upd_same, Hr, He.
  split; reflexivity.
Qed.

Lemma temporal_with_buffers_twice (self : TemporalResampling.t)
    (r r' : Z -> Reservoir.t) (e e' : Z -> EvalContext.t)
    (d d' : uint2 -> float4) :
  TemporalResampling.with_buffers r' e' d'
    (TemporalResampling.with_buffers r e d self)
  = TemporalResampling.with_buffers r' e' d' self.
Proof. reflexivity. Qed.

(** Threads of other pixels leave a pixel's slot as it was. *)
Lemma temporal_dispatch_other (self : TemporalResampling.t)
    (threads : list uint2) (p : uint2) :
  slotsFit (TemporalResampling.frameDim self)
    (TemporalResampling.restirPassIdx self + 1) ->
  0 <= TemporalResampling.restirPassIdx self ->
  inFrame (TemporalResampling.frameDim self) p ->
  Forall unsignedPixel threads -> ~ In p threads ->
  forall r e d,
  exists r' e' d',
    dispatch TemporalResampling.process threads
      (TemporalResampling.with_buffers r e d self)
    = TemporalResampling.with_buffers r' e' d' self
    /\ r' (temporalSlot self p) = r (temporalSlot self p)
    /\ e' (temporalSlot self p) = e (temporalSlot self p).
Proof.
  intros Hfit Hpass Hp Hall Hnot.
  induction threads as [| q threads IH]; intros r e d.
  - exists r, e, d. repeat split; reflexivity.
  - inversion Hall as [| q' l' Hq Hl]; subst.
    assert (Hqp : q <> p) by (intros ->; apply Hnot; left; reflexivity).
    assert (Hnot' : ~ In p threads) by (intros Hin; apply Hnot; right; exact Hin).
    cbn [dispatch fold_left].
    destruct (temporal_process_shape
                (TemporalResampling.with_buffers r e d self) q)
      as (r1 & e1 & d1 & E1 & Hother).
    rewrite E1, temporal_with_buffers_twice.
    destruct (IH Hl Hnot' r1 e1 d1) as (r' & e' & d' & E' & Hr' & He').
    exists r', e', d'. split; [exact E' |].
    assert (Hkeep : r1 (temporalSlot self p) = r (temporalSlot self p)
                    /\ e1 (temporalSlot self p) = e (temporalSlot self p)).
    { destruct (outsideFrame (TemporalResampling.frameDim self) q) eqn:Hout.
      - (* the thread returns at once *)
        assert (Eid : TemporalResampling.process
                        (TemporalResampling.with_buffers r e d self) q
                      = TemporalResampling.with_buffers r e d self).
        { unfold TemporalResampling.process.
          destruct self; cbn in Hout |- *. rewrite Hout. reflexivity. }
        rewrite Eid in E1. destruct self. cbn in E1.
        injection E1 as <- <- <-. split; reflexivity.
      - assert (Hslot : temporalSlot self p <> temporalSlot self q).
        { intros E. unfold temporalSlot in E.
          pose proof (outsideFrame_false _ _ Hq Hout) as Hqin.
          assert (Hb : 0 <= TemporalResampling.restirPassIdx self
                       < TemporalResampling.restirPassIdx self + 1) by lia.
          destruct (getPixelIndexInPass_injective _ _ p q _ _ Hfit Hp Hqin
                      Hb Hb E) as [Epq _].
          apply Hqp. symmetry. exact Epq. }
        destruct (Hother (temporalSlot self p)) as [H1 H2].
        { destruct self; exact Hslot. }
        destruct self; cbn in H1, H2. split; assumption. }
    destruct Hkeep as [K1 K2]. rewrite Hr', He', K1, K2. split; reflexivity.
Qed.

(** The reservoir and the context a temporal thread stores for its pixel
    are those it would store if it ran alone, whatever the order in
    which the threads of the dispatch run: threads of different pixels
    write different slots, and a thread reads, among the buffers the
    dispatch writes, its own slot only. *)
Theorem temporal_threads_independent (self : TemporalResampling.t)
    (threads : list uint2) (p : uint2) :
  slotsFit (TemporalResampling.frameDim self)
    (TemporalResampling.restirPassIdx self + 1) ->
  0 <= TemporalResampling.restirPassIdx self ->
  inFrame (TemporalResampling.frameDim self) p ->
  Forall unsignedPixel threads -> NoDup threads -> In p threads ->
  TemporalResampling.reservoirs
    (dispatch TemporalResampling.process threads self) (temporalSlot self p)
  = TemporalResampling.reservoirs (TemporalResampling.process self p)
      (temporalSlot self p)
  /\ TemporalResampling.resEvalContext
       (dispatch TemporalResampling.process threads self) (temporalSlot self p)
     = TemporalResampling.resEvalContext (TemporalResampling.process self p)
         (temporalSlot self p).
Proof.
  intros Hfit Hpass Hp Hall Hnd Hin.
  destruct (in_split _ _ Hin) as (l1 & l2 & ->).
  apply NoDup_remove_2 in Hnd.
  assert (Hn1 : ~ In p l1) by (intros H; apply Hnd, in_or_app; left; exact H).
  assert (Hn2 : ~ In p l2) by (intros H; apply Hnd, in_or_app; right; exact H).
  apply Forall_app in Hall. destruct Hall as [Hall1 Hall2].
  inversion Hall2 as [| p' l' _ Hall2']; subst.
  set (slot := temporalSlot self p) in *.
  destruct (temporal_dispatch_other self l1 p Hfit Hpass Hp Hall1 Hn1
              (TemporalResampling.reservoirs self)
              (TemporalResampling.resEvalContext self)
              (TemporalResampling.debugOutput self))
    as (r1 & e1 & d1 & E1 & Hr1 & He1).
  rewrite temporal_with_buffers_id in E1. fold slot in Hr1, He1.
  destruct (temporal_process_shape
              (TemporalResampling.with_buffers r1 e1 d1 self) p)
    as (r2 & e2 & d2 & E2 & _).
  rewrite temporal_with_buffers_twice in E2.
  pose proof (temporal_process_local self p r1
                (TemporalResampling.reservoirs self) e1
                (TemporalResampling.resEvalContext self) d1
                (TemporalResampling.debugOutput self) Hr1 He1) as [L1 L2].
  rewrite temporal_with_buffers_id in L1, L2. rewrite E2 in L1, L2.
  cbn [TemporalResampling.with_buffers TemporalResampling.reservoirs
       TemporalResampling.resEvalContext] in L1, L2.
  fold slot in L1, L2.
  destruct (temporal_dispatch_other self l2 p Hfit Hpass Hp Hall2' Hn2 r2 e2 d2)
    as (r3 & e3 & d3 & E3 & Hr3 & He3).
  fold slot in Hr3, He3.
  assert (E : dispatch TemporalResampling.process (l1 ++ p :: l2) self
              = TemporalResampling.with_buffers r3 e3 d3 self).
  { unfold dispatch in *. rewrite fold_left_app. cbn [fold_left].
    rewrite E1, E2. exact E3. }
  rewrite E.
  cbn [TemporalResampling.with_buffers TemporalResampling.reservoirs
       TemporalResampling.resEvalContext].
  rewrite Hr3, He3, L1, L2. split; reflexivity.
Qed.

End TemporalDispatch.

(** A temporal pass over a 2 x 2 frame with still motion vectors, for
    the concrete runs below. *)
Definition stillTemporalPass : TemporalResampling.t :=
  TemporalResampling.mk
    (fun _ => Reservoir.mk (Reference.emissiveSample 0) 1 F32.one 2 F32.one)
    (fun _ => whiteContext)
    (fun _ => float4_zero)
    20 false false DebugDisabled
    (fun _ => (F32.zero, F32.zero))
    (fun _ => Reservoir.mk (Reference.emissiveSample 1) 4 F32.one 2 F32.one)
    (fun _ => whiteContext)
    mfactorLights (2, 2) 0 false 0.

Lemma temporal_threads_independent_witness :
  inFrame (2, 2) (1, 0)
  /\ TemporalResampling.reservoirs
       (dispatch TemporalResampling.process [(0, 0); (1, 0); (5, 7)]
          stillTemporalPass)
       (temporalSlot stillTemporalPass (1, 0))
     = TemporalResampling.reservoirs
         (TemporalResampling.process stillTemporalPass (1, 0))
         (temporalSlot stillTemporalPass (1, 0)).
Proof.
  assert (I : inFrame (2, 2) (1, 0)) by (unfold inFrame; cbn; lia).
  split; [exact I |].
  apply (temporal_threads_independent stillTemporalPass
           [(0, 0); (1, 0); (5, 7)] (1, 0)).
  - unfold slotsFit; cbn; lia.
  - cbn; lia.
  - exact I.
  - repeat constructor; cbn; lia.
  - repeat constructor; cbn; intuition congruence.
  - right; left; reflexivity.
Defined.

(* ===================================================================== *)
(** * Properties: a NaN weight sum *)
(* ===================================================================== *)

Lemma isnan_eq (x : float) : F32.isnan x = true -> x = S754_nan.
Proof. destruct x; try discriminate; reflexivity. Qed.

Lemma ltb_nan_l (x : float) : (S754_nan <? x)%f32 = false.
Proof. reflexivity. Qed.

Lemma ltb_nan_r (x : float) : (x <? S754_nan)%f32 = false.
Proof. destruct x as [[] | [] | | [] ? ?]; reflexivity. Qed.

Lemma add_nan_l (x : float) : (S754_nan + x)%f32 = S754_nan.
Proof. reflexivity. Qed.

Lemma add_nan_r (x : float) : (x + S754_nan)%f32 = S754_nan.
Proof. destruct x; reflexivity. Qed.

Lemma mul_nan_r (x : float) : (x * S754_nan)%f32 = S754_nan.
Proof. destruct x; reflexivity. Qed.

Section NanWeightSum.
Context {S : Type} `{SG : ISampleGenerator S} `{SC : Scene S}
        `{INTR : Intrinsics}.

(** The outcome of an update that selected nothing and left a NaN weight
    sum: the held sample, its target value and the path sample are those
    of [state]. *)
Definition frozen (state : RisState.t) (result : bool * RisState.t) : Prop :=
  fst result = false
  /\ F32.isnan (RisState.weightSum (snd result)) = true
  /\ RisState.lightSample (snd result) = RisState.lightSample state
  /\ RisState.targetPdf (snd result) = RisState.targetPdf state
  /\ RisState.pathSample (snd result) = RisState.pathSample state.

Lemma selectSample_nan (state : RisState.t) (sampleWeight : float) (sg : S) :
  RisState.weightSum state = S754_nan ->
  fst (selectSample state sampleWeight sg) = false.
Proof.
  intros H. rewrite selectSample_run. cbn [fst]. rewrite H, mul_nan_r.
  apply ltb_nan_l.
Qed.

Ltac freeze H :=
  rewrite !bind_run; cbn [ret fst snd];
  rewrite selectSample_nan
    by (cbn [RisState.weightSum RisState.with_weightSum RisState.with_M
             RisState.with_canonicalWeight]; rewrite H; reflexivity);
  cbn [RisState.weightSum RisState.with_weightSum RisState.with_M
       RisState.with_canonicalWeight RisState.lightSample RisState.targetPdf
       RisState.pathSample];
  rewrite H; repeat split; reflexivity.

(** Once the weight sum of a RIS state is NaN, no streaming update
    selects its candidate: the weight sum stays NaN and the held sample,
    its target value and the path sample are kept, for every candidate
    and every random number. *)
Theorem nan_weightSum_is_absorbing (state : RisState.t) :
  F32.isnan (RisState.weightSum state) = true ->
  (forall lightSample targetPdf sourcePdf misWeight pHat (sg : S),
      frozen state
        (fst (streamingInitialResampleMIS_withoutAlbedo state lightSample
                targetPdf sourcePdf misWeight pHat sg)))
  /\ (forall lightSample targetPdf sourcePdf misWeight (sg : S),
         frozen state
           (fst (streamingInitialResampleMIS state lightSample targetPdf
                   sourcePdf misWeight sg)))
  /\ (forall pathSample targetPdf sourcePdf misWeight (sg : S),
         frozen state
           (fst (streamingInitialResampleMIS_path state pathSample targetPdf
                   sourcePdf misWeight sg)))
  /\ (forall reservoir misWeight (sg : S),
         frozen state
           (fst (streamingResampleStepMIS state reservoir misWeight sg)))
  /\ (forall canonicalReservoir canonicalContext candidateReservoir
             candidateContext lights useMFactor confidenceWeightSum
             intersectAreaSize withVisibility (sg : S),
         frozen state
           (fst (temporalResamplePointReservoirPairwiseMIS state
                   canonicalReservoir canonicalContext candidateReservoir
                   candidateContext lights useMFactor confidenceWeightSum
                   intersectAreaSize withVisibility sg)))
  /\ (forall canonicalReservoir canonicalContext candidateReservoir
             candidateContext lights useMFactor confidenceWeightSum
             withVisibility (sg : S),
         frozen state
           (fst (spatialResamplePointReservoirPairwiseMIS state
                   canonicalReservoir canonicalContext candidateReservoir
                   candidateContext lights useMFactor confidenceWeightSum
                   withVisibility sg)))
  /\ (forall canonicalReservoir canonicalTargetPdf (sg : S),
         frozen state
           (fst (streamingResampleFinalizeMis state canonicalReservoir
                   canonicalTargetPdf sg))).
Proof.
  intros Hnan. apply isnan_eq in Hnan.
  repeat apply conj; intros; unfold frozen.
  - unfold streamingInitialResampleMIS_withoutAlbedo. freeze Hnan.
  - unfold streamingInitialResampleMIS. freeze Hnan.
  - unfold streamingInitialResampleMIS_path. freeze Hnan.
  - unfold streamingResampleStepMIS. freeze Hnan.
  - unfold temporalResamplePointReservoirPairwiseMIS. freeze Hnan.
  - unfold spatialResamplePointReservoirPairwiseMIS. freeze Hnan.
  - unfold streamingResampleFinalizeMis. freeze Hnan.
Qed.

Lemma selectSample_nan_weight (state : RisState.t) (sg : S) :
  fst (selectSample state S754_nan sg) = false.
Proof. rewrite selectSample_run. cbn [fst]. apply ltb_nan_r. Qed.

Lemma zero_over_zero (misWeight targetPdf sourcePdf : float) :
  (targetPdf =? F32.zero)%f32 = true -> (sourcePdf =? F32.zero)%f32 = true ->
  (misWeight * targetPdf / sourcePdf)%f32 = S754_nan.
Proof.
  intros Ht Hs.
  destruct targetPdf as [st | [] | | [] ? ?]; try discriminate Ht.
  destruct sourcePdf as [ss | [] | | [] ? ?]; try discriminate Hs.
  destruct misWeight as [sm | sm | | sm mm em]; reflexivity.
Qed.

(** A light candidate whose target value and source PDF are both zero
    has the sample weight [0 / 0]: it is not selected, and it leaves a
    NaN weight sum behind, whatever its MIS weight and whatever the
    state held. *)
Theorem zero_pdf_candidate_poisons (state : RisState.t)
    (lightSample : LightSample.t) (targetPdf sourcePdf misWeight : float)
    (sg : S) :
  (targetPdf =? F32.zero)%f32 = true -> (sourcePdf =? F32.zero)%f32 = true ->
  frozen state
    (fst (streamingInitialResampleMIS state lightSample targetPdf sourcePdf
            misWeight sg)).
Proof.
  intros Ht Hs. unfold frozen, streamingInitialResampleMIS.
  rewrite (zero_over_zero misWeight _ _ Ht Hs).
  rewrite !bind_run; cbn [ret fst snd].
  rewrite selectSample_nan_weight.
  cbn [RisState.weightSum RisState.with_weightSum RisState.with_M
       RisState.lightSample RisState.targetPdf RisState.pathSample].
  rewrite add_nan_r. repeat split; reflexivity.
Qed.

End NanWeightSum.

(** A state that holds light 0 with a NaN weight sum. *)
Definition nanSumState : RisState.t :=
  RisState.mk (Reference.emissiveSample 0) 2 F32.nan F32.one F32.zero
    F32.one F32.zero.

Lemma nan_weightSum_is_absorbing_witness :
  F32.isnan (RisState.weightSum nanSumState) = true
  /\ frozen nanSumState
       (fst (streamingInitialResampleMIS nanSumState
               (Reference.emissiveSample 1) f32_two F32.one F32.one 0)).
Proof.
  split; [reflexivity |].
  destruct (nan_weightSum_is_absorbing (S := Z) nanSumState eq_refl)
    as (_ & H & _).
  exact (H (Reference.emissiveSample 1) f32_two F32.one F32.one 0).
Defined.

Lemma zero_pdf_candidate_poisons_witness :
  (F32.zero =? F32.zero)%f32 = true
  /\ frozen (RisState.createEmpty 2)
       (fst (streamingInitialResampleMIS (RisState.createEmpty 2)
               (Reference.emissiveSample 1) F32.zero F32.zero F32.one 0)).
Proof.
  split; [reflexivity |].
  exact (zero_pdf_candidate_poisons (S := Z) (RisState.createEmpty 2)
           (Reference.emissiveSample 1) F32.zero F32.zero F32.one 0
           eq_refl eq_refl).
Defined.

(* ===================================================================== *)
(** * Properties: clamped quantities *)
(* ===================================================================== *)

Lemma SFcompare_antisym (a b : float) :
  SFcompare b a = option_map CompOpp (SFcompare a b).
Proof.
  destruct a as [sa | sa | | sa ma ea], b as [sb | sb | | sb mb eb];
    try (destruct sa; reflexivity); try (destruct sb; reflexivity);
    try (destruct sa, sb; reflexivity); try reflexivity.
  destruct sa, sb; cbn [SFcompare option_map]; try reflexivity.
  - rewrite (Z.compare_antisym ea eb).
    destruct (ea ?= eb); cbn [CompOpp]; try reflexivity.
    rewrite ?Pos.compare_cont_antisym; cbn [CompOpp]; rewrite ?CompOpp_involutive; reflexivity.
  - rewrite (Z.compare_antisym ea eb).
    destruct (ea ?= eb); cbn [CompOpp]; try reflexivity.
    rewrite ?Pos.compare_cont_antisym; cbn [CompOpp]; rewrite ?CompOpp_involutive; reflexivity.
Qed.

(** For numbers, [not (b < a)] is [a <= b]. *)
Lemma not_ltb_leb (a b : float) :
  F32.isnan a = false -> F32.isnan b = false ->
  F32.ltb b a = false -> F32.leb a b = true.
Proof.
  intros Ha Hb H. unfold F32.ltb, F32.leb, SFltb, SFleb in *.
  rewrite (SFcompare_antisym a b) in H.
  destruct (SFcompare a b) as [[] |] eqn:E; cbn in H;
    try reflexivity; try discriminate.
  destruct a, b; cbn in E; try discriminate;
    match type of E with context [if ?s then _ else _] => destruct s end;
    discriminate.
Qed.

Lemma max_zero_cases (x : float) :
  F32.max x F32.zero = F32.zero
  \/ (F32.max x F32.zero = x /\ F32.isnan x = false
      /\ F32.ltb x F32.zero = false).
Proof.
  unfold F32.max. destruct (F32.isnan x) eqn:Hn; [left; reflexivity |].
  change (F32.isnan F32.zero) with false. cbv iota.
  destruct (F32.ltb x F32.zero) eqn:Hl; [left; reflexivity |].
  right. repeat split; reflexivity || assumption.
Qed.

(** [max(x, 0)] is a number that is not negative, for every [x]. *)
Lemma max_zero_nonneg (x : float) :
  F32.isnan (F32.max x F32.zero) = false
  /\ F32.leb F32.zero (F32.max x F32.zero) = true.
Proof.
  destruct (max_zero_cases x) as [-> | (-> & Hn & Hl)].
  - split; reflexivity.
  - split; [assumption |]. apply not_ltb_leb; [reflexivity | assumption ..].
Qed.

(** [clamp(x, 0, 1)] lies in [[0, 1]] for every [x], NaN included. *)
Lemma clamp_unit (x : float) :
  F32.in_unit_interval (F32.clamp x F32.zero F32.one) = true.
Proof.
  unfold F32.clamp.
  destruct (max_zero_nonneg x) as [Hn Hz].
  set (r := F32.max x F32.zero) in *.
  unfold F32.min. rewrite Hn. change (F32.isnan F32.one) with false.
  cbv iota.
  destruct (F32.ltb F32.one r) eqn:Hl.
  - reflexivity.
  - unfold F32.in_unit_interval. rewrite Hz. cbn [andb].
    apply not_ltb_leb; [assumption | reflexivity | exact Hl].
Qed.

Lemma min_unit (a b : float) :
  F32.in_unit_interval a = true -> F32.in_unit_interval b = true ->
  F32.in_unit_interval (F32.min a b) = true.
Proof.
  intros Ha Hb. unfold F32.min.
  destruct (F32.isnan a); [assumption |].
  destruct (F32.isnan b); [assumption |].
  destruct (F32.ltb b a); assumption.
Qed.

Section MFactor.
Context `{INTR : Intrinsics}.

(** The M-factor and the scale of a pairwise merge lie in [[0, 1]] for
    all target values, whatever [pow] returns: a NaN power or ratio is
    clamped to 0, and a vanishing first target value gives 1. *)
Theorem mFactor_in_unit_interval (q0 q1 q0' q1' : float) :
  F32.in_unit_interval (mFactor q0 q1) = true
  /\ F32.in_unit_interval (mScaler q0 q1 q0' q1') = true
  /\ ((q0 =? F32.zero)%f32 = true -> mFactor q0 q1 = F32.one).
Proof.
  assert (H : forall a b, F32.in_unit_interval (mFactor a b) = true).
  { intros a b. unfold mFactor.
    destruct (a =? F32.zero)%f32; [reflexivity | apply clamp_unit]. }
  split; [apply H |]. split.
  - unfold mScaler. apply min_unit; apply H.
  - intros E. unfold mFactor. rewrite E. reflexivity.
Qed.

End MFactor.

(* ===================================================================== *)
(** * Properties: the evaluation context *)
(* ===================================================================== *)

(** A number that is not negative: a zero, [+Inf] or a positive finite
    float. *)
Definition nonneg_number (x : float) : bool :=
  negb (F32.isnan x) && F32.leb F32.zero x.

Lemma shr_iter_nonneg (n : nat) (mrs : shr_record) :
  0 <= shr_m mrs -> 0 <= shr_m (Nat.iter n shr_1 mrs).
Proof.
  intros H. induction n as [| n IH]; [exact H |].
  rewrite Nat.iter_succ. rewrite shr_1_m by exact IH.
  apply Z.div_pos; lia.
Qed.

Lemma shr_fexp_nonneg (m e : Z) (l : location) :
  0 <= m -> 0 <= shr_m (fst (shr_fexp 24 128 m e l)).
Proof.
  intros Hm. unfold shr_fexp, shr.
  pose proof (loc_of_shr_record_of_loc m l) as [_ E].
  destruct (fexp 24 128 (Zdigits2 m + e) - e) as [| p | p]; cbn [fst];
    try (rewrite E; exact Hm).
  rewrite iter_pos_nat. apply shr_iter_nonneg. rewrite E. exact Hm.
Qed.

(** Rounding a non-negative mantissa gives a zero, an infinity or a
    finite float of the sign it was given, never NaN. *)
Lemma binary_round_aux_signed (s : bool) (m e : Z) (l : location) :
  0 <= m ->
  binary_round_aux 24 128 s m e l = S754_zero s
  \/ binary_round_aux 24 128 s m e l = S754_infinity s
  \/ exists m' e', binary_round_aux 24 128 s m e l = S754_finite s m' e'.
Proof.
  intros Hm. unfold binary_round_aux.
  pose proof (shr_fexp_nonneg m e l Hm) as H1.
  destruct (shr_fexp 24 128 m e l) as [mrs1 e1]. cbn [fst] in H1.
  pose proof (round_nearest_even_bounds (shr_m mrs1) (loc_of_shr_record mrs1))
    as Hr.
  pose proof (shr_fexp_nonneg
                (round_nearest_even (shr_m mrs1) (loc_of_shr_record mrs1))
                e1 loc_Exact ltac:(lia)) as H2.
  destruct (shr_fexp 24 128 _ e1 loc_Exact) as [mrs2 e2]. cbn [fst] in H2.
  destruct (shr_m mrs2) as [| p | p]; [left; reflexivity | | lia].
  destruct (e2 <=? 128 - 24); [right; right; eauto | right; left; reflexivity].
Qed.

Lemma nonneg_number_cases (x : float) :
  nonneg_number x = true ->
  (exists s, x = S754_zero s) \/ x = S754_infinity false
  \/ exists m e, x = S754_finite false m e.
Proof.
  unfold nonneg_number.
  destruct x as [s | [] | | [] m e]; cbn; intros H; try discriminate; eauto.
Qed.

(** Multiplying a non-negative number by one keeps it a non-negative
    number, canonical or not. *)
Lemma mul_one_nonneg (x : float) :
  nonneg_number x = true -> nonneg_number (x * F32.one)%f32 = true.
Proof.
  intros H.
  destruct (nonneg_number_cases x H) as [[s ->] | [-> | (m & e & ->)]].
  - destruct s; reflexivity.
  - reflexivity.
  - unfold F32.mul, F32.one, F32.prec, F32.emax. cbn [SFmul xorb].
    destruct (binary_round_aux_signed false (Z.pos (m * 8388608)) (e + -23)
                loc_Exact ltac:(lia)) as [E | [E | (m' & e' & E)]];
      rewrite E; reflexivity.
Qed.

(** Multiplying a non-negative number by zero gives a zero, or NaN for
    an infinity. *)
Lemma mul_zero_nonneg (x : float) :
  nonneg_number x = true ->
  nonneg_number (x * F32.zero)%f32 = true
  \/ (x = S754_infinity false /\ (x * F32.zero)%f32 = S754_nan).
Proof.
  intros H.
  destruct (nonneg_number_cases x H) as [[s ->] | [-> | (m & e & ->)]].
  - left. destruct s; reflexivity.
  - right. split; reflexivity.
  - left. reflexivity.
Qed.

Lemma max_zero_l_nonneg (y : float) :
  nonneg_number (F32.max F32.zero y) = true.
Proof.
  unfold F32.max. change (F32.isnan F32.zero) with false. cbv iota.
  destruct (F32.isnan y) eqn:Hn; [reflexivity |].
  destruct (F32.ltb F32.zero y) eqn:Hl; [| reflexivity].
  unfold nonneg_number. rewrite Hn. cbn [negb andb].
  unfold F32.ltb, F32.leb, SFltb, SFleb in *.
  destruct (SFcompare F32.zero y) as [[] |]; try discriminate; reflexivity.
Qed.

Section TargetFunction.
Context {S : Type} `{SG : ISampleGenerator S} `{SC : Scene S}.

(** The target function of a light sample (path sample 2) is a number
    that is not negative, for every surface, light and BSDF value; the
    one exception is a NaN, which arises only with the visibility term
    enabled, when the unshadowed value overflowed to infinity and the
    sample is occluded ([Inf * 0]).  On an invalid surface it is zero
    and draws no random number. *)
Theorem evalTargetFunction_nonneg (c : EvalContext.t)
    (loadedLightSample : LoadedLightSample) (lights : Lights)
    (withVisibility : bool) (sg : S) :
  let r := evalTargetFunction c loadedLightSample lights withVisibility 2 sg in
  (nonneg_number (fst r) = true
   \/ (withVisibility = true /\ fst r = F32.nan
       /\ evalVisibility c (lls_eval loadedLightSample (EvalContext.pos c))
          = F32.zero))
  /\ (EvalContext.isSurfaceValid c = false -> r = (F32.zero, sg)).
Proof.
  cbv zeta. unfold evalTargetFunction.
  destruct (EvalContext.isSurfaceValid c) eqn:Hv;
    cbn [negb andb Z.eqb Pos.eqb];
    [| split; [left; reflexivity | reflexivity]].
  split; [| discriminate].
  destruct (any_nonzero3 _); [| left; reflexivity].
  rewrite bind_run. cbn [ret fst].
  match goal with
  | |- context [F32.max F32.zero ?y] =>
      pose proof (max_zero_l_nonneg y) as Hs; set (s := F32.max F32.zero y) in *
  end.
  destruct withVisibility.
  - unfold evalVisibility.
    destruct (traceVisibilityRay _).
    + left. apply mul_one_nonneg. exact Hs.
    + destruct (mul_zero_nonneg s Hs) as [E | [_ E]].
      * left. exact E.
      * right. repeat split; exact E.
  - left. apply mul_one_nonneg. exact Hs.
Qed.

End TargetFunction.

Lemma ltb_leb (a b : float) : F32.ltb a b = true -> F32.leb a b = true.
Proof.
  unfold F32.ltb, F32.leb, SFltb, SFleb.
  destruct (SFcompare a b) as [[] |]; try discriminate; reflexivity.
Qed.

(** [max(lo, x)] for a number [lo] is a number not below [lo], for every
    [x], NaN included. *)
Lemma max_lower_bound (lo x : float) :
  F32.isnan lo = false -> F32.leb lo lo = true ->
  F32.isnan (F32.max lo x) = false /\ F32.leb lo (F32.max lo x) = true.
Proof.
  intros Hn Hr. unfold F32.max. rewrite Hn.
  destruct (F32.isnan x) eqn:Hx; [split; assumption |].
  destruct (F32.ltb lo x) eqn:Hl; [| split; assumption].
  split; [assumption | apply ltb_leb; assumption].
Qed.

(** The context of a valid surface: the cosine [NdotV] lies in [[0, 1]]
    and the GGX alpha is a number not below 0.0064, whatever the surface
    data hold (NaN normals or roughness included). *)
Theorem evalContext_create_clamps (pixel frameDim : uint2)
    (surfaceData : SurfaceData.t) (viewDir : float3) :
  let c := EvalContext.create pixel frameDim true surfaceData viewDir in
  F32.in_unit_interval (EvalContext.NdotV c) = true
  /\ F32.isnan (EvalContext.ggxAlpha c) = false
  /\ F32.leb EvalContext.kMinGgxAlpha (EvalContext.ggxAlpha c) = true.
Proof.
  cbv zeta. unfold EvalContext.create.
  cbn [EvalContext.NdotV EvalContext.ggxAlpha].
  split; [apply clamp_unit |].
  apply max_lower_bound; reflexivity.
Qed.

Lemma div_not_nan (a b : spec_float) :
  wf_nonneg a -> is_finite a -> wf_nonneg b ->
  SFltb (S754_zero false) b = true ->
  SFdiv 24 128 a b <> S754_nan.
Proof.
  intros Wa Fa Wb Hb.
  destruct (wf_nonneg_cases a Wa) as [[sa ->] | [-> | (ma & ea & ->)]];
    [| contradiction |];
  destruct (wf_nonneg_cases b Wb) as [[sb ->] | [-> | (mb & eb & ->)]];
    try discriminate Hb; try (cbn [SFdiv]; discriminate).
  apply wf_not_nan. apply (Rnd_wf _ _ (div_Rnd ma ea mb eb)).
Qed.

(** For finite non-negative diffuse and specular weights the mixing
    probability [diffuseSpecularMix] of a valid surface lies in
    [[0, 1]]: it is [diffuseWeight / (diffuseWeight + specularWeight)]
    rounded, and 1 when the sum does not exceed [1e-7]. *)
Theorem diffuseSpecularMix_in_unit_interval (pixel frameDim : uint2)
    (surfaceData : SurfaceData.t) (viewDir : float3) :
  finite_nonneg_float (SurfaceData.diffuseWeight surfaceData) = true ->
  finite_nonneg_float (SurfaceData.specularWeight surfaceData) = true ->
  F32.in_unit_interval
    (EvalContext.diffuseSpecularMix
       (EvalContext.create pixel frameDim true surfaceData viewDir)) = true.
Proof.
  intros Hd Hs.
  destruct (finite_nonneg_float_wf _ Hd) as [Wd Fd].
  destruct (finite_nonneg_float_wf _ Hs) as [Ws Fs].
  unfold EvalContext.create. cbn [EvalContext.diffuseSpecularMix].
  set (d := SurfaceData.diffuseWeight surfaceData) in *.
  set (s := SurfaceData.specularWeight surfaceData) in *.
  destruct (F32.gtb (d + s)%f32 EvalContext.kMixThreshold) eqn:Hgt;
    [| reflexivity].
  unfold F32.add, F32.div, F32.prec, F32.emax in *.
  destruct (add_wf d s Wd Ws) as (Wsum & Ld & _).
  assert (Hpos : SFltb (S754_zero false) (SFadd 24 128 d s) = true).
  { unfold F32.gtb in Hgt.
    destruct (wf_nonneg_cases _ Wsum) as [[ss E] | [E | (ms & es & E)]];
      rewrite E in Hgt |- *; try reflexivity.
    destruct ss; discriminate Hgt. }
  destruct (div_le_one d _ Wd Wsum Ld) as [E | [W L]].
  - exfalso. exact (div_not_nan d _ Wd Fd Wsum Hpos E).
  - unfold F32.in_unit_interval, F32.leb, F32.zero.
    rewrite (SFleb_zero_l false _ W), L. reflexivity.
Qed.

Lemma diffuseSpecularMix_in_unit_interval_witness :
  finite_nonneg_float (SurfaceData.diffuseWeight (Reference.surface float3_zero))
  = true
  /\ F32.in_unit_interval
       (EvalContext.diffuseSpecularMix
          (EvalContext.create (0, 0) (4, 4) true
             (Reference.surface float3_zero) Reference.unitZ)) = true.
Proof.
  split; [reflexivity |].
  exact (diffuseSpecularMix_in_unit_interval (0, 0) (4, 4)
           (Reference.surface float3_zero) Reference.unitZ eq_refl eq_refl).
Defined.

(* ===================================================================== *)
(** * Properties: the balance heuristic of the initial candidates *)
(* ===================================================================== *)

Lemma SFmul_comm (a b : spec_float) : SFmul 24 128 a b = SFmul 24 128 b a.
Proof.
  destruct a as [sa | sa | | sa ma ea], b as [sb | sb | | sb mb eb];
    cbn [SFmul]; rewrite ?(xorb_comm sa sb); try reflexivity.
  rewrite (Pos.mul_comm ma mb), (Z.add_comm ea eb). reflexivity.
Qed.

Lemma pow2_zero : pow2 0 == 1%Q.
Proof. reflexivity. Qed.

(** [float(n)] of an unsigned integer is a non-negative float, and it is
    at least one when [n] is. *)
Lemma of_uint_wf (n : Z) :
  0 <= n ->
  wf_nonneg (F32.of_uint n)
  /\ (1 <= n -> SFleb F32.one (F32.of_uint n) = true).
Proof.
  intros Hn.
  pose proof (binary_normalize_R n 0 Hn) as Rn.
  split; [apply (R_wf _ _ Rn) |].
  intros H1.
  apply (R_mono 1 (inject_Z n * pow2 0) _ _ (Rnd_R _ _ Rnd_one) Rn).
  rewrite pow2_zero, Qmult_1_r.
  change 1%Q with (inject_Z 1). rewrite <- Zle_Qle. exact H1.
Qed.

(** A non-negative float in canonical form is a member of the format. *)
Lemma wf_nonneg_valid (x : spec_float) :
  wf_nonneg x -> valid_binary 24 128 x = true.
Proof.
  intros W. destruct x as [s | s | | s m e]; try reflexivity.
  cbn [wf_nonneg] in W. destruct W as (-> & Hm & He & Hn).
  cbn [valid_binary]. unfold bounded, canonical_mantissa.
  pose proof (digits_of_canonical m e
                (conj eq_refl (conj Hm (conj He Hn)))) as [Hd Hd'].
  apply andb_true_intro. split.
  - apply Z.eqb_eq. fold (fexp32 (Z.pos (digits2_pos m) + e)).
    rewrite fexp32_eq. lia.
  - apply Z.leb_le. lia.
Qed.

(** A count of at least one does not decrease a non-negative PDF. *)
Lemma count_times_pdf (n : Z) (p : spec_float) :
  1 <= n -> valid_binary 24 128 p = true -> wf_nonneg p ->
  nan_or_nonneg (SFmul 24 128 (F32.of_uint n) p)
  /\ (wf_nonneg (SFmul 24 128 (F32.of_uint n) p) ->
      SFleb p (SFmul 24 128 (F32.of_uint n) p) = true).
Proof.
  intros Hn Hv Wp.
  destruct (of_uint_wf n ltac:(lia)) as [Wn Ln]. specialize (Ln Hn).
  split; [apply mul_wf; assumption |].
  intros W.
  assert (E : SFmul 24 128 F32.one p = p)
    by (rewrite SFmul_comm; apply mul_one_r; exact Hv).
  rewrite <- E at 1.
  apply mul_mono_l; try assumption.
  - apply one_wf.
  - rewrite E. apply wf_not_nan. exact Wp.
  - apply wf_not_nan. exact W.
Qed.

Section BalanceHeuristic.
Context {S : Type} `{SG : ISampleGenerator S} `{SC : Scene S}.

(** The balance-heuristic weight of an initial candidate is NaN or lies
    in [[0, 1]], for non-negative PDFs and geometry factor: the PDF of
    the technique that drew the candidate, counted once, is one of the
    terms of the denominator.  (NaN arises from [0 / 0] and
    [Inf / Inf] only.) *)
Theorem evalBalanceHeuristicMIS_bounds (self : InitialResampling.t)
    (evalContext : EvalContext.t) (lightSample : LightSample.t)
    (evaluatedLightSample : EvaluatedLightSample.t)
    (technique : InitialResampling.SamplingTechnique) :
  nonneg_float (EvaluatedLightSample.pdf evaluatedLightSample) = true ->
  nonneg_float
    (evalBsdfPDF evalContext (EvaluatedLightSample.dir evaluatedLightSample))
  = true ->
  nonneg_float (EvaluatedLightSample.geomFactor evaluatedLightSample) = true ->
  0 <= InitialResampling.kInitialLightSampleCount self ->
  (1 <= InitialResampling.kInitialLightSampleCount self
   \/ (technique = InitialResampling.BRDF
       /\ 1 <= InitialResampling.kInitialBRDFSampleCount self)) ->
  nan_or_in_unit_interval
    (InitialResampling.evalBalanceHeuristicMIS self evalContext lightSample
       evaluatedLightSample technique) = true.
Proof.
  intros Hpl Hbsdf Hgeom HNL Hcount.
  apply nan_or_unit_decide.
  assert (Vpl : valid_binary 24 128 (EvaluatedLightSample.pdf evaluatedLightSample) = true).
  { unfold nonneg_float in Hpl. apply andb_prop in Hpl. apply Hpl. }
  pose proof (nonneg_float_wf _ Hpl) as Wpl.
  pose proof (nonneg_float_wf _ Hbsdf) as Wbsdf.
  pose proof (nonneg_float_wf _ Hgeom) as Wgeom.
  unfold InitialResampling.evalBalanceHeuristicMIS.
  set (pl := EvaluatedLightSample.pdf evaluatedLightSample) in *.
  set (NL := InitialResampling.kInitialLightSampleCount self) in *.
  set (NB := InitialResampling.kInitialBRDFSampleCount self) in *.
  unfold F32.mul, F32.div, F32.add, F32.prec, F32.emax.
  destruct (of_uint_wf NL HNL) as [WNL _].
  destruct (0 <? NB) eqn:HNB.
  - apply Z.ltb_lt in HNB.
    set (pb0 := SFmul 24 128
                  (evalBsdfPDF evalContext
                     (EvaluatedLightSample.dir evaluatedLightSample))
                  (EvaluatedLightSample.geomFactor evaluatedLightSample)).
    assert (Npb0 : nan_or_nonneg pb0) by (apply mul_wf; assumption).
    match goal with
    | |- nan_or_unit (SFdiv _ _ _ (SFadd _ _ _ (SFmul _ _ _ ?pb))) =>
        set (pbF := pb)
    end.
    assert (Hpb : pbF = pb0 \/ pbF = F32.zero).
    { unfold pbF.
      destruct (LightSample.getKind lightSample);
        try (left; reflexivity); try (right; reflexivity).
      destruct (F32.gtb _ _); [right | left]; reflexivity. }
    assert (Npb : nan_or_nonneg pbF)
      by (destruct Hpb as [-> | ->]; [exact Npb0 | right; exact I]).
    pose proof (wf_nonneg_valid pbF) as Vpb.
    assert (NNB : nan_or_nonneg (SFmul 24 128 (F32.of_uint NB) pbF)).
    { destruct (of_uint_wf NB ltac:(lia)) as [WNB _].
      apply mul_nan_or_nonneg; [right; exact WNB | exact Npb]. }
    assert (NNL : nan_or_nonneg (SFmul 24 128 (F32.of_uint NL) pl))
      by (apply mul_wf; assumption).
    destruct technique.
    + (* a light candidate *)
      destruct Hcount as [H1 | [Hc _]]; [| discriminate Hc].
      apply ratio_nan_or_unit; try assumption; [right; exact Wpl |].
      intros _ Wb _. left.
      apply (proj2 (count_times_pdf NL pl H1 Vpl Wpl) Wb).
    + (* a BRDF candidate *)
      apply ratio_nan_or_unit; try assumption.
      intros Wn _ Ww. right.
      apply (proj2 (count_times_pdf NB pbF ltac:(lia) (Vpb Wn) Wn) Ww).
  - apply Z.ltb_ge in HNB.
    destruct Hcount as [H1 | [_ Hc]]; [| lia].
    destruct (count_times_pdf NL pl H1 Vpl Wpl) as [[E | W] L].
    + left. rewrite E. apply SFdiv_nan_r.
    + apply div_le_one; [exact Wpl | exact W | exact (L W)].
Qed.

End BalanceHeuristic.

(** An initial pass with two light candidates and one BRDF candidate
    per pixel, without a BRDF cutoff. *)
Definition brdfPass : InitialResampling.t :=
  InitialResampling.mk
    (fun _ => Reservoir.createEmpty 2)
    (fun _ => whiteContext) (fun _ => whiteContext)
    (fun _ => float4_zero)
    1 2 8 2 1 0 false DebugDisabled 1
    (fun _ => Reference.surface float3_zero) (fun _ => 0)
    (fun _ => Reference.unitZ)
    (fun i => (Reference.emissiveSample i, mfactorLights i))
    mfactorLights (4, 4) 0 F32.zero 0 F32.zero F32.zero F32.zero 0.

(** The weight of a BRDF-drawn candidate at the white surface: the light
    PDF is [1/2], the BSDF PDF [1 / pi] and the geometry factor 1, so the
    weight is [(1/pi) / (2 * 1/2 + 1 * 1/pi)], about 0.2415. *)
Lemma evalBalanceHeuristicMIS_bounds_witness :
  (0 <? InitialResampling.kInitialBRDFSampleCount brdfPass) = true
  /\ evalBsdfPDF whiteContext
       (EvaluatedLightSample.dir (Reference.light F32.one f32_half))
     = oneOverPi
  /\ InitialResampling.evalBalanceHeuristicMIS brdfPass whiteContext
       (Reference.emissiveSample 0) (Reference.light F32.one f32_half)
       InitialResampling.BRDF
     = S754_finite false 16203636 (-26)
  /\ nan_or_in_unit_interval
       (InitialResampling.evalBalanceHeuristicMIS brdfPass whiteContext
          (Reference.emissiveSample 0) (Reference.light F32.one f32_half)
          InitialResampling.BRDF) = true.
Proof.
  split; [reflexivity |].
  split; [vm_compute; reflexivity |].
  split; [vm_compute; reflexivity |].
  apply (evalBalanceHeuristicMIS_bounds (S := Z) brdfPass whiteContext
           (Reference.emissiveSample 0) (Reference.light F32.one f32_half)
           InitialResampling.BRDF).
  - vm_compute; reflexivity.
  - vm_compute; reflexivity.
  - vm_compute; reflexivity.
  - cbn; lia.
  - right. split; [reflexivity | cbn; lia].
Defined.

(* ===================================================================== *)
(** * Properties: the light tile of a pixel *)
(* ===================================================================== *)

Lemma to_uint_range (x : float) : 0 <= F32.to_uint x <= U32.max_uint.
Proof.
  unfold F32.to_uint, U32.max_uint, U32.modulus.
  destruct x as [s | [] | | [] m e]; try lia.
  destruct (0 <=? e) eqn:He.
  - pose proof (Z.shiftl_nonneg (Z.pos m) e). lia.
  - pose proof (Z.shiftr_nonneg (Z.pos m) (- e)). lia.
Qed.

Section LightTile.
Context {S : Type} `{SG : ISampleGenerator S} `{SC : Scene S}.

(** The slot of the light tile buffer that candidate [i] of a pixel
    reads: [lightTileOffset + (offset + i * stride) % kLightTileSize]. *)
Definition candidateIndex (self : InitialResampling.t)
    (lightTileOffset offset stride i : Z) : Z :=
  U32.add lightTileOffset
    (U32.rem (U32.add offset (U32.mul i stride))
       (InitialResampling.kLightTileSize self)).

(** The light-sample loop reads candidate [i] from that slot. *)
Lemma resampleLightSamples_reads (self : InitialResampling.t)
    (evalContext : EvalContext.t) (lightTileOffset offset stride : Z)
    (risState : RisState.t) :
  InitialResampling.resampleLightSamples self evalContext lightTileOffset
    offset stride risState
  = forRange (InitialResampling.kInitialLightSampleCount self)
      (fun i risState =>
         let loadedLightSample :=
           InitialResampling.lightTileData self
             (candidateIndex self lightTileOffset offset stride i) in
         let evaluatedLightSample :=
           lls_eval loadedLightSample (EvalContext.pos evalContext) in
         (pHat <- evalTargetFunction evalContext loadedLightSample
                    (InitialResampling.lights self) false 2 ;;
          ' (_, risState) <-
            streamingInitialResampleMIS risState
              (lls_lightSample loadedLightSample) pHat
              (EvaluatedLightSample.pdf evaluatedLightSample)
              (InitialResampling.evalBalanceHeuristicMIS self evalContext
                 (lls_lightSample loadedLightSample) evaluatedLightSample
                 InitialResampling.Light) ;;
          ret risState)%gen)
      risState.
Proof. reflexivity. Qed.

(** The light tile of a pixel is one of the [kLightTileCount] tiles,
    whatever random number was drawn. *)
Lemma threadSetup_tile (self : InitialResampling.t) (pixel : uint2) :
  1 <= InitialResampling.kLightTileCount self ->
  1 <= InitialResampling.kLightTileSize self ->
  InitialResampling.kLightTileCount self
  * InitialResampling.kLightTileSize self <= U32.modulus ->
  exists tileIndex,
    0 <= tileIndex < InitialResampling.kLightTileCount self
    /\ snd (fst (fst (fst (InitialResampling.threadSetup self pixel))))
       = tileIndex * InitialResampling.kLightTileSize self.
Proof.
  intros Hc Hs Hfit.
  unfold InitialResampling.threadSetup.
  destruct (sampleNext1D (sgFromPixel pixel _)) as [u sg].
  cbn [fst snd].
  set (count := InitialResampling.kLightTileCount self) in *.
  set (size := InitialResampling.kLightTileSize self) in *.
  match goal with
  | |- context [U32.min (F32.to_uint ?x) (U32.sub count 1)] =>
      pose proof (to_uint_range x) as Hx;
      set (tileIndex := U32.min (F32.to_uint x) (U32.sub count 1))
  end.
  assert (Hcm : count <= U32.modulus) by nia.
  assert (Hsub : U32.sub count 1 = count - 1)
    by (unfold U32.sub; apply wrap_small; lia).
  assert (Ht : 0 <= tileIndex < count)
    by (unfold tileIndex, U32.min; rewrite Hsub; lia).
  assert (Hts : 0 <= tileIndex * size /\ tileIndex * size + size <= count * size)
    by nia.
  exists tileIndex. split; [exact Ht |].
  unfold U32.mul. apply wrap_small. lia.
Qed.

(** A candidate index stays within the tile that starts at
    [lightTileOffset]. *)
Lemma candidateIndex_range (self : InitialResampling.t)
    (lightTileOffset offset stride i : Z) :
  1 <= InitialResampling.kLightTileSize self ->
  0 <= lightTileOffset ->
  lightTileOffset + InitialResampling.kLightTileSize self <= U32.modulus ->
  lightTileOffset <= candidateIndex self lightTileOffset offset stride i
  < lightTileOffset + InitialResampling.kLightTileSize self.
Proof.
  intros Hs Hlo Hfit. unfold candidateIndex.
  set (size := InitialResampling.kLightTileSize self) in *.
  match goal with
  | |- context [U32.rem ?x size] =>
      assert (Hrem : 0 <= U32.rem x size < size);
      [| set (rem := U32.rem x size) in * ]
  end.
  { unfold U32.rem. destruct (Z.eqb_spec size 0); [lia |].
    apply Z.mod_pos_bound. lia. }
  unfold U32.add. rewrite wrap_small by lia. lia.
Qed.

(** Every candidate of a pixel is read from inside the light tile buffer,
    and from the one tile the pixel's screen tile was assigned: the
    tile index is below [kLightTileCount] whatever random number was
    drawn, and the offset within the tile is reduced modulo the tile
    size. *)
Theorem light_tile_index_in_bounds (self : InitialResampling.t)
    (pixel : uint2) (i : Z) :
  1 <= InitialResampling.kLightTileCount self ->
  1 <= InitialResampling.kLightTileSize self ->
  InitialResampling.kLightTileCount self
  * InitialResampling.kLightTileSize self <= U32.modulus ->
  let '(_, lightTileOffset, offset, stride, _) :=
    InitialResampling.threadSetup self pixel in
  let index := candidateIndex self lightTileOffset offset stride i in
  exists tileIndex,
    0 <= tileIndex < InitialResampling.kLightTileCount self
    /\ lightTileOffset = tileIndex * InitialResampling.kLightTileSize self
    /\ lightTileOffset <= index
       < lightTileOffset + InitialResampling.kLightTileSize self
    /\ index < InitialResampling.kLightTileCount self
               * InitialResampling.kLightTileSize self.
Proof.
  intros Hc Hs Hfit.
  destruct (threadSetup_tile self pixel Hc Hs Hfit) as (tileIndex & Ht & Eoff).
  destruct (InitialResampling.threadSetup self pixel)
    as [[[[evalContext lightTileOffset] offset] stride] sg].
  cbn [fst snd] in Eoff. cbv zeta.
  set (size := InitialResampling.kLightTileSize self) in *.
  set (count := InitialResampling.kLightTileCount self) in *.
  assert (Hts : 0 <= tileIndex * size /\ tileIndex * size + size <= count * size)
    by nia.
  pose proof (candidateIndex_range self lightTileOffset offset stride i Hs
                ltac:(lia) ltac:(fold size; lia)) as Hr.
  fold size in Hr.
  exists tileIndex. repeat split; try assumption; lia.
Qed.

End LightTile.

(** An initial pass over a 4 x 4 frame with one light tile of two
    samples, for the concrete runs below. *)
Definition tilePass : InitialResampling.t :=
  Reference.initialPass false (fun _ => Reference.light F32.one f32_half)
    (Reference.surface float3_zero).

Lemma light_tile_index_in_bounds_witness :
  1 <= InitialResampling.kLightTileCount tilePass
  /\ exists tileIndex,
       0 <= tileIndex < 1
       /\ snd (fst (fst (fst (InitialResampling.threadSetup tilePass (1, 2)))))
          = tileIndex * 2.
Proof.
  split; [cbn; lia |].
  pose proof (light_tile_index_in_bounds (S := Z) tilePass (1, 2) 1
                ltac:(cbn; lia) ltac:(cbn; lia) ltac:(cbn; lia)) as H.
  destruct (InitialResampling.threadSetup tilePass (1, 2))
    as [[[[c lightTileOffset] offset] stride] sg].
  destruct H as (tileIndex & Ht & Hoff & _).
  exists tileIndex. split; [exact Ht | exact Hoff].
Defined.

(* ===================================================================== *)
(** * ReSTIRGDI.cpp: the bit layout of packed light samples *)
(* ===================================================================== *)

Module LightsDefines.

(** The outcome of [computeIndexPositionBits]: the two bit counts, or
    the [RuntimeError] "Count too large to be represented in 30 bits". *)
Inductive outcome : Type :=
  | Bits (indexBits positionBits : Z)
  | CountTooLarge.

(** [while (count > 0) { ++indexBits; count >>= 1; }]: the loop state
    after at most [fuel] iterations. *)
Fixpoint countBits (fuel : nat) (count indexBits : Z) : Z * Z :=
  match fuel with
  | O => (count, indexBits)
  | Datatypes.S fuel' =>
      if 0 <? count
      then countBits fuel' (Z.shiftr count 1) (U32.add indexBits 1)
      else (count, indexBits)
  end.

(** The lambda [computeIndexPositionBits] of [getLightsDefines]: without
    an alias table the two counts keep the values passed in; [count] is a
    [uint32_t], for which 32 iterations exhaust the loop. *)
Definition computeIndexPositionBits (aliasTable : option Z)
    (indexBits positionBits : Z) : outcome :=
  match aliasTable with
  | None => Bits indexBits positionBits
  | Some count =>
      let indexBits := snd (countBits 32 count 0) in
      let indexBits :=
        if negb (Z.land indexBits 1 =? 0) then U32.add indexBits 1
        else indexBits in
      if 30 <=? indexBits then CountTooLarge
      else Bits indexBits (U32.sub 30 indexBits)
  end.

End LightsDefines.

(* ===================================================================== *)
(** * Properties: the bit layout of packed light samples *)
(* ===================================================================== *)

(** The number of binary digits of a count. *)
Definition bitLength (count : Z) : Z :=
  if count =? 0 then 0 else Z.log2 count + 1.

Lemma bitLength_spec (count : Z) :
  0 <= count ->
  0 <= bitLength count /\ count < 2 ^ bitLength count
  /\ (0 < count -> 2 ^ (bitLength count - 1) <= count).
Proof.
  intros H. unfold bitLength.
  destruct (Z.eqb_spec count 0) as [-> | Hne].
  - cbn. lia.
  - pose proof (Z.log2_spec count ltac:(lia)) as [Hlo Hhi].
    pose proof (Z.log2_nonneg count).
    replace (Z.log2 count + 1 - 1) with (Z.log2 count) by lia.
    replace (Z.succ (Z.log2 count)) with (Z.log2 count + 1) in Hhi by lia.
    lia.
Qed.

Lemma bitLength_shiftr (count : Z) :
  0 < count -> bitLength count = 1 + bitLength (Z.shiftr count 1).
Proof.
  intros H. unfold bitLength.
  destruct (Z.eqb_spec count 0); [lia |].
  assert (E2 : Z.shiftr count 1 = count / 2)
    by (rewrite Z.shiftr_div_pow2 by lia; reflexivity).
  destruct (Z.eqb_spec (Z.shiftr count 1) 0) as [E | E].
  - rewrite E2 in E.
    assert (count = 1) by (apply Z.div_small_iff in E; lia). subst. reflexivity.
  - assert (2 <= count).
    { destruct (Z_lt_le_dec count 2) as [Hlt | Hge]; [| exact Hge].
      exfalso. apply E. rewrite E2. apply Z.div_small. lia. }
    rewrite Z.log2_shiftr by lia.
    pose proof (Z.log2_le_mono 2 count ltac:(lia)) as Hl.
    change (Z.log2 2) with 1 in Hl. lia.
Qed.

(** The loop leaves [count] at zero and has counted its digits. *)
Lemma countBits_spec (fuel : nat) (count indexBits : Z) :
  0 <= count < 2 ^ Z.of_nat fuel ->
  0 <= indexBits -> indexBits + Z.of_nat fuel < U32.modulus ->
  LightsDefines.countBits fuel count indexBits
  = (0, indexBits + bitLength count).
Proof.
  revert count indexBits.
  induction fuel as [| fuel IH]; intros count indexBits Hc Hi Hfit.
  - cbn in Hc. assert (count = 0) by lia. subst. cbn. f_equal. lia.
  - cbn [LightsDefines.countBits].
    destruct (Z.ltb_spec 0 count) as [Hpos | Hzero].
    + rewrite Nat2Z.inj_succ in Hc, Hfit.
      rewrite Z.pow_succ_r in Hc by lia.
      assert (Hadd : U32.add indexBits 1 = indexBits + 1)
        by (unfold U32.add; apply wrap_small; lia).
      rewrite Hadd.
      rewrite IH.
      * rewrite (bitLength_shiftr count Hpos). f_equal. lia.
      * rewrite Z.shiftr_div_pow2 by lia. change (2 ^ 1) with 2.
        split; [apply Z.div_pos; lia |].
        apply Z.div_lt_upper_bound; lia.
      * lia.
      * lia.
    + assert (count = 0) by lia. subst. cbn. f_equal. lia.
Qed.

(** For an alias table of [count] entries, [computeIndexPositionBits]
    throws exactly when [count >= 2^28]; otherwise the index bits are an
    even number that is enough for every entry index ([count <
    2^indexBits]) and not two more than needed, and index and position
    bits together are 30. *)
Theorem computeIndexPositionBits_layout (count indexBits0 positionBits0 : Z) :
  0 <= count < U32.modulus ->
  match LightsDefines.computeIndexPositionBits (Some count) indexBits0
          positionBits0 with
  | LightsDefines.CountTooLarge => 2 ^ 28 <= count
  | LightsDefines.Bits indexBits positionBits =>
      count < 2 ^ 28
      /\ Z.even indexBits = true
      /\ 0 <= indexBits <= 28
      /\ indexBits + positionBits = 30
      /\ count < 2 ^ indexBits
      /\ (2 <= indexBits -> 2 ^ (indexBits - 2) <= count)
  end.
Proof.
  intros Hc. unfold LightsDefines.computeIndexPositionBits.
  rewrite countBits_spec
    by (cbn [Z.of_nat Pos.of_succ_nat Pos.succ];
        unfold U32.modulus in *; lia).
  cbn [snd]. rewrite Z.add_0_l.
  destruct (bitLength_spec count ltac:(lia)) as (Hb0 & Hhi & Hlo).
  set (b := bitLength count) in *.
  assert (Hb32 : b <= 32).
  { destruct (Z_le_gt_dec b 32) as [H | H]; [exact H | exfalso].
    assert (Hcp : 0 < count)
      by (unfold b, bitLength in H;
          destruct (count =? 0) eqn:E; [lia |]; apply Z.eqb_neq in E; lia).
    specialize (Hlo Hcp).
    assert (Hp : 2 ^ 32 <= 2 ^ (b - 1)) by (apply Z.pow_le_mono_r; lia).
    unfold U32.modulus in Hc. lia. }
  assert (Hland : Z.land b 1 = b mod 2)
    by (change 1 with (Z.ones 1); rewrite Z.land_ones by lia; reflexivity).
  rewrite Hland.
  pose proof (Z.mod_pos_bound b 2 ltac:(lia)) as Hmod.
  assert (Hadd : U32.add b 1 = b + 1)
    by (unfold U32.add; apply wrap_small; unfold U32.modulus; lia).
  rewrite Hadd.
  assert (Hpow : forall x y, 0 <= x <= y -> 2 ^ x <= 2 ^ y)
    by (intros; apply Z.pow_le_mono_r; lia).
  destruct (Z.eqb_spec (b mod 2) 0) as [Heven | Hodd]; cbn [negb].
  - (* the digit count is even *)
    destruct (Z.leb_spec 30 b) as [Hge | Hlt].
    + assert (Hcp : 0 < count).
      { destruct (Z.eq_dec count 0) as [E0 | E0]; [| lia].
        exfalso. unfold b, bitLength in Hge. rewrite E0 in Hge. cbn in Hge. lia. }
      specialize (Hlo Hcp). pose proof (Hpow 28 (b - 1) ltac:(lia)). lia.
    + assert (Hb28 : b <= 28) by (pose proof (Z.div_mod b 2 ltac:(lia)); lia).
      assert (Hsub : U32.sub 30 b = 30 - b)
        by (unfold U32.sub; apply wrap_small; unfold U32.modulus; lia).
      rewrite Hsub.
      pose proof (Hpow b 28 ltac:(lia)).
      repeat split; try lia.
      * rewrite Z.even_spec. exists (b / 2).
        pose proof (Z.div_mod b 2 ltac:(lia)). lia.
      * intros H2. assert (Hcp : 0 < count).
        { destruct (Z.eq_dec count 0) as [E0 | E0]; [| lia].
          exfalso. unfold b, bitLength in H2. rewrite E0 in H2. cbn in H2. lia. }
        specialize (Hlo Hcp). pose proof (Hpow (b - 2) (b - 1) ltac:(lia)). lia.
  - (* the digit count is odd: one more bit *)
    assert (Hm1 : b mod 2 = 1) by lia.
    assert (Hb1 : 1 <= b) by (destruct (Z.eq_dec b 0) as [E0 | E0];
                              [rewrite E0 in Hm1; cbn in Hm1; lia | lia]).
    assert (Hcpos : 0 < count).
    { destruct (Z.eq_dec count 0) as [E0 | E0]; [| lia].
      exfalso. unfold b, bitLength in Hb1. rewrite E0 in Hb1. cbn in Hb1. lia. }
    specialize (Hlo Hcpos).
    destruct (Z.leb_spec 30 (b + 1)) as [Hge | Hlt].
    + pose proof (Hpow 28 (b - 1) ltac:(lia)). lia.
    + assert (Hb27 : b <= 27) by (pose proof (Z.div_mod b 2 ltac:(lia)); lia).
      assert (Hsub : U32.sub 30 (b + 1) = 30 - (b + 1))
        by (unfold U32.sub; apply wrap_small; unfold U32.modulus; lia).
      rewrite Hsub.
      pose proof (Hpow b 28 ltac:(lia)).
      pose proof (Hpow b (b + 1) ltac:(lia)).
      repeat split; try lia.
      * rewrite Z.even_spec. exists ((b + 1) / 2).
        pose proof (Z.div_mod b 2 ltac:(lia)).
        assert ((b + 1) / 2 = b / 2 + 1).
        { symmetry. apply Z.div_unique with 0; lia. }
        lia.
      * intros _. replace (b + 1 - 2) with (b - 1) by lia. exact Hlo.
Qed.

Lemma computeIndexPositionBits_layout_witness :
  0 <= 1000 < U32.modulus
  /\ LightsDefines.computeIndexPositionBits (Some 1000) 22 8
     = LightsDefines.Bits 10 20
  /\ 1000 < 2 ^ 10.
Proof.
  split; [unfold U32.modulus; lia |]. split; [reflexivity |].
  pose proof (computeIndexPositionBits_layout 1000 22 8
                ltac:(unfold U32.modulus; lia)) as H.
  cbn in H. lia.
Defined.

(* ===================================================================== *)
(** * Properties: the sample count through [float] and back *)
(* ===================================================================== *)

(** The float of a positive integer below [2^24]: its digits shifted to
    the top of the mantissa. *)
Lemma of_uint_small (n : Z) :
  0 < n < 2 ^ 24 ->
  F32.of_uint n
  = S754_finite false (Z.to_pos (n * 2 ^ (23 - Z.log2 n))) (Z.log2 n - 23).
Proof.
  intros Hn.
  pose proof (Z.log2_spec n ltac:(lia)) as [Hlo Hhi].
  pose proof (Z.log2_nonneg n) as H0.
  assert (Hl : Z.log2 n <= 23).
  { destruct (Z_le_gt_dec (Z.log2 n) 23) as [H | H]; [exact H | exfalso].
    assert (2 ^ 24 <= 2 ^ Z.log2 n) by (apply Z.pow_le_mono_r; lia). lia. }
  set (k := 23 - Z.log2 n) in *.
  assert (Hk : 0 <= k) by (unfold k; lia).
  assert (Hpk : 0 < 2 ^ k) by (apply Z.pow_pos_nonneg; lia).
  assert (Hm : 2 ^ 23 <= n * 2 ^ k < 2 ^ 24).
  { replace 23 with (Z.log2 n + k) at 1 by (unfold k; lia).
    replace 24 with (Z.succ (Z.log2 n) + k) by (unfold k; lia).
    rewrite !Z.pow_add_r by lia. nia. }
  set (m := Z.to_pos (n * 2 ^ k)).
  assert (Em : Z.pos m = n * 2 ^ k) by (unfold m; rewrite Z2Pos.id; lia).
  assert (W : wf_nonneg (S754_finite false m (Z.log2 n - 23))).
  { cbn [wf_nonneg]. rewrite Em. repeat split; lia. }
  destruct n as [| p | p]; try lia.
  unfold F32.of_uint, F32.prec, F32.emax. cbn [binary_normalize].
  apply (Rnd_fun (inject_Z (Z.pos p) * pow2 0)).
  - apply binary_round_Rnd.
  - apply (Rnd_ext (B2Q (S754_finite false m (Z.log2 (Z.pos p) - 23))));
      [| apply Rnd_exact; exact W].
    cbn [B2Q cond_Zopp]. rewrite Em, inject_Z_mult.
    rewrite <- (pow2_inject k) by lia.
    rewrite <- Qmult_assoc, <- pow2_add.
    replace (k + (Z.log2 (Z.pos p) - 23)) with 0 by (unfold k; lia).
    reflexivity.
Qed.

(** Integers up to [2^24] survive the conversion to [float] and back. *)
Lemma to_uint_of_uint (n : Z) :
  0 <= n <= 2 ^ 24 -> F32.to_uint (F32.of_uint n) = n.
Proof.
  intros Hn.
  destruct (Z.eq_dec n 0) as [-> | H0]; [reflexivity |].
  destruct (Z.eq_dec n (2 ^ 24)) as [-> | H24]; [reflexivity |].
  rewrite of_uint_small by lia.
  pose proof (Z.log2_spec n ltac:(lia)) as [Hlo Hhi].
  pose proof (Z.log2_nonneg n) as Hl0.
  assert (Hl : Z.log2 n <= 23).
  { destruct (Z_le_gt_dec (Z.log2 n) 23) as [H | H]; [exact H | exfalso].
    assert (2 ^ 24 <= 2 ^ Z.log2 n) by (apply Z.pow_le_mono_r; lia). lia. }
  set (k := 23 - Z.log2 n) in *.
  assert (Hpk : 0 < 2 ^ k) by (apply Z.pow_pos_nonneg; unfold k; lia).
  cbn [F32.to_uint].
  rewrite Z2Pos.id by nia.
  replace (Z.log2 n - 23) with (- k) by (unfold k; lia).
  rewrite Z.opp_involutive.
  destruct (Z.leb_spec 0 (- k)) as [Hz | Hneg].
  - assert (k = 0) by (unfold k in *; lia).
    replace (- k) with 0 by lia. rewrite H, Z.shiftl_0_r.
    change (2 ^ 0) with 1. rewrite Z.mul_1_r.
    unfold U32.max_uint, U32.modulus. lia.
  - rewrite Z.shiftr_div_pow2 by (unfold k; lia).
    rewrite Z.div_mul by lia.
    unfold U32.max_uint, U32.modulus. lia.
Qed.

(** A RIS state whose count is the float of a reservoir's [M] converts
    back to a reservoir with that [M], up to [2^24], unless its weight
    is infinite or NaN; [2^24 + 1] is the first count that is not
    preserved. *)
Theorem toReservoir_M_round_trip (state : RisState.t) (n : Z) :
  0 <= n <= 2 ^ 24 ->
  Reservoir.M (RisState.toReservoir (RisState.with_M (F32.of_uint n) state))
  = (if F32.isinf (RisState.weight state) || F32.isnan (RisState.weight state)
     then 0 else n)
  /\ F32.to_uint (F32.of_uint (2 ^ 24 + 1)) = 2 ^ 24.
Proof.
  intros Hn. split; [| reflexivity].
  unfold RisState.toReservoir.
  cbn [RisState.with_M RisState.M RisState.weight Reservoir.weight].
  destruct (_ || _); cbn [Reservoir.M Reservoir.createEmpty].
  - reflexivity.
  - apply to_uint_of_uint. exact Hn.
Qed.

Lemma toReservoir_M_round_trip_witness :
  0 <= 1000 <= 2 ^ 24
  /\ Reservoir.M
       (RisState.toReservoir
          (RisState.with_M (F32.of_uint 1000) (RisState.createEmpty 2)))
     = 1000.
Proof.
  split; [lia |].
  exact (proj1 (toReservoir_M_round_trip (RisState.createEmpty 2) 1000
                  ltac:(lia))).
Defined.

(* ===================================================================== *)
(** * Properties: the spatial pass *)
(* ===================================================================== *)

Section SpatialPass.
Context {S : Type} `{SG : ISampleGenerator S} `{SC : Scene S}
        `{INTR : Intrinsics}.

Definition spatialSlot (self : SpatialResampling.t) (pixel : uint2) : Z :=
  getPixelIndexInPass (SpatialResampling.frameDim self) pixel
    (SpatialResampling.restirPassIdx self).

Lemma spatial_final_M (self : SpatialResampling.t) (pixel : uint2)
    (currentReservoir : Reservoir.t)
    (currEvalContext currCenterContext : EvalContext.t) (sg : S) :
  RisState.M
    (fst (SpatialResampling.finalRisState self pixel currentReservoir
            currEvalContext currCenterContext sg))
  = F32.of_uint (Reservoir.M currentReservoir).
Proof.
  unfold SpatialResampling.finalRisState, bind, ret.
  destruct (sampleNext1D sg) as [u sg1].
  destruct (SpatialResampling.gatherConfidence _ _ _ _ _ _) as [cws cache].
  destruct (SpatialResampling.resampleNeighbors _ _ _ _ _ _ _ _ _)
    as [r sg2].
  destruct (streamingResampleFinalizeMis _ _ _ _) as [[b' r'] sg3].
  reflexivity.
Qed.

(** The spatial pass does not accumulate sample counts: the reservoir it
    stores for a pixel of the frame has the [M] of the pixel's input
    reservoir (for counts up to [2^24]), however many neighbors were
    merged; or it is the empty reservoir, when the merged weight is
    infinite or NaN. *)
Theorem spatial_pass_keeps_M (self : SpatialResampling.t) (pixel : uint2) :
  outsideFrame (SpatialResampling.frameDim self) pixel = false ->
  0 <= Reservoir.M (SpatialResampling.prevReservoirs self
                      (spatialSlot self pixel)) <= 2 ^ 24 ->
  let stored :=
    SpatialResampling.reservoirs (SpatialResampling.process self pixel)
      (spatialSlot self pixel) in
  Reservoir.M stored
  = Reservoir.M (SpatialResampling.prevReservoirs self (spatialSlot self pixel))
  \/ (Reservoir.M stored = 0
      /\ Reservoir.isLightSampleValid stored = false
      /\ Reservoir.weight stored = F32.zero).
Proof.
  intros Hin HM. cbv zeta.
  unfold SpatialResampling.process. rewrite Hin.
  cbn [SpatialResampling.reservoirs SpatialResampling.with_buffers].
  unfold spatialSlot in *. rewrite upd_same.
  match goal with
  | |- context [RisState.toReservoir ?r] =>
      pose proof (spatial_final_M self pixel
                    (SpatialResampling.prevReservoirs self
                       (getPixelIndexInPass (SpatialResampling.frameDim self)
                          pixel (SpatialResampling.restirPassIdx self)))
                    (SpatialResampling.prevResEvalContext self
                       (getPixelIndexInPass (SpatialResampling.frameDim self)
                          pixel (SpatialResampling.restirPassIdx self)))
                    (SpatialResampling.pixelCenterEvalContext self
                       (getPixelIndex (SpatialResampling.frameDim self) pixel))
                    (sgFromPixel pixel
                       (U32.add
                          (U32.add
                             (U32.mul 32 (SpatialResampling.frameIndex self))
                             (SpatialResampling.spatialPassIdx self))
                          (U32.mul 8 (SpatialResampling.restirPassIdx self)))))
        as HMr;
      set (risState := r) in *
  end.
  unfold RisState.toReservoir. cbn [Reservoir.weight].
  destruct (_ || _).
  - right. repeat split; reflexivity.
  - left. cbn [Reservoir.M]. rewrite HMr. apply to_uint_of_uint. exact HM.
Qed.

End SpatialPass.

(** A spatial pass over a 2 x 2 frame that merges one neighbor, for the
    concrete runs below. *)
Definition smallSpatialPass : SpatialResampling.t :=
  SpatialResampling.mk
    (fun _ => Reservoir.createEmpty 2)
    (fun _ => whiteContext)
    (fun _ => float4_zero)
    1 false DebugDisabled (fun _ => 0)
    (fun _ => Reservoir.mk (Reference.emissiveSample 1) 4 F32.one 2 F32.one)
    (fun _ => whiteContext) (fun _ => whiteContext)
    (fun _ => (F32.one, F32.zero))
    mfactorLights (2, 2) 0 f32_half f32_half false 1 F32.one 0 F32.zero 0
    false false 0 0 0.

Lemma spatial_pass_keeps_M_witness :
  outsideFrame (2, 2) (0, 0) = false
  /\ Reservoir.M
       (SpatialResampling.reservoirs
          (SpatialResampling.process smallSpatialPass (0, 0))
          (spatialSlot smallSpatialPass (0, 0))) = 4.
Proof.
  split; [reflexivity |].
  destruct (spatial_pass_keeps_M (S := Z) smallSpatialPass (0, 0) eq_refl
              ltac:(cbn; lia)) as [H | (H & _)].
  - exact H.
  - vm_compute in H. discriminate H.
Defined.

(* ===================================================================== *)
(** * Properties: the history length of the temporal pass *)
(* ===================================================================== *)





Section TemporalHistory.
Context {S : Type} `{SG : ISampleGenerator S} `{SC : Scene S}
        `{INTR : Intrinsics}.



End TemporalHistory.


(* ===================================================================== *)
(** * Properties: the neighbor mask of the spatial pass *)
(* ===================================================================== *)

Lemma shl_one (i : Z) : 0 <= i < 32 -> U32.shl 1 i = 2 ^ i.
Proof.
  intros Hi. unfold U32.shl. rewrite Z.mod_small by lia.
  rewrite Z.shiftl_1_l. apply wrap_small.
  unfold U32.modulus. split; [apply Z.pow_nonneg; lia |].
  apply Z.pow_lt_mono_r; lia.
Qed.

Lemma land_pow2_eqb (c i : Z) :
  0 <= i -> (Z.land c (2 ^ i) =? 0) = negb (Z.testbit c i).
Proof.
  intros Hi.
  destruct (Z.testbit c i) eqn:Hb; cbn [negb].
  - apply Z.eqb_neq. intros E.
    assert (Hbit : Z.testbit (Z.land c (2 ^ i)) i = true)
      by (rewrite Z.land_spec, Hb, Z.pow2_bits_true by lia; reflexivity).
    rewrite E, Z.bits_0 in Hbit. discriminate.
  - apply Z.eqb_eq. apply Z.bits_inj'. intros j Hj.
    rewrite Z.land_spec, Z.bits_0, Z.pow2_bits_eqb by lia.
    destruct (Z.eqb_spec i j) as [<- | Hne]; [rewrite Hb |];
      rewrite ?andb_false_r; reflexivity.
Qed.

Section NeighborMask.
Context {S : Type} `{SG : ISampleGenerator S} `{SC : Scene S}
        `{INTR : Intrinsics}.

(** Neighbor [i] passes the tests of the first loop: it lies in the
    frame and is rejected neither for its normal nor for its hit type. *)
Definition acceptedNeighbor (self : SpatialResampling.t) (pixel : uint2)
    (startIndex : Z) (currEvalContext currCenterContext : EvalContext.t)
    (i : Z) : bool :=
  let nb := SpatialResampling.neighborPixel self pixel startIndex i in
  let neighborCenterContext :=
    SpatialResampling.pixelCenterEvalContext self
      (getPixelIndex (SpatialResampling.frameDim self) nb) in
  isValidPixel (SpatialResampling.frameDim self) nb
  && negb (SpatialResampling.rejectNeighborPixelForNormalDepth self
           && negb (EvalContext.isValidNeighbor currEvalContext
                      (EvalContext.N neighborCenterContext,
                       EvalContext.depth neighborCenterContext)
                      (SpatialResampling.normalThreshold self)
                      (SpatialResampling.depthThreshold self)))
  && negb (SpatialResampling.rejectNeighborPixelForHitType self
           && negb (Bool.eqb (EvalContext.isSurfaceValid currCenterContext)
                      (EvalContext.isSurfaceValid neighborCenterContext))).

(** The mask after neighbors [i .. i + n - 1], from a mask whose bits
    from [i] on are clear. *)
Lemma gather_mask (self : SpatialResampling.t) (pixel : uint2)
    (startIndex : Z) (currEvalContext currCenterContext : EvalContext.t)
    (body : Z -> float * Z -> float * Z) :
  (forall i cws cache,
      snd (body i (cws, cache))
      = if acceptedNeighbor self pixel startIndex currEvalContext
             currCenterContext i
        then U32.lor cache (U32.shl 1 i) else cache) ->
  forall (n : nat) (i : Z) (cws : float) (cache : Z),
    0 <= i -> i + Z.of_nat n <= 32 ->
    (forall j, i <= j -> Z.testbit cache j = false) ->
    forall j, 0 <= j ->
      Z.testbit (snd (loopRange_from n i body (cws, cache))) j
      = if (i <=? j) && (j <? i + Z.of_nat n)
        then acceptedNeighbor self pixel startIndex currEvalContext
               currCenterContext j
        else Z.testbit cache j.
Proof.
  intros Hbody. induction n as [| n IH]; intros i cws cache Hi Hn Hclear j Hj.
  - cbn [loopRange_from snd]. rewrite Z.add_0_r.
    destruct (Z.leb_spec i j), (Z.ltb_spec j i); try lia; reflexivity.
  - cbn [loopRange_from]. rewrite Nat2Z.inj_succ in Hn |- *.
    destruct (body i (cws, cache)) as [cws' cache'] eqn:Eb.
    pose proof (Hbody i cws cache) as Hs. rewrite Eb in Hs. cbn [snd] in Hs.
    assert (Hbits : forall k, 0 <= k ->
               Z.testbit cache' k
               = if k =? i
                 then acceptedNeighbor self pixel startIndex currEvalContext
                        currCenterContext i
                 else Z.testbit cache k).
    { intros k Hk. rewrite Hs.
      destruct (acceptedNeighbor _ _ _ _ _ i).
      - unfold U32.lor. rewrite shl_one by lia.
        rewrite Z.lor_spec, Z.pow2_bits_eqb by lia.
        destruct (Z.eqb_spec k i) as [-> | Hne].
        + rewrite Z.eqb_refl, orb_true_r. reflexivity.
        + destruct (Z.eqb_spec i k); [lia |]. apply orb_false_r.
      - destruct (Z.eqb_spec k i) as [-> | Hne]; [| reflexivity].
        apply Hclear. lia. }
    rewrite IH; try lia.
    + rewrite (Hbits j Hj).
      destruct (Z.eqb_spec j i) as [-> | Hne].
      * destruct (Z.leb_spec (i + 1) i), (Z.leb_spec i i),
          (Z.ltb_spec i (i + Z.succ (Z.of_nat n))); try lia; reflexivity.
      * destruct (Z.leb_spec (i + 1) j), (Z.leb_spec i j),
          (Z.ltb_spec j (i + 1 + Z.of_nat n)),
          (Z.ltb_spec j (i + Z.succ (Z.of_nat n))); try lia; reflexivity.
    + intros k Hk. rewrite Hbits by lia.
      destruct (Z.eqb_spec k i); [lia |]. apply Hclear. lia.
Qed.

(** For up to 32 neighbors, bit [i] of the mask the first loop of the
    spatial pass builds is set exactly when neighbor [i] passed its
    tests, and the second loop skips neighbor [i] exactly when it did
    not: the neighbors that are merged are those whose [M] entered the
    confidence weight sum. *)
Theorem spatial_neighbor_mask (self : SpatialResampling.t) (pixel : uint2)
    (startIndex : Z) (currentReservoir : Reservoir.t)
    (currEvalContext currCenterContext : EvalContext.t) (i : Z) :
  SpatialResampling.neighborCount self <= 32 ->
  0 <= i < SpatialResampling.neighborCount self ->
  let validNeighborCache :=
    snd (SpatialResampling.gatherConfidence self pixel startIndex
           currentReservoir currEvalContext currCenterContext) in
  Z.testbit validNeighborCache i
  = acceptedNeighbor self pixel startIndex currEvalContext currCenterContext i
  /\ (U32.land validNeighborCache (U32.shl 1 i) =? 0)
     = negb (acceptedNeighbor self pixel startIndex currEvalContext
               currCenterContext i).
Proof.
  intros Hcount Hi. cbv zeta.
  assert (Hbit :
    Z.testbit
      (snd (SpatialResampling.gatherConfidence self pixel startIndex
              currentReservoir currEvalContext currCenterContext)) i
    = acceptedNeighbor self pixel startIndex currEvalContext
        currCenterContext i).
  { unfold SpatialResampling.gatherConfidence, loopRange.
    rewrite (gather_mask self pixel startIndex currEvalContext
               currCenterContext).
    - rewrite Z2Nat.id by lia.
      destruct (Z.leb_spec 0 i), (Z.ltb_spec i (0 + SpatialResampling.neighborCount self));
        try lia; reflexivity.
    - intros k cws cache. unfold acceptedNeighbor. cbv zeta.
      destruct (isValidPixel _ _); cbn [negb andb]; [| reflexivity].
      destruct (SpatialResampling.rejectNeighborPixelForNormalDepth self
                && negb _); cbn [negb andb]; [reflexivity |].
      destruct (SpatialResampling.rejectNeighborPixelForHitType self
                && negb _); reflexivity.
    - lia.
    - rewrite Z2Nat.id by lia. lia.
    - intros j _. apply Z.bits_0.
    - lia. }
  split; [exact Hbit |].
  unfold U32.land. rewrite shl_one by lia.
  rewrite land_pow2_eqb by lia. rewrite Hbit. reflexivity.
Qed.

End NeighborMask.

Lemma spatial_neighbor_mask_witness :
  SpatialResampling.neighborCount smallSpatialPass <= 32
  /\ Z.testbit
       (snd (SpatialResampling.gatherConfidence smallSpatialPass (0, 0) 0
               (Reservoir.createEmpty 2) whiteContext whiteContext)) 0
     = acceptedNeighbor smallSpatialPass (0, 0) 0 whiteContext whiteContext 0.
Proof.
  split; [cbn; lia |].
  apply (spatial_neighbor_mask (S := Z) smallSpatialPass (0, 0) 0
           (Reservoir.createEmpty 2) whiteContext whiteContext 0);
    cbn; lia.
Defined.

(* ===================================================================== *)
(** * Properties: the final samples of a pixel *)
(* ===================================================================== *)

Lemma inFrame_not_outside (frameDim pixel : uint2) :
  inFrame frameDim pixel -> outsideFrame frameDim pixel = false.
Proof.
  intros [Hx Hy]. unfold outsideFrame.
  destruct (Z.leb_spec (fst frameDim) (fst pixel)); [lia |].
  destruct (Z.leb_spec (snd frameDim) (snd pixel)); [lia |]. reflexivity.
Qed.

Section FinalSamples.
Context {S : Type} `{SG : ISampleGenerator S} `{SC : Scene S}.

Definition finalSlot (self : EvaluateFinalSamples.t) (pixel : uint2) (i : Z)
  : Z :=
  getPixelIndexInPass (EvaluateFinalSamples.frameDim self) pixel i.

(** The final sample one iteration of the loop over the passes stores:
    its radiance is evaluated from the pass's reservoir, its path sample
    is the reservoir's and its MIS weight [1 / numRestirPasses]. *)
Definition passFinalSample (self : EvaluateFinalSamples.t) (pixel : uint2)
    (i : Z) : FinalSample.t :=
  EvaluateFinalSamples.finalSamples
    (EvaluateFinalSamples.processPass pixel i self) (finalSlot self pixel i).

Lemma efs_loop (self : EvaluateFinalSamples.t) (pixel : uint2) :
  inFrame (EvaluateFinalSamples.frameDim self) pixel ->
  slotsFit (EvaluateFinalSamples.frameDim self)
    (EvaluateFinalSamples.numRestirPasses self) ->
  forall (n : nat) (i : Z) (e : Z -> EvalContext.t) (f : Z -> FinalSample.t)
         (h : Z -> HitInfo.t),
    0 <= i -> i + Z.of_nat n <= EvaluateFinalSamples.numRestirPasses self ->
    (forall k, i <= k < EvaluateFinalSamples.numRestirPasses self ->
        e (finalSlot self pixel k)
        = EvaluateFinalSamples.resEvalContext self (finalSlot self pixel k)) ->
    exists e' f' h',
      loopRange_from n i (EvaluateFinalSamples.processPass pixel)
        (EvaluateFinalSamples.with_buffers e f h self)
      = EvaluateFinalSamples.with_buffers e' f' h' self
      /\ (forall k, i <= k < i + Z.of_nat n ->
             f' (finalSlot self pixel k) = passFinalSample self pixel k)
      /\ (forall j, (forall k, i <= k < i + Z.of_nat n ->
                       j <> finalSlot self pixel k) ->
             f' j = f j).
Proof.
  intros Hin Hfit.
  induction n as [| n IH]; intros i e f h Hi Hn He.
  - exists e, f, h. cbn [loopRange_from]. split; [reflexivity |].
    split; [intros k Hk; lia | intros; reflexivity].
  - rewrite Nat2Z.inj_succ in Hn |- *. cbn [loopRange_from].
    set (slot := finalSlot self pixel i).
    assert (Estep :
      exists e1 f1 h1,
        EvaluateFinalSamples.processPass pixel i
          (EvaluateFinalSamples.with_buffers e f h self)
        = EvaluateFinalSamples.with_buffers e1 f1 h1 self
        /\ f1 slot = passFinalSample self pixel i
        /\ (forall j, j <> slot -> f1 j = f j /\ e1 j = e j)).
    { unfold passFinalSample.
      unfold EvaluateFinalSamples.processPass.
      cbn [EvaluateFinalSamples.with_buffers
           EvaluateFinalSamples.resEvalContext
           EvaluateFinalSamples.finalSamples
           EvaluateFinalSamples.finalPrimaryHits
           EvaluateFinalSamples.reservoirs EvaluateFinalSamples.frameDim
           EvaluateFinalSamples.numRestirPasses EvaluateFinalSamples.lights
           EvaluateFinalSamples.kUseVisibility
           EvaluateFinalSamples.kReuseVisibility EvaluateFinalSamples.kUnbiased
           EvaluateFinalSamples.kMaxHistoryLength
           EvaluateFinalSamples.kDebugOutput EvaluateFinalSamples.debugOutput
           EvaluateFinalSamples.frameIndex].
      fold (finalSlot self pixel i). fold slot.
      eexists _, _, _. split; [reflexivity |]. split.
      - rewrite !upd_same. unfold slot. rewrite (He i ltac:(lia)).
        unfold EvaluateFinalSamples.evalPathIncidentRadiance.
        cbn [EvaluateFinalSamples.with_buffers EvaluateFinalSamples.lights
             EvaluateFinalSamples.kUseVisibility].
        reflexivity.
      - intros j Hj. split; apply upd_other; exact Hj. }
    destruct Estep as (e1 & f1 & h1 & E1 & Hf1 & Hother).
    rewrite E1.
    assert (Hdistinct : forall k, i < k < EvaluateFinalSamples.numRestirPasses self ->
               finalSlot self pixel k <> slot).
    { intros k Hk E. unfold slot, finalSlot in E.
      destruct (getPixelIndexInPass_injective _ _ pixel pixel k i Hfit Hin
                  Hin ltac:(lia) ltac:(lia) E) as [_ Eki].
      lia. }
    destruct (IH (i + 1) e1 f1 h1 ltac:(lia) ltac:(lia)) as
      (e' & f' & h' & E' & Hf' & Hkeep).
    { intros k Hk. destruct (Hother (finalSlot self pixel k)) as [_ He1].
      - apply Hdistinct. lia.
      - rewrite He1. apply He. lia. }
    exists e', f', h'. split; [exact E' |]. split.
    + intros k Hk. destruct (Z.eq_dec k i) as [-> | Hne].
      * rewrite Hkeep; [exact Hf1 |].
        intros k' Hk'. apply not_eq_sym. apply Hdistinct. lia.
      * apply Hf'. lia.
    + intros j Hj. rewrite Hkeep.
      * apply Hother. apply Hj. lia.
      * intros k Hk. apply Hj. lia.
Qed.

Lemma efs_with_buffers_id (self : EvaluateFinalSamples.t) :
  EvaluateFinalSamples.with_buffers (EvaluateFinalSamples.resEvalContext self)
    (EvaluateFinalSamples.finalSamples self)
    (EvaluateFinalSamples.finalPrimaryHits self) self = self.
Proof. destruct self; reflexivity. Qed.

(** The final pass stores, for a pixel of the frame and each ReSTIR pass
    [i], the final sample of that pass's reservoir: the iterations of
    the loop write distinct slots, so none overwrites another's sample,
    and the slots of other pixels and passes are left as they were.
    Each stored sample carries the path sample of its reservoir and the
    MIS weight [1 / numRestirPasses]. *)
Theorem final_samples_per_pass (self : EvaluateFinalSamples.t)
    (pixel : uint2) :
  inFrame (EvaluateFinalSamples.frameDim self) pixel ->
  slotsFit (EvaluateFinalSamples.frameDim self)
    (EvaluateFinalSamples.numRestirPasses self) ->
  (forall i, 0 <= i < EvaluateFinalSamples.numRestirPasses self ->
      let stored :=
        EvaluateFinalSamples.finalSamples
          (EvaluateFinalSamples.process self pixel) (finalSlot self pixel i) in
      stored = passFinalSample self pixel i
      /\ FinalSample.pathSample stored
         = Reservoir.pathSample
             (EvaluateFinalSamples.reservoirs self (finalSlot self pixel i))
      /\ FinalSample.misWeight stored
         = (let w := (F32.one
                      / F32.of_uint
                          (EvaluateFinalSamples.numRestirPasses self))%f32 in
            (w, w, w)))
  /\ (forall j,
         (forall i, 0 <= i < EvaluateFinalSamples.numRestirPasses self ->
             j <> finalSlot self pixel i) ->
         EvaluateFinalSamples.finalSamples
           (EvaluateFinalSamples.process self pixel) j
         = EvaluateFinalSamples.finalSamples self j).
Proof.
  intros Hin Hfit.
  unfold EvaluateFinalSamples.process.
  rewrite (inFrame_not_outside _ _ Hin). unfold loopRange.
  destruct (Z_le_gt_dec (EvaluateFinalSamples.numRestirPasses self) 0)
    as [Hzero | Hpos].
  { replace (Z.to_nat (EvaluateFinalSamples.numRestirPasses self)) with O
      by lia.
    cbn [loopRange_from]. split; [intros i Hi; lia | intros; reflexivity]. }
  destruct (efs_loop self pixel Hin Hfit
              (Z.to_nat (EvaluateFinalSamples.numRestirPasses self)) 0
              (EvaluateFinalSamples.resEvalContext self)
              (EvaluateFinalSamples.finalSamples self)
              (EvaluateFinalSamples.finalPrimaryHits self)
              ltac:(lia) ltac:(lia) ltac:(intros; reflexivity))
    as (e' & f' & h' & E & Hf & Hkeep).
  rewrite efs_with_buffers_id in E. rewrite E.
  cbn [EvaluateFinalSamples.finalSamples EvaluateFinalSamples.with_buffers].
  rewrite Z2Nat.id in Hf, Hkeep by lia. cbn [Z.add] in Hf, Hkeep.
  split.
  - intros i Hi. cbv zeta. rewrite (Hf i Hi).
    split; [reflexivity |].
    unfold passFinalSample, finalSlot, EvaluateFinalSamples.processPass.
    cbn [EvaluateFinalSamples.finalSamples EvaluateFinalSamples.with_buffers].
    rewrite upd_same. split; reflexivity.
  - intros j Hj. apply Hkeep. exact Hj.
Qed.

End FinalSamples.

(** A final pass over a 2 x 2 frame with two ReSTIR passes, for the
    concrete runs below. *)
Definition smallFinalPass : EvaluateFinalSamples.t :=
  EvaluateFinalSamples.mk
    (fun _ => whiteContext) (fun _ => FinalSample.empty)
    (fun _ => HitInfo.none) false false false 20 DebugDisabled
    (fun _ => Reservoir.mk (Reference.emissiveSample 1) 4 F32.one 2 F32.one)
    (fun _ => float4_zero) mfactorLights (2, 2) 0 2.

Lemma final_samples_per_pass_witness :
  inFrame (2, 2) (1, 1)
  /\ FinalSample.misWeight
       (EvaluateFinalSamples.finalSamples
          (EvaluateFinalSamples.process smallFinalPass (1, 1))
          (finalSlot smallFinalPass (1, 1) 1))
     = (f32_half, f32_half, f32_half).
Proof.
  assert (I : inFrame (2, 2) (1, 1)) by (unfold inFrame; cbn; lia).
  split; [exact I |].
  destruct (final_samples_per_pass (S := Z) smallFinalPass (1, 1) I
              ltac:(unfold slotsFit, U32.modulus; cbn; lia)) as [H _].
  destruct (H 1 ltac:(cbn; lia)) as (_ & _ & Hw).
  exact Hw.
Defined.

(* ===================================================================== *)
(** * Properties: background pixels *)
(* ===================================================================== *)

Lemma mul_one_l (x : float) :
  F32.valid x = true -> (F32.one * x)%f32 = x.
Proof.
  intros H. unfold F32.mul, F32.prec, F32.emax.
  rewrite SFmul_comm. apply mul_one_r. exact H.
Qed.

(** Every component is a member of the format. *)
Definition valid3 (v : float3) : bool :=
  let '(x, y, z) := v in F32.valid x && F32.valid y && F32.valid z.

Section Background.
Context {S : Type} `{SG : ISampleGenerator S} `{SC : Scene S}.

(** A pixel without a valid surface is shaded with the emission its
    surface data recorded: the initial pass stores the path-sample
    reservoir of weight 1 whose target value is the emission's
    luminance, and from that reservoir the final pass computes the
    incident radiance [1 * emission = emission], without a light sample
    and without a visibility ray. *)
Theorem background_radiance (self : InitialResampling.t) (pixel : uint2)
    (final : EvaluateFinalSamples.t) (slot : Z) (finalSample : FinalSample.t) :
  outsideFrame (InitialResampling.frameDim self) pixel = false ->
  EvalContext.isSurfaceValid (threadContext self pixel) = false ->
  valid3 (EvalContext.emission (threadContext self pixel)) = true ->
  Reservoir.targetPdf (storedReservoir self pixel)
  = luminance (EvalContext.emission (threadContext self pixel))
  /\ Reservoir.isLightSampleValid (storedReservoir self pixel) = false
  /\ EvaluateFinalSamples.evalPathIncidentRadiance final
       (storedReservoir self pixel) (threadContext self pixel) slot finalSample
     = FinalSample.mk (FinalSample.dir finalSample)
         (FinalSample.distance finalSample)
         (EvalContext.emission (threadContext self pixel))
         (FinalSample.pathSample finalSample)
         (FinalSample.misWeight finalSample).
Proof.
  intros Hin Hvalid Hem.
  assert (Hstored :
    storedReservoir self pixel
    = Reservoir.mk LightSample.createInvalid 1 F32.one 1
        (luminance (EvalContext.emission (threadContext self pixel)))).
  { unfold storedReservoir, threadSlot, threadContext in *.
    unfold InitialResampling.process. rewrite Hin.
    destruct (InitialResampling.threadSetup self pixel)
      as [[[[evalContext lto] off] stride] sg].
    rewrite Hvalid. cbn [negb InitialResampling.reservoirs
      InitialResampling.with_buffers].
    rewrite upd_same. unfold InitialResampling.backgroundReservoir.
    rewrite bind_run. unfold evalTargetFunction. rewrite Hvalid.
    reflexivity. }
  rewrite Hstored. split; [reflexivity |]. split; [reflexivity |].
  unfold EvaluateFinalSamples.evalPathIncidentRadiance.
  cbn [Reservoir.pathSample Reservoir.weight Z.eqb Pos.eqb].
  destruct (EvalContext.emission (threadContext self pixel)) as [[ex ey] ez].
  cbn [valid3] in Hem.
  apply andb_prop in Hem. destruct Hem as [Hxy Hz].
  apply andb_prop in Hxy. destruct Hxy as [Hx Hy].
  cbn [scale3]. rewrite !mul_one_l by assumption. reflexivity.
Qed.

End Background.

(** An initial pass over a surface without a valid hit (negative depth
    in the reference scene) that emits [(2, 1, 1/2)]. *)
Definition backgroundPass : InitialResampling.t :=
  Reference.initialPass false (fun _ => Reference.light F32.one f32_half)
    (SurfaceData.mk float3_zero (SFopp F32.one) Reference.unitZ
       Reference.unitZ F32.zero F32.zero float3_zero float3_zero F32.one
       (f32_two, F32.one, f32_half) Standard 0 HitInfo.none).

Lemma background_radiance_witness :
  outsideFrame (InitialResampling.frameDim backgroundPass) (1, 2) = false
  /\ FinalSample.Li
       (EvaluateFinalSamples.evalPathIncidentRadiance smallFinalPass
          (storedReservoir backgroundPass (1, 2))
          (threadContext backgroundPass (1, 2)) 0 FinalSample.empty)
     = (f32_two, F32.one, f32_half).
Proof.
  split; [reflexivity |].
  assert (Hv : EvalContext.isSurfaceValid (threadContext backgroundPass (1, 2))
               = false) by (vm_compute; reflexivity).
  assert (He : valid3 (EvalContext.emission (threadContext backgroundPass (1, 2)))
               = true) by (vm_compute; reflexivity).
  destruct (background_radiance (S := Z) backgroundPass (1, 2) smallFinalPass
              0 FinalSample.empty eq_refl Hv He) as (_ & _ & H).
  rewrite H. vm_compute. reflexivity.
Defined.

(* ===================================================================== *)
(** * Properties: what the light-sample loop can select *)
(* ===================================================================== *)

Section LightSelection.
Context {S : Type} `{SG : ISampleGenerator S} `{SC : Scene S}.

(** The light sample candidate [i] of a pixel carries, and the target
    value the loop computes for it at the pixel's surface when the
    generator is in state [sg]. *)
Definition candidateSample (self : InitialResampling.t)
    (lightTileOffset offset stride i : Z) : LightSample.t :=
  lls_lightSample
    (InitialResampling.lightTileData self
       (candidateIndex self lightTileOffset offset stride i)).

Definition candidateTarget (self : InitialResampling.t)
    (evalContext : EvalContext.t) (lightTileOffset offset stride i : Z)
    (sg : S) : float :=
  fst (evalTargetFunction evalContext
         (InitialResampling.lightTileData self
            (candidateIndex self lightTileOffset offset stride i))
         (InitialResampling.lights self) false 2 sg).

(** The state holds what [state0] held, or, for some [i] in [[lo, hi)],
    the light sample of candidate [i] together with the target value of
    that candidate; its path sample is that of [state0]. *)
Definition holdsCandidate (self : InitialResampling.t)
    (evalContext : EvalContext.t) (lightTileOffset offset stride : Z)
    (state0 state : RisState.t) (lo hi : Z) : Prop :=
  RisState.pathSample state = RisState.pathSample state0
  /\ ((RisState.lightSample state = RisState.lightSample state0
       /\ RisState.targetPdf state = RisState.targetPdf state0)
      \/ exists i sg, lo <= i < hi
           /\ RisState.lightSample state
              = candidateSample self lightTileOffset offset stride i
           /\ RisState.targetPdf state
              = candidateTarget self evalContext lightTileOffset offset
                  stride i sg).

Lemma streamingInitialResampleMIS_holds (state : RisState.t)
    (lightSample : LightSample.t) (targetPdf sourcePdf misWeight : float)
    (sg : S) :
  let state' :=
    snd (fst (streamingInitialResampleMIS state lightSample targetPdf
                sourcePdf misWeight sg)) in
  RisState.pathSample state' = RisState.pathSample state
  /\ ((RisState.lightSample state' = RisState.lightSample state
       /\ RisState.targetPdf state' = RisState.targetPdf state)
      \/ (RisState.lightSample state' = lightSample
          /\ RisState.targetPdf state' = targetPdf)).
Proof.
  cbv zeta. unfold streamingInitialResampleMIS.
  rewrite bind_run. cbn [ret fst snd]. rewrite selectSample_run. cbn [fst].
  match goal with
  | |- context [if (?a <? ?b)%f32 then _ else _] => destruct (a <? b)%f32
  end.
  - split; [reflexivity | right; split; reflexivity].
  - split; [reflexivity | left; split; reflexivity].
Qed.

Lemma light_loop_holds (self : InitialResampling.t)
    (evalContext : EvalContext.t) (lightTileOffset offset stride : Z)
    (state0 : RisState.t) (body : Z -> RisState.t -> Gen S RisState.t) :
  (forall i state sg,
      RisState.pathSample (fst (body i state sg)) = RisState.pathSample state
      /\ ((RisState.lightSample (fst (body i state sg))
           = RisState.lightSample state
           /\ RisState.targetPdf (fst (body i state sg))
              = RisState.targetPdf state)
          \/ (RisState.lightSample (fst (body i state sg))
              = candidateSample self lightTileOffset offset stride i
              /\ RisState.targetPdf (fst (body i state sg))
                 = candidateTarget self evalContext lightTileOffset offset
                     stride i sg))) ->
  forall (n : nat) (i : Z) (state : RisState.t) (sg : S) (lo : Z),
    lo <= i ->
    holdsCandidate self evalContext lightTileOffset offset stride state0
      state lo i ->
    holdsCandidate self evalContext lightTileOffset offset stride state0
      (fst (forRange_from n i body state sg)) lo (i + Z.of_nat n).
Proof.
  intros Hbody. induction n as [| n IH]; intros i state sg lo Hlo Hst.
  - cbn [forRange_from ret fst]. rewrite Z.add_0_r. exact Hst.
  - cbn [forRange_from]. rewrite bind_run.
    rewrite Nat2Z.inj_succ.
    replace (i + Z.succ (Z.of_nat n)) with (i + 1 + Z.of_nat n) by lia.
    apply IH; [lia |].
    destruct (Hbody i state sg) as [Hp Hl].
    destruct Hst as [Hp0 Hl0].
    split; [rewrite Hp; exact Hp0 |].
    destruct Hl as [[El Et] | [El Et]].
    + destruct Hl0 as [[El0 Et0] | (j & g & Hj & Ej & Etj)].
      * left. split; [rewrite El; exact El0 | rewrite Et; exact Et0].
      * right. exists j, g. split; [lia |].
        split; [rewrite El; exact Ej | rewrite Et; exact Etj].
    + right. exists i, sg. split; [lia |]. split; [exact El | exact Et].
Qed.

(** The light-sample loop of the initial pass selects nothing but its
    own candidates: after it the state holds the light sample and the
    target value it held before, or the light sample of one of the
    [kInitialLightSampleCount] slots of the pixel's light tile that the
    loop read, together with the target value the loop computed for
    that candidate at the pixel's surface; the path sample is never
    changed. *)
Theorem light_loop_selects_candidates (self : InitialResampling.t)
    (evalContext : EvalContext.t) (lightTileOffset offset stride : Z)
    (state : RisState.t) (sg : S) :
  holdsCandidate self evalContext lightTileOffset offset stride state
    (fst (InitialResampling.resampleLightSamples self evalContext
            lightTileOffset offset stride state sg))
    0 (Z.max 0 (InitialResampling.kInitialLightSampleCount self)).
Proof.
  unfold InitialResampling.resampleLightSamples, forRange.
  replace (Z.max 0 (InitialResampling.kInitialLightSampleCount self))
    with (0 + Z.of_nat (Z.to_nat (InitialResampling.kInitialLightSampleCount self)))
    by lia.
  apply (light_loop_holds self evalContext).
  - intros i st g. rewrite !bind_run. cbn [ret fst snd].
    match goal with
    | |- context [streamingInitialResampleMIS ?s ?l ?t ?p ?m ?g'] =>
        pose proof (streamingInitialResampleMIS_holds s l t p m g') as Hs;
        destruct (streamingInitialResampleMIS s l t p m g') as [[b r] g'']
    end.
    cbn [fst snd] in *. exact Hs.
  - lia.
  - split; [reflexivity | left; split; reflexivity].
Qed.

End LightSelection.

(* ===================================================================== *)
(** * Properties: the light tiles *)
(* ===================================================================== *)

Section LightTiles.
Context {S : Type} `{SG : ISampleGenerator S} `{SC : Scene S}
        `{INTR : Intrinsics}.

(** The dispatch of [generateLightTiles]: one thread per (tile index,
    sample index), taken in the order of a list. *)
Definition generateTiles (threads : list (Z * Z)) (self : GenerateLightTiles.t)
  : GenerateLightTiles.t :=
  fold_left (fun s t => GenerateLightTiles.process s (fst t) (snd t))
    threads self.

(** A thread of the tile grid. *)
Definition tileThread (self : GenerateLightTiles.t) (t : Z * Z) : Prop :=
  0 <= fst t < GenerateLightTiles.kLightTileCount self
  /\ 0 <= snd t < GenerateLightTiles.kLightTileSize self.

Definition tileSlot (self : GenerateLightTiles.t) (t : Z * Z) : Z :=
  fst t * GenerateLightTiles.kLightTileSize self + snd t.

Definition withTileData (d : Z -> LoadedLightSample)
    (self : GenerateLightTiles.t) : GenerateLightTiles.t :=
  GenerateLightTiles.mk d (GenerateLightTiles.kLightTileCount self)
    (GenerateLightTiles.kLightTileSize self)
    (GenerateLightTiles.kEnvLightSampleCount self)
    (GenerateLightTiles.kEmissiveLightSampleCount self)
    (GenerateLightTiles.kAnalyticLightSampleCount self)
    (GenerateLightTiles.lights self) (GenerateLightTiles.frameIndex self).

Lemma tileSlot_exact (self : GenerateLightTiles.t) (t : Z * Z) :
  GenerateLightTiles.kLightTileCount self
  * GenerateLightTiles.kLightTileSize self <= U32.modulus ->
  tileThread self t ->
  U32.add (U32.mul (fst t) (GenerateLightTiles.kLightTileSize self)) (snd t)
  = tileSlot self t
  /\ 0 <= tileSlot self t
     < GenerateLightTiles.kLightTileCount self
       * GenerateLightTiles.kLightTileSize self.
Proof.
  intros Hfit [Ht Hs]. unfold tileSlot.
  set (size := GenerateLightTiles.kLightTileSize self) in *.
  set (count := GenerateLightTiles.kLightTileCount self) in *.
  assert (Hb : 0 <= fst t * size /\ fst t * size + size <= count * size) by nia.
  unfold U32.add, U32.mul.
  rewrite (wrap_small (fst t * size)) by lia.
  rewrite wrap_small by lia. lia.
Qed.

Lemma tileSlot_injective (self : GenerateLightTiles.t) (t t' : Z * Z) :
  tileThread self t -> tileThread self t' ->
  tileSlot self t = tileSlot self t' -> t = t'.
Proof.
  intros [Ht Hs] [Ht' Hs'] E. unfold tileSlot in E.
  destruct t as [a b], t' as [a' b']. cbn [fst snd] in *.
  assert (a = a') by nia. subst a'.
  assert (b = b') by lia. subst b'. reflexivity.
Qed.

(** One thread: outside the grid it does nothing; inside it stores the
    loaded sample of its slot and touches no other slot. *)
Lemma tile_process_step (self : GenerateLightTiles.t)
    (d : Z -> LoadedLightSample) (t : Z * Z) :
  GenerateLightTiles.kLightTileCount self
  * GenerateLightTiles.kLightTileSize self <= U32.modulus ->
  0 <= fst t -> 0 <= snd t ->
  exists d',
    GenerateLightTiles.process (withTileData d self) (fst t) (snd t)
    = withTileData d' self
    /\ (tileThread self t ->
        d' (tileSlot self t)
        = loadLightSample (GenerateLightTiles.lights self)
            (GenerateLightTiles.tileSample self (fst t) (snd t)))
    /\ (forall j, (tileThread self t -> j <> tileSlot self t) -> d' j = d j).
Proof.
  intros Hfit Ht0 Hs0. unfold GenerateLightTiles.process.
  cbn [withTileData GenerateLightTiles.kLightTileCount
       GenerateLightTiles.kLightTileSize GenerateLightTiles.lightTileData
       GenerateLightTiles.kEnvLightSampleCount
       GenerateLightTiles.kEmissiveLightSampleCount
       GenerateLightTiles.kAnalyticLightSampleCount GenerateLightTiles.lights
       GenerateLightTiles.frameIndex].
  destruct (Z.leb_spec (GenerateLightTiles.kLightTileCount self) (fst t))
    as [Hc | Hc]; cbn [orb].
  { exists d. split; [reflexivity |].
    split; [intros [Hx _]; lia | intros; reflexivity]. }
  destruct (Z.leb_spec (GenerateLightTiles.kLightTileSize self) (snd t))
    as [Hz | Hz].
  { exists d. split; [reflexivity |].
    split; [intros [_ Hx]; lia | intros; reflexivity]. }
  assert (Hth : tileThread self t) by (unfold tileThread; lia).
  destruct (tileSlot_exact self t Hfit Hth) as [Eslot _].
  rewrite Eslot.
  eexists. split; [reflexivity |]. split.
  - intros _. rewrite upd_same. reflexivity.
  - intros j Hj. apply upd_other. apply Hj. exact Hth.
Qed.

Lemma withTileData_id (self : GenerateLightTiles.t) :
  withTileData (GenerateLightTiles.lightTileData self) self = self.
Proof. destruct self; reflexivity. Qed.

Lemma generateTiles_keeps (self : GenerateLightTiles.t)
    (threads : list (Z * Z)) (t : Z * Z) :
  GenerateLightTiles.kLightTileCount self
  * GenerateLightTiles.kLightTileSize self <= U32.modulus ->
  tileThread self t ->
  Forall (fun q => 0 <= fst q /\ 0 <= snd q) threads ->
  ~ In t threads ->
  forall d, exists d',
    generateTiles threads (withTileData d self) = withTileData d' self
    /\ d' (tileSlot self t) = d (tileSlot self t).
Proof.
  intros Hfit Ht Hall Hnot.
  induction threads as [| q threads IH]; intros d.
  - exists d. split; reflexivity.
  - inversion Hall as [| q' l' [Hq1 Hq2] Hl]; subst.
    cbn [generateTiles fold_left].
    destruct (tile_process_step self d q Hfit Hq1 Hq2) as (d1 & E1 & _ & Hk).
    rewrite E1.
    destruct (IH Hl ltac:(intros Hin; apply Hnot; right; exact Hin) d1)
      as (d' & E' & Hd').
    exists d'. split; [exact E' |]. rewrite Hd'. apply Hk.
    intros Hq E. apply Hnot. left.
    apply (tileSlot_injective self q t Hq Ht). symmetry. exact E.
Qed.

Lemma light_tiles_filled_at (self : GenerateLightTiles.t)
    (threads : list (Z * Z)) (t : Z * Z) :
  GenerateLightTiles.kLightTileCount self
  * GenerateLightTiles.kLightTileSize self <= U32.modulus ->
  tileThread self t ->
  Forall (fun q => 0 <= fst q /\ 0 <= snd q) threads ->
  In t threads ->
  GenerateLightTiles.lightTileData (generateTiles threads self)
    (tileSlot self t)
  = loadLightSample (GenerateLightTiles.lights self)
      (GenerateLightTiles.tileSample self (fst t) (snd t)).
Proof.
  intros Hfit Ht Hall Hin.
  rewrite <- (withTileData_id self) at 1.
  generalize (GenerateLightTiles.lightTileData self) as d.
  induction threads as [| q threads IH]; intros d; [contradiction |].
  inversion Hall as [| q' l' [Hq1 Hq2] Hl]; subst.
  cbn [generateTiles fold_left].
  destruct (tile_process_step self d q Hfit Hq1 Hq2) as (d1 & E1 & Hw & _).
  rewrite E1.
  destruct (in_dec (fun a b : Z * Z =>
                      ltac:(decide equality; apply Z.eq_dec)) t threads)
    as [Hin' | Hnot].
  - fold (generateTiles threads (withTileData d1 self)). apply IH; assumption.
  - destruct Hin as [-> | Hin]; [| contradiction].
    destruct (generateTiles_keeps self threads t Hfit Ht Hl Hnot d1)
      as (d' & E' & Hd').
    fold (generateTiles threads (withTileData d1 self)). rewrite E'.
    cbn [withTileData GenerateLightTiles.lightTileData].
    rewrite Hd'. apply Hw. exact Ht.
Qed.

(** After the dispatch, the slot of every thread of the tile grid that
    ran holds the loaded light sample of that thread, whatever the order
    of the threads and whether or not some ran more than once: threads
    write distinct slots, and a thread's sample depends on the tile
    index, the sample index and the frame index only. *)
Theorem light_tiles_filled (self : GenerateLightTiles.t)
    (threads : list (Z * Z)) :
  GenerateLightTiles.kLightTileCount self
  * GenerateLightTiles.kLightTileSize self <= U32.modulus ->
  Forall (fun q => 0 <= fst q /\ 0 <= snd q) threads ->
  (forall t, tileThread self t -> In t threads ->
      0 <= tileSlot self t
        < GenerateLightTiles.kLightTileCount self
          * GenerateLightTiles.kLightTileSize self
      /\ GenerateLightTiles.lightTileData (generateTiles threads self)
           (tileSlot self t)
         = loadLightSample (GenerateLightTiles.lights self)
             (GenerateLightTiles.tileSample self (fst t) (snd t)))
  /\ (forall j, (forall t, tileThread self t -> In t threads ->
                   j <> tileSlot self t) ->
        GenerateLightTiles.lightTileData (generateTiles threads self) j
        = GenerateLightTiles.lightTileData self j).
Proof.
  intros Hfit Hall. split.
  - intros t Ht Hin. split.
    + apply (tileSlot_exact self t Hfit Ht).
    + apply light_tiles_filled_at; assumption.
  - intros j Hj.
    rewrite <- (withTileData_id self) at 1.
    revert Hj. generalize (GenerateLightTiles.lightTileData self) as d.
    induction threads as [| q threads IH]; intros d Hj; [reflexivity |].
    inversion Hall as [| q' l' [Hq1 Hq2] Hl]; subst.
    cbn [generateTiles fold_left].
    destruct (tile_process_step self d q Hfit Hq1 Hq2) as (d1 & E1 & _ & Hk).
    rewrite E1. fold (generateTiles threads (withTileData d1 self)).
    rewrite (IH Hl d1).
    + apply Hk. intros Hq. apply Hj; [exact Hq | left; reflexivity].
    + intros t Ht Hin. apply Hj; [exact Ht | right; exact Hin].
Qed.

End LightTiles.

Section TilesRead.
Context {S : Type} `{SG : ISampleGenerator S} `{SC : Scene S}
        `{INTR : Intrinsics}.

(** Read after write: when the initial pass runs on the buffer a
    complete dispatch of [generateLightTiles] produced (with the same
    tile count and size), every candidate of every pixel is the loaded
    sample of a slot of the pixel's tile the dispatch wrote, so that no
    slot is read that was not written in this frame. *)
Theorem initial_candidates_come_from_tiles (gen : GenerateLightTiles.t)
    (threads : list (Z * Z)) (self : InitialResampling.t) (pixel : uint2)
    (i : Z) :
  InitialResampling.kLightTileCount self
  = GenerateLightTiles.kLightTileCount gen ->
  InitialResampling.kLightTileSize self
  = GenerateLightTiles.kLightTileSize gen ->
  1 <= GenerateLightTiles.kLightTileCount gen ->
  1 <= GenerateLightTiles.kLightTileSize gen ->
  GenerateLightTiles.kLightTileCount gen
  * GenerateLightTiles.kLightTileSize gen <= U32.modulus ->
  Forall (fun q => 0 <= fst q /\ 0 <= snd q) threads ->
  (forall t, tileThread gen t -> In t threads) ->
  (forall j, InitialResampling.lightTileData self j
             = GenerateLightTiles.lightTileData (generateTiles threads gen) j) ->
  exists tileIndex sampleIndex,
    tileThread gen (tileIndex, sampleIndex)
    /\ snd (fst (fst (fst (InitialResampling.threadSetup self pixel))))
       = tileIndex * GenerateLightTiles.kLightTileSize gen
    /\ InitialResampling.lightTileData self
         (candidateIndex self
            (snd (fst (fst (fst (InitialResampling.threadSetup self pixel)))))
            (snd (fst (fst (InitialResampling.threadSetup self pixel))))
            (snd (fst (InitialResampling.threadSetup self pixel))) i)
       = loadLightSample (GenerateLightTiles.lights gen)
           (GenerateLightTiles.tileSample gen tileIndex sampleIndex).
Proof.
  intros Ec Es Hc Hs Hfit Hall Hcomplete Hdata.
  destruct (threadSetup_tile self pixel ltac:(rewrite Ec; exact Hc)
              ltac:(rewrite Es; exact Hs)
              ltac:(rewrite Ec, Es; exact Hfit)) as (tileIndex & Ht & Eoff).
  rewrite Ec in Ht. rewrite Es in Eoff.
  destruct (InitialResampling.threadSetup self pixel)
    as [[[[evalContext lightTileOffset] offset] stride] sg].
  cbn [fst snd] in *.
  set (size := GenerateLightTiles.kLightTileSize gen) in *.
  set (count := GenerateLightTiles.kLightTileCount gen) in *.
  assert (Hts : 0 <= tileIndex * size /\ tileIndex * size + size <= count * size)
    by nia.
  pose proof (candidateIndex_range self lightTileOffset offset stride i
                ltac:(rewrite Es; exact Hs) ltac:(lia)
                ltac:(rewrite Es; fold size; lia)) as Hr.
  rewrite Es in Hr. fold size in Hr.
  set (index := candidateIndex self lightTileOffset offset stride i) in *.
  remember (index - lightTileOffset) as sampleIndex eqn:Esample.
  exists tileIndex, sampleIndex.
  assert (Hth : tileThread gen (tileIndex, sampleIndex))
    by (unfold tileThread; cbn [fst snd]; fold size count; lia).
  split; [exact Hth |]. split; [exact Eoff |].
  rewrite Hdata.
  assert (Eidx : index = tileSlot gen (tileIndex, sampleIndex))
    by (unfold tileSlot; cbn [fst snd]; fold size; lia).
  rewrite Eidx.
  apply (light_tiles_filled_at gen threads _ Hfit Hth Hall (Hcomplete _ Hth)).
Qed.

End TilesRead.

(** A tile generation pass with one tile of two emissive samples. *)
Definition smallTiles : GenerateLightTiles.t :=
  GenerateLightTiles.mk (fun _ => lls_default) 1 2 0 2 0
    (fun _ => Reference.light F32.one f32_half) 0.

Lemma light_tiles_filled_witness :
  tileThread smallTiles (0, 1)
  /\ GenerateLightTiles.lightTileData
       (generateTiles [(0, 0); (0, 1); (3, 1)] smallTiles)
       (tileSlot smallTiles (0, 1))
     = loadLightSample (GenerateLightTiles.lights smallTiles)
         (GenerateLightTiles.tileSample smallTiles 0 1).
Proof.
  assert (T : tileThread smallTiles (0, 1)) by (unfold tileThread; cbn; lia).
  split; [exact T |].
  destruct (light_tiles_filled (S := Z) smallTiles [(0, 0); (0, 1); (3, 1)]
              ltac:(unfold U32.modulus; cbn; lia)
              ltac:(repeat constructor; cbn; lia)) as [H _].
  apply (H (0, 1) T). right; left; reflexivity.
Defined.

(** An initial pass that reads the buffer a complete dispatch over
    [smallTiles] produced. *)
Definition tiledPass : InitialResampling.t :=
  InitialResampling.mk
    (fun _ => Reservoir.createEmpty 2)
    (fun _ => whiteContext) (fun _ => whiteContext) (fun _ => float4_zero)
    1 2 8 2 0 0 false DebugDisabled 1
    (fun _ => Reference.surface float3_zero) (fun _ => 0)
    (fun _ => Reference.unitZ)
    (GenerateLightTiles.lightTileData
       (generateTiles [(0, 0); (0, 1)] smallTiles))
    (fun _ => Reference.light F32.one f32_half)
    (4, 4) 0 F32.zero 0 F32.zero F32.zero F32.zero 0.

Lemma initial_candidates_come_from_tiles_witness :
  InitialResampling.kLightTileCount tiledPass
  = GenerateLightTiles.kLightTileCount smallTiles
  /\ exists tileIndex sampleIndex,
       tileThread smallTiles (tileIndex, sampleIndex)
       /\ InitialResampling.lightTileData tiledPass
            (candidateIndex tiledPass
               (snd (fst (fst (fst
                  (InitialResampling.threadSetup tiledPass (1, 2))))))
               (snd (fst (fst
                  (InitialResampling.threadSetup tiledPass (1, 2)))))
               (snd (fst (InitialResampling.threadSetup tiledPass (1, 2))))
               1)
          = loadLightSample (GenerateLightTiles.lights smallTiles)
              (GenerateLightTiles.tileSample smallTiles tileIndex sampleIndex).
Proof.
  split; [reflexivity |].
  destruct (initial_candidates_come_from_tiles (S := Z) smallTiles
              [(0, 0); (0, 1)] tiledPass (1, 2) 1 eq_refl eq_refl
              ltac:(cbn; lia) ltac:(cbn; lia)
              ltac:(unfold U32.modulus; cbn; lia)
              ltac:(repeat constructor; cbn; lia))
    as (tileIndex & sampleIndex & Ht & _ & Hd).
  - intros [a b] [Ha Hb]. cbn in Ha, Hb.
    assert (a = 0) by lia. subst a.
    assert (b = 0 \/ b = 1) as [-> | ->] by lia;
      [left | right; left]; reflexivity.
  - intros j. reflexivity.
  - exists tileIndex, sampleIndex. split; [exact Ht | exact Hd].
Defined.

(* ===================================================================== *)
(** * Properties: the weights the passes store *)
(* ===================================================================== *)

(** Neither infinite nor NaN. *)
Definition finite_weight (w : float) : bool :=
  negb (F32.isinf w) && negb (F32.isnan w).

Lemma toReservoir_finite_weight (s : RisState.t) :
  finite_weight (Reservoir.weight (RisState.toReservoir s)) = true.
Proof.
  unfold RisState.toReservoir. cbn [Reservoir.weight].
  destruct (F32.isinf (RisState.weight s)) eqn:Hi; [reflexivity |].
  destruct (F32.isnan (RisState.weight s)) eqn:Hn; [reflexivity |].
  cbn [orb Reservoir.weight]. unfold finite_weight. rewrite Hi, Hn. reflexivity.
Qed.

Section StoredWeights.
Context {S : Type} `{SG : ISampleGenerator S} `{SC : Scene S}
        `{INTR : Intrinsics}.

(** No pass stores an infinite or NaN weight.  The initial and the
    spatial pass write a finite weight for every pixel of the frame; a
    temporal thread writes a finite weight or, when its pixel or its
    back-projection is outside the frame, leaves its slot as it was, so
    that a finite weight stays finite. *)
Theorem stored_weight_is_finite :
  (forall (self : InitialResampling.t) (pixel : uint2),
      outsideFrame (InitialResampling.frameDim self) pixel = false ->
      finite_weight (Reservoir.weight (storedReservoir self pixel)) = true)
  /\ (forall (self : TemporalResampling.t) (pixel : uint2),
         finite_weight
           (Reservoir.weight
              (TemporalResampling.reservoirs self (temporalSlot self pixel)))
         = true ->
         finite_weight
           (Reservoir.weight
              (TemporalResampling.reservoirs
                 (TemporalResampling.process self pixel)
                 (temporalSlot self pixel))) = true)
  /\ (forall (self : SpatialResampling.t) (pixel : uint2),
         outsideFrame (SpatialResampling.frameDim self) pixel = false ->
         finite_weight
           (Reservoir.weight
              (SpatialResampling.reservoirs
                 (SpatialResampling.process self pixel)
                 (spatialSlot self pixel))) = true).
Proof.
  repeat apply conj.
  - intros self pixel Hin.
    destruct (EvalContext.isSurfaceValid (threadContext self pixel)) eqn:Hv.
    + rewrite (process_saves_final_state self pixel Hin Hv).
      apply toReservoir_finite_weight.
    + destruct (process_saves_background self pixel Hin Hv) as (_ & _ & Hw).
      rewrite Hw. reflexivity.
  - intros self pixel Hold.
    unfold TemporalResampling.process, temporalSlot in *.
    destruct (outsideFrame _ pixel); [exact Hold |].
    destruct (TemporalResampling.backProject self pixel _) as [prevPixel sg].
    destruct (negb _); [exact Hold |].
    cbn [TemporalResampling.reservoirs TemporalResampling.with_buffers].
    rewrite upd_same. apply toReservoir_finite_weight.
  - intros self pixel Hin.
    unfold SpatialResampling.process, spatialSlot. rewrite Hin.
    cbn [SpatialResampling.reservoirs SpatialResampling.with_buffers].
    rewrite upd_same. apply toReservoir_finite_weight.
Qed.

End StoredWeights.

(* ===================================================================== *)
(** * Properties: the finalized weight of every stage *)
(* ===================================================================== *)

(** [final] is the finalization of the accumulated state [acc]: it holds
    the sample, the target value and the weight sum of [acc], and its
    weight is the weight sum of [acc] over the target value of [acc]
    when that is positive, and 0 otherwise. *)
Definition finalizedFrom (acc final : RisState.t) : Prop :=
  RisState.weight final
  = (if (RisState.targetPdf acc >? F32.zero)%f32
     then (RisState.weightSum acc / RisState.targetPdf acc)%f32
     else F32.zero)
  /\ ((RisState.targetPdf acc =? F32.zero)%f32 = true ->
      RisState.weight final = F32.zero)
  /\ RisState.lightSample final = RisState.lightSample acc
  /\ RisState.pathSample final = RisState.pathSample acc
  /\ RisState.targetPdf final = RisState.targetPdf acc
  /\ RisState.weightSum final = RisState.weightSum acc.

Lemma finalizeWeight_finalizedFrom (acc : RisState.t) :
  finalizedFrom acc (RisState.finalizeWeight acc).
Proof.
  unfold finalizedFrom. split; [reflexivity |].
  split; [| repeat split; reflexivity].
  intros H. rewrite finalizeWeight_weight, (eqb_zero_not_gtb _ H).
  reflexivity.
Qed.

Section StageFinalization.
Context {S : Type} `{SG : ISampleGenerator S} `{SC : Scene S}
        `{INTR : Intrinsics}.

(** What a temporal thread has accumulated when it finalizes: the
    pairwise merge of the clamped history, then the canonical sample. *)
Definition temporalAccumulated (self : TemporalResampling.t)
    (currentReservoir : Reservoir.t) (currentContext : EvalContext.t)
    (prevReservoir : Reservoir.t) (prevContext : EvalContext.t)
  : Gen S RisState.t :=
  let prevReservoir :=
    TemporalResampling.clampHistory self currentReservoir prevReservoir in
  let risState := RisState.createEmptyFrom currentReservoir in
  let confidenceWeightSum :=
    F32.of_uint
      (U32.add (Reservoir.M prevReservoir) (Reservoir.M currentReservoir)) in
  (' (_, risState) <-
     temporalResamplePointReservoirPairwiseMIS risState currentReservoir
       currentContext prevReservoir prevContext
       (TemporalResampling.lights self) (TemporalResampling.useMFactor self)
       confidenceWeightSum F32.one (TemporalResampling.kUnbiased self) ;;
   ' (_, risState) <-
     streamingResampleFinalizeMis risState currentReservoir
       (Reservoir.targetPdf currentReservoir) ;;
   ret risState)%gen.

(** What a spatial thread has accumulated when it finalizes: the merges
    with the accepted neighbors, the canonical sample, and the count of
    the input reservoir. *)
Definition spatialAccumulated (self : SpatialResampling.t) (pixel : uint2)
    (currentReservoir : Reservoir.t)
    (currEvalContext currCenterContext : EvalContext.t) : Gen S RisState.t :=
  let risState := RisState.createEmptyFrom currentReservoir in
  (u <- sampleNext1D ;;
   let startIndex :=
     F32.to_uint
       (u * F32.of_uint (SpatialResampling.kNeighborOffsetCount self))%f32 in
   let '(confidenceWeightSum, validNeighborCache) :=
     SpatialResampling.gatherConfidence self pixel startIndex
       currentReservoir currEvalContext currCenterContext in
   let risState :=
     RisState.with_canonicalWeight
       (if (confidenceWeightSum >? F32.zero)%f32
        then (F32.of_uint (Reservoir.M currentReservoir)
              / confidenceWeightSum)%f32
        else F32.zero) risState in
   risState <- SpatialResampling.resampleNeighbors self pixel startIndex
                 currentReservoir currEvalContext confidenceWeightSum
                 validNeighborCache risState ;;
   ' (_, risState) <-
     streamingResampleFinalizeMis risState currentReservoir
       (Reservoir.targetPdf currentReservoir) ;;
   ret (RisState.with_M (F32.of_uint (Reservoir.M currentReservoir))
          risState))%gen.

Lemma temporal_final_of_accumulated (self : TemporalResampling.t)
    (cur : Reservoir.t) (ctx : EvalContext.t) (prev : Reservoir.t)
    (pctx : EvalContext.t) (sg : S) :
  fst (TemporalResampling.finalRisState self cur ctx prev pctx sg)
  = RisState.finalizeWeight
      (fst (temporalAccumulated self cur ctx prev pctx sg)).
Proof.
  unfold TemporalResampling.finalRisState, temporalAccumulated, bind, ret.
  destruct (temporalResamplePointReservoirPairwiseMIS _ _ _ _ _ _ _ _ _ _ _)
    as [[b r] sg'].
  destruct (streamingResampleFinalizeMis _ _ _ _) as [[b' r'] sg''].
  reflexivity.
Qed.

Lemma spatial_final_of_accumulated (self : SpatialResampling.t)
    (pixel : uint2) (cur : Reservoir.t) (ctx center : EvalContext.t)
    (sg : S) :
  fst (SpatialResampling.finalRisState self pixel cur ctx center sg)
  = RisState.finalizeWeight
      (fst (spatialAccumulated self pixel cur ctx center sg)).
Proof.
  unfold SpatialResampling.finalRisState, spatialAccumulated, bind, ret.
  destruct (sampleNext1D sg) as [u sg1].
  destruct (SpatialResampling.gatherConfidence _ _ _ _ _ _) as [cws cache].
  destruct (SpatialResampling.resampleNeighbors _ _ _ _ _ _ _ _ _)
    as [r sg2].
  destruct (streamingResampleFinalizeMis _ _ _ _) as [[b' r'] sg3].
  reflexivity.
Qed.

(** The back-projection of a temporal thread and the generator state it
    leaves, and the state the thread has accumulated from the slots it
    reads. *)
Definition temporalBackProjection (self : TemporalResampling.t)
    (pixel : uint2) : int2 * S :=
  TemporalResampling.backProject self pixel
    (sgFromPixel pixel
       (U32.add (TemporalResampling.frameIndex self)
          (U32.mul 8 (TemporalResampling.restirPassIdx self)))).

Definition temporalThreadAccumulated (self : TemporalResampling.t)
    (pixel : uint2) : RisState.t :=
  let '(prevPixel, sg) := temporalBackProjection self pixel in
  let slot := temporalSlot self pixel in
  let prevSlot := temporalSlot self prevPixel in
  fst (temporalAccumulated self
         (TemporalResampling.reservoirs self slot)
         (TemporalResampling.resEvalContext self slot)
         (TemporalResampling.prevReservoirs self prevSlot)
         (TemporalResampling.prevResEvalContext self prevSlot) sg).

Definition spatialThreadAccumulated (self : SpatialResampling.t)
    (pixel : uint2) : RisState.t :=
  let slot := spatialSlot self pixel in
  fst (spatialAccumulated self pixel
         (SpatialResampling.prevReservoirs self slot)
         (SpatialResampling.prevResEvalContext self slot)
         (SpatialResampling.pixelCenterEvalContext self
            (getPixelIndex (SpatialResampling.frameDim self) pixel))
         (sgFromPixel pixel
            (U32.add
               (U32.add (U32.mul 32 (SpatialResampling.frameIndex self))
                  (SpatialResampling.spatialPassIdx self))
               (U32.mul 8 (SpatialResampling.restirPassIdx self))))).

Lemma temporal_thread_stores (self : TemporalResampling.t) (pixel : uint2) :
  outsideFrame (TemporalResampling.frameDim self) pixel = false ->
  isValidPixel (TemporalResampling.frameDim self)
    (fst (temporalBackProjection self pixel)) = true ->
  TemporalResampling.reservoirs (TemporalResampling.process self pixel)
    (temporalSlot self pixel)
  = RisState.toReservoir
      (RisState.finalizeWeight (temporalThreadAccumulated self pixel)).
Proof.
  intros Hin Hback.
  unfold TemporalResampling.process, temporalThreadAccumulated,
    temporalBackProjection, temporalSlot in *.
  rewrite Hin.
  destruct (TemporalResampling.backProject self pixel _) as [prevPixel sg].
  cbn [fst] in Hback. rewrite Hback. cbn [negb].
  cbn [TemporalResampling.reservoirs TemporalResampling.with_buffers].
  rewrite upd_same, temporal_final_of_accumulated. reflexivity.
Qed.

Lemma spatial_thread_stores (self : SpatialResampling.t) (pixel : uint2) :
  outsideFrame (SpatialResampling.frameDim self) pixel = false ->
  SpatialResampling.reservoirs (SpatialResampling.process self pixel)
    (spatialSlot self pixel)
  = RisState.toReservoir
      (RisState.finalizeWeight (spatialThreadAccumulated self pixel)).
Proof.
  intros Hin.
  unfold SpatialResampling.process, spatialThreadAccumulated, spatialSlot.
  rewrite Hin.
  cbn [SpatialResampling.reservoirs SpatialResampling.with_buffers].
  rewrite upd_same, spatial_final_of_accumulated. reflexivity.
Qed.

Lemma background_stores (self : InitialResampling.t) (pixel : uint2) :
  outsideFrame (InitialResampling.frameDim self) pixel = false ->
  EvalContext.isSurfaceValid (threadContext self pixel) = false ->
  Reservoir.weight (storedReservoir self pixel) = F32.one
  /\ Reservoir.targetPdf (storedReservoir self pixel)
     = luminance (EvalContext.emission (threadContext self pixel)).
Proof.
  intros Hin Hvalid.
  unfold storedReservoir, threadSlot, threadContext in *.
  unfold InitialResampling.process. rewrite Hin.
  destruct (InitialResampling.threadSetup self pixel)
    as [[[[evalContext lto] off] stride] sg].
  rewrite Hvalid. cbn [negb InitialResampling.reservoirs
    InitialResampling.with_buffers].
  rewrite upd_same. unfold InitialResampling.backgroundReservoir, bind, ret.
  unfold evalTargetFunction. rewrite Hvalid. cbn [negb andb Z.eqb ret].
  split; reflexivity.
Qed.

(** C4, amended: on the valid-surface path of the initial stage and in
    the temporal and the spatial stage, the state a thread converts and
    stores is the finalization of what it accumulated: its weight is
    [weightSum / targetPdf] of the selected sample when [targetPdf > 0]
    and 0 otherwise, in particular exactly 0 when [targetPdf == 0],
    whatever the weight sum.  (The accumulated state is, in the initial
    stage, the streamed candidates after the visibility check; in the
    temporal stage, the merge of history and canonical sample of a
    thread whose back-projection lies in the frame; in the spatial
    stage, the merge of the neighbors and the canonical sample.)  The
    background path of the initial stage accumulates nothing and stores
    the weight 1 with the luminance of the emission as target value. *)
Theorem finalized_weight_of_every_stage :
  (forall (self : InitialResampling.t) (pixel : uint2),
      outsideFrame (InitialResampling.frameDim self) pixel = false ->
      EvalContext.isSurfaceValid (threadContext self pixel) = true ->
      storedReservoir self pixel
      = RisState.toReservoir (threadRisState self pixel)
      /\ finalizedFrom
           (InitialResampling.checkSelectedVisibility self
              (threadContext self pixel) (threadCandidates self pixel))
           (threadRisState self pixel))
  /\ (forall (self : TemporalResampling.t) (pixel : uint2),
         outsideFrame (TemporalResampling.frameDim self) pixel = false ->
         isValidPixel (TemporalResampling.frameDim self)
           (fst (temporalBackProjection self pixel)) = true ->
         TemporalResampling.reservoirs
           (TemporalResampling.process self pixel) (temporalSlot self pixel)
         = RisState.toReservoir
             (RisState.finalizeWeight (temporalThreadAccumulated self pixel))
         /\ finalizedFrom (temporalThreadAccumulated self pixel)
              (RisState.finalizeWeight
                 (temporalThreadAccumulated self pixel)))
  /\ (forall (self : SpatialResampling.t) (pixel : uint2),
         outsideFrame (SpatialResampling.frameDim self) pixel = false ->
         SpatialResampling.reservoirs
           (SpatialResampling.process self pixel) (spatialSlot self pixel)
         = RisState.toReservoir
             (RisState.finalizeWeight (spatialThreadAccumulated self pixel))
         /\ finalizedFrom (spatialThreadAccumulated self pixel)
              (RisState.finalizeWeight (spatialThreadAccumulated self pixel)))
  /\ (forall (self : InitialResampling.t) (pixel : uint2),
         outsideFrame (InitialResampling.frameDim self) pixel = false ->
         EvalContext.isSurfaceValid (threadContext self pixel) = false ->
         Reservoir.weight (storedReservoir self pixel) = F32.one
         /\ Reservoir.targetPdf (storedReservoir self pixel)
            = luminance (EvalContext.emission (threadContext self pixel))).
Proof.
  repeat apply conj.
  - intros self pixel Hin Hvalid.
    split; [exact (process_saves_final_state self pixel Hin Hvalid) |].
    rewrite threadRisState_eq. unfold InitialResampling.finalize.
    destruct (finalizeWeight_finalizedFrom
                (InitialResampling.checkSelectedVisibility self
                   (threadContext self pixel) (threadCandidates self pixel)))
      as (Hw & Hz & Hrest).
    split; [exact Hw |]. split; [exact Hz | exact Hrest].
  - intros self pixel Hin Hback.
    split; [exact (temporal_thread_stores self pixel Hin Hback) |].
    apply finalizeWeight_finalizedFrom.
  - intros self pixel Hin.
    split; [exact (spatial_thread_stores self pixel Hin) |].
    apply finalizeWeight_finalizedFrom.
  - intros self pixel Hin Hvalid.
    exact (background_stores self pixel Hin Hvalid).
Qed.

End StageFinalization.

(** An initial pass over a background without emission: no valid hit
    (negative depth in the reference scene) and a black environment. *)
Definition darkBackgroundPass : InitialResampling.t :=
  Reference.initialPass false (fun _ => Reference.light F32.one f32_half)
    (SurfaceData.mk float3_zero (SFopp F32.one) Reference.unitZ
       Reference.unitZ F32.zero F32.zero float3_zero float3_zero F32.one
       float3_zero Standard 0 HitInfo.none).

(** C4, as stated, fails at the end of the initial stage: pixel (1, 1)
    lies in the frame, its surface is not valid, the stored target
    value is 0 and the stored weight is 1, not 0. *)
Lemma background_weight_ignores_target :
  outsideFrame (InitialResampling.frameDim darkBackgroundPass) (1, 1) = false
  /\ EvalContext.isSurfaceValid (threadContext darkBackgroundPass (1, 1))
     = false
  /\ (Reservoir.targetPdf (storedReservoir darkBackgroundPass (1, 1))
      =? F32.zero)%f32 = true
  /\ Reservoir.weight (storedReservoir darkBackgroundPass (1, 1)) = F32.one
  /\ (Reservoir.weight (storedReservoir darkBackgroundPass (1, 1))
      =? F32.zero)%f32 = false.
Proof. vm_compute. repeat split; reflexivity. Qed.

(** C4 amended, at the lit pass: pixel (1, 1) has accumulated the weight
    sum [2 / pi] with the selected target value [1 / pi], and the state it
    stores has the weight 2; at the still temporal pass and the small
    spatial pass the stored weight is the quotient of what the thread
    accumulated. *)
Lemma finalized_weight_witness :
  RisState.weightSum
    (InitialResampling.checkSelectedVisibility litPass
       (threadContext litPass (1, 1)) (threadCandidates litPass (1, 1)))
  = twoOverPi
  /\ RisState.targetPdf
       (InitialResampling.checkSelectedVisibility litPass
          (threadContext litPass (1, 1)) (threadCandidates litPass (1, 1)))
     = oneOverPi
  /\ RisState.weight (threadRisState litPass (1, 1)) = f32_two
  /\ Reservoir.weight (storedReservoir litPass (1, 1)) = f32_two
  /\ Reservoir.weight
       (TemporalResampling.reservoirs
          (TemporalResampling.process stillTemporalPass (1, 0))
          (temporalSlot stillTemporalPass (1, 0)))
     = (RisState.weightSum (temporalThreadAccumulated stillTemporalPass (1, 0))
        / RisState.targetPdf
            (temporalThreadAccumulated stillTemporalPass (1, 0)))%f32
  /\ Reservoir.weight
       (SpatialResampling.reservoirs
          (SpatialResampling.process smallSpatialPass (0, 0))
          (spatialSlot smallSpatialPass (0, 0)))
     = (RisState.weightSum (spatialThreadAccumulated smallSpatialPass (0, 0))
        / RisState.targetPdf
            (spatialThreadAccumulated smallSpatialPass (0, 0)))%f32.
Proof.
  destruct (finalized_weight_of_every_stage (S := Z))
    as (Hinitial & Htemporal & Hspatial & _).
  assert (Hin : outsideFrame (InitialResampling.frameDim litPass) (1, 1)
                = false) by (vm_compute; reflexivity).
  assert (Hvalid : EvalContext.isSurfaceValid (threadContext litPass (1, 1))
                   = true) by (vm_compute; reflexivity).
  destruct (Hinitial litPass (1, 1) Hin Hvalid) as (Hs & Hw & _).
  split; [vm_compute; reflexivity |].
  split; [vm_compute; reflexivity |].
  split; [rewrite Hw; vm_compute; reflexivity |].
  split; [rewrite Hs; vm_compute; reflexivity |].
  assert (Hint : outsideFrame (TemporalResampling.frameDim stillTemporalPass)
                   (1, 0) = false) by (vm_compute; reflexivity).
  assert (Hback : isValidPixel (TemporalResampling.frameDim stillTemporalPass)
                    (fst (temporalBackProjection stillTemporalPass (1, 0)))
                  = true) by (vm_compute; reflexivity).
  destruct (Htemporal stillTemporalPass (1, 0) Hint Hback) as (Est & _).
  assert (Hins : outsideFrame (SpatialResampling.frameDim smallSpatialPass)
                   (0, 0) = false) by (vm_compute; reflexivity).
  destruct (Hspatial smallSpatialPass (0, 0) Hins) as (Ess & _).
  split.
  - rewrite Est. vm_compute. reflexivity.
  - rewrite Ess. vm_compute. reflexivity.
Defined.

(* ===================================================================== *)
(** * Properties: determinism of a dispatch *)
(* ===================================================================== *)

(** A dispatch runs its threads in some order.  What is observed of
    thread [p] afterwards depends neither on that order nor on what the
    other threads did, provided the other threads preserve what is
    observed and what [p] reads. *)
Section Dispatch.
Variables T V : Type.
Variable process : T -> uint2 -> T.
Variable obs : T -> V.
Variable inv : T -> Prop.
Variable agree : T -> T -> Prop.
Variable p : uint2.

Hypothesis inv_step : forall a q, inv a -> inv (process a q).
Hypothesis agree_step :
  forall a b q, inv a -> agree a b -> unsignedPixel q -> q <> p ->
                agree (process a q) b.
Hypothesis obs_step :
  forall a q, inv a -> unsignedPixel q -> q <> p ->
              obs (process a q) = obs a.
Hypothesis obs_local :
  forall a b, inv a -> inv b -> agree a b ->
              obs (process a p) = obs (process b p).

Lemma dispatch_inv (l : list uint2) :
  forall a, inv a -> inv (dispatch process l a).
Proof.
  induction l as [| q l IH]; intros a Ha; [exact Ha |].
  cbn [dispatch fold_left]. apply IH, inv_step, Ha.
Qed.

Lemma dispatch_others_agree (l : list uint2) :
  forall a b,
    inv a -> agree a b -> Forall unsignedPixel l -> ~ In p l ->
    agree (dispatch process l a) b.
Proof.
  induction l as [| q l IH]; intros a b Ha Hab Hall Hnot; [exact Hab |].
  inversion Hall as [| q' l' Hq Hl]; subst.
  assert (Hqp : q <> p) by (intros ->; apply Hnot; left; reflexivity).
  assert (Hnot' : ~ In p l) by (intros Hin; apply Hnot; right; exact Hin).
  cbn [dispatch fold_left].
  apply IH; [apply inv_step, Ha | | exact Hl | exact Hnot'].
  apply agree_step; assumption.
Qed.

Lemma dispatch_others_obs (l : list uint2) :
  forall a,
    inv a -> Forall unsignedPixel l -> ~ In p l ->
    obs (dispatch process l a) = obs a.
Proof.
  induction l as [| q l IH]; intros a Ha Hall Hnot; [reflexivity |].
  inversion Hall as [| q' l' Hq Hl]; subst.
  assert (Hqp : q <> p) by (intros ->; apply Hnot; left; reflexivity).
  assert (Hnot' : ~ In p l) by (intros Hin; apply Hnot; right; exact Hin).
  cbn [dispatch fold_left].
  pose proof (IH (process a q) (inv_step a q Ha) Hl Hnot') as Hobs.
  unfold dispatch in Hobs. rewrite Hobs. apply obs_step; assumption.
Qed.

(** The observation of [p] after the dispatch is that of thread [p]
    run alone, from any pass that agrees on what [p] reads. *)
Lemma dispatch_at (l : list uint2) (a b : T) :
  inv a -> inv b -> agree a b ->
  Forall unsignedPixel l -> NoDup l -> In p l ->
  obs (dispatch process l a) = obs (process b p).
Proof.
  intros Ha Hb Hab Hall Hnd Hin.
  destruct (in_split _ _ Hin) as (l1 & l2 & ->).
  apply NoDup_remove_2 in Hnd.
  assert (Hn1 : ~ In p l1) by (intros H; apply Hnd, in_or_app; left; exact H).
  assert (Hn2 : ~ In p l2) by (intros H; apply Hnd, in_or_app; right; exact H).
  apply Forall_app in Hall. destruct Hall as [Hall1 Hall2].
  inversion Hall2 as [| p' l' _ Hall2']; subst.
  pose proof (dispatch_others_agree l1 a b Ha Hab Hall1 Hn1) as Hag.
  pose proof (dispatch_inv l1 a Ha) as Hinv1.
  pose proof (obs_local _ _ Hinv1 Hb Hag) as Hloc.
  pose proof (dispatch_others_obs l2 _ (inv_step _ p Hinv1) Hall2' Hn2)
    as Hobs.
  unfold dispatch in *. rewrite fold_left_app. cbn [fold_left].
  rewrite Hobs. exact Hloc.
Qed.

End Dispatch.

(** A schedule of a dispatch that runs the thread of pixel [p]: thread
    identifiers are unsigned and no thread runs twice. *)
Definition schedules (threads : list uint2) (p : uint2) : Prop :=
  Forall unsignedPixel threads /\ NoDup threads /\ In p threads.

(** Two generators that draw alike: they may differ in how they are
    seeded. *)
Definition drawAlike {S : Type} (SGa SGb : ISampleGenerator S) : Prop :=
  @sampleNext1D S SGa = @sampleNext1D S SGb.

Section SameInputs.
Context {S : Type} `{SC : Scene S}.

(** Two runs of the initial pass get the same inputs: configuration,
    frame, frame index, pass index, lights, light tiles and surfaces.
    The previous contents of the output buffers and the fields the pass
    does not read may differ. *)
Definition sameInitialInputs (a b : InitialResampling.t) : Prop :=
  InitialResampling.kLightTileCount a = InitialResampling.kLightTileCount b
  /\ InitialResampling.kLightTileSize a = InitialResampling.kLightTileSize b
  /\ InitialResampling.kScreenTileSize a = InitialResampling.kScreenTileSize b
  /\ InitialResampling.kInitialLightSampleCount a
     = InitialResampling.kInitialLightSampleCount b
  /\ InitialResampling.kInitialBRDFSampleCount a
     = InitialResampling.kInitialBRDFSampleCount b
  /\ InitialResampling.kCheckVisibility a = InitialResampling.kCheckVisibility b
  /\ InitialResampling.kOneMergedReservoir a
     = InitialResampling.kOneMergedReservoir b
  /\ InitialResampling.surfaceData a = InitialResampling.surfaceData b
  /\ InitialResampling.viewDir a = InitialResampling.viewDir b
  /\ InitialResampling.lightTileData a = InitialResampling.lightTileData b
  /\ InitialResampling.lights a = InitialResampling.lights b
  /\ InitialResampling.frameDim a = InitialResampling.frameDim b
  /\ InitialResampling.frameIndex a = InitialResampling.frameIndex b
  /\ InitialResampling.brdfCutoff a = InitialResampling.brdfCutoff b
  /\ InitialResampling.resampleEmissionMode a
     = InitialResampling.resampleEmissionMode b
  /\ InitialResampling.restirPassIdx a = InitialResampling.restirPassIdx b.

(** The inputs of the temporal pass that no thread writes: the history
    buffers, motion vectors and parameters. *)
Definition sameTemporalHistory (a b : TemporalResampling.t) : Prop :=
  TemporalResampling.kMaxHistoryLength a
  = TemporalResampling.kMaxHistoryLength b
  /\ TemporalResampling.kUnbiased a = TemporalResampling.kUnbiased b
  /\ TemporalResampling.motionVectors a = TemporalResampling.motionVectors b
  /\ TemporalResampling.prevReservoirs a = TemporalResampling.prevReservoirs b
  /\ TemporalResampling.prevResEvalContext a
     = TemporalResampling.prevResEvalContext b
  /\ TemporalResampling.lights a = TemporalResampling.lights b
  /\ TemporalResampling.frameDim a = TemporalResampling.frameDim b
  /\ TemporalResampling.frameIndex a = TemporalResampling.frameIndex b
  /\ TemporalResampling.useMFactor a = TemporalResampling.useMFactor b
  /\ TemporalResampling.restirPassIdx a = TemporalResampling.restirPassIdx b.

(** The reservoir and the context of a slot, which the thread of that
    slot reads and overwrites. *)
Definition sameSlot (slot : Z) (a b : TemporalResampling.t) : Prop :=
  TemporalResampling.reservoirs a slot = TemporalResampling.reservoirs b slot
  /\ TemporalResampling.resEvalContext a slot
     = TemporalResampling.resEvalContext b slot.

(** The inputs of the temporal pass for a pixel: the current reservoir
    and context of the pixel, and the history. *)
Definition sameTemporalInputs (pixel : uint2) (a b : TemporalResampling.t)
  : Prop :=
  sameSlot (temporalSlot a pixel) a b /\ sameTemporalHistory a b.

(** The inputs of the spatial pass: the buffers of the previous stage,
    the neighbor offsets and the parameters. *)
Definition sameSpatialInputs (a b : SpatialResampling.t) : Prop :=
  SpatialResampling.kNeighborOffsetCount a
  = SpatialResampling.kNeighborOffsetCount b
  /\ SpatialResampling.kUnbiased a = SpatialResampling.kUnbiased b
  /\ SpatialResampling.prevReservoirs a = SpatialResampling.prevReservoirs b
  /\ SpatialResampling.prevResEvalContext a
     = SpatialResampling.prevResEvalContext b
  /\ SpatialResampling.pixelCenterEvalContext a
     = SpatialResampling.pixelCenterEvalContext b
  /\ SpatialResampling.neighborOffsets a = SpatialResampling.neighborOffsets b
  /\ SpatialResampling.lights a = SpatialResampling.lights b
  /\ SpatialResampling.frameDim a = SpatialResampling.frameDim b
  /\ SpatialResampling.frameIndex a = SpatialResampling.frameIndex b
  /\ SpatialResampling.normalThreshold a = SpatialResampling.normalThreshold b
  /\ SpatialResampling.useMFactor a = SpatialResampling.useMFactor b
  /\ SpatialResampling.neighborCount a = SpatialResampling.neighborCount b
  /\ SpatialResampling.gatherRadius a = SpatialResampling.gatherRadius b
  /\ SpatialResampling.rejectNeighborPixelForNormalDepth a
     = SpatialResampling.rejectNeighborPixelForNormalDepth b
  /\ SpatialResampling.rejectNeighborPixelForHitType a
     = SpatialResampling.rejectNeighborPixelForHitType b
  /\ SpatialResampling.restirPassIdx a = SpatialResampling.restirPassIdx b
  /\ SpatialResampling.spatialPassIdx a = SpatialResampling.spatialPassIdx b.

End SameInputs.

(* --------------------------------------------------------------------- *)
(** ** The initial pass *)

Section InitialDispatch.
Context {S : Type} `{SG : ISampleGenerator S} `{SC : Scene S}.

Lemma initial_with_buffers_id (self : InitialResampling.t) :
  InitialResampling.with_buffers (InitialResampling.reservoirs self)
    (InitialResampling.resEvalContext self)
    (InitialResampling.pixelCenterEvalContext self)
    (InitialResampling.debugOutput self) self = self.
Proof. destruct self; reflexivity. Qed.

(** A thread changes the writable resources only, and among the
    reservoir slots its own only. *)
Lemma initial_process_shape (self : InitialResampling.t) (q : uint2) :
  exists r e c d,
    InitialResampling.process self q
    = InitialResampling.with_buffers r e c d self
    /\ forall j, j <> threadSlot self q ->
         r j = InitialResampling.reservoirs self j.
Proof.
  unfold InitialResampling.process.
  destruct (outsideFrame _ q).
  { eexists _, _, _, _. split; [symmetry; apply initial_with_buffers_id |].
    intros; reflexivity. }
  destruct (InitialResampling.threadSetup self q)
    as [[[[evalContext lto] off] stride] sg].
  destruct (negb _).
  - eexists _, _, _, _. split; [reflexivity |].
    intros j Hj. apply upd_other; exact Hj.
  - eexists _, _, _, _. split; [reflexivity |].
    intros j Hj. apply upd_other; exact Hj.
Qed.

Lemma initial_inputs_kept (a0 a : InitialResampling.t) (q : uint2) :
  sameInitialInputs a0 a ->
  sameInitialInputs a0 (InitialResampling.process a q).
Proof.
  intros H. destruct (initial_process_shape a q) as (r & e & c & d & E & _).
  rewrite E. exact H.
Qed.

Lemma sameInitialInputs_frame (a b : InitialResampling.t) :
  sameInitialInputs a b ->
  InitialResampling.frameDim a = InitialResampling.frameDim b
  /\ InitialResampling.restirPassIdx a = InitialResampling.restirPassIdx b.
Proof.
  unfold sameInitialInputs. intros H. decompose [and] H. split; assumption.
Qed.

Lemma sameInitialInputs_refl (a : InitialResampling.t) :
  sameInitialInputs a a.
Proof. unfold sameInitialInputs. repeat split; reflexivity. Qed.

(** The threads of other pixels leave a pixel's reservoir as it was. *)
Lemma initial_other_thread (a0 a : InitialResampling.t) (p q : uint2) :
  slotsFit (InitialResampling.frameDim a0)
    (InitialResampling.restirPassIdx a0 + 1) ->
  0 <= InitialResampling.restirPassIdx a0 ->
  inFrame (InitialResampling.frameDim a0) p ->
  sameInitialInputs a0 a -> unsignedPixel q -> q <> p ->
  InitialResampling.reservoirs (InitialResampling.process a q)
    (threadSlot a0 p)
  = InitialResampling.reservoirs a (threadSlot a0 p).
Proof.
  intros Hfit Hpass Hp Hsame Hq Hqp.
  destruct (sameInitialInputs_frame _ _ Hsame) as [Hfd Hpi].
  destruct (outsideFrame (InitialResampling.frameDim a) q) eqn:Hout.
  - unfold InitialResampling.process. rewrite Hout. reflexivity.
  - destruct (initial_process_shape a q) as (r & e & c & d & E & Hother).
    rewrite E. cbn [InitialResampling.reservoirs InitialResampling.with_buffers].
    apply Hother. unfold threadSlot. rewrite <- Hfd, <- Hpi.
    intros Eslot.
    rewrite <- Hfd in Hout.
    pose proof (outsideFrame_false _ _ Hq Hout) as Hqin.
    assert (Hb : 0 <= InitialResampling.restirPassIdx a0
                 < InitialResampling.restirPassIdx a0 + 1) by lia.
    destruct (getPixelIndexInPass_injective _ _ p q _ _ Hfit Hp Hqin Hb Hb
                Eslot) as [Epq _].
    apply Hqp. symmetry. exact Epq.
Qed.

(** What a thread stores for its pixel depends on the inputs of the
    pass only, not on the writable resources. *)
Lemma initial_thread_local (a b : InitialResampling.t) (p : uint2) :
  sameInitialInputs a b ->
  outsideFrame (InitialResampling.frameDim a) p = false ->
  InitialResampling.reservoirs (InitialResampling.process a p)
    (threadSlot a p)
  = InitialResampling.reservoirs (InitialResampling.process b p)
      (threadSlot a p).
Proof.
  intros Hsame Hin.
  destruct a, b. unfold sameInitialInputs in Hsame. cbn in Hsame, Hin.
  decompose [and] Hsame; subst.
  unfold threadSlot, InitialResampling.process.
  cbn [InitialResampling.frameDim InitialResampling.restirPassIdx].
  rewrite Hin.
  unfold InitialResampling.threadSetup.
  cbn [InitialResampling.frameDim InitialResampling.surfaceData
       InitialResampling.viewDir InitialResampling.kScreenTileSize
       InitialResampling.frameIndex InitialResampling.restirPassIdx
       InitialResampling.kLightTileCount InitialResampling.kLightTileSize
       InitialResampling.kInitialLightSampleCount].
  destruct (sampleNext1D _) as [u sg].
  destruct (negb _);
    cbn [InitialResampling.reservoirs InitialResampling.with_buffers];
    rewrite !upd_same; reflexivity.
Qed.

(** After a dispatch in any order, the reservoir of a pixel is the one
    its thread stores when run alone, from any pass with the same
    inputs. *)
Lemma initial_dispatch_at (a b : InitialResampling.t)
    (threads : list uint2) (p : uint2) :
  slotsFit (InitialResampling.frameDim a)
    (InitialResampling.restirPassIdx a + 1) ->
  0 <= InitialResampling.restirPassIdx a ->
  inFrame (InitialResampling.frameDim a) p ->
  sameInitialInputs a b -> schedules threads p ->
  InitialResampling.reservoirs
    (dispatch InitialResampling.process threads b) (threadSlot a p)
  = InitialResampling.reservoirs (InitialResampling.process a p)
      (threadSlot a p).
Proof.
  intros Hfit Hpass Hp Hsame (Hall & Hnd & Hin).
  apply (dispatch_at InitialResampling.t Reservoir.t
           InitialResampling.process
           (fun t => InitialResampling.reservoirs t (threadSlot a p))
           (sameInitialInputs a) (fun _ _ => True) p).
  - intros x q Hx. apply initial_inputs_kept, Hx.
  - intros; exact I.
  - intros x q Hx Hq Hqp.
    apply (initial_other_thread a x p q); assumption.
  - intros x y Hx Hy _.
    assert (Hout : outsideFrame (InitialResampling.frameDim a) p = false).
    { destruct Hp as [Hpx Hpy]. unfold outsideFrame.
      apply orb_false_intro; apply Z.leb_gt; lia. }
    rewrite <- (initial_thread_local a x p Hx Hout).
    rewrite <- (initial_thread_local a y p Hy Hout). reflexivity.
  - exact Hsame.
  - apply sameInitialInputs_refl.
  - exact I.
  - exact Hall.
  - exact Hnd.
  - exact Hin.
Qed.

End InitialDispatch.

(* --------------------------------------------------------------------- *)
(** ** The temporal pass *)

Section TemporalDispatchAt.
Context {S : Type} `{SG : ISampleGenerator S} `{SC : Scene S}
        `{INTR : Intrinsics}.

Lemma temporal_history_kept (a0 a : TemporalResampling.t) (q : uint2) :
  sameTemporalHistory a0 a ->
  sameTemporalHistory a0 (TemporalResampling.process a q).
Proof.
  intros H. destruct (temporal_process_shape a q) as (r & e & d & E & _).
  rewrite E. exact H.
Qed.

Lemma sameTemporalHistory_frame (a b : TemporalResampling.t) :
  sameTemporalHistory a b ->
  TemporalResampling.frameDim a = TemporalResampling.frameDim b
  /\ TemporalResampling.restirPassIdx a = TemporalResampling.restirPassIdx b.
Proof.
  unfold sameTemporalHistory. intros H. decompose [and] H. split; assumption.
Qed.

Lemma sameTemporalHistory_refl (a : TemporalResampling.t) :
  sameTemporalHistory a a.
Proof. unfold sameTemporalHistory. repeat split; reflexivity. Qed.

(** The threads of other pixels leave a pixel's slot as it was. *)
Lemma temporal_other_thread (a0 a : TemporalResampling.t) (p q : uint2) :
  slotsFit (TemporalResampling.frameDim a0)
    (TemporalResampling.restirPassIdx a0 + 1) ->
  0 <= TemporalResampling.restirPassIdx a0 ->
  inFrame (TemporalResampling.frameDim a0) p ->
  sameTemporalHistory a0 a -> unsignedPixel q -> q <> p ->
  sameSlot (temporalSlot a0 p) (TemporalResampling.process a q) a.
Proof.
  intros Hfit Hpass Hp Hsame Hq Hqp.
  destruct (sameTemporalHistory_frame _ _ Hsame) as [Hfd Hpi].
  destruct (outsideFrame (TemporalResampling.frameDim a) q) eqn:Hout.
  - unfold TemporalResampling.process. rewrite Hout. split; reflexivity.
  - destruct (temporal_process_shape a q) as (r & e & d & E & Hother).
    rewrite E. unfold sameSlot.
    cbn [TemporalResampling.reservoirs TemporalResampling.resEvalContext
         TemporalResampling.with_buffers].
    apply Hother. unfold temporalSlot. rewrite <- Hfd, <- Hpi.
    intros Eslot.
    rewrite <- Hfd in Hout.
    pose proof (outsideFrame_false _ _ Hq Hout) as Hqin.
    assert (Hb : 0 <= TemporalResampling.restirPassIdx a0
                 < TemporalResampling.restirPassIdx a0 + 1) by lia.
    destruct (getPixelIndexInPass_injective _ _ p q _ _ Hfit Hp Hqin Hb Hb
                Eslot) as [Epq _].
    apply Hqp. symmetry. exact Epq.
Qed.

(** What a thread stores for its pixel depends on the history and,
    among the resources the pass writes, on the pixel's slot only. *)
Lemma temporal_thread_local (a b : TemporalResampling.t) (p : uint2) :
  sameTemporalHistory a b -> sameSlot (temporalSlot a p) a b ->
  TemporalResampling.reservoirs (TemporalResampling.process a p)
    (temporalSlot a p)
  = TemporalResampling.reservoirs (TemporalResampling.process b p)
      (temporalSlot a p).
Proof.
  intros Hsame Hslot.
  destruct a, b. unfold sameTemporalHistory in Hsame.
  unfold sameSlot, temporalSlot in *. cbn in Hsame, Hslot.
  decompose [and] Hsame; subst. destruct Hslot as [Hr He].
  unfold TemporalResampling.process.
  cbn [TemporalResampling.frameDim TemporalResampling.restirPassIdx
       TemporalResampling.frameIndex].
  destruct (outsideFrame _ _); [cbn; assumption |].
  unfold TemporalResampling.backProject.
  cbn [TemporalResampling.frameDim TemporalResampling.motionVectors].
  match goal with
  | |- context [bind ?c ?k ?g] => destruct (bind c k g) as [prevPixel sg]
  end.
  destruct (negb _); [cbn; assumption |].
  cbn [TemporalResampling.reservoirs TemporalResampling.with_buffers
       TemporalResampling.resEvalContext TemporalResampling.prevReservoirs
       TemporalResampling.prevResEvalContext].
  rewrite !upd_same, Hr, He. reflexivity.
Qed.

(** After a dispatch in any order, the reservoir of a pixel is the one
    its thread stores when run alone, from any pass with the same
    history and the same slot of the pixel. *)
Lemma temporal_dispatch_at (a b : TemporalResampling.t)
    (threads : list uint2) (p : uint2) :
  slotsFit (TemporalResampling.frameDim a)
    (TemporalResampling.restirPassIdx a + 1) ->
  0 <= TemporalResampling.restirPassIdx a ->
  inFrame (TemporalResampling.frameDim a) p ->
  sameTemporalInputs p a b -> schedules threads p ->
  TemporalResampling.reservoirs
    (dispatch TemporalResampling.process threads b) (temporalSlot a p)
  = TemporalResampling.reservoirs (TemporalResampling.process a p)
      (temporalSlot a p).
Proof.
  intros Hfit Hpass Hp [Hslot Hsame] (Hall & Hnd & Hin).
  apply (dispatch_at TemporalResampling.t Reservoir.t
           TemporalResampling.process
           (fun t => TemporalResampling.reservoirs t (temporalSlot a p))
           (sameTemporalHistory a)
           (fun x y => sameSlot (temporalSlot a p) x a
                       /\ sameSlot (temporalSlot a p) y a) p).
  - intros x q Hx. apply temporal_history_kept, Hx.
  - intros x y q Hx [Hxa Hya] Hq Hqp. split; [| exact Hya].
    destruct (temporal_other_thread a x p q Hfit Hpass Hp Hx Hq Hqp)
      as [H1 H2].
    destruct Hxa as [H3 H4]. split; etransitivity; eassumption.
  - intros x q Hx Hq Hqp.
    apply (temporal_other_thread a x p q Hfit Hpass Hp Hx Hq Hqp).
  - intros x y Hx Hy [[Hxr Hxe] [Hyr Hye]].
    rewrite <- (temporal_thread_local a x p Hx).
    + rewrite <- (temporal_thread_local a y p Hy); [reflexivity |].
      split; symmetry; assumption.
    + split; symmetry; assumption.
  - exact Hsame.
  - apply sameTemporalHistory_refl.
  - destruct Hslot as [Hr He].
    split; split; try reflexivity; symmetry; assumption.
  - exact Hall.
  - exact Hnd.
  - exact Hin.
Qed.

End TemporalDispatchAt.

(* --------------------------------------------------------------------- *)
(** ** The spatial pass *)

Section SpatialDispatch.
Context {S : Type} `{SG : ISampleGenerator S} `{SC : Scene S}
        `{INTR : Intrinsics}.

Lemma spatial_with_buffers_id (self : SpatialResampling.t) :
  SpatialResampling.with_buffers (SpatialResampling.reservoirs self)
    (SpatialResampling.resEvalContext self)
    (SpatialResampling.debugOutput self) self = self.
Proof. destruct self; reflexivity. Qed.

Lemma spatial_process_shape (self : SpatialResampling.t) (q : uint2) :
  exists r e d,
    SpatialResampling.process self q
    = SpatialResampling.with_buffers r e d self
    /\ forall j, j <> spatialSlot self q ->
         r j = SpatialResampling.reservoirs self j.
Proof.
  unfold SpatialResampling.process.
  destruct (outsideFrame _ q).
  { eexists _, _, _. split; [symmetry; apply spatial_with_buffers_id |].
    intros; reflexivity. }
  eexists _, _, _. split; [reflexivity |].
  intros j Hj. apply upd_other; exact Hj.
Qed.

Lemma spatial_inputs_kept (a0 a : SpatialResampling.t) (q : uint2) :
  sameSpatialInputs a0 a ->
  sameSpatialInputs a0 (SpatialResampling.process a q).
Proof.
  intros H. destruct (spatial_process_shape a q) as (r & e & d & E & _).
  rewrite E. exact H.
Qed.

Lemma sameSpatialInputs_frame (a b : SpatialResampling.t) :
  sameSpatialInputs a b ->
  SpatialResampling.frameDim a = SpatialResampling.frameDim b
  /\ SpatialResampling.restirPassIdx a = SpatialResampling.restirPassIdx b.
Proof.
  unfold sameSpatialInputs. intros H. decompose [and] H. split; assumption.
Qed.

Lemma sameSpatialInputs_refl (a : SpatialResampling.t) :
  sameSpatialInputs a a.
Proof. unfold sameSpatialInputs. repeat split; reflexivity. Qed.

Lemma spatial_other_thread (a0 a : SpatialResampling.t) (p q : uint2) :
  slotsFit (SpatialResampling.frameDim a0)
    (SpatialResampling.restirPassIdx a0 + 1) ->
  0 <= SpatialResampling.restirPassIdx a0 ->
  inFrame (SpatialResampling.frameDim a0) p ->
  sameSpatialInputs a0 a -> unsignedPixel q -> q <> p ->
  SpatialResampling.reservoirs (SpatialResampling.process a q)
    (spatialSlot a0 p)
  = SpatialResampling.reservoirs a (spatialSlot a0 p).
Proof.
  intros Hfit Hpass Hp Hsame Hq Hqp.
  destruct (sameSpatialInputs_frame _ _ Hsame) as [Hfd Hpi].
  destruct (outsideFrame (SpatialResampling.frameDim a) q) eqn:Hout.
  - unfold SpatialResampling.process. rewrite Hout. reflexivity.
  - destruct (spatial_process_shape a q) as (r & e & d & E & Hother).
    rewrite E. cbn [SpatialResampling.reservoirs SpatialResampling.with_buffers].
    apply Hother. unfold spatialSlot. rewrite <- Hfd, <- Hpi.
    intros Eslot.
    rewrite <- Hfd in Hout.
    pose proof (outsideFrame_false _ _ Hq Hout) as Hqin.
    assert (Hb : 0 <= SpatialResampling.restirPassIdx a0
                 < SpatialResampling.restirPassIdx a0 + 1) by lia.
    destruct (getPixelIndexInPass_injective _ _ p q _ _ Hfit Hp Hqin Hb Hb
                Eslot) as [Epq _].
    apply Hqp. symmetry. exact Epq.
Qed.

Lemma spatial_thread_local (a b : SpatialResampling.t) (p : uint2) :
  sameSpatialInputs a b ->
  outsideFrame (SpatialResampling.frameDim a) p = false ->
  SpatialResampling.reservoirs (SpatialResampling.process a p)
    (spatialSlot a p)
  = SpatialResampling.reservoirs (SpatialResampling.process b p)
      (spatialSlot a p).
Proof.
  intros Hsame Hin.
  destruct a, b. unfold sameSpatialInputs in Hsame. cbn in Hsame, Hin.
  decompose [and] Hsame; subst.
  unfold spatialSlot, SpatialResampling.process.
  cbn [SpatialResampling.frameDim SpatialResampling.restirPassIdx].
  rewrite Hin.
  cbn [SpatialResampling.reservoirs SpatialResampling.with_buffers].
  rewrite !upd_same. reflexivity.
Qed.

Lemma spatial_dispatch_at (a b : SpatialResampling.t)
    (threads : list uint2) (p : uint2) :
  slotsFit (SpatialResampling.frameDim a)
    (SpatialResampling.restirPassIdx a + 1) ->
  0 <= SpatialResampling.restirPassIdx a ->
  inFrame (SpatialResampling.frameDim a) p ->
  sameSpatialInputs a b -> schedules threads p ->
  SpatialResampling.reservoirs
    (dispatch SpatialResampling.process threads b) (spatialSlot a p)
  = SpatialResampling.reservoirs (SpatialResampling.process a p)
      (spatialSlot a p).
Proof.
  intros Hfit Hpass Hp Hsame (Hall & Hnd & Hin).
  apply (dispatch_at SpatialResampling.t Reservoir.t
           SpatialResampling.process
           (fun t => SpatialResampling.reservoirs t (spatialSlot a p))
           (sameSpatialInputs a) (fun _ _ => True) p).
  - intros x q Hx. apply spatial_inputs_kept, Hx.
  - intros; exact I.
  - intros x q Hx Hq Hqp.
    apply (spatial_other_thread a x p q); assumption.
  - intros x y Hx Hy _.
    assert (Hout : outsideFrame (SpatialResampling.frameDim a) p = false).
    { destruct Hp as [Hpx Hpy]. unfold outsideFrame.
      apply orb_false_intro; apply Z.leb_gt; lia. }
    rewrite <- (spatial_thread_local a x p Hx Hout).
    rewrite <- (spatial_thread_local a y p Hy Hout). reflexivity.
  - exact Hsame.
  - apply sameSpatialInputs_refl.
  - exact I.
  - exact Hall.
  - exact Hnd.
  - exact Hin.
Qed.

End SpatialDispatch.

(* --------------------------------------------------------------------- *)
(** ** Seeds *)

Section Seeds.
Context {S : Type} `{SC : Scene S} `{INTR : Intrinsics}.

(** The sample numbers the stages seed their generators with, and the
    screen tile of a pixel. *)
Definition initialSampleNum (a : InitialResampling.t) : Z :=
  U32.add (InitialResampling.frameIndex a)
    (U32.mul 8 (InitialResampling.restirPassIdx a)).

Definition screenTile (a : InitialResampling.t) (pixel : uint2) : uint2 :=
  (U32.div (fst pixel) (InitialResampling.kScreenTileSize a),
   U32.div (snd pixel) (InitialResampling.kScreenTileSize a)).

Definition temporalSampleNum (a : TemporalResampling.t) : Z :=
  U32.add (TemporalResampling.frameIndex a)
    (U32.mul 8 (TemporalResampling.restirPassIdx a)).

Definition spatialSampleNum (a : SpatialResampling.t) : Z :=
  U32.add
    (U32.add (U32.mul 32 (SpatialResampling.frameIndex a))
       (SpatialResampling.spatialPassIdx a))
    (U32.mul 8 (SpatialResampling.restirPassIdx a)).

(** Two generators are seeded alike for a pixel and a sample number, or
    for a linear index and a sample number. *)
Definition samePixelSeed (SGa SGb : ISampleGenerator S) (pixel : uint2)
    (sampleNum : Z) : Prop :=
  @sgFromPixel S SGa pixel sampleNum = @sgFromPixel S SGb pixel sampleNum.

Definition sameIndexSeed (SGa SGb : ISampleGenerator S) (index sampleNum : Z)
  : Prop :=
  @sgFromSeed S SGa index sampleNum = @sgFromSeed S SGb index sampleNum.

(** A thread of the initial pass draws from the generator of its screen
    tile and from that of its pixel, and from no other. *)
Lemma initial_thread_seeds (SGa SGb : ISampleGenerator S)
    (a : InitialResampling.t) (p : uint2) :
  drawAlike SGa SGb ->
  samePixelSeed SGa SGb p (initialSampleNum a) ->
  samePixelSeed SGa SGb (screenTile a p) (initialSampleNum a) ->
  @InitialResampling.process S SGa SC a p
  = @InitialResampling.process S SGb SC a p.
Proof.
  unfold drawAlike, samePixelSeed, initialSampleNum, screenTile.
  destruct SGa as [nextA pixelA indexA], SGb as [nextB pixelB indexB].
  cbn [sampleNext1D sgFromPixel]. intros <- Hp Ht.
  unfold InitialResampling.process, InitialResampling.threadSetup.
  cbn [sgFromPixel]. rewrite Hp, Ht. reflexivity.
Qed.

(** A thread of the temporal pass draws from the generator of its pixel
    only. *)
Lemma temporal_thread_seeds (SGa SGb : ISampleGenerator S)
    (a : TemporalResampling.t) (p : uint2) :
  drawAlike SGa SGb ->
  samePixelSeed SGa SGb p (temporalSampleNum a) ->
  @TemporalResampling.process S SGa SC INTR a p
  = @TemporalResampling.process S SGb SC INTR a p.
Proof.
  unfold drawAlike, samePixelSeed, temporalSampleNum.
  destruct SGa as [nextA pixelA indexA], SGb as [nextB pixelB indexB].
  cbn [sampleNext1D sgFromPixel]. intros <- Hp.
  unfold TemporalResampling.process.
  cbn [sgFromPixel]. rewrite Hp. reflexivity.
Qed.

(** A thread of the spatial pass draws from the generator of its pixel
    only. *)
Lemma spatial_thread_seeds (SGa SGb : ISampleGenerator S)
    (a : SpatialResampling.t) (p : uint2) :
  drawAlike SGa SGb ->
  samePixelSeed SGa SGb p (spatialSampleNum a) ->
  @SpatialResampling.process S SGa SC INTR a p
  = @SpatialResampling.process S SGb SC INTR a p.
Proof.
  unfold drawAlike, samePixelSeed, spatialSampleNum.
  destruct SGa as [nextA pixelA indexA], SGb as [nextB pixelB indexB].
  cbn [sampleNext1D sgFromPixel]. intros <- Hp.
  unfold SpatialResampling.process.
  cbn [sgFromPixel]. rewrite Hp. reflexivity.
Qed.

(** The inputs of the light tile generation. *)
Definition sameTileInputs (a b : GenerateLightTiles.t) : Prop :=
  GenerateLightTiles.kLightTileCount a = GenerateLightTiles.kLightTileCount b
  /\ GenerateLightTiles.kLightTileSize a = GenerateLightTiles.kLightTileSize b
  /\ GenerateLightTiles.kEnvLightSampleCount a
     = GenerateLightTiles.kEnvLightSampleCount b
  /\ GenerateLightTiles.kEmissiveLightSampleCount a
     = GenerateLightTiles.kEmissiveLightSampleCount b
  /\ GenerateLightTiles.kAnalyticLightSampleCount a
     = GenerateLightTiles.kAnalyticLightSampleCount b
  /\ GenerateLightTiles.lights a = GenerateLightTiles.lights b
  /\ GenerateLightTiles.frameIndex a = GenerateLightTiles.frameIndex b.

(** A thread of the light tile generation draws from the generator of
    its tile and from that of its slot. *)
Lemma tile_thread_seeds (SGa SGb : ISampleGenerator S)
    (a b : GenerateLightTiles.t) (tileIndex sampleIndex : Z) :
  drawAlike SGa SGb -> sameTileInputs a b ->
  sameIndexSeed SGa SGb tileIndex (GenerateLightTiles.frameIndex a) ->
  sameIndexSeed SGa SGb
    (U32.add (U32.mul tileIndex (GenerateLightTiles.kLightTileSize a))
       sampleIndex) (GenerateLightTiles.frameIndex a) ->
  @GenerateLightTiles.tileSample S SGa SC INTR a tileIndex sampleIndex
  = @GenerateLightTiles.tileSample S SGb SC INTR b tileIndex sampleIndex.
Proof.
  unfold drawAlike, sameIndexSeed, sameTileInputs.
  destruct SGa as [nextA pixelA indexA], SGb as [nextB pixelB indexB].
  cbn [sampleNext1D sgFromSeed]. intros <- Hsame Ht Hs.
  destruct a, b. cbn in Hsame, Ht, Hs. decompose [and] Hsame; subst.
  unfold GenerateLightTiles.tileSample.
  cbn [sgFromSeed sampleNext1D GenerateLightTiles.kLightTileSize
       GenerateLightTiles.frameIndex GenerateLightTiles.lights
       GenerateLightTiles.kEnvLightSampleCount
       GenerateLightTiles.kEmissiveLightSampleCount
       GenerateLightTiles.kAnalyticLightSampleCount].
  rewrite Ht, Hs. reflexivity.
Qed.

(** C9: the per-pixel resampling is deterministic.  Take two runs of a
    stage: their dispatches may run the threads in different orders,
    their output buffers may have held different data before, the
    fields the stage does not read may differ, and their generators may
    be seeded differently for other pixels.  If the inputs of the stage
    agree and the generators draw alike and are seeded alike for the
    pixel (in the initial pass also for its screen tile) and the sample
    number computed from frame and pass indices, then the two runs store
    the same reservoir for the pixel: light sample, weight, target value
    and count.  So do two runs of the light tile generation for a slot,
    with the seeds of its tile and slot and the frame index. *)
Theorem resampling_is_deterministic (SGa SGb : ISampleGenerator S) :
  drawAlike SGa SGb ->
  (forall (a b : InitialResampling.t) (la lb : list uint2) (p : uint2),
      sameInitialInputs a b ->
      slotsFit (InitialResampling.frameDim a)
        (InitialResampling.restirPassIdx a + 1) ->
      0 <= InitialResampling.restirPassIdx a ->
      inFrame (InitialResampling.frameDim a) p ->
      samePixelSeed SGa SGb p (initialSampleNum a) ->
      samePixelSeed SGa SGb (screenTile a p) (initialSampleNum a) ->
      schedules la p -> schedules lb p ->
      InitialResampling.reservoirs
        (dispatch (@InitialResampling.process S SGa SC) la a)
        (threadSlot a p)
      = InitialResampling.reservoirs
          (dispatch (@InitialResampling.process S SGb SC) lb b)
          (threadSlot b p))
  /\ (forall (a b : TemporalResampling.t) (la lb : list uint2) (p : uint2),
         sameTemporalInputs p a b ->
         slotsFit (TemporalResampling.frameDim a)
           (TemporalResampling.restirPassIdx a + 1) ->
         0 <= TemporalResampling.restirPassIdx a ->
         inFrame (TemporalResampling.frameDim a) p ->
         samePixelSeed SGa SGb p (temporalSampleNum a) ->
         schedules la p -> schedules lb p ->
         TemporalResampling.reservoirs
           (dispatch (@TemporalResampling.process S SGa SC INTR) la a)
           (temporalSlot a p)
         = TemporalResampling.reservoirs
             (dispatch (@TemporalResampling.process S SGb SC INTR) lb b)
             (temporalSlot b p))
  /\ (forall (a b : SpatialResampling.t) (la lb : list uint2) (p : uint2),
         sameSpatialInputs a b ->
         slotsFit (SpatialResampling.frameDim a)
           (SpatialResampling.restirPassIdx a + 1) ->
         0 <= SpatialResampling.restirPassIdx a ->
         inFrame (SpatialResampling.frameDim a) p ->
         samePixelSeed SGa SGb p (spatialSampleNum a) ->
         schedules la p -> schedules lb p ->
         SpatialResampling.reservoirs
           (dispatch (@SpatialResampling.process S SGa SC INTR) la a)
           (spatialSlot a p)
         = SpatialResampling.reservoirs
             (dispatch (@SpatialResampling.process S SGb SC INTR) lb b)
             (spatialSlot b p))
  /\ (forall (a b : GenerateLightTiles.t) (la lb : list (Z * Z))
             (t : Z * Z),
         sameTileInputs a b ->
         GenerateLightTiles.kLightTileCount a
         * GenerateLightTiles.kLightTileSize a <= U32.modulus ->
         tileThread a t ->
         sameIndexSeed SGa SGb (fst t) (GenerateLightTiles.frameIndex a) ->
         sameIndexSeed SGa SGb
           (U32.add (U32.mul (fst t) (GenerateLightTiles.kLightTileSize a))
              (snd t)) (GenerateLightTiles.frameIndex a) ->
         Forall (fun q => 0 <= fst q /\ 0 <= snd q) la -> In t la ->
         Forall (fun q => 0 <= fst q /\ 0 <= snd q) lb -> In t lb ->
         GenerateLightTiles.lightTileData
           (@generateTiles S SGa SC INTR la a) (tileSlot a t)
         = GenerateLightTiles.lightTileData
             (@generateTiles S SGb SC INTR lb b) (tileSlot b t)).
Proof.
  intros Hdraw. repeat apply conj.
  - intros a b la lb p Hsame Hfit Hpass Hp Hseed Htile Hla Hlb.
    destruct (sameInitialInputs_frame a b Hsame) as [Hfd Hpi].
    assert (Eslot : threadSlot b p = threadSlot a p)
      by (unfold threadSlot; rewrite Hfd, Hpi; reflexivity).
    rewrite Eslot.
    rewrite (initial_dispatch_at (SG := SGa) a a la p Hfit Hpass Hp
               (sameInitialInputs_refl a) Hla).
    rewrite (initial_dispatch_at (SG := SGb) a b lb p Hfit Hpass Hp Hsame
               Hlb).
    rewrite (initial_thread_seeds SGa SGb a p Hdraw Hseed Htile).
    reflexivity.
  - intros a b la lb p Hsame Hfit Hpass Hp Hseed Hla Hlb.
    destruct Hsame as [Hslot Hhist].
    destruct (sameTemporalHistory_frame a b Hhist) as [Hfd Hpi].
    assert (Eslot : temporalSlot b p = temporalSlot a p)
      by (unfold temporalSlot; rewrite Hfd, Hpi; reflexivity).
    rewrite Eslot.
    assert (Haa : sameTemporalInputs p a a).
    { split; [split; reflexivity | apply sameTemporalHistory_refl]. }
    rewrite (temporal_dispatch_at (SG := SGa) a a la p Hfit Hpass Hp Haa
               Hla).
    rewrite (temporal_dispatch_at (SG := SGb) a b lb p Hfit Hpass Hp
               (conj Hslot Hhist) Hlb).
    rewrite (temporal_thread_seeds SGa SGb a p Hdraw Hseed).
    reflexivity.
  - intros a b la lb p Hsame Hfit Hpass Hp Hseed Hla Hlb.
    destruct (sameSpatialInputs_frame a b Hsame) as [Hfd Hpi].
    assert (Eslot : spatialSlot b p = spatialSlot a p)
      by (unfold spatialSlot; rewrite Hfd, Hpi; reflexivity).
    rewrite Eslot.
    rewrite (spatial_dispatch_at (SG := SGa) a a la p Hfit Hpass Hp
               (sameSpatialInputs_refl a) Hla).
    rewrite (spatial_dispatch_at (SG := SGb) a b lb p Hfit Hpass Hp Hsame
               Hlb).
    rewrite (spatial_thread_seeds SGa SGb a p Hdraw Hseed).
    reflexivity.
  - intros a b la lb t Hsame Hfit Ht Hs1 Hs2 Hla Hina Hlb Hinb.
    pose proof Hsame as (Hc & Hz & _ & _ & _ & Hl & _).
    assert (Htb : tileThread b t)
      by (unfold tileThread in *; rewrite <- Hc, <- Hz; exact Ht).
    assert (Hfitb : GenerateLightTiles.kLightTileCount b
                    * GenerateLightTiles.kLightTileSize b <= U32.modulus)
      by (rewrite <- Hc, <- Hz; exact Hfit).
    rewrite (light_tiles_filled_at (SG := SGa) a la t Hfit Ht Hla Hina).
    rewrite (light_tiles_filled_at (SG := SGb) b lb t Hfitb Htb Hlb Hinb).
    rewrite (tile_thread_seeds SGa SGb a b (fst t) (snd t) Hdraw Hsame Hs1
               Hs2).
    rewrite Hl. reflexivity.
Qed.

End Seeds.

(** A generator that draws like the reference one and is seeded like it
    for the pixels and the linear indices up to 1 only. *)
Definition reseeded : ISampleGenerator Z :=
  Build_ISampleGenerator Z Reference.lcgNext
    (fun pixel sampleNum =>
       if (fst pixel <=? 1) && (snd pixel <=? 1)
       then @sgFromPixel Z Reference.lcg pixel sampleNum
       else 0)
    (fun seed sampleNum =>
       if seed <=? 1 then @sgFromSeed Z Reference.lcg seed sampleNum else 0).

(** The passes of a second run: other data in the buffers the stage
    writes. *)
Definition staleReservoir : Reservoir.t :=
  Reservoir.mk (Reference.emissiveSample 7) 9 f32_two 2 f32_half.

Definition staleLitPass : InitialResampling.t :=
  InitialResampling.with_buffers (fun _ => staleReservoir)
    (fun _ => whiteContext) (fun _ => whiteContext)
    (fun _ => (F32.one, F32.one, F32.one, F32.one)) litPass.

Definition staleTemporalPass : TemporalResampling.t :=
  TemporalResampling.with_buffers
    (upd (fun _ => staleReservoir) 1
       (TemporalResampling.reservoirs stillTemporalPass 1))
    (TemporalResampling.resEvalContext stillTemporalPass)
    (fun _ => (F32.one, F32.one, F32.one, F32.one)) stillTemporalPass.

Definition staleSpatialPass : SpatialResampling.t :=
  SpatialResampling.with_buffers (fun _ => staleReservoir)
    (fun _ => whiteContext)
    (fun _ => (F32.one, F32.one, F32.one, F32.one)) smallSpatialPass.

Lemma schedules_intro (threads : list uint2) (p : uint2) :
  forallb (fun q => (0 <=? fst q) && (0 <=? snd q)) threads = true ->
  NoDup threads -> In p threads -> schedules threads p.
Proof.
  intros Hall Hnd Hin. split; [| split; assumption].
  apply Forall_forall. intros q Hq.
  rewrite forallb_forall in Hall. specialize (Hall q Hq).
  apply andb_prop in Hall. destruct Hall as [H1 H2].
  apply Z.leb_le in H1, H2. split; assumption.
Qed.

(** C9 at the reference passes: the first run dispatches three threads,
    the second two others in another order, with stale output buffers
    and a generator seeded differently for the other pixels; both store
    the same reservoir for pixel (1, 1) in the initial pass, for pixel
    (1, 0) in the temporal pass and for pixel (0, 0) in the spatial
    pass, and the same light sample in slot 1 of tile 0. *)
Lemma resampling_is_deterministic_witness :
  drawAlike Reference.lcg reseeded
  /\ InitialResampling.reservoirs
       (dispatch (@InitialResampling.process Z Reference.lcg Reference.scene)
          [(0, 0); (1, 1); (9, 9)] litPass)
       (threadSlot litPass (1, 1))
     = InitialResampling.reservoirs
         (dispatch (@InitialResampling.process Z reseeded Reference.scene)
            [(3, 2); (1, 1)] staleLitPass)
         (threadSlot staleLitPass (1, 1))
  /\ TemporalResampling.reservoirs
       (dispatch
          (@TemporalResampling.process Z Reference.lcg Reference.scene
             Reference.intrinsics)
          [(0, 0); (1, 0); (5, 7)] stillTemporalPass)
       (temporalSlot stillTemporalPass (1, 0))
     = TemporalResampling.reservoirs
         (dispatch
            (@TemporalResampling.process Z reseeded Reference.scene
               Reference.intrinsics)
            [(1, 0); (1, 1)] staleTemporalPass)
         (temporalSlot staleTemporalPass (1, 0))
  /\ SpatialResampling.reservoirs
       (dispatch
          (@SpatialResampling.process Z Reference.lcg Reference.scene
             Reference.intrinsics)
          [(1, 1); (0, 0)] smallSpatialPass)
       (spatialSlot smallSpatialPass (0, 0))
     = SpatialResampling.reservoirs
         (dispatch
            (@SpatialResampling.process Z reseeded Reference.scene
               Reference.intrinsics)
            [(0, 0); (0, 1); (1, 0)] staleSpatialPass)
         (spatialSlot staleSpatialPass (0, 0))
  /\ InitialResampling.reservoirs
       (dispatch (@InitialResampling.process Z reseeded Reference.scene)
          [(3, 2); (1, 1)] staleLitPass)
       (threadSlot staleLitPass (1, 1))
     = Reservoir.mk (Reference.emissiveSample 0) 1 f32_two 2 oneOverPi
  /\ @sgFromPixel Z reseeded (3, 2) 0 <> @sgFromPixel Z Reference.lcg (3, 2) 0.
Proof.
  assert (Hd : drawAlike Reference.lcg reseeded) by reflexivity.
  destruct (resampling_is_deterministic (S := Z) Reference.lcg reseeded Hd)
    as (Hinitial & Htemporal & Hspatial & _).
  split; [exact Hd |].
  split; [| split; [| split; [| split]]].
  - apply Hinitial.
    + unfold sameInitialInputs. repeat split; reflexivity.
    + unfold slotsFit; cbn; lia.
    + cbn; lia.
    + unfold inFrame; cbn; lia.
    + reflexivity.
    + reflexivity.
    + apply schedules_intro; [reflexivity | |].
      * repeat constructor; cbn; intuition congruence.
      * right; left; reflexivity.
    + apply schedules_intro; [reflexivity | |].
      * repeat constructor; cbn; intuition congruence.
      * right; left; reflexivity.
  - apply Htemporal.
    + split; [split; reflexivity |].
      unfold sameTemporalHistory. repeat split; reflexivity.
    + unfold slotsFit; cbn; lia.
    + cbn; lia.
    + unfold inFrame; cbn; lia.
    + reflexivity.
    + apply schedules_intro; [reflexivity | |].
      * repeat constructor; cbn; intuition congruence.
      * right; left; reflexivity.
    + apply schedules_intro; [reflexivity | |].
      * repeat constructor; cbn; intuition congruence.
      * left; reflexivity.
  - apply Hspatial.
    + unfold sameSpatialInputs. repeat split; reflexivity.
    + unfold slotsFit; cbn; lia.
    + cbn; lia.
    + unfold inFrame; cbn; lia.
    + reflexivity.
    + apply schedules_intro; [reflexivity | |].
      * repeat constructor; cbn; intuition congruence.
      * right; left; reflexivity.
    + apply schedules_intro; [reflexivity | |].
      * repeat constructor; cbn; intuition congruence.
      * left; reflexivity.
  - vm_compute. reflexivity.
  - vm_compute. discriminate.
Defined.
